(** * SciPipe core: ports, information packets, shell tasks and processes

    A shallow embedding of the Go sources [ip.go], the port file
    (FilePort / ParamPort) and the shell-process file (ShellProcess /
    ShellTask), with the properties of the specification stated over it.

    Conventions of the embedding:
    - Go strings are [string]; Go maps are [gmap]; the order in which a
      [range] statement visits a map is an oracle of the model, because Go
      leaves it unspecified;
    - the file system is a finite map from paths to nodes;
    - a computation that can end the process returns an [outcome];
    - a channel that is eventually closed is the finite list of the values
      sent on it before the close. *)

From Stdlib Require Import Ascii String List Arith Lia.
From stdpp Require Import base option list strings gmap fin_maps sorting.

Local Open Scope string_scope.

(* ===================================================================== *)
(** ** Outcomes                                                           *)
(* ===================================================================== *)

(** Go's [error] values built by [errors.New]: the message. *)
Definition error := string.

(** What a piece of code ends with: a value; a fatal error that ends the
    process; a wait that never returns (a send on a nil channel, a receive
    on a channel nobody serves); or [Unfinished], when the bound the model
    puts on a loop ran out before the loop did. *)
Inductive outcome (A : Type) : Type :=
| Ok (a : A)
| Fatal (e : error)
| Blocked
| Unfinished.
Arguments Ok {A} a.
Arguments Fatal {A} e.
Arguments Blocked {A}.
Arguments Unfinished {A}.

Definition obind {A B} (m : outcome A) (k : A -> outcome B) : outcome B :=
  match m with
  | Ok a => k a
  | Fatal e => Fatal e
  | Blocked => Blocked
  | Unfinished => Unfinished
  end.

#[global] Instance outcome_ret : MRet outcome := fun A a => Ok a.
#[global] Instance outcome_bind : MBind outcome := fun A B k m => obind m k.

(** Code that works on a state [S]: the state is kept up to the point where
    the code ends, however it ends. *)
Definition Prog (S A : Type) : Type := S -> S * outcome A.

#[global] Instance Prog_ret {S} : MRet (Prog S) := fun A a w => (w, Ok a).
#[global] Instance Prog_bind {S} : MBind (Prog S) := fun A B k m w =>
  match m w with
  | (w', Ok a) => k a w'
  | (w', Fatal e) => (w', Fatal e)
  | (w', Blocked) => (w', Blocked)
  | (w', Unfinished) => (w', Unfinished)
  end.

Definition lift {S A} (o : outcome A) : Prog S A := fun w => (w, o).

(** [for _, x := range xs { body x }]. *)
Fixpoint forEach {S A} (xs : list A) (body : A -> Prog S unit) : Prog S unit :=
  match xs with
  | [] => mret tt
  | x :: xs' => body x ;; forEach xs' body
  end.

(** Modelled from the spec: [Check] is called all over the sources but is
    not among them.  Section 7 of the specification says that a fatal error
    is logged and terminates the process; so [Check] of a non-nil error ends
    the computation with that error and [Check] of nil goes on. *)
Definition Check (err : option error) : outcome unit :=
  match err with
  | Some e => Fatal e
  | None => Ok tt
  end.

Definition is_Ok {A} (m : outcome A) : bool :=
  match m with Ok _ => true | _ => false end.

Definition is_Fatal {A} (m : outcome A) : bool :=
  match m with Fatal _ => true | _ => false end.

(* ===================================================================== *)
(** ** Go's [strings] package, as far as the sources use it              *)
(* ===================================================================== *)

Module Strings.

(** [strings.HasPrefix s old]. *)
Fixpoint HasPrefix (s old : string) : bool :=
  match old, s with
  | EmptyString, _ => true
  | String _ _, EmptyString => false
  | String a old', String b s' => if Ascii.eqb a b then HasPrefix s' old' else false
  end.

(** One left-to-right pass of [strings.Replace s old new (-1)] for a
    non-empty [old]: [skip] counts the bytes of an occurrence that has
    just been replaced and are still to be passed over, which makes the
    occurrences non-overlapping. *)
Fixpoint replace_from (skip : nat) (s old new : string) : string :=
  match s with
  | EmptyString => EmptyString
  | String c s' =>
      match skip with
      | S k => replace_from k s' old new
      | O =>
          if HasPrefix s old
          then new ++ replace_from (String.length old - 1) s' old new
          else String c (replace_from 0 s' old new)
      end
  end.

(** The bytes of a string as numbers. *)
Definition byte_in (lo hi : N) (c : ascii) : bool :=
  (N.leb lo (N_of_ascii c) && N.leb (N_of_ascii c) hi)%bool.

(** A continuation byte of UTF-8. *)
Definition continuation (c : ascii) : bool := byte_in 0x80 0xBF c.

(** The width [utf8.DecodeRuneInString] reports for the rune at the head
    of [s]: the length of a well-formed encoding (no overlong form, no
    surrogate, nothing above U+10FFFF), and 1 for a byte that starts
    none, also when the string ends before the encoding does. *)
Definition rune_width (s : string) : nat :=
  match s with
  | EmptyString => 0
  | String c0 s1 =>
      if byte_in 0x00 0x7F c0 then 1
      else if byte_in 0xC2 0xDF c0 then
        match s1 with
        | String c1 _ => if continuation c1 then 2 else 1
        | _ => 1
        end
      else if byte_in 0xE0 0xEF c0 then
        match s1 with
        | String c1 (String c2 _) =>
            if byte_in (if byte_in 0xE0 0xE0 c0 then 0xA0 else 0x80)
                       (if byte_in 0xED 0xED c0 then 0x9F else 0xBF) c1
               && continuation c2
            then 3 else 1
        | _ => 1
        end
      else if byte_in 0xF0 0xF4 c0 then
        match s1 with
        | String c1 (String c2 (String c3 _)) =>
            if byte_in (if byte_in 0xF0 0xF0 c0 then 0x90 else 0x80)
                       (if byte_in 0xF4 0xF4 c0 then 0x8F else 0xBF) c1
               && continuation c2 && continuation c3
            then 4 else 1
        | _ => 1
        end
      else 1
  end.

(** [strings.Replace s old new (-1)] for an empty [old]: [new] before
    every rune of [s] and at the end; [skip] counts the bytes of the rune
    at hand that are still to be copied. *)
Fixpoint insert_runes (skip : nat) (s new : string) : string :=
  match s with
  | EmptyString => new
  | String c s' =>
      match skip with
      | S k => String c (insert_runes k s' new)
      | O => new ++ String c (insert_runes (rune_width s - 1) s' new)
      end
  end.

(** [strings.Replace s old new (-1)]: every non-overlapping occurrence of
    [old], from the left; for an empty [old], [new] before every UTF-8
    rune and at the end.  Go returns [s] itself when [old] and [new] are
    equal or [old] does not occur, which is the same string. *)
Definition Replace (s old new : string) : string :=
  match old with
  | EmptyString => insert_runes 0 s new
  | String _ _ => replace_from 0 s old new
  end.

End Strings.

(* ===================================================================== *)
(** ** The placeholder regular expression                                 *)
(* ===================================================================== *)

Module Regex.

(** One element of [FindAllStringSubmatch]: [m[0]], [m[1]], [m[2]]. *)
Record submatch := Submatch { whole : string; typ : string; name : string }.

(** The class [[^{}:]]. *)
Definition name_char (c : ascii) : bool :=
  negb (Ascii.eqb c "{") && negb (Ascii.eqb c "}") && negb (Ascii.eqb c ":").

(** The longest run of [[^{}:]] at the head of [s], and what follows it.
    The class excludes the closing brace, so the greedy [+] never has to
    give a character back. *)
Fixpoint span_name (s : string) : string * string :=
  match s with
  | EmptyString => (EmptyString, EmptyString)
  | String c s' =>
      if name_char c
      then let '(n, r) := span_name s' in (String c n, r)
      else (EmptyString, s)
  end.

(** The group [(o|os|i|is|p)] followed by the colon, alternatives tried
    from the left. *)
Definition match_kind (s : string) : option (string * string) :=
  match s with
  | String "o" (String ":" r) => Some ("o", r)
  | String "o" (String "s" (String ":" r)) => Some ("os", r)
  | String "i" (String ":" r) => Some ("i", r)
  | String "i" (String "s" (String ":" r)) => Some ("is", r)
  | String "p" (String ":" r) => Some ("p", r)
  | _ => None
  end.

(** A match of [{(o|os|i|is|p):([^{}:]+)}] that starts at the head of [s]. *)
Definition match_here (s : string) : option submatch :=
  match s with
  | String "{" r =>
      match match_kind r with
      | Some (t, r2) =>
          match span_name r2 with
          | (EmptyString, _) => None
          | (n, String "}" _) =>
              Some (Submatch ("{" ++ t ++ ":" ++ n ++ "}") t n)
          | _ => None
          end
      | None => None
      end
  | _ => None
  end.

(** [FindAllStringSubmatch s (-1)]: the matches from the left, each
    search resuming after the previous match ([skip] bytes of it are
    still to be passed over). *)
Fixpoint find_from (skip : nat) (s : string) : list submatch :=
  match s with
  | EmptyString => []
  | String c s' =>
      match skip with
      | S k => find_from k s'
      | O =>
          match match_here s with
          | Some m => m :: find_from (String.length (whole m) - 1) s'
          | None => find_from 0 s'
          end
      end
  end.

Definition FindAllStringSubmatch (s : string) : list submatch := find_from 0 s.

End Regex.

(** [getPlaceHolderRegex()]: the compiled expression is represented by its
    matching function. *)
Definition getPlaceHolderRegex : string -> list Regex.submatch :=
  Regex.FindAllStringSubmatch.

(* ===================================================================== *)
(** ** The environment a process runs in                                  *)
(* ===================================================================== *)

(** A node of the file system: a file whose bytes can be read, or a node
    that exists ([os.Stat] succeeds) but whose bytes cannot be read
    (permissions, an IO error). *)
Inductive FileNode :=
| Readable (data : string)
| Unreadable.

Abbreviation FS := (gmap string FileNode).

(** [_, err := os.Stat(p); err == nil]. *)
Definition os_Stat (fs : FS) (p : string) : bool :=
  match fs !! p with Some _ => true | None => false end.

(** [os.Rename(src, dst)]: the node moves; renaming a missing source is an
    error, an existing destination is replaced. *)
Definition os_Rename (fs : FS) (src dst : string) : FS + error :=
  match fs !! src with
  | Some n => inl (<[dst := n]> (delete src fs))
  | None => inr ("rename " ++ src ++ " " ++ dst ++ ": no such file or directory")
  end.

(** [ioutil.ReadFile(p)]. *)
Definition ioutil_ReadFile (fs : FS) (p : string) : string + error :=
  match fs !! p with
  | Some (Readable d) => inl d
  | Some Unreadable => inr ("open " ++ p ++ ": permission denied")
  | None => inr ("open " ++ p ++ ": no such file or directory")
  end.

(** What the Go runtime and the operating system decide for the program:
    - [range site m] is the order in which the [range] statement numbered
      [site] visits the map [m]; Go only promises that every entry is
      visited once;
    - [bash cmd fs] is the effect of [exec.Command("bash", "-c", cmd)] on
      the file system, or the error of a command that fails;
    - [tick fs] is what the rest of the system has done to the file system
      when a one-second [time.Sleep] returns. *)
Class GoEnv := {
  range : forall {V : Type}, nat -> gmap string V -> list (string * V);
  range_perm : forall (V : Type) (site : nat) (m : gmap string V),
      range site m ≡ₚ map_to_list m;
  bash : string -> FS -> FS + error;
  tick : FS -> FS
}.

(* ===================================================================== *)
(** ** Information packets ([ip.go])                                      *)
(* ===================================================================== *)

Module Audit.
(** Modelled from the spec: the declaration of [AuditInfo] is not among
    the sources; section 6 names the two fields the core consumes,
    [Params] and [Keys], both maps from strings to strings, and
    [NewAuditInfo] is the record with both maps empty.  The sources
    assign to the entries of [Keys], and Go panics on an assignment to
    an entry of a nil map, which a record decoded from JSON or set by
    the caller can hold: [KeysMap] is the field [Keys], [None] for a nil
    map.  [Params] is only read, and a nil map reads as the empty one. *)
Record AuditInfo := {
  Params : gmap string string;
  KeysMap : option (gmap string string)
}.

(** What a read of the field [Keys] finds: a nil map has no entry. *)
Definition Keys (ai : AuditInfo) : gmap string string := default ∅ (KeysMap ai).

Definition NewAuditInfo : AuditInfo := {| Params := ∅; KeysMap := Some ∅ |}.
End Audit.

(** The struct [InformationPacket]; the mutex, the unused buffer and the
    sub-stream port carry no data the properties below read. *)
Record InformationPacket := {
  path : string;
  doStream : bool;
  auditInfo : option Audit.AuditInfo
}.

Definition NewInformationPacket (p : string) : InformationPacket :=
  {| path := p; doStream := false; auditInfo := None |}.

Definition GetPath (ip : InformationPacket) : string := path ip.
Definition GetTempPath (ip : InformationPacket) : string := path ip ++ ".tmp".
Definition GetFifoPath (ip : InformationPacket) : string := path ip ++ ".fifo".
Definition GetAuditFilePath (ip : InformationPacket) : string :=
  GetPath ip ++ ".audit.json".

(** The shell-process file still calls the packet by its former name. *)
Abbreviation FileTarget := InformationPacket.
Abbreviation NewFileTarget := NewInformationPacket.

(** The method [Exists] of the packet. *)
Definition FileExists (fs : FS) (ip : InformationPacket) : bool := os_Stat fs (GetPath ip).
Definition TempFileExists (fs : FS) (ip : InformationPacket) : bool :=
  os_Stat fs (GetTempPath ip).
Definition FifoFileExists (fs : FS) (ip : InformationPacket) : bool :=
  os_Stat fs (GetFifoPath ip).

(** [ReadAuditFile]: any read error is fatal. *)
Definition ReadAuditFile (fs : FS) (ip : InformationPacket) : outcome string :=
  match ioutil_ReadFile fs (GetAuditFilePath ip) with
  | inl dat => Ok dat
  | inr err => Check (Some err) ;; Ok ""
  end.

(** [GetAuditInfo]: the record is read from the audit file the first time
    it is asked for and cached in the packet.  [unmarshal] is
    [json.Unmarshal] into the given record.  The result is the packet as
    the call leaves it, and the record returned. *)
Definition GetAuditInfo
    (unmarshal : string -> Audit.AuditInfo -> Audit.AuditInfo + error)
    (fs : FS) (ip : InformationPacket)
  : outcome (InformationPacket * Audit.AuditInfo) :=
  match auditInfo ip with
  | Some ai => Ok (ip, ai)
  | None =>
      let ai := Audit.NewAuditInfo in
      match ioutil_ReadFile fs (GetAuditFilePath ip) with
      | inl auditFileData =>
          match unmarshal auditFileData ai with
          | inl ai' =>
              Ok ({| path := path ip; doStream := doStream ip; auditInfo := Some ai' |}, ai')
          | inr unmarshalErr => Check (Some unmarshalErr) ;; Ok (ip, ai)
          end
      | inr _ =>
          Ok ({| path := path ip; doStream := doStream ip; auditInfo := Some ai |}, ai)
      end
  end.

(* ===================================================================== *)
(** ** The command formatter                                              *)
(* ===================================================================== *)

(** [fmt.Sprint] of strings only: the operands are concatenated. *)
Definition Sprint (parts : list string) : string := String.concat "" parts.

(** [fmt.Sprintf("%s %s", a, b)]. *)
Definition Sprintf_s_s (a b : string) : string := a ++ " " ++ b.

(** Go's [m[k]] on a [map[string]string]: the empty string for a missing key. *)
Definition lookup_str (m : gmap string string) (k : string) : string :=
  default "" (m !! k).

(** The body of the loop of [formatCommand] for one match [m], on the
    command [cmd] as the earlier iterations left it: the text [newstr] to
    put in, the checks, and the replacement of every occurrence of the
    placeholder text in [cmd]. *)
Definition formatStep
    (inTargets outTargets : gmap string FileTarget) (params : gmap string string)
    (cmd : string) (m : Regex.submatch) : outcome string :=
  let whole := Regex.whole m in
  let typ := Regex.typ m in
  let name := Regex.name m in
  newstr ←
    (if String.eqb typ "o" || String.eqb typ "os" then
       match outTargets !! name with
       | None =>
           Check (Some (Sprint ["Missing outpath for outport '"; name;
                                "' for command '"; cmd; "'"])) ;; Ok ""
       | Some tgt =>
           if String.eqb typ "o" then Ok (GetTempPath tgt)
           else if String.eqb typ "os" then Ok (GetFifoPath tgt)
           else Ok ""
       end
     else if String.eqb typ "i" then
       match inTargets !! name with
       | None =>
           Check (Some (Sprint ["Missing intarget for inport '"; name;
                                "' for command '"; cmd; "'"])) ;; Ok ""
       | Some tgt =>
           if String.eqb (GetPath tgt) "" then
             Check (Some (Sprint ["Missing inpath for inport '"; name;
                                  "' for command '"; cmd; "'"])) ;; Ok ""
           else if String.eqb typ "i" then
             if doStream tgt then Ok (GetFifoPath tgt) else Ok (GetPath tgt)
           else Ok ""
       end
     else if String.eqb typ "p" then
       if String.eqb (lookup_str params name) "" then
         Check (Some (Sprint ["Missing param value param '"; name;
                              "' for command '"; cmd; "'"])) ;; Ok ""
       else Ok (lookup_str params name)
     else Ok "");
  (if String.eqb newstr "" then
     Check (Some (Sprint ["Replace failed for port "; name;
                          " forcommand '"; cmd; "'"]))
   else Ok tt) ;;
  Ok (Strings.Replace cmd whole newstr).

(** [for _, m := range ms { ... }], the command threaded through. *)
Fixpoint formatLoop
    (inTargets outTargets : gmap string FileTarget) (params : gmap string string)
    (ms : list Regex.submatch) (cmd : string) : outcome string :=
  match ms with
  | [] => Ok cmd
  | m :: ms' =>
      cmd' ← formatStep inTargets outTargets params cmd m;
      formatLoop inTargets outTargets params ms' cmd'
  end.

(** [formatCommand]. *)
Definition formatCommand
    (cmd : string) (inTargets outTargets : gmap string FileTarget)
    (params : gmap string string) (prepend : string) : outcome string :=
  let r := getPlaceHolderRegex in
  let ms := r cmd in
  cmd' ← formatLoop inTargets outTargets params ms cmd;
  if String.eqb prepend "" then Ok cmd'
  else Ok (Sprintf_s_s prepend cmd').

(** The claim's reading of the formatter, written from the words of the
    specification and used only to compare [formatCommand] with: the text
    that stands for one placeholder ... *)
Definition spec_binding
    (inTargets outTargets : gmap string FileTarget) (params : gmap string string)
    (m : Regex.submatch) : option string :=
  let name := Regex.name m in
  if String.eqb (Regex.typ m) "o" then
    tgt ← outTargets !! name; Some (path tgt ++ ".tmp")
  else if String.eqb (Regex.typ m) "os" then
    tgt ← outTargets !! name; Some (path tgt ++ ".fifo")
  else if String.eqb (Regex.typ m) "i" then
    tgt ← inTargets !! name;
    if String.eqb (path tgt) "" then None
    else Some (if doStream tgt then path tgt ++ ".fifo" else path tgt)
  else if String.eqb (Regex.typ m) "p" then
    v ← params !! name;
    if String.eqb v "" then None else Some v
  else None.

(** ... and the template rewritten in one pass, each placeholder giving way
    to its text where it stands ([None] when a placeholder has no text). *)
Fixpoint spec_subst_from
    (inTargets outTargets : gmap string FileTarget) (params : gmap string string)
    (skip : nat) (s : string) : option string :=
  match s with
  | EmptyString => Some EmptyString
  | String c s' =>
      match skip with
      | S k => spec_subst_from inTargets outTargets params k s'
      | O =>
          match Regex.match_here s with
          | Some m =>
              v ← spec_binding inTargets outTargets params m;
              rest ← spec_subst_from inTargets outTargets params
                       (String.length (Regex.whole m) - 1) s';
              Some (v ++ rest)
          | None =>
              rest ← spec_subst_from inTargets outTargets params 0 s';
              Some (String c rest)
          end
      end
  end.

Definition spec_formatCommand
    (cmd : string) (inTargets outTargets : gmap string FileTarget)
    (params : gmap string string) (prepend : string) : option string :=
  c ← spec_subst_from inTargets outTargets params 0 cmd;
  Some (if String.eqb prepend "" then c else prepend ++ " " ++ c).

(** The replacements of the loop of [formatCommand], one placeholder
    after the other in the order of the matches, each over the whole
    command as the replacements before it left it. *)
Definition replace_each (cmd : string) (mvs : list (Regex.submatch * string)) : string :=
  foldl (fun c mv => Strings.Replace c (Regex.whole mv.1) mv.2) cmd mvs.

Definition add_prepend (prepend cmd : string) : string :=
  if String.eqb prepend "" then cmd else prepend ++ " " ++ cmd.

(* ===================================================================== *)
(** ** Shell tasks                                                        *)
(* ===================================================================== *)

Module Task.

(** The data fields of the struct [ShellTask]: what a path formatter or a
    custom executor can read through the pointer it is given. *)
Record TaskData := {
  InTargets : gmap string FileTarget;
  OutTargets : gmap string FileTarget;
  Params : gmap string string;
  Command : string
}.

(** A [func(t *ShellTask)] used as executor: its effect on the file system,
    or the error it ends the process with. *)
Definition Executor := TaskData -> FS -> FS + error.

(** A [func(t *ShellTask) string] used as path formatter; a formatter that
    dereferences a missing input panics. *)
Definition PathFormatter := TaskData -> outcome string.

(** The struct [ShellTask].  Its [Done] channel is not a field here: what
    is sent on it is recorded in the trace of the task. *)
Record ShellTask := {
  data :> TaskData;
  CustomExecute : option Executor
}.

(** What a task does, in order. *)
Inductive Event :=
| EvCustom                      (* t.CustomExecute(t) *)
| EvBash (cmd : string)         (* exec.Command("bash", "-c", cmd) *)
| EvSleep                       (* time.Sleep in Atomize *)
| EvRename (src dst : string)   (* os.Rename in Atomize *)
| EvDoneSend                    (* t.Done <- 1 *)
| EvDoneClose.                  (* close(t.Done) *)

(** The state a task runs in: the file system and what the task has done
    so far. *)
Record World := { files : FS; trace : list Event }.

Abbreviation M := (Prog World).

Definition emit (e : Event) : M unit :=
  fun w => ({| files := files w; trace := trace w ++ [e] |}, Ok tt).
Definition getFS : M FS := fun w => (w, Ok (files w)).
Definition putFS (fs : FS) : M unit :=
  fun w => ({| files := fs; trace := trace w |}, Ok tt).

(** The [range] statements of the task code, numbered. *)
Definition site_NewShellTask : nat := 0.
Definition site_atomizeTargets : nat := 1.
Definition site_anyOutputExists : nat := 2.
Definition site_anyFifosExist : nat := 3.
Definition site_fifosInOutTargetsMissing : nat := 4.
Definition site_createFifos : nat := 5.

Section WithEnv.
Context `{GoEnv}.

(** The loop of [NewShellTask] that creates the out-targets, over the
    path formatters in the order [range] visits them. *)
Fixpoint makeOutTargets
    (t : TaskData) (outPortsDoStream : gmap string bool)
    (fmts : list (string * PathFormatter)) (outTargets : gmap string FileTarget)
  : outcome (gmap string FileTarget) :=
  match fmts with
  | [] => Ok outTargets
  | (oname, ofun) :: fmts' =>
      opath ← ofun t;
      let otgt := NewFileTarget opath in
      let otgt :=
        if default false (outPortsDoStream !! oname)
        then {| path := path otgt; doStream := true; auditInfo := auditInfo otgt |}
        else otgt in
      makeOutTargets t outPortsDoStream fmts' (<[oname := otgt]> outTargets)
  end.

(** [NewShellTask]. *)
Definition NewShellTask
    (cmdPat : string) (inTargets : gmap string FileTarget)
    (outPathFuncs : gmap string PathFormatter)
    (outPortsDoStream : gmap string bool)
    (params : gmap string string) (prepend : string) : outcome ShellTask :=
  let t := {| InTargets := inTargets; OutTargets := ∅;
              Params := params; Command := "" |} in
  outTargets ← makeOutTargets t outPortsDoStream
                 (range site_NewShellTask outPathFuncs) ∅;
  command ← formatCommand cmdPat inTargets outTargets params prepend;
  Ok {| data := {| InTargets := inTargets; OutTargets := outTargets;
                   Params := params; Command := command |};
        CustomExecute := None |}.

(** [executeCommand]. *)
Definition executeCommand (cmd : string) : M unit :=
  emit (EvBash cmd) ;;
  fs ← getFS;
  match bash cmd fs with
  | inl fs' => putFS fs'
  | inr err => lift (Fatal err)
  end.

(** The call [t.CustomExecute(t)]. *)
Definition runCustom (f : Executor) (t : ShellTask) : M unit :=
  emit EvCustom ;;
  fs ← getFS;
  match f (data t) fs with
  | inl fs' => putFS fs'
  | inr err => lift (Fatal err)
  end.

(** [InformationPacket.Atomize]: the loop runs until the temp file is
    seen; [fuel] bounds the number of rounds the model follows it. *)
Fixpoint Atomize (fuel : nat) (ip : InformationPacket) : M unit :=
  match fuel with
  | O => lift Unfinished
  | S fuel' =>
      fs ← getFS;
      if TempFileExists fs ip then
        match os_Rename fs (GetTempPath ip) (path ip) with
        | inl fs' => putFS fs' ;; emit (EvRename (GetTempPath ip) (path ip))
        | inr err => lift (Fatal err)
        end
      else
        emit EvSleep ;;
        putFS (tick fs) ;;
        Atomize fuel' ip
  end.

(** [atomizeTargets]. *)
Definition atomizeTargets (fuel : nat) (t : ShellTask) : M unit :=
  forEach (range site_atomizeTargets (OutTargets t)) (fun '(_, tgt) =>
    if negb (doStream tgt) then Atomize fuel tgt else mret tt).

(** [anyOutputExists]. *)
Definition anyOutputExists (fs : FS) (t : ShellTask) : bool :=
  foldl (fun anyFileExists '(_, tgt) =>
           let opath := GetPath tgt in
           let otmpPath := GetTempPath tgt in
           if negb (doStream tgt) then
             let anyFileExists := if os_Stat fs opath then true else anyFileExists in
             if os_Stat fs otmpPath then true else anyFileExists
           else anyFileExists)
        false (range site_anyOutputExists (OutTargets t)).

(** [anyFifosExist]. *)
Definition anyFifosExist (fs : FS) (t : ShellTask) : bool :=
  foldl (fun anyFifosExist '(_, tgt) =>
           let ofifoPath := GetFifoPath tgt in
           if doStream tgt then
             if os_Stat fs ofifoPath then true else anyFifosExist
           else anyFifosExist)
        false (range site_anyFifosExist (OutTargets t)).

(** [fifosInOutTargetsMissing]. *)
Definition fifosInOutTargetsMissing (fs : FS) (t : ShellTask) : bool :=
  foldl (fun missing '(_, tgt) =>
           if doStream tgt then
             if negb (os_Stat fs (GetFifoPath tgt)) then true else missing
           else missing)
        false (range site_fifosInOutTargetsMissing (OutTargets t)).

(** [InformationPacket.CreateFifo]. *)
Definition CreateFifo (fs : FS) (ip : InformationPacket) : outcome FS :=
  let cmd := "mkfifo " ++ GetFifoPath ip in
  if os_Stat fs (GetFifoPath ip) then Ok fs
  else match bash cmd fs with
       | inl fs' => Ok fs'
       | inr err => Fatal err
       end.

(** [createFifos]. *)
Fixpoint createFifos_loop (tgts : list (string * FileTarget)) (fs : FS) : outcome FS :=
  match tgts with
  | [] => Ok fs
  | (_, otgt) :: tgts' =>
      fs' ← (if doStream otgt then CreateFifo fs otgt else Ok fs);
      createFifos_loop tgts' fs'
  end.

Definition createFifos (fs : FS) (t : ShellTask) : outcome FS :=
  createFifos_loop (range site_createFifos (OutTargets t)) fs.

(** [ShellTask.Execute].  The deferred [close(t.Done)] runs when the
    function returns. *)
Definition Execute (fuel : nat) (t : ShellTask) : M unit :=
  fs ← getFS;
  (if negb (anyOutputExists fs t) && negb (fifosInOutTargetsMissing fs t) then
     (match CustomExecute t with
      | Some f => runCustom f t
      | None => executeCommand (Command t)
      end) ;;
     atomizeTargets fuel t
   else mret tt) ;;
  emit EvDoneSend ;;
  emit EvDoneClose.

End WithEnv.

End Task.

(* ===================================================================== *)
(** ** Channels as the processes see them                                 *)
(* ===================================================================== *)

(** A channel, from the side of its reader: the values still to be
    received, and whether the writer closes the channel after them. *)
Record Chan (A : Type) := { items : list A; closes : bool }.
Arguments items {A} _.
Arguments closes {A} _.

(** [make(chan A, BUFSIZE)]: nothing sent, not closed. *)
Definition make_chan {A} : Chan A := {| items := []; closes := false |}.

(** [x, ok := <-ch]: the next value and the channel after it; [None] is
    [ok == false]; a receive on an empty channel that is never closed does
    not return. *)
Definition recv {A} (ch : Chan A) : outcome (option A * Chan A) :=
  match items ch with
  | x :: rest => Ok (Some x, {| items := rest; closes := closes ch |})
  | [] => if closes ch then Ok (None, ch) else Blocked
  end.

(* ===================================================================== *)
(** ** Shell processes                                                    *)
(* ===================================================================== *)

Module Process.

Import Task.

(** The struct [ShellProcess]. *)
Record ShellProcess := {
  InPorts : gmap string (Chan FileTarget);
  OutPorts : gmap string (Chan FileTarget);
  OutPortsDoStream : gmap string bool;
  PathFormatters : gmap string PathFormatter;
  ParamPorts : gmap string (Chan string);
  CustomExecute : option Executor;
  Prepend : string;
  CommandPattern : string;
  Spawn : bool
}.

Definition NewShellProcess (command : string) : ShellProcess :=
  {| CommandPattern := command;
     InPorts := ∅; OutPorts := ∅; OutPortsDoStream := ∅;
     PathFormatters := ∅; ParamPorts := ∅;
     CustomExecute := None; Prepend := ""; Spawn := true |}.

Definition set_InPorts (p : ShellProcess) (v : gmap string (Chan FileTarget)) :=
  {| InPorts := v; OutPorts := OutPorts p; OutPortsDoStream := OutPortsDoStream p;
     PathFormatters := PathFormatters p; ParamPorts := ParamPorts p;
     CustomExecute := CustomExecute p; Prepend := Prepend p;
     CommandPattern := CommandPattern p; Spawn := Spawn p |}.
Definition set_OutPorts (p : ShellProcess) (v : gmap string (Chan FileTarget)) :=
  {| InPorts := InPorts p; OutPorts := v; OutPortsDoStream := OutPortsDoStream p;
     PathFormatters := PathFormatters p; ParamPorts := ParamPorts p;
     CustomExecute := CustomExecute p; Prepend := Prepend p;
     CommandPattern := CommandPattern p; Spawn := Spawn p |}.
Definition set_OutPortsDoStream (p : ShellProcess) (v : gmap string bool) :=
  {| InPorts := InPorts p; OutPorts := OutPorts p; OutPortsDoStream := v;
     PathFormatters := PathFormatters p; ParamPorts := ParamPorts p;
     CustomExecute := CustomExecute p; Prepend := Prepend p;
     CommandPattern := CommandPattern p; Spawn := Spawn p |}.
Definition set_PathFormatters (p : ShellProcess) (v : gmap string PathFormatter) :=
  {| InPorts := InPorts p; OutPorts := OutPorts p; OutPortsDoStream := OutPortsDoStream p;
     PathFormatters := v; ParamPorts := ParamPorts p;
     CustomExecute := CustomExecute p; Prepend := Prepend p;
     CommandPattern := CommandPattern p; Spawn := Spawn p |}.
Definition set_ParamPorts (p : ShellProcess) (v : gmap string (Chan string)) :=
  {| InPorts := InPorts p; OutPorts := OutPorts p; OutPortsDoStream := OutPortsDoStream p;
     PathFormatters := PathFormatters p; ParamPorts := v;
     CustomExecute := CustomExecute p; Prepend := Prepend p;
     CommandPattern := CommandPattern p; Spawn := Spawn p |}.

(** The body of the loop of [initPortsFromCmdPattern] for one match;
[params] is [None] for a nil map.  The test [len(m) < 3] of the source
never holds: the expression has two groups, so every match has three
entries, as [Regex.submatch] has it. *)
Definition initPort (params : option (gmap string string))
    (p : ShellProcess) (m : Regex.submatch) : ShellProcess :=
  let typ := Regex.typ m in
  let name := Regex.name m in
  if String.eqb typ "o" || String.eqb typ "os" then
    let p := set_OutPorts p (<[name := make_chan]> (OutPorts p)) in
    if String.eqb typ "os"
    then set_OutPortsDoStream p (<[name := true]> (OutPortsDoStream p))
    else p
  else if String.eqb typ "i" then
    set_InPorts p (<[name := make_chan]> (InPorts p))
  else if String.eqb typ "p" then
    if match params with
       | None => true
       | Some ps => String.eqb (lookup_str ps name) ""
       end
    then set_ParamPorts p (<[name := make_chan]> (ParamPorts p))
    else p
  else p.

(** [initPortsFromCmdPattern]. *)
Definition initPortsFromCmdPattern (p : ShellProcess) (cmd : string)
    (params : option (gmap string string)) : ShellProcess :=
  let r := getPlaceHolderRegex in
  let ms := r cmd in
  foldl (initPort params) p ms.

(** [Shell]. *)
Definition Shell (cmd : string) : ShellProcess :=
  let p := NewShellProcess cmd in
  initPortsFromCmdPattern p cmd None.

(** The path formatters of the convenience methods. *)
Definition SetPathFormatterString (p : ShellProcess) (outPort path : string) :=
  set_PathFormatters p (<[outPort := fun _ => Ok path]> (PathFormatters p)).

Definition nil_dereference : error :=
  "runtime error: invalid memory address or nil pointer dereference".

Definition SetPathFormatterExtend (p : ShellProcess) (outPort inPort extension : string) :=
  set_PathFormatters p
    (<[outPort := fun t =>
         match InTargets t !! inPort with
         | Some ip => Ok (GetPath ip ++ extension)
         | None => Fatal nil_dereference
         end]> (PathFormatters p)).

Definition SetPathFormatterReplace (p : ShellProcess) (outPort inPort old new : string) :=
  set_PathFormatters p
    (<[outPort := fun t =>
         match InTargets t !! inPort with
         | Some ip => Ok (Strings.Replace (GetPath ip) old new)
         | None => Fatal nil_dereference
         end]> (PathFormatters p)).

(** The [range] statements of the process code, numbered; the two loops
    of [Run] over the out-targets of a task are numbered per task. *)
Definition site_receiveInputs : nat := 6.
Definition site_receiveParams : nat := 7.
Definition site_closeOutPorts : nat := 8.
Definition site_Run_fifos (k : nat) : nat := 10 + 2 * k.
Definition site_Run_targets (k : nat) : nat := 11 + 2 * k.

Section WithEnv.
Context `{GoEnv}.

(** The loop shared by [receiveInputs] and [receiveParams]: one receive
    per port; the values received, whether every port was open, and the
    channels after the receives. *)
Fixpoint receiveAll {A} (ports : list (string * Chan A))
    (got : gmap string A) (allOpen : bool) (chans : gmap string (Chan A))
  : outcome (gmap string A * bool * gmap string (Chan A)) :=
  match ports with
  | [] => Ok (got, allOpen, chans)
  | (name, ch) :: ports' =>
      r ← recv ch;
      match r with
      | (None, _) => receiveAll ports' got false chans
      | (Some x, ch') =>
          receiveAll ports' (<[name := x]> got) allOpen (<[name := ch']> chans)
      end
  end.

(** [receiveInputs]. *)
Definition receiveInputs (p : ShellProcess)
  : outcome (gmap string FileTarget * bool * ShellProcess) :=
  r ← receiveAll (range site_receiveInputs (InPorts p)) ∅ true (InPorts p);
  let '(inTargets, inPortsOpen, chans) := r in
  Ok (inTargets, inPortsOpen, set_InPorts p chans).

(** [receiveParams]. *)
Definition receiveParams (p : ShellProcess)
  : outcome (gmap string string * bool * ShellProcess) :=
  r ← receiveAll (range site_receiveParams (ParamPorts p)) ∅ true (ParamPorts p);
  let '(params, paramPortsOpen, chans) := r in
  Ok (params, paramPortsOpen, set_ParamPorts p chans).

(** What the goroutine of [createTasks] has done when it ends: the
    number of gather rounds (calls of [receiveInputs] and
    [receiveParams]), the tasks sent on [ch] in order, and how it ended
    ([Ok] is the [close(ch)]). *)
Record Created := {
  gathers : nat;
  tasks : list ShellTask;
  ending : outcome unit
}.

Definition stop (o : outcome unit) : Created :=
  {| gathers := 1; tasks := []; ending := o |}.

Definition next (t : option ShellTask) (c : Created) : Created :=
  {| gathers := S (gathers c);
     tasks := match t with Some t => t :: tasks c | None => tasks c end;
     ending := ending c |}.

(** The loop of [createTasks]; [fuel] bounds the number of rounds the
    model follows it. *)
Fixpoint createTasks_loop (fuel : nat) (p : ShellProcess) : Created :=
  match fuel with
  | O => {| gathers := 0; tasks := []; ending := Unfinished |}
  | S fuel' =>
      match receiveInputs p with
      | Ok (inTargets, inPortsOpen, p1) =>
          match receiveParams p1 with
          | Ok (params, paramPortsOpen, p2) =>
              if negb inPortsOpen && negb paramPortsOpen then stop (Ok tt)
              else if Nat.eqb (size (InPorts p)) 0 && negb paramPortsOpen then stop (Ok tt)
              else if Nat.eqb (size (ParamPorts p)) 0 && negb inPortsOpen then stop (Ok tt)
              else
                match NewShellTask (CommandPattern p) inTargets (PathFormatters p)
                        (OutPortsDoStream p) params (Prepend p) with
                | Ok t =>
                    let t :=
                      match CustomExecute p with
                      | Some f => {| data := data t; Task.CustomExecute := Some f |}
                      | None => t
                      end in
                    if Nat.eqb (size (InPorts p)) 0 && Nat.eqb (size (ParamPorts p)) 0
                    then {| gathers := 1; tasks := [t]; ending := Ok tt |}
                    else next (Some t) (createTasks_loop fuel' p2)
                | Fatal e => stop (Fatal e)
                | Blocked => stop Blocked
                | Unfinished => stop Unfinished
                end
          | Fatal e => stop (Fatal e)
          | Blocked => stop Blocked
          | Unfinished => stop Unfinished
          end
      | Fatal e => stop (Fatal e)
      | Blocked => stop Blocked
      | Unfinished => stop Unfinished
      end
  end.

Definition createTasks (fuel : nat) (p : ShellProcess) : Created :=
  createTasks_loop fuel p.

(** What the goroutine of [Run] does, in order; [k] is the position of
    the task in the order of creation. *)
Inductive Event :=
| EvCreateFifos (k : nat)                            (* t.createFifos() *)
| EvSend (port : string) (k : nat) (tgt : FileTarget) (* p.OutPorts[port] <- tgt *)
| EvGoExecute (k : nat)                              (* go t.Execute() *)
| EvGoSignal (k : nat)                               (* go func() { t.Done <- 1 } () *)
| EvRecvDone (k : nat)                               (* <-t.Done *)
| EvClosePort (port : string).                       (* close(oport) *)

Abbreviation R := (Prog (list Event)).

Definition emit (e : Event) : R unit := fun tr : list Event => ((tr ++ [e])%list, Ok tt).

(** [p.OutPorts[oname] <- otgt]; a missing port is a nil channel, and a
    send on a nil channel never returns. *)
Definition send (p : ShellProcess) (oname : string) (k : nat) (otgt : FileTarget)
  : R unit :=
  match OutPorts p !! oname with
  | Some _ => emit (EvSend oname k otgt)
  | None => lift Blocked
  end.

(** The two things [Run] is told by the rest of the system: the file
    system it finds when it schedules task [k], and the file system
    the goroutine of task [k] finds when it executes. *)
Context (fsSched fsExec : nat -> FS).

(** What the receive [<-t.Done] of task [k] meets, when the task was
    started with [go t.Execute()]: the way [Execute] ended. *)
Definition executed (fuel : nat) (k : nat) (t : ShellTask) : outcome unit :=
  snd (Execute fuel t {| files := fsExec k; trace := [] |}).

(** The body of the first loop of [Run] for the task [t], the [k]-th. *)
Definition scheduleTask (p : ShellProcess) (k : nat) (t : ShellTask) : R unit :=
  let anyPreviousFifosExists := anyFifosExist (fsSched k) t in
  (if negb anyPreviousFifosExists then
     emit (EvCreateFifos k) ;;
     lift (createFifos (fsSched k) t) ;; mret tt
   else mret tt) ;;
  forEach (range (site_Run_fifos k) (OutTargets t)) (fun '(oname, otgt) =>
    if doStream otgt then send p oname k otgt else mret tt) ;;
  (if negb anyPreviousFifosExists then emit (EvGoExecute k)
   else emit (EvGoSignal k)).

Fixpoint scheduleTasks (p : ShellProcess) (k : nat) (ts : list ShellTask) : R unit :=
  match ts with
  | [] => mret tt
  | t :: ts' => scheduleTask p k t ;; scheduleTasks p (S k) ts'
  end.

(** The body of the second loop of [Run]. *)
Definition collectTask (fuel : nat) (p : ShellProcess) (k : nat) (t : ShellTask) : R unit :=
  (if anyFifosExist (fsSched k) t then mret tt
   else lift (executed fuel k t)) ;;
  emit (EvRecvDone k) ;;
  forEach (range (site_Run_targets k) (OutTargets t)) (fun '(oname, otgt) =>
    if negb (doStream otgt) then send p oname k otgt else mret tt).

Fixpoint collectTasks (fuel : nat) (p : ShellProcess) (k : nat) (ts : list ShellTask)
  : R unit :=
  match ts with
  | [] => mret tt
  | t :: ts' => collectTask fuel p k t ;; collectTasks fuel p (S k) ts'
  end.

(** [closeOutPorts]. *)
Definition closeOutPorts (p : ShellProcess) : R unit :=
  forEach (range site_closeOutPorts (OutPorts p)) (fun '(oname, _) =>
    emit (EvClosePort oname)).

(** [Run], given what [createTasks] delivers: the tasks are scheduled as
    they arrive; when the task channel is closed they are collected in
    the same order; the deferred [closeOutPorts] runs at the return. *)
Definition RunOn (fuel : nat) (p : ShellProcess) (c : Created) : R unit :=
  scheduleTasks p 0 (tasks c) ;;
  lift (ending c) ;;
  collectTasks fuel p 0 (tasks c) ;;
  closeOutPorts p.

Definition Run (fuel : nat) (p : ShellProcess) : list Event * outcome unit :=
  RunOn fuel p (createTasks fuel p) [].

End WithEnv.

End Process.

(* ===================================================================== *)
(** ** File ports                                                         *)
(* ===================================================================== *)

Module FP.

(** The struct [FilePort]; channels are held by reference, a reference
    being the number the channel got when it was made. *)
Record FilePort := {
  InChan : nat;
  inChans : list nat;
  outChans : list nat;
  connected : bool
}.

(** The heap: the ports allocated so far, by address, and the number of
    channels made so far. *)
Record Heap := { ports : gmap nat FilePort; chans : nat }.

Definition empty_heap : Heap := {| ports := ∅; chans := 0 |}.

(** [make(chan *InformationPacket, BUFSIZE)]. *)
Definition make (h : Heap) : nat * Heap :=
  (chans h, {| ports := ports h; chans := S (chans h) |}).

(** [NewFilePort]: the address of the new port and the heap with it. *)
Definition NewFilePort (h : Heap) : nat * Heap :=
  let '(c, h) := make h in
  let fp := {| InChan := c; inChans := []; outChans := []; connected := false |} in
  let a := fresh (dom (ports h)) in
  (a, {| ports := <[a := fp]> (ports h); chans := chans h |}).

(** A method with a pointer receiver that updates the port at [a]; the
    receiver of a method call of the sources is never nil, an address
    that is not allocated ends the program. *)
Definition update (a : nat) (f : FilePort -> FilePort) (h : Heap) : outcome Heap :=
  match ports h !! a with
  | Some fp => Ok {| ports := <[a := f fp]> (ports h); chans := chans h |}
  | None => Fatal "runtime error: invalid memory address or nil pointer dereference"
  end.

Definition AddOutChan (pt : nat) (outChan : nat) : Heap -> outcome Heap :=
  update pt (fun fp =>
    {| InChan := InChan fp; inChans := inChans fp;
       outChans := outChans fp ++ [outChan]; connected := connected fp |}).

Definition AddInChan (pt : nat) (inChan : nat) : Heap -> outcome Heap :=
  update pt (fun fp =>
    {| InChan := InChan fp; inChans := inChans fp ++ [inChan];
       outChans := outChans fp; connected := connected fp |}).

Definition SetConnectedStatus (pt : nat) (c : bool) : Heap -> outcome Heap :=
  update pt (fun fp =>
    {| InChan := InChan fp; inChans := inChans fp;
       outChans := outChans fp; connected := c |}).

Definition IsConnected (pt : nat) (h : Heap) : bool :=
  match ports h !! pt with Some fp => connected fp | None => false end.

(** [FilePort.Connect]. *)
Definition Connect (localPort remotePort : nat) (h : Heap) : outcome Heap :=
  let '(inBoundChan, h) := make h in
  h ← AddInChan localPort inBoundChan h;
  h ← AddOutChan remotePort inBoundChan h;
  let '(outBoundChan, h) := make h in
  h ← AddOutChan localPort outBoundChan h;
  h ← AddInChan remotePort outBoundChan h;
  h ← SetConnectedStatus localPort true h;
  SetConnectedStatus remotePort true h.

(** A run of [Connect] calls, one after the other. *)
Fixpoint connects (calls : list (nat * nat)) (h : Heap) : outcome Heap :=
  match calls with
  | [] => Ok h
  | (l, r) :: calls' => h' ← Connect l r h; connects calls' h'
  end.

(** [n] calls of [NewFilePort]. *)
Fixpoint fresh_ports (n : nat) (h : Heap) : Heap :=
  match n with
  | O => h
  | S n' => fresh_ports n' (snd (NewFilePort h))
  end.

End FP.

(* ===================================================================== *)
(** ** The merger of a file port                                          *)
(* ===================================================================== *)

Module Merge.

Section Merger.
Context {A : Type}.

(** The state the merger works on is the channel [pt.InChan] as its
    reader will see it. *)
Abbreviation MG := (Prog (Chan A)).

(** [pt.InChan <- ip]. *)
Definition forward (ip : A) : MG unit :=
  fun ch => ({| items := items ch ++ [ip]; closes := closes ch |}, Ok tt).

(** [close(pt.InChan)]. *)
Definition close : MG unit :=
  fun ch => ({| items := items ch; closes := true |}, Ok tt).

(** The inner loop of [RunMergeInputs], [for i, ich := range pt.inChans],
    over the inbound channels from position [i] on: a value received is
    forwarded and the loop goes on; a closed channel is deleted from
    the list and the loop is left.  The result is [pt.inChans] from
    position [i] on, as the loop leaves it. *)
Fixpoint sweep (inChans : list (Chan A)) : MG (list (Chan A)) :=
  match inChans with
  | [] => mret []
  | ich :: rest =>
      r ← lift (recv ich);
      match r with
      | (None, _) => mret rest
      | (Some ip, ich') =>
          forward ip ;;
          rest' ← sweep rest;
          mret (ich' :: rest')
      end
  end.

(** The outer loop, [for len(pt.inChans) > 0]; [fuel] bounds the number
    of sweeps the model follows. *)
Fixpoint merge_loop (fuel : nat) (inChans : list (Chan A)) : MG unit :=
  match inChans with
  | [] => mret tt
  | _ :: _ =>
      match fuel with
      | O => lift Unfinished
      | S fuel' => inChans' ← sweep inChans; merge_loop fuel' inChans'
      end
  end.

(** [RunMergeInputs], on the inbound channels of the port in the order
    of registration; the deferred close runs when the loop is left. *)
Definition RunMergeInputs (fuel : nat) (inChans : list (Chan A)) : MG unit :=
  merge_loop fuel inChans ;; close.

(** The number of sweeps that is always enough: every sweep receives a
    value or deletes a channel. *)
Definition enough (inChans : list (Chan A)) : nat :=
  length inChans + length (concat (map items inChans)).

(** [out] is an interleaving of the sequences [seqs]: every element of
    every sequence occurs in [out] once, and the elements of one
    sequence occur in their order. *)
Inductive Interleaving : list (list A) -> list A -> Prop :=
| interleaving_done seqs :
    Forall (fun s => s = []) seqs -> Interleaving seqs []
| interleaving_take seqs i x s out :
    seqs !! i = Some (x :: s) ->
    Interleaving (<[i := s]> seqs) out ->
    Interleaving seqs (x :: out).

End Merger.

End Merge.

(* ===================================================================== *)
(** ** Parameter ports                                                    *)
(* ===================================================================== *)

Module PP.

(** The struct [ParamPort]; [Chan] is [None] for a nil channel. *)
Record ParamPort := { Chan : option nat; connected : bool }.

Record Heap := { ports : gmap nat ParamPort; chans : nat }.

Definition empty_heap : Heap := {| ports := ∅; chans := 0 |}.

(** [make(chan string, BUFSIZE)]. *)
Definition make (h : Heap) : nat * Heap :=
  (chans h, {| ports := ports h; chans := S (chans h) |}).

(** [NewParamPort]. *)
Definition NewParamPort (h : Heap) : nat * Heap :=
  let a := fresh (dom (ports h)) in
  (a, {| ports := <[a := {| Chan := None; connected := false |}]> (ports h);
         chans := chans h |}).

Definition nil_dereference : error :=
  "runtime error: invalid memory address or nil pointer dereference".

Definition load (a : nat) (h : Heap) : outcome ParamPort :=
  match ports h !! a with
  | Some pp => Ok pp
  | None => Fatal nil_dereference
  end.

Definition update (a : nat) (f : ParamPort -> ParamPort) (h : Heap) : outcome Heap :=
  pp ← load a h;
  Ok {| ports := <[a := f pp]> (ports h); chans := chans h |}.

Definition set_Chan (a : nat) (c : option nat) : Heap -> outcome Heap :=
  update a (fun pp => {| Chan := c; connected := connected pp |}).

Definition SetConnectedStatus (a : nat) (c : bool) : Heap -> outcome Heap :=
  update a (fun pp => {| Chan := Chan pp; connected := c |}).

Definition IsConnected (a : nat) (h : Heap) : bool :=
  match ports h !! a with Some pp => connected pp | None => false end.

Definition both_initialized : error :=
  "Both paramports already have initialized channels, so can't choose which to use!".

(** [ParamPort.Connect]; [os.Exit(1)] after the error line is the fatal
    outcome. *)
Definition Connect (pp otherParamPort : nat) (h : Heap) : outcome Heap :=
  l ← load pp h;
  o ← load otherParamPort h;
  h ← match Chan l, Chan o with
      | Some _, Some _ => Fatal both_initialized
      | Some c, None => set_Chan otherParamPort (Some c) h
      | None, Some c => set_Chan pp (Some c) h
      | None, None =>
          let '(ch, h) := make h in
          h ← set_Chan pp (Some ch) h;
          set_Chan otherParamPort (Some ch) h
      end;
  h ← SetConnectedStatus pp true h;
  SetConnectedStatus otherParamPort true h.

(** [ConnectStr], the side of the port: the channel made and the flag
    set; the goroutine that sends the strings is not followed. *)
Definition ConnectStr (pp : nat) (h : Heap) : outcome Heap :=
  let '(ch, h) := make h in
  h ← set_Chan pp (Some ch) h;
  SetConnectedStatus pp true h.

End PP.

(* ===================================================================== *)
(** ** Auxiliary definitions of the statements                            *)
(* ===================================================================== *)

(** The message of the empty-substitution error of [formatCommand]. *)
Definition replace_failed (name cmd : string) : error :=
  Sprint ["Replace failed for port "; name; " forcommand '"; cmd; "'"].

(** An environment to run examples in: every [range] visits the map in the
    order of [map_to_list], commands succeed and leave the file system as
    it is, and nothing else touches the file system. *)
#[local] Instance sorted_env : GoEnv := {|
  range := fun V _ m => map_to_list m;
  range_perm := fun V _ m => reflexivity (map_to_list m);
  bash := fun _ fs => inl fs;
  tick := fun fs => fs
|}.

(** Every channel a port of the heap holds was made before: its number is
    below the number of channels made so far. *)
Definition PP_wf (h : PP.Heap) : Prop :=
  forall a pp c, PP.ports h !! a = Some pp -> PP.Chan pp = Some c -> c < PP.chans h.

(** In [h'] the two ports hold the channel [c] and are marked connected,
    and every other port is as it is in [h]. *)
Definition PP_shared (h h' : PP.Heap) (pp other c : nat) : Prop :=
  PP.ports h' !! pp = Some {| PP.Chan := Some c; PP.connected := true |}
  /\ PP.ports h' !! other = Some {| PP.Chan := Some c; PP.connected := true |}
  /\ PP.IsConnected pp h' = true
  /\ PP.IsConnected other h' = true
  /\ (forall a, a <> pp -> a <> other -> PP.ports h' !! a = PP.ports h !! a).

(** The port [fp] at address [a] after [Connect local remote] made the
    channels [c_in] and [c_out]. *)
Definition FP_wired (local remote c_in c_out a : nat) (fp : FP.FilePort) : FP.FilePort :=
  {| FP.InChan := FP.InChan fp;
     FP.inChans := FP.inChans fp ++ (if decide (a = local) then [c_in] else [])
                                 ++ (if decide (a = remote) then [c_out] else []);
     FP.outChans := FP.outChans fp ++ (if decide (a = remote) then [c_in] else [])
                                   ++ (if decide (a = local) then [c_out] else []);
     FP.connected := if decide (a = local \/ a = remote) then true else FP.connected fp |}.

(** Every inbound channel of the heap is registered once in the inbound
    list of one port: no list holds a channel twice, and no two ports hold
    the same channel. *)
Definition FP_inbound_once (h : FP.Heap) : Prop :=
  (forall a fp, FP.ports h !! a = Some fp -> NoDup (FP.inChans fp))
  /\ (forall a b fpa fpb c,
        a <> b -> FP.ports h !! a = Some fpa -> FP.ports h !! b = Some fpb ->
        c ∈ FP.inChans fpa -> c ∉ FP.inChans fpb).

(** The inbound channels of the heap were all made before. *)
Definition FP_inbound_made (h : FP.Heap) : Prop :=
  forall a fp c, FP.ports h !! a = Some fp -> c ∈ FP.inChans fp -> c < FP.chans h.

(** Every call connects two ports that are allocated. *)
Definition FP_allocated (calls : list (nat * nat)) (h : FP.Heap) : Prop :=
  Forall (fun lr => is_Some (FP.ports h !! lr.1) /\ is_Some (FP.ports h !! lr.2)) calls.

(** The number of values sent on the inbound channels together. *)
Definition total {A} (inChans : list (Chan A)) : nat :=
  length (concat (map items inChans)).

(** The channel [st] after the values [fw] were sent on it. *)
Definition pushed {A} (st : Chan A) (fw : list A) : Chan A :=
  {| items := (items st ++ fw)%list; closes := closes st |}.

(** The event of running the command of a task, and the effect of the run
    on the file system: the custom executor when one is registered,
    [bash -c] on the formatted command otherwise. *)
Definition run_event (t : Task.ShellTask) : Task.Event :=
  match Task.CustomExecute t with
  | Some _ => Task.EvCustom
  | None => Task.EvBash (Task.Command (Task.data t))
  end.

Definition run_effect `{GoEnv} (t : Task.ShellTask) (fs : FS) : FS + error :=
  match Task.CustomExecute t with
  | Some f => f (Task.data t) fs
  | None => bash (Task.Command (Task.data t)) fs
  end.

(** Some non-streaming out-target of the task is on disk, at its final or
    at its temp path. *)
Definition output_present (fs : FS) (t : Task.ShellTask) : Prop :=
  exists name tgt,
    Task.OutTargets (Task.data t) !! name = Some tgt /\ doStream tgt = false
    /\ (os_Stat fs (GetPath tgt) = true \/ os_Stat fs (GetTempPath tgt) = true).

(** The FIFO of some streaming out-target of the task is not on disk. *)
Definition fifo_missing (fs : FS) (t : Task.ShellTask) : Prop :=
  exists name tgt,
    Task.OutTargets (Task.data t) !! name = Some tgt /\ doStream tgt = true
    /\ os_Stat fs (GetFifoPath tgt) = false.

(** The FIFO of some streaming out-target of the task is on disk. *)
Definition fifo_present (fs : FS) (t : Task.ShellTask) : Prop :=
  exists name tgt,
    Task.OutTargets (Task.data t) !! name = Some tgt /\ doStream tgt = true
    /\ os_Stat fs (GetFifoPath tgt) = true.

(** The renames that atomize the non-streaming targets among [tgts], in
    the order of [tgts]. *)
Definition atomized (tgts : list (string * FileTarget)) : list Task.Event :=
  map (fun x => Task.EvRename (GetTempPath x.2) (path x.2))
      (List.filter (fun x => negb (doStream x.2)) tgts).

(** The file system after these renames. *)
Fixpoint renamed (tgts : list (string * FileTarget)) (fs : FS) : FS :=
  match tgts with
  | [] => fs
  | (_, tgt) :: tgts' =>
      if doStream tgt then renamed tgts' fs
      else match fs !! GetTempPath tgt with
           | Some n => renamed tgts' (<[path tgt := n]> (delete (GetTempPath tgt) fs))
           | None => renamed tgts' fs
           end
  end.

(** The non-streaming out-targets of the task have different paths. *)
Definition distinct_outputs (t : Task.ShellTask) : Prop :=
  forall n1 n2 t1 t2,
    n1 <> n2 ->
    Task.OutTargets (Task.data t) !! n1 = Some t1 ->
    Task.OutTargets (Task.data t) !! n2 = Some t2 ->
    doStream t1 = false -> doStream t2 = false -> path t1 <> path t2.

(** The temp file of every non-streaming out-target of the task is on disk. *)
Definition temps_written (fs : FS) (t : Task.ShellTask) : Prop :=
  forall name tgt,
    Task.OutTargets (Task.data t) !! name = Some tgt -> doStream tgt = false ->
    os_Stat fs (GetTempPath tgt) = true.

Definition is_done_event (e : Task.Event) : bool :=
  match e with
  | Task.EvDoneSend | Task.EvDoneClose => true
  | _ => false
  end.

Definition is_run_event (e : Task.Event) : bool :=
  match e with
  | Task.EvCustom | Task.EvBash _ => true
  | _ => false
  end.

(** The paths of the non-streaming targets among [tgts]. *)
Definition ns_paths (tgts : list (string * FileTarget)) : list string :=
  map (fun x => path x.2) (List.filter (fun x => negb (doStream x.2)) tgts).

(** An environment like [sorted_env] in which every command writes the
    temp file of the output [out.txt]. *)
Definition writing_env : GoEnv := {|
  range := fun V _ m => map_to_list m;
  range_perm := fun V _ m => reflexivity (map_to_list m);
  bash := fun _ fs => inl (<["out.txt.tmp" := Readable "hello"]> fs);
  tick := fun fs => fs
|}.

(** The task of the command [echo hello > {o:out}] with the output at
    [out.txt]. *)
Definition echo_task : Task.ShellTask :=
  {| Task.data := {| Task.InTargets := ∅;
                     Task.OutTargets := {[ "out" := NewFileTarget "out.txt" ]};
                     Task.Params := ∅;
                     Task.Command := "echo hello > out.txt.tmp" |};
     Task.CustomExecute := None |}.

(** *** What [Run] does when nothing stops it *)

Section FullTrace.
Context `{GoEnv}.
Context (fsSched : nat -> FS).
Import Process.

(** The sends of the targets among [tgts] that stream ([stream = true])
    or do not ([stream = false]), for the task [k]. *)
Definition sends_of (stream : bool) (k : nat) (tgts : list (string * FileTarget))
  : list Event :=
  map (fun x => EvSend x.1 k x.2)
      (List.filter (fun x => Bool.eqb (doStream x.2) stream) tgts).

(** The first loop of [Run] for the task [t], the [k]-th. *)
Definition sched_events (k : nat) (t : Task.ShellTask) : list Event :=
  ((if Task.anyFifosExist (fsSched k) t then [] else [EvCreateFifos k])
   ++ sends_of true k (range (site_Run_fifos k) (Task.OutTargets (Task.data t)))
   ++ [if Task.anyFifosExist (fsSched k) t then EvGoSignal k else EvGoExecute k])%list.

(** The second loop of [Run] for the task [t], the [k]-th. *)
Definition collect_events (k : nat) (t : Task.ShellTask) : list Event :=
  EvRecvDone k
    :: sends_of false k (range (site_Run_targets k) (Task.OutTargets (Task.data t))).

Fixpoint all_sched (k : nat) (ts : list Task.ShellTask) : list Event :=
  match ts with
  | [] => []
  | t :: ts' => (sched_events k t ++ all_sched (S k) ts')%list
  end.

Fixpoint all_collect (k : nat) (ts : list Task.ShellTask) : list Event :=
  match ts with
  | [] => []
  | t :: ts' => (collect_events k t ++ all_collect (S k) ts')%list
  end.

Definition close_events (p : ShellProcess) : list Event :=
  map (fun x => EvClosePort x.1) (range site_closeOutPorts (OutPorts p)).

(** The whole of [Run] on the tasks [ts]. *)
Definition full_trace (p : ShellProcess) (ts : list Task.ShellTask) : list Event :=
  (all_sched 0 ts ++ all_collect 0 ts ++ close_events p)%list.

(** The code [m] goes through the events [evs], as far as it gets; it
    gets to the end when it returns, and it returns when [can_finish]. *)
Definition follows (m : Prog (list Event) unit) (evs : list Event) (can_finish : Prop) : Prop :=
  forall tr, exists evs' o,
    m tr = ((tr ++ evs')%list, o)
    /\ evs' `prefix_of` evs
    /\ (o = Ok tt -> evs' = evs)
    /\ (can_finish -> o = Ok tt).

End FullTrace.

(** The event [e] occurs once in [tr]. *)
Definition exactly_once {E} (e : E) (tr : list E) : Prop :=
  exists pre post, tr = (pre ++ e :: post)%list /\ (e ∉ pre) /\ (e ∉ post).

(** Every out-target of the task has an out-port of the process. *)
Definition ports_registered (p : Process.ShellProcess) (t : Task.ShellTask) : Prop :=
  forall name tgt, Task.OutTargets (Task.data t) !! name = Some tgt ->
                   is_Some (Process.OutPorts p !! name).

(** Nothing stops the first loop of [Run] on the tasks [ts], numbered from
    [k]: every out-target has an out-port, and the FIFOs that have to be
    created can be created. *)
Fixpoint sched_ok `{GoEnv} (fsSched : nat -> FS) (p : Process.ShellProcess)
    (k : nat) (ts : list Task.ShellTask) : Prop :=
  match ts with
  | [] => True
  | t :: ts' =>
      (ports_registered p t
       /\ (Task.anyFifosExist (fsSched k) t = false ->
           is_Ok (Task.createFifos (fsSched k) t) = true))
      /\ sched_ok fsSched p (S k) ts'
  end.

(** Nothing stops the second loop of [Run]: every out-target has an
    out-port, and every task that was executed returns. *)
Fixpoint collect_ok `{GoEnv} (fsSched fsExec : nat -> FS) (fuel : nat)
    (p : Process.ShellProcess) (k : nat) (ts : list Task.ShellTask) : Prop :=
  match ts with
  | [] => True
  | t :: ts' =>
      (ports_registered p t
       /\ (Task.anyFifosExist (fsSched k) t = false ->
           Process.executed fsExec fuel k t = Ok tt))
      /\ collect_ok fsSched fsExec fuel p (S k) ts'
  end.

(** The events of the first loop of [Run] on the tasks [ts], numbered from
    [k0]: the creation of FIFOs, the start of a goroutine, and the send of
    a streaming out-target of the task. *)
Definition sched_kind (ts : list Task.ShellTask) (k0 : nat) (e : Process.Event) : Prop :=
  match e with
  | Process.EvCreateFifos k | Process.EvGoExecute k | Process.EvGoSignal k =>
      k0 <= k < k0 + length ts
  | Process.EvSend port k tgt =>
      doStream tgt = true /\ k0 <= k
      /\ exists t, ts !! (k - k0) = Some t
                   /\ Task.OutTargets (Task.data t) !! port = Some tgt
  | _ => False
  end.

(** The events of the second loop: the receive on [Done], and the send of
    a non-streaming out-target of the task. *)
Definition collect_kind (ts : list Task.ShellTask) (k0 : nat) (e : Process.Event) : Prop :=
  match e with
  | Process.EvRecvDone k => k0 <= k < k0 + length ts
  | Process.EvSend port k tgt =>
      doStream tgt = false /\ k0 <= k
      /\ exists t, ts !! (k - k0) = Some t
                   /\ Task.OutTargets (Task.data t) !! port = Some tgt
  | _ => False
  end.

(** The event starts the goroutine of the task [k]. *)
Definition starts (k : nat) (e : Process.Event) : Prop :=
  e = Process.EvGoExecute k \/ e = Process.EvGoSignal k.

(** A process with one streaming and one non-streaming output and no
    input: scenario (3) of the specification, the side of the producer. *)
Definition seq_process : Process.ShellProcess :=
  Process.SetPathFormatterString
    (Process.SetPathFormatterString
       (Process.Shell "seq 1 3 > {os:s}; date > {o:out}") "s" "s")
    "out" "out.txt".

(** A file system on which the non-streaming output of [seq_process] is
    there already. *)
Definition fs_done : FS := {[ "out.txt" := Readable "Sat" ]}.

(** *** Templates as texts and placeholders *)

(** A template cut in pieces: a text, or a placeholder with its kind and
    its name. *)
Inductive seg :=
| Lit (s : string)
| Hole (typ name : string).

Fixpoint all_chars (P : ascii -> bool) (s : string) : bool :=
  match s with
  | EmptyString => true
  | String c s' => P c && all_chars P s'
  end.

(** No opening brace in the string. *)
Definition no_brace (s : string) : bool :=
  all_chars (fun c => negb (Ascii.eqb c "{")) s.

Definition kind_ok (t : string) : bool :=
  String.eqb t "o" || String.eqb t "os" || String.eqb t "i"
  || String.eqb t "is" || String.eqb t "p".

(** A text without opening brace; a placeholder of one of the five kinds
    with a name the regular expression accepts. *)
Definition seg_ok (sg : seg) : bool :=
  match sg with
  | Lit s => no_brace s
  | Hole t n => kind_ok t && negb (String.eqb n "") && all_chars Regex.name_char n
  end.

Definition render_seg (sg : seg) : string :=
  match sg with
  | Lit s => s
  | Hole t n => "{" ++ t ++ ":" ++ n ++ "}"
  end.

(** The template the pieces spell. *)
Fixpoint render (segs : list seg) : string :=
  match segs with
  | [] => EmptyString
  | sg :: segs' => render_seg sg ++ render segs'
  end.

(** The match the regular expression reports for a placeholder. *)
Definition hole_match (t n : string) : Regex.submatch :=
  Regex.Submatch (render_seg (Hole t n)) t n.

Fixpoint holes (segs : list seg) : list Regex.submatch :=
  match segs with
  | [] => []
  | Lit _ :: segs' => holes segs'
  | Hole t n :: segs' => hole_match t n :: holes segs'
  end.

(** The pieces with the placeholders of the text [whole] replaced by the
    text [v]. *)
Definition fill_one (whole v : string) (sg : seg) : seg :=
  match sg with
  | Lit s => Lit s
  | Hole t n => if String.eqb (render_seg (Hole t n)) whole then Lit v else Hole t n
  end.

(** The pieces with every placeholder replaced by its text. *)
Definition fill_all (inTargets outTargets : gmap string FileTarget)
    (params : gmap string string) (sg : seg) : seg :=
  match sg with
  | Lit s => Lit s
  | Hole t n =>
      Lit (default "" (spec_binding inTargets outTargets params (hole_match t n)))
  end.

(** The text of every placeholder of the pieces, when it has one, has no
    opening brace. *)
Definition clean_bindings (inTargets outTargets : gmap string FileTarget)
    (params : gmap string string) (segs : list seg) : Prop :=
  forall t n v, Hole t n ∈ segs ->
    spec_binding inTargets outTargets params (hole_match t n) = Some v ->
    no_brace v = true.

(** The text of a placeholder between its braces. *)
Definition body (t n : string) : string := t ++ String ":" n.

(* ===================================================================== *)
(** ** Further definitions of the statements                              *)
(* ===================================================================== *)

(** The text in which the placeholders [ms] stand in this order, the
    text [g] of [gaps] before each of them and [tail] after the last. *)
Fixpoint spell (gaps : list string) (ms : list Regex.submatch) (tail : string) : string :=
  match gaps, ms with
  | g :: gaps', m :: ms' => g ++ Regex.whole m ++ spell gaps' ms' tail
  | _, _ => tail
  end.

(** A placeholder as the regular expression describes it: one of the
    five kinds, a colon, a non-empty name without braces and colon. *)
Definition placeholder (m : Regex.submatch) : Prop :=
  kind_ok (Regex.typ m) = true
  /\ Regex.name m <> ""
  /\ all_chars Regex.name_char (Regex.name m) = true
  /\ Regex.whole m = "{" ++ Regex.typ m ++ ":" ++ Regex.name m ++ "}".

(* ===================================================================== *)
(** ** More of the shell-process file                                     *)
(* ===================================================================== *)

Module Expand.

Import Process.

(** The body of the loop of [expandCommandParamsAndPaths] for one match,
    on the command [cmdExp] as the earlier iterations left it; a map is
    [None] when it is nil. *)
Definition expandStep (params inPaths outPaths : option (gmap string string))
    (cmdExp : string) (m : Regex.submatch) : string :=
  let whole := Regex.whole m in
  let typ := Regex.typ m in
  let name := Regex.name m in
  if String.eqb typ "p" then
    match params with
    | Some params =>
        match params !! name with
        | Some val => Strings.Replace cmdExp whole val
        | None => cmdExp
        end
    | None => cmdExp
    end
  else if String.eqb typ "i" then
    match inPaths with
    | Some inPaths =>
        match inPaths !! name with
        | Some val => Strings.Replace cmdExp whole val
        | None => cmdExp
        end
    | None => cmdExp
    end
  else if String.eqb typ "o" || String.eqb typ "os" then
    match outPaths with
    | Some outPaths =>
        match outPaths !! name with
        | Some val => Strings.Replace cmdExp whole val
        | None => cmdExp
        end
    | None => cmdExp
    end
  else cmdExp.

(** [expandCommandParamsAndPaths]. *)
Definition expandCommandParamsAndPaths (cmd : string)
    (params inPaths outPaths : option (gmap string string)) : string :=
  let r := getPlaceHolderRegex in
  let ms := r cmd in
  foldl (expandStep params inPaths outPaths) cmd ms.

(** [ShellExpand]. *)
Definition ShellExpand (cmd : string)
    (inPaths outPaths params : option (gmap string string)) : ShellProcess :=
  let cmdExp := expandCommandParamsAndPaths cmd params inPaths outPaths in
  let p := NewShellProcess cmdExp in
  initPortsFromCmdPattern p cmdExp params.

(** [ShExp] and [Sh], the short names. *)
Definition ShExp (cmd : string)
    (inPaths outPaths params : option (gmap string string)) : ShellProcess :=
  ShellExpand cmd inPaths outPaths params.

Definition Sh (cmd : string) : ShellProcess := Shell cmd.

End Expand.

(** [ShellTask.GetInPath]: the path of the input, a nil dereference when
    the task has no such input. *)
Definition GetInPath (t : Task.TaskData) (inPort : string) : outcome string :=
  match Task.InTargets t !! inPort with
  | Some ip => Ok (GetPath ip)
  | None => Fatal Process.nil_dereference
  end.

(** The value a map given to [ShellExpand] holds for a name, and the
    value the maps hold for a placeholder. *)
Definition held (mp : option (gmap string string)) (n : string) : option string :=
  mp ≫= (fun mp => mp !! n).

Definition expand_value (params inPaths outPaths : option (gmap string string))
    (m : Regex.submatch) : option string :=
  if String.eqb (Regex.typ m) "p" then held params (Regex.name m)
  else if String.eqb (Regex.typ m) "i" then held inPaths (Regex.name m)
  else if String.eqb (Regex.typ m) "o" || String.eqb (Regex.typ m) "os"
       then held outPaths (Regex.name m)
  else None.

(** The piece with its placeholder replaced by the value the maps hold
    for it, when they hold one. *)
Definition expand_seg (params inPaths outPaths : option (gmap string string))
    (sg : seg) : seg :=
  match sg with
  | Lit s => Lit s
  | Hole t n =>
      match expand_value params inPaths outPaths (hole_match t n) with
      | Some v => Lit v
      | None => Hole t n
      end
  end.

(** No value the maps hold for a placeholder of the pieces has an
    opening brace. *)
Definition clean_values (params inPaths outPaths : option (gmap string string))
    (segs : list seg) : Prop :=
  forall t n v, Hole t n ∈ segs ->
    expand_value params inPaths outPaths (hole_match t n) = Some v ->
    no_brace v = true.

(** Some match of [ms] has one of the kinds [kinds] and the name [n]. *)
Definition names_port (ms : list Regex.submatch) (kinds : list string) (n : string) : Prop :=
  exists m, m ∈ ms /\ Regex.typ m ∈ kinds /\ Regex.name m = n.

(** The test of [initPortsFromCmdPattern] for a parameter placeholder:
    the map is nil or holds no value, or the empty one, for the name. *)
Definition param_unset (params : option (gmap string string)) (n : string) : bool :=
  match params with
  | None => true
  | Some ps => String.eqb (lookup_str ps n) ""
  end.

(** The task as [NewShellTask] hands it to the path formatters: the
    inputs and the parameters are set, the out-targets and the command
    are not yet. *)
Definition task0 (inTargets : gmap string FileTarget) (params : gmap string string)
  : Task.TaskData :=
  {| Task.InTargets := inTargets; Task.OutTargets := ∅;
     Task.Params := params; Task.Command := "" |}.

(** The out-target of the port [name] with the formatter [f]: the path
    the formatter gives, streaming when the port is flagged so. *)
Definition out_target (doStreams : gmap string bool) (t : Task.TaskData)
    (name : string) (f : Task.PathFormatter) : option FileTarget :=
  match f t with
  | Ok p => Some {| path := p; doStream := default false (doStreams !! name);
                    auditInfo := None |}
  | _ => None
  end.

Definition out_targets (doStreams : gmap string bool) (t : Task.TaskData)
    (fmts : gmap string Task.PathFormatter) : gmap string FileTarget :=
  map_imap (out_target doStreams t) fmts.

(** A channel that holds a value; a channel on which a receive returns,
    with a value or because the channel is closed; the channel after one
    receive. *)
Definition has_item {A} (ch : Chan A) : bool :=
  match items ch with [] => false | _ :: _ => true end.

Definition serves {A} (ch : Chan A) : bool := has_item ch || closes ch.

Definition advance {A} (ch : Chan A) : Chan A :=
  {| items := tail (items ch); closes := closes ch |}.

(** The [k]-th value of every port that has one. *)
Definition nth_items {A} (k : nat) (m : gmap string (Chan A)) : gmap string A :=
  omap (fun ch => items ch !! k) m.

(** Every port of [m] holds a value. *)
Definition all_deliver {A} (m : gmap string (Chan A)) : bool :=
  bool_decide (map_Forall (fun _ ch => has_item ch = true) m).

(** Every port of [m] carries [n] values and is closed after them. *)
Definition streams {A} (n : nat) (m : gmap string (Chan A)) : Prop :=
  map_Forall (fun _ ch => length (items ch) = n /\ closes ch = true) m.

(** The process after every port was received from once. *)
Definition advance_ports (p : Process.ShellProcess) : Process.ShellProcess :=
  Process.set_ParamPorts
    (Process.set_InPorts p (advance <$> Process.InPorts p))
    (advance <$> Process.ParamPorts p).

(** The task [createTasks] makes from the [k]-th values of the ports. *)
Definition task_of `{GoEnv} (p : Process.ShellProcess) (k : nat) : outcome Task.ShellTask :=
  t ← Task.NewShellTask (Process.CommandPattern p) (nth_items k (Process.InPorts p))
         (Process.PathFormatters p) (Process.OutPortsDoStream p)
         (nth_items k (Process.ParamPorts p)) (Process.Prepend p);
  Ok match Process.CustomExecute p with
     | Some f => {| Task.data := Task.data t; Task.CustomExecute := Some f |}
     | None => t
     end.

(** How the goroutine of [createTasks] ends when making a task ends as
    [o]: with the close of the task channel, or as the attempt did. *)
Definition ending_of {A} (o : outcome A) : outcome unit := o ≫= (fun _ => Ok tt).

(* ===================================================================== *)
(** ** More of [ip.go]: the audit record of a packet                      *)
(* ===================================================================== *)

(** Modelled from the spec: the logger [Error] is not among the sources;
    section 7 of the specification says that a fatal error is logged and
    terminates the process, so [Error.Fatalf] ends the computation with
    the formatted message. *)
Definition Fatalf {A} (msg : string) : outcome A := Fatal msg.

Definition newline : string := String (Ascii.ascii_of_nat 10) EmptyString.

Definition missing_param (key p : string) : error :=
  "Could not find parameter " ++ key ++ " in ip with path: " ++ p ++ newline.

Definition missing_key (k p : string) : error :=
  "Could not find key " ++ k ++ " in ip with path: " ++ p ++ newline.

Definition key_conflict (v k old : string) : error :=
  "Can not add value " ++ v ++ " to existing key " ++ k
  ++ " with different value " ++ old ++ newline.

(** The panic of Go for [m[k] = v] on a nil map [m]. *)
Definition nil_map_assignment : error := "assignment to entry in nil map".

(** The [range] statement of [AddKeys]. *)
Definition site_AddKeys : nat := 9.

Section AuditRecord.
Context `{GoEnv}.
Context (unmarshal : string -> Audit.AuditInfo -> Audit.AuditInfo + error).

(** [SetAuditInfo]; the argument is a pointer and can be nil. *)
Definition SetAuditInfo (ip : InformationPacket) (ai : option Audit.AuditInfo)
  : InformationPacket :=
  {| path := path ip; doStream := doStream ip; auditInfo := ai |}.

(** [GetParam]: the packet as the call leaves it, and the value. *)
Definition GetParam (fs : FS) (ip : InformationPacket) (key : string)
  : outcome (InformationPacket * string) :=
  r ← GetAuditInfo unmarshal fs ip;
  let '(ip, ai) := r in
  match Audit.Params ai !! key with
  | Some val => Ok (ip, val)
  | None => Fatalf (missing_param key (GetPath ip))
  end.

(** [GetKey]. *)
Definition GetKey (fs : FS) (ip : InformationPacket) (k : string)
  : outcome (InformationPacket * string) :=
  r ← GetAuditInfo unmarshal fs ip;
  let '(ip, ai) := r in
  match Audit.Keys ai !! k with
  | Some v => Ok (ip, v)
  | None => Fatalf (missing_key k (GetPath ip))
  end.

(** [GetKeys]: the map of the record, [None] for a nil map. *)
Definition GetKeys (fs : FS) (ip : InformationPacket)
  : outcome (InformationPacket * option (gmap string string)) :=
  r ← GetAuditInfo unmarshal fs ip;
  let '(ip, ai) := r in
  Ok (ip, Audit.KeysMap ai).

(** [AddKey].  The record returned by [GetAuditInfo] is the one the
    packet holds, so the assignment to its map shows in the packet.  The
    two reads of [ai.Keys[k]] find nothing in a nil map, and the
    assignment [ai.Keys[k] = v] to a nil map panics. *)
Definition AddKey (fs : FS) (ip : InformationPacket) (k v : string)
  : outcome InformationPacket :=
  r ← GetAuditInfo unmarshal fs ip;
  let '(ip, ai) := r in
  if negb (String.eqb (lookup_str (Audit.Keys ai) k) "")
     && negb (String.eqb (lookup_str (Audit.Keys ai) k) v)
  then Fatalf (key_conflict v k (lookup_str (Audit.Keys ai) k))
  else
    match Audit.KeysMap ai with
    | Some keys =>
        Ok {| path := path ip; doStream := doStream ip;
              auditInfo := Some {| Audit.Params := Audit.Params ai;
                                   Audit.KeysMap := Some (<[k := v]> keys) |} |}
    | None => Fatal nil_map_assignment
    end.

(** [AddKeys]. *)
Fixpoint AddKeys_loop (fs : FS) (kvs : list (string * string)) (ip : InformationPacket)
  : outcome InformationPacket :=
  match kvs with
  | [] => Ok ip
  | (k, v) :: kvs' => ip' ← AddKey fs ip k v; AddKeys_loop fs kvs' ip'
  end.

Definition AddKeys (fs : FS) (ip : InformationPacket) (keys : gmap string string)
  : outcome InformationPacket :=
  AddKeys_loop fs (range site_AddKeys keys) ip.

End AuditRecord.

(** The key [k] of the record takes the value [v] without complaint: it
    has no value yet, or the empty one, or [v]. *)
Definition key_free (ai : Audit.AuditInfo) (k v : string) : Prop :=
  lookup_str (Audit.Keys ai) k = "" \/ lookup_str (Audit.Keys ai) k = v.

(** The packet holding the record [ai] with the keys [keys] added. *)
Definition with_keys (ip : InformationPacket) (ai : Audit.AuditInfo)
    (keys : gmap string string) : InformationPacket :=
  {| path := path ip; doStream := doStream ip;
     auditInfo := Some {| Audit.Params := Audit.Params ai;
                          Audit.KeysMap := Some (keys ∪ Audit.Keys ai) |} |}.

(* ===================================================================== *)
(** ** More of the port file: sending, receiving, closing                 *)
(* ===================================================================== *)

(** The function [Connect] of the port file. *)
Definition Connect_ports (port1 port2 : nat) (h : FP.Heap) : outcome FP.Heap :=
  FP.Connect port1 port2 h.

Module Wire.

(** What the channels hold, by reference, each as its reader will see
    it; a channel nothing was done to has no entry.  A send on a
    channel whose buffer is full waits for the reader: the model keeps
    what is sent, for a reader that goes on receiving. *)
Abbreviation Chans A := (gmap nat (Chan A)).

Definition chan_at {A} (cs : Chans A) (c : nat) : Chan A := default make_chan (cs !! c).

Definition send_on_closed : error := "send on closed channel".
Definition close_of_closed : error := "close of closed channel".
Definition close_of_nil : error := "close of nil channel".

(** [c <- x]: a send on a closed channel panics. *)
Definition chan_send {A} (c : nat) (x : A) (cs : Chans A) : outcome (Chans A) :=
  if closes (chan_at cs c) then Fatal send_on_closed
  else Ok (<[c := {| items := items (chan_at cs c) ++ [x]; closes := false |}]> cs).

(** [close(c)]: closing a closed channel panics. *)
Definition chan_close {A} (c : nat) (cs : Chans A) : outcome (Chans A) :=
  if closes (chan_at cs c) then Fatal close_of_closed
  else Ok (<[c := {| items := items (chan_at cs c); closes := true |}]> cs).

(** [<-c]. *)
Definition chan_recv {A} (c : nat) (cs : Chans A) : outcome (option A * Chans A) :=
  r ← recv (chan_at cs c);
  Ok (r.1, <[c := r.2]> cs).

(** [for _, c := range l { f c }] over a slice of channels. *)
Fixpoint each {A} (f : nat -> Chans A -> outcome (Chans A)) (l : list nat) (cs : Chans A)
  : outcome (Chans A) :=
  match l with
  | [] => Ok cs
  | c :: l' => cs' ← f c cs; each f l' cs'
  end.

Definition nil_dereference : error :=
  "runtime error: invalid memory address or nil pointer dereference".

(** [FilePort.Send]. *)
Definition Send (h : FP.Heap) (pt : nat) (ip : InformationPacket)
    (cs : Chans InformationPacket) : outcome (Chans InformationPacket) :=
  match FP.ports h !! pt with
  | Some fp => each (fun outChan => chan_send outChan ip) (FP.outChans fp) cs
  | None => Fatal nil_dereference
  end.

(** [FilePort.Close]. *)
Definition Close (h : FP.Heap) (pt : nat)
    (cs : Chans InformationPacket) : outcome (Chans InformationPacket) :=
  match FP.ports h !! pt with
  | Some fp => each (fun outChan => chan_close outChan) (FP.outChans fp) cs
  | None => Fatal nil_dereference
  end.

(** [FilePort.Recv]: the packet, [None] for the nil pointer a closed
    channel gives. *)
Definition Recv (h : FP.Heap) (pt : nat) (cs : Chans InformationPacket)
  : outcome (option InformationPacket * Chans InformationPacket) :=
  match FP.ports h !! pt with
  | Some fp => chan_recv (FP.InChan fp) cs
  | None => Fatal nil_dereference
  end.

(** [ParamPort.Send]; a send on a nil channel never returns. *)
Definition ParamSend (h : PP.Heap) (pp : nat) (param : string)
    (cs : Chans string) : outcome (Chans string) :=
  p ← PP.load pp h;
  match PP.Chan p with
  | Some c => chan_send c param cs
  | None => Blocked
  end.

(** [ParamPort.Recv]; a closed channel gives the empty string, a receive
    on a nil channel never returns. *)
Definition ParamRecv (h : PP.Heap) (pp : nat) (cs : Chans string)
  : outcome (string * Chans string) :=
  p ← PP.load pp h;
  match PP.Chan p with
  | Some c => r ← chan_recv c cs; Ok (default "" r.1, r.2)
  | None => Blocked
  end.

(** [ParamPort.Close]; closing a nil channel panics. *)
Definition ParamClose (h : PP.Heap) (pp : nat) (cs : Chans string)
  : outcome (Chans string) :=
  p ← PP.load pp h;
  match PP.Chan p with
  | Some c => chan_close c cs
  | None => Fatal close_of_nil
  end.

(** The goroutine [ConnectStr] starts: the strings are sent on the
    channel of the port, and the deferred [Close] runs at the end. *)
Fixpoint feed (h : PP.Heap) (pp : nat) (strings : list string) (cs : Chans string)
  : outcome (Chans string) :=
  match strings with
  | [] => Ok cs
  | str :: strings' => cs' ← ParamSend h pp str cs; feed h pp strings' cs'
  end.

Definition ConnectStr_goroutine (h : PP.Heap) (pp : nat) (strings : list string)
    (cs : Chans string) : outcome (Chans string) :=
  cs' ← feed h pp strings cs;
  ParamClose h pp cs'.

(** [k] calls of [ParamPort.Recv], the values in order. *)
Fixpoint ParamRecvs (k : nat) (h : PP.Heap) (pp : nat) (cs : Chans string)
  : outcome (list string * Chans string) :=
  match k with
  | O => Ok ([], cs)
  | S k' =>
      r ← ParamRecv h pp cs;
      rs ← ParamRecvs k' h pp r.2;
      Ok (r.1 :: rs.1, rs.2)
  end.

End Wire.

(* ===================================================================== *)
(** ** The packet generator ([ip.go])                                     *)
(* ===================================================================== *)

Module IPGen.

(** The struct [IPGen]; [Out] is the address of its port. *)
Record IPGen := { name : string; Out : nat; FilePaths : list string }.

(** [NewIPGen]; the registration with the workflow is not followed. *)
Definition NewIPGen (h : FP.Heap) (nm : string) (filePaths : list string)
  : IPGen * FP.Heap :=
  let '(a, h) := FP.NewFilePort h in
  ({| name := nm; Out := a; FilePaths := filePaths |}, h).

(** The loop of [Run]. *)
Fixpoint sends (h : FP.Heap) (out : nat) (filePaths : list string)
    (cs : Wire.Chans InformationPacket) : outcome (Wire.Chans InformationPacket) :=
  match filePaths with
  | [] => Ok cs
  | fp :: filePaths' =>
      cs' ← Wire.Send h out (NewInformationPacket fp) cs;
      sends h out filePaths' cs'
  end.

(** [IPGen.Run]; the deferred [Close] runs when the loop is left. *)
Definition Run (h : FP.Heap) (ipg : IPGen)
    (cs : Wire.Chans InformationPacket) : outcome (Wire.Chans InformationPacket) :=
  cs' ← sends h (Out ipg) (FilePaths ipg) cs;
  Wire.Close h (Out ipg) cs'.

Definition Name (ipg : IPGen) : string := name ipg.

Definition IsConnected (h : FP.Heap) (ipg : IPGen) : bool := FP.IsConnected (Out ipg) h.

End IPGen.

(* ===================================================================== *)
(** ** The string-to-byte component ([components/strtobyte.go])           *)
(* ===================================================================== *)

Module StrToByte.

(** [[]byte(line)]. *)
Definition bytes_of (line : string) : list Byte.byte := list_byte_of_string line.

(** The state the component works on is its channel [Out] as the
    reader will see it. *)
Definition send (b : list Byte.byte) : Prog (Chan (list Byte.byte)) unit :=
  fun ch => ({| items := items ch ++ [b]; closes := closes ch |}, Ok tt).

Definition close : Prog (Chan (list Byte.byte)) unit :=
  fun ch => ({| items := items ch; closes := true |}, Ok tt).

(** [for line := range proc.In { proc.Out <- []byte(line) }] on the
    lines the channel [In] holds: the loop is left when the channel is
    closed and drained, and not before. *)
Fixpoint loop (lines : list string) (closed : bool) : Prog (Chan (list Byte.byte)) unit :=
  match lines with
  | line :: lines' => send (bytes_of line) ;; loop lines' closed
  | [] => if closed then mret tt else lift Blocked
  end.

(** [strToByte.Run]; the deferred [close(proc.Out)] runs at the return. *)
Definition Run (In : Chan string) : Prog (Chan (list Byte.byte)) unit :=
  loop (items In) (closes In) ;; close.

End StrToByte.

(** The out-channels of the port are different channels, all open. *)
Definition outs_open {A} (l : list nat) (cs : Wire.Chans A) : Prop :=
  NoDup l /\ forall c, c ∈ l -> closes (Wire.chan_at cs c) = false.

(** The channels of [l] after the values [xs] were sent on each, closed
    or not; the other channels as they are. *)
Definition sent_on {A} (l : list nat) (xs : list A) (closed : bool)
    (cs cs' : Wire.Chans A) : Prop :=
  forall c,
    Wire.chan_at cs' c
    = if bool_decide (c ∈ l)
      then {| items := items (Wire.chan_at cs c) ++ xs;
              closes := closed || closes (Wire.chan_at cs c) |}
      else Wire.chan_at cs c.

(* ===================================================================== *)
(** ** More of [ip.go]: the bytes of a packet                             *)
(* ===================================================================== *)

(** [ioutil.WriteFile(p, dat, 0644)]: the file is created, or truncated,
    and holds [dat].  A node whose bytes cannot be read stands for a
    file the process has no access to: writing to it is an error.
    Directories are not part of the model of the file system. *)
Definition ioutil_WriteFile (fs : FS) (p : string) (dat : string) : FS + error :=
  match fs !! p with
  | Some Unreadable => inr ("open " ++ p ++ ": permission denied")
  | _ => inl (<[p := Readable dat]> fs)
  end.

(** [InformationPacket.Read]. *)
Definition Read (fs : FS) (ip : InformationPacket) : outcome string :=
  match ioutil_ReadFile fs (GetPath ip) with
  | inl dat => Ok dat
  | inr err => Check (Some err) ;; Ok ""
  end.

(** [InformationPacket.WriteTempFile]. *)
Definition WriteTempFile (fs : FS) (ip : InformationPacket) (dat : string) : outcome FS :=
  match ioutil_WriteFile fs (GetTempPath ip) dat with
  | inl fs' => Ok fs'
  | inr err => Check (Some err) ;; Ok fs
  end.

(** The file system after [k] sleeps of one second. *)
Definition ticks `{GoEnv} (k : nat) (fs : FS) : FS := Nat.iter k tick fs.

(** An environment like [sorted_env] in which [mkfifo p] makes the file
    [p]. *)
Definition mkfifo_env : GoEnv := {|
  range := fun V _ m => map_to_list m;
  range_perm := fun V _ m => reflexivity (map_to_list m);
  bash := fun cmd fs =>
    match cmd with
    | String "m" (String "k" (String "f" (String "i" (String "f" (String "o"
        (String " " p)))))) => inl (<[p := Readable ""]> fs)
    | _ => inl fs
    end;
  tick := fun fs => fs
|}.

(** The shell command [mkfifo p], when it succeeds, makes the file [p]
    and no other.  The command line of [CreateFifo] is the path behind
    the word [mkfifo], unquoted, so this is a property of the path as
    much as of the shell: a path with a blank in it names two files. *)
Definition mkfifo_makes `{GoEnv} (p : string) : Prop :=
  forall fs fs', bash ("mkfifo " ++ p) fs = inl fs' ->
    forall q, os_Stat fs' q = if decide (q = p) then true else os_Stat fs q.

(** [mkfifo] makes the FIFO of each streaming out-target of the task. *)
Definition mkfifo_makes_fifos `{GoEnv} (t : Task.ShellTask) : Prop :=
  forall name tgt, Task.OutTargets (Task.data t) !! name = Some tgt ->
    doStream tgt = true -> mkfifo_makes (GetFifoPath tgt).

(** An environment like [sorted_env] in which the words behind [mkfifo]
    are taken one by one, as the shell does for the unquoted path
    [my s.fifo]: the files [my] and [s.fifo] are made. *)
Definition split_env : GoEnv := {|
  range := fun V _ m => map_to_list m;
  range_perm := fun V _ m => reflexivity (map_to_list m);
  bash := fun cmd fs =>
    if String.eqb cmd "mkfifo my s.fifo"
    then inl (<["my" := Readable ""]> (<["s.fifo" := Readable ""]> fs))
    else inl fs;
  tick := fun fs => fs
|}.

(** An environment like [sorted_env] in which the temp file of the
    output [out.txt] shows up during the first sleep. *)
Definition late_env : GoEnv := {|
  range := fun V _ m => map_to_list m;
  range_perm := fun V _ m => reflexivity (map_to_list m);
  bash := fun _ fs => inl fs;
  tick := fun fs => <["out.txt.tmp" := Readable "hello"]> fs
|}.

(** [WriteAuditLogToFile]; [marshal] is [json.MarshalIndent] of the
    record.  The result is the packet and the file system as the call
    leaves them. *)
Definition WriteAuditLogToFile
    (unmarshal : string -> Audit.AuditInfo -> Audit.AuditInfo + error)
    (marshal : Audit.AuditInfo -> string + error)
    (fs : FS) (ip : InformationPacket) : outcome (InformationPacket * FS) :=
  r ← GetAuditInfo unmarshal fs ip;
  let '(ip, auditInfo) := r in
  match marshal auditInfo with
  | inl auditInfoJson =>
      match ioutil_WriteFile fs (GetAuditFilePath ip) auditInfoJson with
      | inl fs' => Ok (ip, fs')
      | inr writeErr => Check (Some writeErr) ;; Ok (ip, fs)
      end
  | inr jsonErr => Check (Some jsonErr) ;; Ok (ip, fs)
  end.

(** The error of the round of the loop of [formatCommand] for a
    placeholder [m] that has no text, on the command [cmd] as the rounds
    before left it: an output placeholder names the missing out-target,
    an input placeholder the missing in-target or its empty path, a
    parameter placeholder the missing value, and a placeholder of
    another kind ends in the empty-substitution error. *)
Definition unbound_error (inTargets : gmap string FileTarget)
    (cmd : string) (m : Regex.submatch) : error :=
  let typ := Regex.typ m in
  let name := Regex.name m in
  if String.eqb typ "o" || String.eqb typ "os" then
    Sprint ["Missing outpath for outport '"; name; "' for command '"; cmd; "'"]
  else if String.eqb typ "i" then
    match inTargets !! name with
    | None => Sprint ["Missing intarget for inport '"; name; "' for command '"; cmd; "'"]
    | Some _ => Sprint ["Missing inpath for inport '"; name; "' for command '"; cmd; "'"]
    end
  else if String.eqb typ "p" then
    Sprint ["Missing param value param '"; name; "' for command '"; cmd; "'"]
  else replace_failed name cmd.


(* ===================================================================== *)
(** * Properties                                                          *)
(* ===================================================================== *)

(** ** The command formatter *)

Section FormatFacts.
Variables (inTargets outTargets : gmap string FileTarget).
Variable params : gmap string string.

Lemma append_nonempty_r (a b : string) : b <> "" -> a ++ b <> "".
Proof. destruct a; simpl; [auto | discriminate]. Qed.

Lemma eqb_empty_false (s : string) : s <> "" -> String.eqb s "" = false.
Proof. intros Hs. apply String.eqb_neq. exact Hs. Qed.

(** A text the specification gives to a placeholder is never empty. *)
Lemma spec_binding_nonempty m v :
  spec_binding inTargets outTargets params m = Some v -> v <> "".
Proof.
  unfold spec_binding.
  destruct (String.eqb (Regex.typ m) "o").
  { destruct (outTargets !! Regex.name m); simpl; [|discriminate].
    intros [= <-]. apply append_nonempty_r. discriminate. }
  destruct (String.eqb (Regex.typ m) "os").
  { destruct (outTargets !! Regex.name m); simpl; [|discriminate].
    intros [= <-]. apply append_nonempty_r. discriminate. }
  destruct (String.eqb (Regex.typ m) "i").
  { destruct (inTargets !! Regex.name m) as [tgt|]; simpl; [|discriminate].
    destruct (String.eqb (path tgt) "") eqn:Ep; [discriminate|].
    apply String.eqb_neq in Ep.
    intros [= <-]. destruct (doStream tgt); [|exact Ep].
    apply append_nonempty_r. discriminate. }
  destruct (String.eqb (Regex.typ m) "p"); [|discriminate].
  destruct (params !! Regex.name m) as [x|]; simpl; [|discriminate].
  destruct (String.eqb x "") eqn:Ex; [discriminate|].
  apply String.eqb_neq in Ex. intros [= <-]. exact Ex.
Qed.

(** One round of the loop, for a placeholder that has a text. *)
Lemma formatStep_bound cmd m v :
  spec_binding inTargets outTargets params m = Some v ->
  formatStep inTargets outTargets params cmd m
  = Ok (Strings.Replace cmd (Regex.whole m) v).
Proof.
  intros Hb. pose proof (spec_binding_nonempty _ _ Hb) as Hne.
  apply eqb_empty_false in Hne.
  revert Hb Hne. unfold spec_binding, formatStep, lookup_str, GetTempPath, GetFifoPath, GetPath.
  destruct (String.eqb (Regex.typ m) "o") eqn:Eo; simpl.
  { destruct (outTargets !! Regex.name m) as [tgt|]; simpl; [|discriminate].
    intros [= <-] Hne. simpl. rewrite Hne. reflexivity. }
  destruct (String.eqb (Regex.typ m) "os") eqn:Eos; simpl.
  { destruct (outTargets !! Regex.name m) as [tgt|]; simpl; [|discriminate].
    intros [= <-] Hne. simpl. rewrite Hne. reflexivity. }
  destruct (String.eqb (Regex.typ m) "i") eqn:Ei; simpl.
  { destruct (inTargets !! Regex.name m) as [tgt|]; simpl; [|discriminate].
    destruct (String.eqb (path tgt) ""); [discriminate|].
    intros [= <-] Hne. destruct (doStream tgt); simpl; rewrite Hne; reflexivity. }
  destruct (String.eqb (Regex.typ m) "p") eqn:Ep; simpl; [|discriminate].
  destruct (params !! Regex.name m) as [x|]; simpl; [|discriminate].
  destruct (String.eqb x "") eqn:Ex; [discriminate|].
  intros [= <-] Hne. simpl. rewrite Ex. reflexivity.
Qed.

(** One round of the loop, for a placeholder that has none: [Check] is
    called with an error. *)
Lemma formatStep_unbound cmd m :
  spec_binding inTargets outTargets params m = None ->
  exists e, formatStep inTargets outTargets params cmd m = Fatal e.
Proof.
  unfold spec_binding, formatStep, lookup_str, GetTempPath, GetFifoPath, GetPath.
  destruct (String.eqb (Regex.typ m) "o") eqn:Eo; simpl.
  { destruct (outTargets !! Regex.name m) as [tgt|]; simpl; [discriminate|].
    intros _. eexists. reflexivity. }
  destruct (String.eqb (Regex.typ m) "os") eqn:Eos; simpl.
  { destruct (outTargets !! Regex.name m) as [tgt|]; simpl; [discriminate|].
    intros _. eexists. reflexivity. }
  destruct (String.eqb (Regex.typ m) "i") eqn:Ei; simpl.
  { destruct (inTargets !! Regex.name m) as [tgt|]; simpl;
      [|intros _; eexists; reflexivity].
    destruct (String.eqb (path tgt) ""); [|discriminate].
    intros _. eexists. reflexivity. }
  destruct (String.eqb (Regex.typ m) "p") eqn:Ep; simpl;
    [|intros _; eexists; reflexivity].
  destruct (params !! Regex.name m) as [x|]; simpl;
    [|intros _; eexists; reflexivity].
  destruct (String.eqb x "") eqn:Ex; [|discriminate].
  intros _. eexists. reflexivity.
Qed.

Lemma formatLoop_bound ms : forall vs cmd,
  mapM (spec_binding inTargets outTargets params) ms = Some vs ->
  formatLoop inTargets outTargets params ms cmd = Ok (replace_each cmd (zip ms vs)).
Proof.
  induction ms as [|m ms IH]; intros vs cmd Hvs; simpl in *.
  - injection Hvs as <-. reflexivity.
  - destruct (spec_binding inTargets outTargets params m) as [v|] eqn:Hb;
      simpl in Hvs; [|discriminate].
    destruct (mapM (spec_binding inTargets outTargets params) ms) as [vs'|] eqn:Hm;
      simpl in Hvs; [|discriminate].
    injection Hvs as <-.
    rewrite (formatStep_bound _ _ _ Hb). simpl.
    unfold replace_each in *. simpl. apply IH. reflexivity.
Qed.

Lemma formatLoop_unbound ms : forall cmd,
  mapM (spec_binding inTargets outTargets params) ms = None ->
  exists e, formatLoop inTargets outTargets params ms cmd = Fatal e.
Proof.
  induction ms as [|m ms IH]; intros cmd Hvs; simpl in *; [discriminate|].
  destruct (spec_binding inTargets outTargets params m) as [v|] eqn:Hb.
  - rewrite (formatStep_bound _ _ _ Hb). simpl.
    apply IH.
    destruct (mapM (spec_binding inTargets outTargets params) ms); [discriminate|reflexivity].
  - destruct (formatStep_unbound cmd m Hb) as [e He]. rewrite He. simpl. eauto.
Qed.

End FormatFacts.

(** The formatter, round by round: when every placeholder has a text the
    result is the template with, for each placeholder in turn, every
    occurrence of its text replaced in the command built so far; when some
    placeholder has none the result is a fatal error. *)
Lemma formatCommand_rounds
    (cmd : string) (inTargets outTargets : gmap string FileTarget)
    (params : gmap string string) (prepend : string) :
  match mapM (spec_binding inTargets outTargets params) (getPlaceHolderRegex cmd) with
  | Some vs =>
      formatCommand cmd inTargets outTargets params prepend
      = Ok (add_prepend prepend (replace_each cmd (zip (getPlaceHolderRegex cmd) vs)))
  | None =>
      exists e, formatCommand cmd inTargets outTargets params prepend = Fatal e
  end.
Proof.
  destruct (mapM _ _) as [vs|] eqn:Hm; unfold formatCommand.
  - rewrite (formatLoop_bound _ _ _ _ _ _ Hm). simpl. unfold add_prepend.
    destruct (String.eqb prepend ""); reflexivity.
  - destruct (formatLoop_unbound _ _ _ _ cmd Hm) as [e He].
    rewrite He. simpl. eauto.
Qed.

(** C1, as the claim has it, fails: with the parameter [a] bound to the
    text of the placeholder of [b], the place of [{p:a}] does not end up
    holding the value of [a], because the round for [{p:b}] rewrites it. *)
Lemma formatCommand_rewrites_substituted_text :
  let params : gmap string string := {[ "a" := "{p:b}"; "b" := "x" ]} in
  spec_formatCommand "{p:a} {p:b}" ∅ ∅ params "" = Some "{p:b} x"
  /\ formatCommand "{p:a} {p:b}" ∅ ∅ params "" = Ok "x x"
  /\ ~ (forall c, spec_formatCommand "{p:a} {p:b}" ∅ ∅ params "" = Some c ->
                  formatCommand "{p:a} {p:b}" ∅ ∅ params "" = Ok c).
Proof.
  split; [vm_compute; reflexivity|].
  split; [vm_compute; reflexivity|].
  intros Hc. specialize (Hc "{p:b} x" ltac:(vm_compute; reflexivity)).
  vm_compute in Hc. discriminate.
Qed.

(** ** The [is] placeholder *)

Section IsPlaceholder.
Context `{GoEnv}.

Lemma spec_binding_is inTargets outTargets params m :
  Regex.typ m = "is" -> spec_binding inTargets outTargets params m = None.
Proof. intros Ht. unfold spec_binding. rewrite Ht. reflexivity. Qed.

Lemma formatStep_is inTargets outTargets params cmd m :
  Regex.typ m = "is" ->
  formatStep inTargets outTargets params cmd m
  = Fatal (replace_failed (Regex.name m) cmd).
Proof. intros Ht. unfold formatStep. rewrite Ht. reflexivity. Qed.

Lemma initPort_is params p m :
  Regex.typ m = "is" -> Process.initPort params p m = p.
Proof. intros Ht. unfold Process.initPort. rewrite Ht. reflexivity. Qed.

Lemma mapM_is_None inTargets outTargets params ms :
  Exists (fun m => Regex.typ m = "is") ms ->
  mapM (spec_binding inTargets outTargets params) ms = None.
Proof.
  induction 1 as [m ms Ht | m ms _ IH]; simpl.
  - rewrite (spec_binding_is _ _ _ _ Ht). reflexivity.
  - rewrite IH. destruct (spec_binding _ _ _ m); reflexivity.
Qed.

Lemma formatLoop_stops_at inTargets outTargets params pre : forall vs m post cmd e,
  mapM (spec_binding inTargets outTargets params) pre = Some vs ->
  formatStep inTargets outTargets params (replace_each cmd (zip pre vs)) m = Fatal e ->
  formatLoop inTargets outTargets params (pre ++ m :: post) cmd = Fatal e.
Proof.
  induction pre as [|a pre IH]; intros vs m post cmd e Hvs Hm; simpl in *.
  - injection Hvs as <-. simpl in Hm. rewrite Hm. reflexivity.
  - destruct (spec_binding inTargets outTargets params a) as [v|] eqn:Hb;
      simpl in Hvs; [|discriminate].
    destruct (mapM (spec_binding inTargets outTargets params) pre) as [vs'|] eqn:Hp;
      simpl in Hvs; [|discriminate].
    injection Hvs as <-.
    rewrite (formatStep_bound _ _ _ _ _ _ Hb). simpl.
    eapply IH; [reflexivity | exact Hm].
Qed.

Lemma formatCommand_Fatal_bind cmd inTargets outTargets params prepend e :
  formatLoop inTargets outTargets params (getPlaceHolderRegex cmd) cmd = Fatal e ->
  formatCommand cmd inTargets outTargets params prepend = Fatal e.
Proof. intros He. unfold formatCommand. rewrite He. reflexivity. Qed.

(** One round of the loop, for a placeholder that has no text: the
    error, by the kind of the placeholder. *)
Lemma formatStep_unbound_error inTargets outTargets params cmd m :
  spec_binding inTargets outTargets params m = None ->
  formatStep inTargets outTargets params cmd m
  = Fatal (unbound_error inTargets cmd m).
Proof.
  unfold spec_binding, formatStep, unbound_error, lookup_str,
    GetTempPath, GetFifoPath, GetPath.
  destruct (String.eqb (Regex.typ m) "o") eqn:Eo; simpl.
  { destruct (outTargets !! Regex.name m) as [tgt|]; simpl; [discriminate|].
    intros _. reflexivity. }
  destruct (String.eqb (Regex.typ m) "os") eqn:Eos; simpl.
  { destruct (outTargets !! Regex.name m) as [tgt|]; simpl; [discriminate|].
    intros _. reflexivity. }
  destruct (String.eqb (Regex.typ m) "i") eqn:Ei; simpl.
  { destruct (inTargets !! Regex.name m) as [tgt|]; simpl;
      [|intros _; reflexivity].
    destruct (String.eqb (path tgt) ""); [|discriminate].
    intros _. reflexivity. }
  destruct (String.eqb (Regex.typ m) "p") eqn:Ep; simpl;
    [|intros _; reflexivity].
  destruct (params !! Regex.name m) as [x|]; simpl;
    [|intros _; reflexivity].
  destruct (String.eqb x "") eqn:Ex; [|discriminate].
  intros _. reflexivity.
Qed.

Lemma unbound_error_is inTargets cmd m :
  Regex.typ m = "is" -> unbound_error inTargets cmd m = replace_failed (Regex.name m) cmd.
Proof. intros Ht. unfold unbound_error. rewrite Ht. reflexivity. Qed.

(** The first element of a list that [f] gives nothing for. *)
Lemma mapM_first_None {A B} (f : A -> option B) (l : list A) :
  mapM f l = None ->
  exists ms m ms' vs,
    l = (ms ++ m :: ms')%list /\ mapM f ms = Some vs /\ f m = None.
Proof.
  induction l as [|a l IH]; simpl; [discriminate|].
  destruct (f a) as [v|] eqn:Ha; simpl.
  - destruct (mapM f l) as [vs|] eqn:Hl; simpl; [discriminate|].
    intros _. destruct (IH eq_refl) as (ms & m & ms' & vs & -> & Hms & Hm).
    exists (a :: ms), m, ms', (v :: vs). split; [reflexivity|].
    split; [|exact Hm]. simpl. rewrite Ha, Hms. reflexivity.
  - intros _. exists [], a, l, []. repeat split; assumption.
Qed.

(** The formatter stops at the first placeholder without text, with the
    error of that placeholder on the command as replaced so far. *)
Lemma formatCommand_first_unbound cmd inTargets outTargets params prepend ms m ms' vs :
  getPlaceHolderRegex cmd = (ms ++ m :: ms')%list ->
  mapM (spec_binding inTargets outTargets params) ms = Some vs ->
  spec_binding inTargets outTargets params m = None ->
  formatCommand cmd inTargets outTargets params prepend
  = Fatal (unbound_error inTargets (replace_each cmd (zip ms vs)) m).
Proof.
  intros Hms Hvs Hm. apply formatCommand_Fatal_bind. rewrite Hms.
  eapply formatLoop_stops_at; [exact Hvs|].
  apply formatStep_unbound_error. exact Hm.
Qed.

(** A match of kind [is] registers no port, and a template that has one
    cannot be formatted. *)
Lemma is_match_is_fatal
    (cmd : string) (inTargets : gmap string FileTarget)
    (params : gmap string string) (prepend : string) :
  Exists (fun m => Regex.typ m = "is") (getPlaceHolderRegex cmd) ->
  (forall ps p m, m ∈ getPlaceHolderRegex cmd -> Regex.typ m = "is" ->
                  Process.initPort ps p m = p)
  /\ (forall outTargets,
        exists e, formatCommand cmd inTargets outTargets params prepend = Fatal e)
  /\ (forall fmts doStreams,
        is_Ok (Task.NewShellTask cmd inTargets fmts doStreams params prepend) = false)
  /\ (forall outTargets pre m post vs,
        getPlaceHolderRegex cmd = (pre ++ m :: post)%list ->
        Regex.typ m = "is" ->
        mapM (spec_binding inTargets outTargets params) pre = Some vs ->
        formatCommand cmd inTargets outTargets params prepend
        = Fatal (replace_failed (Regex.name m) (replace_each cmd (zip pre vs)))).
Proof.
  intros Hex.
  assert (Hfatal : forall outTargets,
    exists e, formatCommand cmd inTargets outTargets params prepend = Fatal e).
  { intros outTargets.
    destruct (formatLoop_unbound inTargets outTargets params _ cmd
                (mapM_is_None _ _ _ _ Hex)) as [e He].
    exists e. apply formatCommand_Fatal_bind. exact He. }
  split; [|split; [exact Hfatal|split]].
  - intros ps p m _ Ht. apply initPort_is. exact Ht.
  - intros fmts doStreams. unfold Task.NewShellTask.
    destruct (Task.makeOutTargets _ _ _ _) as [outs| | |]; simpl; try reflexivity.
    destruct (Hfatal outs) as [e He]. rewrite He. reflexivity.
  - intros outTargets pre m post vs Hms Ht Hvs.
    apply formatCommand_Fatal_bind. rewrite Hms.
    eapply formatLoop_stops_at; [exact Hvs|].
    apply formatStep_is. exact Ht.
Qed.

End IsPlaceholder.

(** ** The audit record of a packet *)

(** C7 on the code: the audit file of the packet exists and cannot be
    read; [GetAuditInfo] returns the empty record and caches it, where
    [ReadAuditFile] on the same file ends with the read error. *)
Lemma GetAuditInfo_swallows_read_error
    (unmarshal : string -> Audit.AuditInfo -> Audit.AuditInfo + error) :
  let fs : FS := {[ "a.txt.audit.json" := Unreadable ]} in
  let ip := NewInformationPacket "a.txt" in
  os_Stat fs (GetAuditFilePath ip) = true
  /\ GetAuditInfo unmarshal fs ip
     = Ok ({| path := "a.txt"; doStream := false;
              auditInfo := Some Audit.NewAuditInfo |}, Audit.NewAuditInfo)
  /\ ReadAuditFile fs ip = Fatal "open a.txt.audit.json: permission denied".
Proof. repeat split; vm_compute; reflexivity. Qed.

(** ** Parameter ports *)

Section ParamConnect.
Import PP.

Ltac run_connect :=
  unfold Connect, set_Chan, SetConnectedStatus, update, load, make; simpl;
  repeat (first [ rewrite lookup_insert_eq | rewrite lookup_insert_ne by congruence
                | match goal with H : ports _ !! _ = Some _ |- _ => rewrite H end ];
          simpl).

Ltac shared_tac :=
  unfold PP_shared, IsConnected; simpl;
  repeat split;
  repeat (first [ rewrite lookup_insert_eq | rewrite lookup_insert_ne by congruence ]);
  try reflexivity;
  try (intros; repeat rewrite lookup_insert_ne by congruence; reflexivity).

(** C6.  Connecting two parameter ports that both hold a channel is the
    fatal error.  In every other case the call returns, and afterwards
    both ports hold the same channel and are marked connected: the
    channel one of them held when exactly one held one, and a channel
    made by the call, which no port held before, when neither did. *)
Theorem ParamPort_Connect_shares (h : Heap) (pp other : nat) (l o : ParamPort) :
  ports h !! pp = Some l ->
  ports h !! other = Some o ->
  match Chan l, Chan o with
  | Some _, Some _ => Connect pp other h = Fatal both_initialized
  | Some c, None | None, Some c =>
      exists h', Connect pp other h = Ok h' /\ PP_shared h h' pp other c
                 /\ chans h' = chans h
  | None, None =>
      exists h', Connect pp other h = Ok h' /\ PP_shared h h' pp other (chans h)
                 /\ chans h' = S (chans h)
                 /\ (PP_wf h -> forall a q, ports h !! a = Some q -> Chan q <> Some (chans h))
  end.
Proof.
  intros Hl Ho.
  destruct l as [[cl|] kl], o as [[co|] ko]; simpl.
  - unfold Connect, load. rewrite Hl, Ho. reflexivity.
  - destruct (decide (pp = other)) as [->|Hne]; [congruence|].
    eexists. split; [run_connect; reflexivity|]. split; [|reflexivity].
    shared_tac.
  - destruct (decide (pp = other)) as [->|Hne]; [congruence|].
    eexists. split; [run_connect; reflexivity|]. split; [|reflexivity].
    shared_tac.
  - destruct (decide (pp = other)) as [->|Hne].
    + eexists. split; [run_connect; reflexivity|].
      split; [shared_tac|]. split; [reflexivity|].
      intros Hwf a q Ha Hq. specialize (Hwf a q _ Ha Hq). lia.
    + eexists. split; [run_connect; reflexivity|].
      split; [shared_tac|]. split; [reflexivity|].
      intros Hwf a q Ha Hq. specialize (Hwf a q _ Ha Hq). lia.
Qed.

End ParamConnect.

Lemma ParamPort_Connect_shares_witness :
  let h := snd (PP.NewParamPort (snd (PP.NewParamPort PP.empty_heap))) in
  PP.ports h !! 0 = Some {| PP.Chan := None; PP.connected := false |}
  /\ PP.ports h !! 1 = Some {| PP.Chan := None; PP.connected := false |}
  /\ exists h', PP.Connect 0 1 h = Ok h' /\ PP_shared h h' 0 1 0
                /\ PP.chans h' = 1
                /\ (PP_wf h -> forall a q, PP.ports h !! a = Some q -> PP.Chan q <> Some 0).
Proof.
  intros h.
  assert (H0 : PP.ports h !! 0 = Some {| PP.Chan := None; PP.connected := false |})
    by (vm_compute; reflexivity).
  assert (H1 : PP.ports h !! 1 = Some {| PP.Chan := None; PP.connected := false |})
    by (vm_compute; reflexivity).
  split; [exact H0|]. split; [exact H1|].
  exact (ParamPort_Connect_shares h 0 1 _ _ H0 H1).
Defined.

(** Scenario (6) of the specification: two ports that were each connected
    to literals are connected to each other. *)
Example ambiguous_param_connect :
  let h0 := snd (PP.NewParamPort (snd (PP.NewParamPort PP.empty_heap))) in
  (h1 ← PP.ConnectStr 0 h0; h2 ← PP.ConnectStr 1 h1; PP.Connect 0 1 h2)
  = Fatal PP.both_initialized.
Proof. vm_compute. reflexivity. Qed.

(** ** File ports *)

Section FileConnect.
Import FP.

Ltac wired_tac :=
  unfold FP_wired; simpl;
  repeat (case_decide; try (exfalso; (tauto || congruence)));
  simpl; rewrite ?app_nil_r, <- ?app_assoc; reflexivity.

(** What one [Connect] does to the heap. *)
Lemma Connect_wires (h : Heap) (local remote : nat) :
  is_Some (ports h !! local) -> is_Some (ports h !! remote) ->
  exists h', Connect local remote h = Ok h'
    /\ chans h' = S (S (chans h))
    /\ forall a, ports h' !! a
                 = FP_wired local remote (chans h) (S (chans h)) a <$> ports h !! a.
Proof.
  intros [pl Hl] [pr Hr].
  unfold Connect, AddInChan, AddOutChan, SetConnectedStatus, update, make. simpl.
  destruct (decide (local = remote)) as [->|Hne].
  - rewrite Hl in Hr. injection Hr as <-.
    repeat (first [rewrite Hl | rewrite lookup_insert_eq]; simpl).
    eexists. split; [reflexivity|]. split; [reflexivity|].
    intros a. simpl. destruct (decide (a = remote)) as [->|Ha].
    + rewrite lookup_insert_eq, Hl. wired_tac.
    + rewrite !lookup_insert_ne by congruence.
      destruct (ports h !! a) as [fp|] eqn:Ea; simpl; [|reflexivity].
      destruct fp. wired_tac.
  - repeat (first [rewrite Hl | rewrite Hr | rewrite lookup_insert_eq
                  | rewrite lookup_insert_ne by congruence]; simpl).
    eexists. split; [reflexivity|]. split; [reflexivity|].
    intros a. simpl.
    destruct (decide (a = local)) as [->|Hal]; [|destruct (decide (a = remote)) as [->|Har]].
    + rewrite lookup_insert_ne by congruence. rewrite lookup_insert_eq, Hl. wired_tac.
    + rewrite lookup_insert_eq, Hr. wired_tac.
    + rewrite !lookup_insert_ne by congruence.
      destruct (ports h !! a) as [fp|] eqn:Ea; simpl; [|reflexivity].
      destruct fp. wired_tac.
Qed.

Lemma Connect_Ok_allocated (h h' : Heap) (local remote : nat) :
  Connect local remote h = Ok h' ->
  is_Some (ports h !! local) /\ is_Some (ports h !! remote).
Proof.
  unfold Connect, AddInChan, AddOutChan, update, make. simpl.
  destruct (ports h !! local) as [pl|] eqn:Hl; simpl; [|discriminate].
  destruct (decide (remote = local)) as [->|Hne].
  - intros _. rewrite Hl. split; eauto.
  - rewrite lookup_insert_ne by congruence.
    destruct (ports h !! remote) as [pr|] eqn:Hr; simpl; [|discriminate].
    intros _. split; eauto.
Qed.

Lemma elem_of_wired_inChans local remote c_in c_out a fp c :
  c ∈ inChans (FP_wired local remote c_in c_out a fp)
  <-> c ∈ inChans fp \/ (a = local /\ c = c_in) \/ (a = remote /\ c = c_out).
Proof.
  unfold FP_wired. simpl. rewrite !elem_of_app.
  destruct (decide (a = local)), (decide (a = remote));
    rewrite ?list_elem_of_singleton, ?elem_of_nil; intuition congruence.
Qed.

Lemma NoDup_wired_inChans local remote c_in c_out a fp :
  NoDup (inChans fp) -> c_in ∉ inChans fp -> c_out ∉ inChans fp -> c_in <> c_out ->
  NoDup (inChans (FP_wired local remote c_in c_out a fp)).
Proof.
  intros Hnd Hin Hout Hne. unfold FP_wired. simpl.
  apply NoDup_app. split; [exact Hnd|]. split.
  - intros c Hc. rewrite elem_of_app.
    destruct (decide (a = local)), (decide (a = remote));
      rewrite ?list_elem_of_singleton, ?elem_of_nil; intuition congruence.
  - destruct (decide (a = local)), (decide (a = remote)); simpl; repeat constructor;
      rewrite ?list_elem_of_singleton, ?elem_of_nil; intuition congruence.
Qed.

(** [Connect] keeps the registration of the inbound channels unique. *)
Lemma Connect_preserves (h h' : Heap) (local remote : nat) :
  Connect local remote h = Ok h' ->
  FP_inbound_once h /\ FP_inbound_made h ->
  FP_inbound_once h' /\ FP_inbound_made h'.
Proof.
  intros HC [[Hnd Hdisj] Hmade].
  destruct (Connect_Ok_allocated _ _ _ _ HC) as [Hl Hr].
  destruct (Connect_wires h local remote Hl Hr) as (h2 & HC2 & Hch & Hports).
  rewrite HC in HC2. injection HC2 as <-.
  assert (Hold : forall a fp', ports h' !! a = Some fp' ->
            exists fp, ports h !! a = Some fp
                       /\ fp' = FP_wired local remote (chans h) (S (chans h)) a fp).
  { intros a fp' Ha. rewrite Hports in Ha.
    destruct (ports h !! a) as [fp|]; simpl in Ha; [|discriminate].
    injection Ha as <-. eauto. }
  split; [split|].
  - intros a fp' Ha. destruct (Hold _ _ Ha) as (fp & Hfp & ->).
    apply NoDup_wired_inChans; [eauto| | |lia].
    + intros Hc. specialize (Hmade _ _ _ Hfp Hc). lia.
    + intros Hc. specialize (Hmade _ _ _ Hfp Hc). lia.
  - intros a b fpa' fpb' c Hab Ha Hb.
    destruct (Hold _ _ Ha) as (fpa & Hfa & ->).
    destruct (Hold _ _ Hb) as (fpb & Hfb & ->).
    rewrite !elem_of_wired_inChans.
    intros [Hc|[[-> ->]|[-> ->]]] [Hc'|[[-> Hc']|[-> Hc']]];
      try congruence; try lia;
      try (specialize (Hmade _ _ _ Hfa Hc); lia);
      try (specialize (Hmade _ _ _ Hfb Hc'); lia).
    exact (Hdisj _ _ _ _ _ Hab Hfa Hfb Hc Hc').
  - intros a fp' c Ha. destruct (Hold _ _ Ha) as (fp & Hfp & ->).
    rewrite elem_of_wired_inChans, Hch.
    intros [Hc|[[_ ->]|[_ ->]]]; [|lia|lia].
    specialize (Hmade _ _ _ Hfp Hc). lia.
Qed.

Lemma NewFilePort_preserves (h : Heap) :
  FP_inbound_once h /\ FP_inbound_made h ->
  FP_inbound_once (snd (NewFilePort h)) /\ FP_inbound_made (snd (NewFilePort h)).
Proof.
  intros [[Hnd Hdisj] Hmade]. unfold NewFilePort. simpl.
  set (a0 := fresh (dom (ports h))).
  assert (Hfresh : ports h !! a0 = None).
  { apply not_elem_of_dom. apply is_fresh. }
  split; [split|].
  - intros a fp. simpl. destruct (decide (a = a0)) as [->|Ha].
    + rewrite lookup_insert_eq. intros [= <-]. simpl. constructor.
    + rewrite lookup_insert_ne by congruence. apply Hnd.
  - intros a b fpa fpb c Hab. simpl.
    destruct (decide (a = a0)) as [->|Ha].
    { rewrite lookup_insert_eq. intros [= <-] _. simpl. rewrite elem_of_nil. tauto. }
    destruct (decide (b = a0)) as [->|Hb].
    { rewrite lookup_insert_eq. intros _ [= <-] _. simpl. rewrite elem_of_nil. tauto. }
    rewrite !lookup_insert_ne by congruence. eauto.
  - intros a fp c. simpl. destruct (decide (a = a0)) as [->|Ha].
    + rewrite lookup_insert_eq. intros [= <-]. simpl. rewrite elem_of_nil. tauto.
    + rewrite lookup_insert_ne by congruence. intros Hfp Hc.
      specialize (Hmade _ _ _ Hfp Hc). lia.
Qed.

Lemma fresh_ports_preserves (n : nat) : forall h,
  FP_inbound_once h /\ FP_inbound_made h ->
  FP_inbound_once (fresh_ports n h) /\ FP_inbound_made (fresh_ports n h).
Proof.
  induction n as [|n IH]; intros h Hh; simpl; [exact Hh|].
  apply IH. apply NewFilePort_preserves. exact Hh.
Qed.

Lemma empty_heap_inbound : FP_inbound_once empty_heap /\ FP_inbound_made empty_heap.
Proof.
  unfold FP_inbound_once, FP_inbound_made, empty_heap. simpl.
  repeat split; intros *; rewrite ?lookup_empty; try discriminate;
    intros _; rewrite lookup_empty; discriminate.
Qed.

Lemma connects_preserves (calls : list (nat * nat)) : forall h h',
  connects calls h = Ok h' ->
  FP_inbound_once h /\ FP_inbound_made h ->
  FP_inbound_once h' /\ FP_inbound_made h'.
Proof.
  induction calls as [|[l r] calls IH]; intros h h' HC Hh; simpl in HC.
  - injection HC as <-. exact Hh.
  - destruct (Connect l r h) as [h1| | |] eqn:H1; simpl in HC; try discriminate.
    eapply IH; [exact HC|]. eapply Connect_preserves; eauto.
Qed.

(** [Connect] sets flags and never clears one. *)
Lemma Connect_flag (h h' : Heap) (local remote a : nat) :
  Connect local remote h = Ok h' ->
  IsConnected a h' = true <-> (IsConnected a h = true \/ a = local \/ a = remote).
Proof.
  intros HC.
  destruct (Connect_Ok_allocated _ _ _ _ HC) as [Hl Hr].
  destruct (Connect_wires h local remote Hl Hr) as (h2 & HC2 & _ & Hports).
  rewrite HC in HC2. injection HC2 as <-.
  unfold IsConnected. rewrite Hports.
  destruct (ports h !! a) as [fp|] eqn:Ha; simpl.
  - destruct (decide (a = local \/ a = remote)); intuition congruence.
  - destruct Hl as [pl Hl], Hr as [pr Hr].
    split; [discriminate|]. intros [?|[->| ->]]; congruence.
Qed.

Lemma connects_flag (calls : list (nat * nat)) : forall h h' a,
  connects calls h = Ok h' -> IsConnected a h = true -> IsConnected a h' = true.
Proof.
  induction calls as [|[l r] calls IH]; intros h h' a HC Ha; simpl in HC.
  - injection HC as <-. exact Ha.
  - destruct (Connect l r h) as [h1| | |] eqn:H1; simpl in HC; try discriminate.
    eapply IH; [exact HC|]. apply (Connect_flag _ _ _ _ a H1). auto.
Qed.

(** [Connect] allocates no port and frees none. *)
Lemma Connect_dom (h h' : Heap) (local remote : nat) :
  Connect local remote h = Ok h' ->
  forall a, is_Some (ports h' !! a) <-> is_Some (ports h !! a).
Proof.
  intros HC a.
  destruct (Connect_Ok_allocated _ _ _ _ HC) as [Hl Hr].
  destruct (Connect_wires h local remote Hl Hr) as (h2 & HC2 & _ & Hports).
  rewrite HC in HC2. injection HC2 as <-.
  rewrite Hports, fmap_is_Some. reflexivity.
Qed.

(** Calls on allocated ports all return. *)
Lemma connects_total (calls : list (nat * nat)) : forall h,
  FP_allocated calls h -> exists h', connects calls h = Ok h'.
Proof.
  induction calls as [|[l r] calls IH]; intros h Hall; simpl; [eauto|].
  apply Forall_cons in Hall as [[Hl Hr] Hall]. simpl in Hl, Hr.
  destruct (Connect_wires h l r Hl Hr) as (h1 & H1 & _ & _).
  rewrite H1. simpl. apply IH.
  unfold FP_allocated in *. eapply Forall_impl; [exact Hall|].
  intros [l' r'] [Hl' Hr']. simpl in *.
  split; apply (Connect_dom _ _ _ _ H1); assumption.
Qed.

End FileConnect.

(** C9.  [Connect] on two allocated ports returns; it makes two channels,
    the next two numbers; the first is appended to the inbound list of
    [local] and the outbound list of [remote], the second to the outbound
    list of [local] and the inbound list of [remote]; both flags are set
    and nothing else changes.  After any run of [Connect] calls on any
    number of new ports, every inbound channel is registered once, in one
    port, and a flag that is set stays set through any further calls. *)
Theorem FilePort_Connect_wiring :
  (forall (h : FP.Heap) (local remote : nat),
      is_Some (FP.ports h !! local) -> is_Some (FP.ports h !! remote) ->
      exists h', FP.Connect local remote h = Ok h'
        /\ FP.chans h' = S (S (FP.chans h))
        /\ forall a, FP.ports h' !! a
             = FP_wired local remote (FP.chans h) (S (FP.chans h)) a <$> FP.ports h !! a)
  /\ (forall (n : nat) (calls : list (nat * nat)),
        let h0 := FP.fresh_ports n FP.empty_heap in
        (FP_allocated calls h0 -> exists h', FP.connects calls h0 = Ok h')
        /\ forall h', FP.connects calls h0 = Ok h' ->
             FP_inbound_once h' /\ FP_inbound_made h'
             /\ forall calls' h'' a,
                  FP.connects calls' h' = Ok h'' ->
                  FP.IsConnected a h' = true -> FP.IsConnected a h'' = true).
Proof.
  split.
  - intros h local remote Hl Hr. apply Connect_wires; assumption.
  - intros n calls h0. split.
    + apply connects_total.
    + intros h' HC.
      destruct (connects_preserves calls h0 h' HC) as [Honce Hmade].
      { apply fresh_ports_preserves, empty_heap_inbound. }
      split; [exact Honce|]. split; [exact Hmade|].
      intros calls' h'' a HC' Ha. eapply connects_flag; eauto.
Qed.

Lemma FilePort_Connect_wiring_witness :
  let h0 := FP.fresh_ports 2 FP.empty_heap in
  FP_allocated [(0, 1); (1, 1)] h0
  /\ exists h', FP.connects [(0, 1); (1, 1)] h0 = Ok h'
       /\ FP_inbound_once h'
       /\ (FP.inChans <$> FP.ports h' !! 0) = Some [2]
       /\ (FP.inChans <$> FP.ports h' !! 1) = Some [3; 4; 5].
Proof.
  intros h0.
  assert (Hall : FP_allocated [(0, 1); (1, 1)] h0).
  { repeat constructor; simpl; vm_compute; eexists; reflexivity. }
  split; [exact Hall|].
  destruct (proj2 FilePort_Connect_wiring 2 [(0, 1); (1, 1)]) as [Htot Hinv].
  destruct (Htot Hall) as [h' Hh']. exists h'.
  split; [exact Hh'|]. split; [exact (proj1 (Hinv h' Hh'))|].
  vm_compute in Hh'. injection Hh' as <-. split; vm_compute; reflexivity.
Defined.

(** ** The loop that creates the tasks *)

Section CreateTasks.
Context `{GoEnv}.
Import Task Process.

(** A [range] over an empty map visits nothing. *)
Lemma range_empty {V} (site : nat) : range site (∅ : gmap string V) = [].
Proof.
  apply Permutation_nil_r. rewrite range_perm, map_to_list_empty. reflexivity.
Qed.

(** Every entry a [range] visits is an entry of the map, and conversely. *)
Lemma elem_of_range {V} (site : nat) (m : gmap string V) k v :
  (k, v) ∈ range site m <-> m !! k = Some v.
Proof. rewrite range_perm. apply elem_of_map_to_list. Qed.

Lemma NoDup_range {V} (site : nat) (m : gmap string V) : NoDup (range site m).
Proof. rewrite range_perm. apply NoDup_map_to_list. Qed.

Lemma NoDup_fst_range {V} (site : nat) (m : gmap string V) : NoDup (range site m).*1.
Proof. rewrite range_perm. apply NoDup_fst_map_to_list. Qed.

(** A placeholder that is neither an input nor a parameter leaves the
    input ports and the parameter ports as they are. *)
Lemma initPort_no_input params p m :
  Regex.typ m <> "i" -> Regex.typ m <> "p" ->
  InPorts (initPort params p m) = InPorts p
  /\ ParamPorts (initPort params p m) = ParamPorts p.
Proof.
  intros Hi Hp. unfold initPort.
  apply String.eqb_neq in Hi, Hp. rewrite Hi, Hp.
  destruct (String.eqb (Regex.typ m) "o" || String.eqb (Regex.typ m) "os");
    [|split; reflexivity].
  destruct (String.eqb (Regex.typ m) "os"); split; reflexivity.
Qed.

Lemma initPorts_no_input params ms : forall p,
  Forall (fun m => Regex.typ m <> "i" /\ Regex.typ m <> "p") ms ->
  InPorts (foldl (initPort params) p ms) = InPorts p
  /\ ParamPorts (foldl (initPort params) p ms) = ParamPorts p.
Proof.
  induction ms as [|m ms IH]; intros p Hall; simpl; [split; reflexivity|].
  apply Forall_cons in Hall as [[Hi Hp] Hall].
  destruct (IH (initPort params p m) Hall) as [-> ->].
  apply initPort_no_input; assumption.
Qed.


End CreateTasks.

(** Scenario: a process without ports whose output has a static path. *)
Example createTasks_single_shot_example :
  let p := Process.SetPathFormatterString (Process.Shell "echo hi > {o:out}") "out" "out.txt" in
  Process.InPorts p = ∅ /\ Process.ParamPorts p = ∅
  /\ Process.gathers (Process.createTasks 5 p) = 1
  /\ map (fun t => Task.Command (Task.data t)) (Process.tasks (Process.createTasks 5 p))
     = ["echo hi > out.txt.tmp"]
  /\ Process.ending (Process.createTasks 5 p) = Ok tt.
Proof. repeat split; vm_compute; reflexivity. Qed.


(** C8, as the claim has it, fails: a template without input and
    parameter placeholders whose output has no path formatter.  The
    process has no input and no parameter port and its loop makes one
    gather round, but the task cannot be constructed: no task is
    produced, and the loop ends with the error of the construction. *)
Lemma createTasks_single_shot_no_task :
  let p := Process.Shell "echo hi > {o:out}" in
  Process.InPorts p = ∅ /\ Process.ParamPorts p = ∅
  /\ (forall fuel,
        Process.gathers (Process.createTasks (S fuel) p) = 1
        /\ Process.tasks (Process.createTasks (S fuel) p) = []
        /\ Process.ending (Process.createTasks (S fuel) p)
           = Fatal "Missing outpath for outport 'out' for command 'echo hi > {o:out}'").
Proof.
  intros p. split; [vm_compute; reflexivity|]. split; [vm_compute; reflexivity|].
  intros fuel. repeat split; vm_compute; reflexivity.
Qed.

(** ** The merger *)

Section MergerFacts.
Context {A : Type}.
Import Merge.
Local Open Scope list_scope.

Implicit Types (seqs pre : list (list A)) (out : list A) (inChans : list (Chan A)).

(** An empty sequence can be put anywhere among the sequences. *)
Lemma Interleaving_insert_nil seqs out :
  Interleaving seqs out ->
  forall pre rest, seqs = pre ++ rest -> Interleaving (pre ++ [] :: rest) out.
Proof.
  induction 1 as [seqs Hnil | seqs i x s out Hi _ IH]; intros pre rest ->.
  - apply interleaving_done.
    apply Forall_app in Hnil as [Hp Hr].
    apply Forall_app. split; [exact Hp|]. constructor; [reflexivity|exact Hr].
  - destruct (decide (i < length pre)) as [Hlt|Hge].
    + apply (interleaving_take _ i x s).
      * rewrite lookup_app_l by exact Hlt. rewrite lookup_app_l in Hi by exact Hlt. exact Hi.
      * rewrite insert_app_l by exact Hlt.
        apply IH. rewrite insert_app_l by exact Hlt. reflexivity.
    + apply (interleaving_take _ (S i) x s).
      * rewrite lookup_app_r by lia. rewrite lookup_app_r in Hi by lia.
        replace (S i - length pre) with (S (i - length pre)) by lia. exact Hi.
      * rewrite insert_app_r_alt by lia.
        replace (S i - length pre) with (S (i - length pre)) by lia. simpl.
        apply IH. rewrite insert_app_r_alt by lia. reflexivity.
Qed.

(** The head of one sequence can be taken first. *)
Lemma Interleaving_take_at pre x s rest out :
  Interleaving (pre ++ s :: rest) out ->
  Interleaving (pre ++ (x :: s) :: rest) (x :: out).
Proof.
  intros Hout. apply (interleaving_take _ (length pre) x s).
  - rewrite lookup_app_r by lia. rewrite Nat.sub_diag. reflexivity.
  - rewrite insert_app_r_alt by lia. rewrite Nat.sub_diag. exact Hout.
Qed.

(** An interleaving has as many elements as the sequences together. *)
Lemma Interleaving_length seqs out :
  Interleaving seqs out -> length out = length (concat seqs).
Proof.
  induction 1 as [seqs Hnil | seqs i x s out Hi _ IH].
  - induction Hnil as [|s seqs -> _ IHn]; simpl; [reflexivity|exact IHn].
  - simpl. rewrite IH. clear IH.
    revert i Hi. induction seqs as [|s0 seqs IHs]; intros [|i] Hi; simpl in *; try discriminate.
    + injection Hi as ->. simpl. rewrite !length_app. simpl. lia.
    + rewrite !length_app. rewrite <- (IHs i Hi). lia.
Qed.

Lemma pushed_nil (st : Chan A) : pushed st [] = st.
Proof. unfold pushed. rewrite app_nil_r. destruct st; reflexivity. Qed.

Lemma pushed_app (st : Chan A) fw1 fw2 :
  pushed (pushed st fw1) fw2 = pushed st (fw1 ++ fw2).
Proof. unfold pushed. simpl. rewrite app_assoc. reflexivity. Qed.

(** One sweep over channels that are all closed in the end: it returns,
    it forwards the heads of the channels before the first exhausted one,
    and it leaves fewer values and channels than it found. *)
Lemma sweep_closing inChans :
  Forall (fun c => closes c = true) inChans ->
  forall st, exists fw inChans',
    sweep inChans st = (pushed st fw, Ok inChans')
    /\ Forall (fun c => closes c = true) inChans'
    /\ length fw + total inChans' = total inChans
    /\ (inChans <> [] -> enough inChans' < enough inChans)
    /\ length inChans' <= length inChans
    /\ forall pre out,
         Interleaving (pre ++ map items inChans') out ->
         Interleaving (pre ++ map items inChans) (fw ++ out).
Proof.
  induction 1 as [|c rest Hc Hrest IH]; intros st.
  - exists [], []. simpl. rewrite pushed_nil.
    repeat split; auto. congruence.
  - simpl. unfold mbind, Prog_bind, lift, recv.
    destruct c as [[|x xs] cl]; simpl in *; subst cl.
    + exists [], rest. rewrite pushed_nil. unfold total, enough in *. simpl.
      repeat split; auto; try lia.
      intros pre out Hout. eapply Interleaving_insert_nil; [exact Hout|reflexivity].
    + unfold forward. simpl.
      destruct (IH {| items := items st ++ [x]; closes := closes st |})
        as (fw & rest' & Hsw & Hcl & Htot & Hlt & Hlen & Hil).
      rewrite Hsw. simpl.
      exists (x :: fw), ({| items := xs; closes := true |} :: rest').
      split. { unfold pushed. simpl. rewrite <- app_assoc. reflexivity. }
      split. { constructor; [reflexivity|exact Hcl]. }
      unfold total, enough in *. simpl. rewrite !length_app.
      split; [lia|]. split; [intros _; lia|].
      split; [lia|].
      intros pre out Hout. simpl.
      apply Interleaving_take_at.
      specialize (Hil (pre ++ [xs]) out).
      rewrite <- !app_assoc in Hil. simpl in Hil. apply Hil. exact Hout.
Qed.

(** The outer loop over channels that are all closed in the end. *)
Lemma merge_loop_closing (fuel : nat) : forall inChans st,
  Forall (fun c => closes c = true) inChans ->
  enough inChans <= fuel ->
  exists out,
    merge_loop fuel inChans st = (pushed st out, Ok tt)
    /\ length out = total inChans
    /\ Interleaving (map items inChans) out.
Proof.
  induction fuel as [|fuel IH]; intros inChans st Hcl Hfuel.
  - destruct inChans as [|c rest]; [|unfold enough in Hfuel; simpl in Hfuel; lia].
    exists []. simpl. rewrite pushed_nil. repeat split.
    apply interleaving_done. constructor.
  - destruct inChans as [|c rest].
    { exists []. simpl. rewrite pushed_nil. repeat split.
      apply interleaving_done. constructor. }
    destruct (sweep_closing (c :: rest) Hcl st)
      as (fw & inChans' & Hsw & Hcl' & Htot & Hlt & _ & Hil).
    specialize (Hlt ltac:(discriminate)).
    destruct (IH inChans' (pushed st fw) Hcl' ltac:(lia)) as (out & Hloop & Hlen & Hout).
    exists (fw ++ out).
    split.
    { change (merge_loop (S fuel) (c :: rest) st)
        with ((inChans'' ← sweep (c :: rest); merge_loop fuel inChans'') st).
      unfold mbind, Prog_bind. rewrite Hsw, Hloop, pushed_app. reflexivity. }
    split; [rewrite length_app; lia|].
    apply (Hil [] out). exact Hout.
Qed.

(** A sweep changes nothing but the values of the merged channel, and a
    channel that is never closed is never deleted. *)
Lemma sweep_open inChans : forall st st' o,
  sweep inChans st = (st', o) ->
  closes st' = closes st
  /\ match o with
     | Ok inChans' =>
         Exists (fun c => closes c = false) inChans ->
         Exists (fun c => closes c = false) inChans'
     | Blocked => True
     | _ => False
     end.
Proof.
  induction inChans as [|c rest IH]; intros st st' o; simpl.
  - intros [= <- <-]. split; [reflexivity|]. auto.
  - unfold mbind, Prog_bind, lift, recv.
    destruct c as [[|x xs] cl]; simpl.
    + destruct cl; simpl.
      * intros [= <- <-]. split; [reflexivity|].
        intros Hex. apply Exists_cons in Hex as [Hc|Hr]; [discriminate|exact Hr].
      * intros [= <- <-]. split; [reflexivity|]. exact I.
    + unfold forward. simpl.
      destruct (sweep rest _) as [st1 o1] eqn:Hsw.
      destruct (IH _ _ _ Hsw) as [Hst Hop]. simpl in Hst.
      destruct o1 as [rest'|e| |]; simpl; intros [= <- <-];
        (split; [exact Hst|]); try exact Hop.
      intros Hex. apply Exists_cons in Hex as [Hc|Hr].
      * apply Exists_cons_hd. exact Hc.
      * apply Exists_cons_tl. exact (Hop Hr).
Qed.

Lemma merge_loop_open (fuel : nat) : forall inChans st st' o,
  merge_loop fuel inChans st = (st', o) ->
  closes st' = closes st
  /\ (Exists (fun c => closes c = false) inChans -> o <> Ok tt).
Proof.
  induction fuel as [|fuel IH]; intros inChans st st' o.
  - destruct inChans; simpl.
    + intros [= <- <-]. split; [reflexivity|]. intros Hex. inversion Hex.
    + intros [= <- <-]. split; [reflexivity|]. discriminate.
  - destruct inChans as [|c rest].
    { simpl. intros [= <- <-]. split; [reflexivity|]. intros Hex. inversion Hex. }
    change (merge_loop (S fuel) (c :: rest) st)
      with ((inChans'' ← sweep (c :: rest); merge_loop fuel inChans'') st).
    unfold mbind, Prog_bind.
    destruct (sweep (c :: rest) st) as [st1 o1] eqn:Hsw.
    destruct (sweep_open _ _ _ _ Hsw) as [Hst Hop].
    destruct o1 as [inChans'|e| |]; try contradiction.
    + intros Hloop. destruct (IH _ _ _ _ Hloop) as [Hst' Hop'].
      split; [congruence|]. intros Hex. apply Hop', Hop, Hex.
    + intros [= <- <-]. split; [exact Hst|]. discriminate.
Qed.

End MergerFacts.

(** C3.  For a port with any number of inbound channels that are all
    closed in the end, the merger returns; what it has put on the merged
    channel is an interleaving of the sequences sent on the inbound
    channels (every value once, the values of one channel in their order),
    so as many values as were sent on all of them together; and the merged
    channel is closed.  When some inbound channel is never closed the
    merger does not return and the merged channel is not closed. *)
Theorem RunMergeInputs_delivers_all {A : Type} (inChans : list (Chan A)) (fuel : nat) :
  (Forall (fun c => closes c = true) inChans ->
   Merge.enough inChans <= fuel ->
   exists out,
     Merge.RunMergeInputs fuel inChans make_chan
     = ({| items := out; closes := true |}, Ok tt)
     /\ length out = total inChans
     /\ Merge.Interleaving (map items inChans) out)
  /\ (Exists (fun c => closes c = false) inChans ->
      closes (fst (Merge.RunMergeInputs fuel inChans make_chan)) = false
      /\ snd (Merge.RunMergeInputs fuel inChans make_chan) <> Ok tt).
Proof.
  unfold Merge.RunMergeInputs, mbind, Prog_bind. split.
  - intros Hcl Hfuel.
    destruct (merge_loop_closing fuel inChans make_chan Hcl Hfuel) as (out & Hloop & Hlen & Hil).
    exists out. rewrite Hloop. simpl. auto.
  - intros Hex.
    destruct (Merge.merge_loop fuel inChans make_chan) as [st o] eqn:Hloop.
    destruct (merge_loop_open _ _ _ _ _ Hloop) as [Hst Hop].
    specialize (Hop Hex).
    destruct o as [[]|e| |]; simpl; try contradiction; split; auto; discriminate.
Qed.

(** Scenario (4) of the specification: two producers, two packets each. *)
Lemma RunMergeInputs_delivers_all_witness :
  let inChans := [ {| items := ["a1"; "a2"]; closes := true |};
                   {| items := ["b1"; "b2"]; closes := true |} ] in
  Forall (fun c => closes c = true) inChans
  /\ Merge.RunMergeInputs 6 inChans make_chan
     = ({| items := ["a1"; "b1"; "a2"; "b2"]; closes := true |}, Ok tt)
  /\ Merge.Interleaving (map items inChans) ["a1"; "b1"; "a2"; "b2"].
Proof.
  intros inChans.
  assert (Hcl : Forall (fun c => closes c = true) inChans) by (repeat constructor).
  split; [exact Hcl|].
  destruct (proj1 (RunMergeInputs_delivers_all inChans 6) Hcl ltac:(vm_compute; lia))
    as (out & Hrun & _ & Hil).
  vm_compute in Hrun. injection Hrun as <-.
  split; [reflexivity|exact Hil].
Defined.

(** ** The execution of a task *)

Section ExecuteFacts.
Context `{GoEnv}.
Import Task.
Local Open Scope list_scope.
Local Arguments Atomize : simpl never.

Lemma foldl_any {X} (f : bool -> X -> bool) (Q : X -> bool) :
  (forall a x, f a x = Q x || a) ->
  forall l acc, foldl f acc l = existsb Q l || acc.
Proof.
  intros Hf. induction l as [|x l IH]; intros acc; simpl; [reflexivity|].
  rewrite IH, Hf. destruct (Q x), (existsb Q l), acc; reflexivity.
Qed.

Lemma existsb_range {V} (Q : string * V -> bool) (site : nat) (m : gmap string V) :
  existsb Q (range site m) = true <-> exists k v, m !! k = Some v /\ Q (k, v) = true.
Proof.
  rewrite existsb_exists. split.
  - intros ([k v] & Hin & HQ). apply list_elem_of_In, elem_of_range in Hin. eauto.
  - intros (k & v & Hm & HQ). exists (k, v). split; [|exact HQ].
    apply list_elem_of_In, elem_of_range. exact Hm.
Qed.

Lemma anyOutputExists_iff fs t :
  anyOutputExists fs t = true <-> output_present fs t.
Proof.
  unfold anyOutputExists, output_present.
  rewrite (foldl_any _ (fun x : string * FileTarget =>
             negb (doStream x.2)
             && (os_Stat fs (GetPath x.2) || os_Stat fs (GetTempPath x.2)))).
  2:{ intros a [n tgt]. simpl.
      destruct (doStream tgt), (os_Stat fs (GetPath tgt)),
        (os_Stat fs (GetTempPath tgt)), a; reflexivity. }
  rewrite orb_false_r, existsb_range. simpl.
  split; intros (n & tgt & Hm & HQ); exists n, tgt; (split; [exact Hm|]).
  - apply andb_true_iff in HQ as [Hd Hs]. apply negb_true_iff in Hd.
    apply orb_true_iff in Hs. auto.
  - destruct HQ as [-> Hs]. simpl. apply orb_true_iff. exact Hs.
Qed.

Lemma fifosInOutTargetsMissing_iff fs t :
  fifosInOutTargetsMissing fs t = true <-> fifo_missing fs t.
Proof.
  unfold fifosInOutTargetsMissing, fifo_missing.
  rewrite (foldl_any _ (fun x : string * FileTarget =>
             doStream x.2 && negb (os_Stat fs (GetFifoPath x.2)))).
  2:{ intros a [n tgt]. simpl.
      destruct (doStream tgt), (os_Stat fs (GetFifoPath tgt)), a; reflexivity. }
  rewrite orb_false_r, existsb_range. simpl.
  split; intros (n & tgt & Hm & HQ); exists n, tgt; (split; [exact Hm|]).
  - apply andb_true_iff in HQ as [Hd Hs]. apply negb_true_iff in Hs. auto.
  - destruct HQ as [-> ->]. reflexivity.
Qed.

Lemma anyFifosExist_iff fs t :
  anyFifosExist fs t = true <-> fifo_present fs t.
Proof.
  unfold anyFifosExist, fifo_present.
  rewrite (foldl_any _ (fun x : string * FileTarget =>
             doStream x.2 && os_Stat fs (GetFifoPath x.2))).
  2:{ intros a [n tgt]. simpl.
      destruct (doStream tgt), (os_Stat fs (GetFifoPath tgt)), a; reflexivity. }
  rewrite orb_false_r, existsb_range. simpl.
  split; intros (n & tgt & Hm & HQ); exists n, tgt; (split; [exact Hm|]).
  - apply andb_true_iff in HQ as [Hd Hs]. auto.
  - destruct HQ as [-> ->]. reflexivity.
Qed.

(** The guard of [Execute]. *)
Lemma guard_iff fs t :
  negb (anyOutputExists fs t) && negb (fifosInOutTargetsMissing fs t) = true
  <-> ~ output_present fs t /\ ~ fifo_missing fs t.
Proof.
  rewrite andb_true_iff, !negb_true_iff.
  rewrite <- anyOutputExists_iff, <- fifosInOutTargetsMissing_iff.
  destruct (anyOutputExists fs t), (fifosInOutTargetsMissing fs t);
    intuition congruence.
Qed.

(** Strings: a common suffix can be cancelled. *)
Lemma string_length_app (s t : string) :
  String.length (s +:+ t) = String.length s + String.length t.
Proof.
  induction s as [|c s IH]; [reflexivity|].
  change (String c s +:+ t) with (String c (s +:+ t)). simpl. rewrite IH. reflexivity.
Qed.

Lemma string_app_inv_tail (s1 s2 t : string) : s1 +:+ t = s2 +:+ t -> s1 = s2.
Proof.
  revert s2. induction s1 as [|c s1 IH]; intros [|d s2] Heq.
  - reflexivity.
  - apply (f_equal String.length) in Heq.
    rewrite (string_length_app (String d s2)) in Heq. simpl in Heq.
    change (String.length ("" +:+ t)) with (String.length t) in Heq. lia.
  - apply (f_equal String.length) in Heq.
    rewrite (string_length_app (String c s1)) in Heq. simpl in Heq.
    change (String.length ("" +:+ t)) with (String.length t) in Heq. lia.
  - change (String c (s1 +:+ t) = String d (s2 +:+ t)) in Heq.
    injection Heq as -> Heq. f_equal. apply IH. exact Heq.
Qed.

Lemma GetTempPath_inj (a b : InformationPacket) :
  GetTempPath a = GetTempPath b -> path a = path b.
Proof. unfold GetTempPath. apply string_app_inv_tail. Qed.

(** One [Atomize] when the temp file is there: the rename, at once. *)
Lemma Atomize_present (fuel : nat) (ip : InformationPacket) (w : World) n :
  files w !! GetTempPath ip = Some n ->
  Atomize (S fuel) ip w
  = ({| files := <[path ip := n]> (delete (GetTempPath ip) (files w));
        trace := trace w ++ [EvRename (GetTempPath ip) (path ip)] |}, Ok tt).
Proof.
  intros Hn. unfold Atomize.
  unfold mbind, Prog_bind, getFS, TempFileExists, os_Stat, os_Rename.
  rewrite Hn. reflexivity.
Qed.

(** The loop of [atomizeTargets] when every temp file is there and the
    paths differ: every non-streaming target is renamed, in turn. *)
Lemma atomize_loop (fuel : nat) (tgts : list (string * FileTarget)) : forall w,
  NoDup (ns_paths tgts) ->
  (forall x, x ∈ tgts -> doStream x.2 = false -> os_Stat (files w) (GetTempPath x.2) = true) ->
  forEach tgts (fun '(_, tgt) =>
      if negb (doStream tgt) then Atomize (S fuel) tgt else mret tt) w
  = ({| files := renamed tgts (files w); trace := trace w ++ atomized tgts |}, Ok tt).
Proof.
  induction tgts as [|[n tgt] tgts IH]; intros w Hnd Htmp.
  - simpl. unfold atomized. simpl. rewrite app_nil_r. destruct w; reflexivity.
  - simpl. unfold mbind at 1. unfold Prog_bind.
    unfold ns_paths, atomized in *. simpl in *.
    destruct (doStream tgt) eqn:Hd; simpl in *.
    + unfold mret, Prog_ret. apply IH; [exact Hnd|].
      intros x Hx. apply Htmp. right. exact Hx.
    + assert (Ht : os_Stat (files w) (GetTempPath tgt) = true).
      { apply (Htmp (n, tgt)); [left|exact Hd]. }
      unfold os_Stat in Ht.
      destruct (files w !! GetTempPath tgt) as [node|] eqn:Hnode; [|discriminate].
      rewrite (Atomize_present fuel tgt w node Hnode).
      apply NoDup_cons in Hnd as [Hnotin Hnd].
      rewrite IH; [simpl; rewrite <- app_assoc; reflexivity|exact Hnd|].
      intros x Hx Hdx. simpl. unfold os_Stat.
      assert (Hpx : path x.2 <> path tgt).
      { intros Heq. apply Hnotin. rewrite <- Heq.
        apply list_elem_of_fmap. exists x. split; [reflexivity|].
        apply list_elem_of_In, filter_In. split; [apply list_elem_of_In, Hx|].
        rewrite Hdx. reflexivity. }
      assert (Htx : GetTempPath x.2 <> GetTempPath tgt).
      { intros Heq. apply Hpx, GetTempPath_inj, Heq. }
      destruct (decide (path tgt = GetTempPath x.2)) as [->|Hne].
      * rewrite lookup_insert_eq. reflexivity.
      * rewrite lookup_insert_ne by exact Hne.
        rewrite lookup_delete_ne by congruence.
        specialize (Htmp x ltac:(right; exact Hx) Hdx). exact Htmp.
Qed.

(** Keys that differ and paths that differ give a list of paths without
    repetition. *)
Lemma NoDup_ns_paths (t : ShellTask) (site : nat) :
  distinct_outputs t -> NoDup (ns_paths (range site (OutTargets t))).
Proof.
  intros Hdist.
  assert (Hin : forall x, x ∈ range site (OutTargets t) -> OutTargets t !! x.1 = Some x.2).
  { intros [k v] Hx. apply elem_of_range in Hx. exact Hx. }
  pose proof (NoDup_fst_range site (OutTargets t)) as Hnd.
  revert Hin Hnd. generalize (range site (OutTargets t)) as l.
  induction l as [|[k v] l IH]; intros Hin Hnd; unfold ns_paths in *; simpl in *.
  - constructor.
  - apply NoDup_cons in Hnd as [Hk Hnd].
    assert (IH' := IH (fun x Hx => Hin x ltac:(right; exact Hx)) Hnd).
    destruct (doStream v) eqn:Hd; simpl; [exact IH'|].
    apply NoDup_cons. split; [|exact IH'].
    intros Hp. apply list_elem_of_fmap in Hp as ([k' v'] & Hpath & Hx).
    apply list_elem_of_In, filter_In in Hx as [Hx Hd'].
    apply list_elem_of_In in Hx. simpl in *.
    apply negb_true_iff in Hd'.
    assert (Hkk : k <> k').
    { intros ->. apply Hk. apply list_elem_of_fmap. exists (k', v'). auto. }
    apply (Hdist k k' v v' Hkk); auto.
    + apply (Hin (k, v)). left.
    + apply (Hin (k', v')). right. exact Hx.
Qed.

(** Whatever the loop of [atomizeTargets] does, it adds only sleeps and
    renames to the trace. *)
Lemma Atomize_events (fuel : nat) (ip : InformationPacket) : forall w w' o,
  Atomize fuel ip w = (w', o) ->
  exists evs, trace w' = trace w ++ evs
              /\ Forall (fun e => is_done_event e = false /\ is_run_event e = false) evs.
Proof.
  induction fuel as [|fuel IH]; intros w w' o.
  - intros [= <- <-]. exists []. rewrite app_nil_r. auto.
  - unfold Atomize; fold Atomize.
    unfold mbind, Prog_bind, getFS, putFS, emit, lift.
    destruct (TempFileExists (files w) ip).
    + destruct (os_Rename _ _ _) as [fs'|err]; simpl; intros [= <- <-].
      * eexists [_]. simpl. split; [reflexivity|]. repeat constructor.
      * exists []. rewrite app_nil_r. auto.
    + simpl. intros Hrec. apply IH in Hrec as (evs & Htr & Hall). simpl in Htr.
      exists (EvSleep :: evs). rewrite Htr, <- app_assoc. simpl.
      split; [reflexivity|]. constructor; [split; reflexivity|exact Hall].
Qed.

Lemma atomize_loop_events (fuel : nat) (tgts : list (string * FileTarget)) : forall w w' o,
  forEach tgts (fun '(_, tgt) =>
      if negb (doStream tgt) then Atomize fuel tgt else mret tt) w = (w', o) ->
  exists evs, trace w' = trace w ++ evs
              /\ Forall (fun e => is_done_event e = false /\ is_run_event e = false) evs.
Proof.
  induction tgts as [|[n tgt] tgts IH]; intros w w' o; simpl.
  - intros [= <- <-]. exists []. rewrite app_nil_r. auto.
  - unfold mbind at 1. unfold Prog_bind.
    destruct ((if negb (doStream tgt) then Atomize fuel tgt else mret tt) w)
      as [w1 o1] eqn:H1.
    assert (Hev1 : exists evs, trace w1 = trace w ++ evs
              /\ Forall (fun e => is_done_event e = false /\ is_run_event e = false) evs).
    { destruct (doStream tgt); simpl in H1.
      - injection H1 as <- <-. exists []. rewrite app_nil_r. auto.
      - eapply Atomize_events. exact H1. }
    destruct Hev1 as (evs1 & Htr1 & Hall1).
    destruct o1 as [[]|e| |]; try (intros [= <- <-]; eauto).
    intros Hrest. apply IH in Hrest as (evs2 & Htr2 & Hall2).
    exists (evs1 ++ evs2). rewrite Htr2, Htr1, app_assoc.
    split; [reflexivity|]. apply Forall_app. auto.
Qed.

Lemma Prog_bind_unfold {S A B} (m : Prog S A) (k : A -> Prog S B) (w : S) :
  (m ≫= k) w
  = match m w with
    | (w', Ok a) => k a w'
    | (w', Fatal e) => (w', Fatal e)
    | (w', Blocked) => (w', Blocked)
    | (w', Unfinished) => (w', Unfinished)
    end.
Proof. reflexivity. Qed.

(** The run of the command: its event, and its effect or its error. *)
Lemma run_step (t : ShellTask) (fs : FS) (tr : list Event) :
  (match CustomExecute t with
   | Some f => runCustom f t
   | None => executeCommand (Command t)
   end) {| files := fs; trace := tr |}
  = match run_effect t fs with
    | inl fs1 => ({| files := fs1; trace := tr ++ [run_event t] |}, Ok tt)
    | inr e => ({| files := fs; trace := tr ++ [run_event t] |}, Fatal e)
    end.
Proof.
  unfold run_effect, run_event, runCustom, executeCommand.
  destruct (CustomExecute t) as [f|]; unfold mbind, Prog_bind, emit, getFS, putFS, lift; simpl.
  - destruct (f t fs); reflexivity.
  - destruct (bash (Command t) fs); reflexivity.
Qed.

Lemma run_event_not_done t : is_done_event (run_event t) = false.
Proof. unfold run_event. destruct (CustomExecute t); reflexivity. Qed.

Lemma elem_of_atomized (site : nat) (m : gmap string FileTarget) src dst :
  EvRename src dst ∈ atomized (range site m)
  <-> exists name tgt, m !! name = Some tgt /\ doStream tgt = false
                       /\ src = GetTempPath tgt /\ dst = path tgt.
Proof.
  unfold atomized. rewrite list_elem_of_fmap. split.
  - intros ([n tgt] & Heq & Hin). simpl in Heq. injection Heq as -> ->.
    apply list_elem_of_In, filter_In in Hin as [Hin Hd].
    apply list_elem_of_In, elem_of_range in Hin.
    apply negb_true_iff in Hd. eauto 6.
  - intros (n & tgt & Hm & Hd & -> & ->). exists (n, tgt). split; [reflexivity|].
    apply list_elem_of_In, filter_In. split.
    + apply list_elem_of_In, elem_of_range. exact Hm.
    + simpl. rewrite Hd. reflexivity.
Qed.

(** [Execute], unfolded along its guard. *)
Lemma Execute_skip (fuel : nat) (t : ShellTask) (fs : FS) :
  negb (anyOutputExists fs t) && negb (fifosInOutTargetsMissing fs t) = false ->
  Execute fuel t {| files := fs; trace := [] |}
  = ({| files := fs; trace := [EvDoneSend; EvDoneClose] |}, Ok tt).
Proof.
  intros Hg. unfold Execute, mbind, Prog_bind, getFS. simpl. rewrite Hg. reflexivity.
Qed.

Lemma Execute_run (fuel : nat) (t : ShellTask) (fs : FS) :
  negb (anyOutputExists fs t) && negb (fifosInOutTargetsMissing fs t) = true ->
  Execute fuel t {| files := fs; trace := [] |}
  = match run_effect t fs with
    | inr e => ({| files := fs; trace := [run_event t] |}, Fatal e)
    | inl fs1 =>
        match atomizeTargets fuel t {| files := fs1; trace := [run_event t] |} with
        | (w2, Ok _) =>
            ({| files := files w2; trace := (trace w2 ++ [EvDoneSend]) ++ [EvDoneClose] |},
             Ok tt)
        | (w2, Fatal e) => (w2, Fatal e)
        | (w2, Blocked) => (w2, Blocked)
        | (w2, Unfinished) => (w2, Unfinished)
        end
    end.
Proof.
  intros Hg. unfold Execute.
  rewrite Prog_bind_unfold. unfold getFS at 1. cbv beta iota. cbn [files].
  rewrite Hg.
  rewrite (Prog_bind_unfold (_ ;; atomizeTargets fuel t)).
  rewrite (Prog_bind_unfold _ (fun _ => atomizeTargets fuel t)).
  rewrite run_step. simpl.
  destruct (run_effect t fs) as [fs1|e]; [|reflexivity].
  destruct (atomizeTargets fuel t _) as [w2 [[]|e| |]]; reflexivity.
Qed.

End ExecuteFacts.




(** ** The run of a process *)

Section RunFacts.
Context `{GoEnv}.
Context (fsSched fsExec : nat -> FS).
Import Process.
Local Open Scope list_scope.

Implicit Types (m : Prog (list Event) unit) (evs : list Event).

Lemma follows_ret : follows (mret tt) [] True.
Proof.
  intros tr. exists [], (Ok tt). rewrite app_nil_r.
  repeat split; auto using prefix_nil.
Qed.

Lemma follows_emit (e : Event) : follows (emit e) [e] True.
Proof.
  intros tr. exists [e], (Ok tt). repeat split; auto.
Qed.

Lemma follows_lift (o : outcome unit) : follows (lift o) [] (o = Ok tt).
Proof.
  intros tr. exists [], o. rewrite app_nil_r. unfold lift.
  repeat split; auto. 
Qed.

Lemma follows_lift_then {X} (o : outcome X) :
  follows (lift o ;; mret tt) [] (is_Ok o = true).
Proof.
  intros tr. rewrite Prog_bind_unfold. unfold lift.
  destruct o as [x|e| |]; simpl.
  - exists [], (Ok tt). rewrite app_nil_r. repeat split; auto.
  - exists [], (Fatal e). rewrite app_nil_r. repeat split; auto; discriminate.
  - exists [], Blocked. rewrite app_nil_r. repeat split; auto; discriminate.
  - exists [], Unfinished. rewrite app_nil_r. repeat split; auto; discriminate.
Qed.

Lemma follows_bind m1 m2 evs1 evs2 (c1 c2 : Prop) :
  follows m1 evs1 c1 -> follows m2 evs2 c2 ->
  follows (m1 ;; m2) (evs1 ++ evs2) (c1 /\ c2).
Proof.
  intros H1 H2 tr. rewrite Prog_bind_unfold.
  destruct (H1 tr) as (e1 & o1 & -> & Hp1 & Hok1 & Hc1).
  destruct o1 as [[]|e| |].
  - specialize (Hok1 eq_refl). subst e1.
    destruct (H2 (tr ++ evs1)) as (e2 & o2 & -> & Hp2 & Hok2 & Hc2).
    exists (evs1 ++ e2), o2. rewrite app_assoc.
    split; [reflexivity|]. split; [apply prefix_app, Hp2|].
    split; [intros Ho; rewrite (Hok2 Ho); reflexivity|].
    intros [_ Hc]. auto.
  - exists e1, (Fatal e). split; [reflexivity|].
    split; [apply prefix_app_r, Hp1|]. split; [discriminate|].
    intros [Hc _]. specialize (Hc1 Hc). discriminate.
  - exists e1, Blocked. split; [reflexivity|].
    split; [apply prefix_app_r, Hp1|]. split; [discriminate|].
    intros [Hc _]. specialize (Hc1 Hc). discriminate.
  - exists e1, Unfinished. split; [reflexivity|].
    split; [apply prefix_app_r, Hp1|]. split; [discriminate|].
    intros [Hc _]. specialize (Hc1 Hc). discriminate.
Qed.

Lemma follows_weaken m evs (c c' : Prop) :
  follows m evs c -> (c' -> c) -> follows m evs c'.
Proof.
  intros Hf Hc tr. destruct (Hf tr) as (e & o & Heq & Hp & Hok & Hfin).
  exists e, o. repeat split; auto.
Qed.

Lemma follows_send (p : ShellProcess) (oname : string) (k : nat) (otgt : FileTarget) :
  follows (send p oname k otgt) [EvSend oname k otgt] (is_Some (OutPorts p !! oname)).
Proof.
  intros tr. unfold send. destruct (OutPorts p !! oname) as [ch|].
  - exists [EvSend oname k otgt], (Ok tt). repeat split; auto.
  - exists [], Blocked. rewrite app_nil_r. unfold lift.
    split; [reflexivity|]. split; [apply prefix_nil|].
    split; [discriminate|]. intros [x Hx]. discriminate.
Qed.

(** The loops of [Run] over the out-targets of a task. *)
Lemma follows_sends (stream : bool) (p : ShellProcess) (k : nat)
    (tgts : list (string * FileTarget)) :
  follows (forEach tgts (fun '(oname, otgt) =>
             if Bool.eqb (doStream otgt) stream then send p oname k otgt else mret tt))
          (sends_of stream k tgts)
          (forall x, x ∈ tgts -> is_Some (OutPorts p !! x.1)).
Proof.
  induction tgts as [|[oname otgt] tgts IH]; simpl.
  - eapply follows_weaken; [apply follows_ret|auto].
  - unfold sends_of. simpl.
    destruct (Bool.eqb (doStream otgt) stream) eqn:Hs; simpl.
    + eapply follows_weaken.
      * apply (follows_bind _ _ [_] _ _ _ (follows_send p oname k otgt) IH).
      * intros Hall. split.
        -- apply (Hall (oname, otgt)). left.
        -- intros x Hx. apply Hall. right. exact Hx.
    + eapply follows_weaken.
      * apply (follows_bind _ _ [] _ _ _ follows_ret IH).
      * intros Hall. split; [exact I|].
        intros x Hx. apply Hall. right. exact Hx.
Qed.

Lemma forEach_ext {S X} (f g : X -> Prog S unit) (l : list X) :
  (forall x, f x = g x) -> forEach l f = forEach l g.
Proof.
  intros Hfg. induction l as [|x l IH]; simpl; [reflexivity|].
  rewrite Hfg, IH. reflexivity.
Qed.

Lemma follows_scheduleTask (p : ShellProcess) (k : nat) (t : Task.ShellTask) :
  follows (scheduleTask fsSched p k t) (sched_events fsSched k t)
          (ports_registered p t
           /\ (Task.anyFifosExist (fsSched k) t = false ->
               is_Ok (Task.createFifos (fsSched k) t) = true)).
Proof.
  unfold scheduleTask, sched_events.
  rewrite (forEach_ext _ (fun '(oname, otgt) =>
             if Bool.eqb (doStream otgt) true then send p oname k otgt else mret tt)).
  2:{ intros [oname otgt]. destruct (doStream otgt); reflexivity. }
  eapply follows_weaken.
  - eapply follows_bind with
      (c1 := Task.anyFifosExist (fsSched k) t = false ->
             is_Ok (Task.createFifos (fsSched k) t) = true).
    + destruct (Task.anyFifosExist (fsSched k) t); simpl.
      * eapply follows_weaken; [apply follows_ret|auto].
      * eapply follows_weaken.
        -- apply (follows_bind _ _ [_] [] _ _ (follows_emit _) (follows_lift_then _)).
        -- auto.
    + eapply follows_bind with (c2 := True); [apply follows_sends|].
      destruct (Task.anyFifosExist (fsSched k) t); simpl; apply follows_emit.
  - intros [Hreg Hfifo]. split; [exact Hfifo|]. split; [|exact I].
    intros [oname otgt] Hx. apply elem_of_range in Hx. eapply Hreg. exact Hx.
Qed.

Lemma follows_scheduleTasks (p : ShellProcess) (ts : list Task.ShellTask) : forall k,
  follows (scheduleTasks fsSched p k ts) (all_sched fsSched k ts) (sched_ok fsSched p k ts).
Proof.
  induction ts as [|t ts IH]; intros k; simpl.
  - apply follows_ret.
  - exact (follows_bind _ _ _ _ _ _ (follows_scheduleTask p k t) (IH (S k))).
Qed.

Lemma follows_collectTask (fuel : nat) (p : ShellProcess) (k : nat) (t : Task.ShellTask) :
  follows (collectTask fsSched fsExec fuel p k t) (collect_events k t)
          (ports_registered p t
           /\ (Task.anyFifosExist (fsSched k) t = false ->
               executed fsExec fuel k t = Ok tt)).
Proof.
  unfold collectTask, collect_events.
  rewrite (forEach_ext _ (fun '(oname, otgt) =>
             if Bool.eqb (doStream otgt) false then send p oname k otgt else mret tt)).
  2:{ intros [oname otgt]. destruct (doStream otgt); reflexivity. }
  eapply follows_weaken.
  - eapply follows_bind with (evs1 := [])
      (c1 := Task.anyFifosExist (fsSched k) t = false -> executed fsExec fuel k t = Ok tt).
    + destruct (Task.anyFifosExist (fsSched k) t).
      * eapply follows_weaken; [apply follows_ret|auto].
      * eapply follows_weaken; [apply follows_lift|auto].
    + eapply follows_bind with (evs1 := [_]); [apply follows_emit|apply follows_sends].
  - intros [Hreg Hex]. split; [exact Hex|]. split; [exact I|].
    intros [oname otgt] Hx. apply elem_of_range in Hx. eapply Hreg. exact Hx.
Qed.

Lemma follows_collectTasks (fuel : nat) (p : ShellProcess) (ts : list Task.ShellTask) :
  forall k,
  follows (collectTasks fsSched fsExec fuel p k ts) (all_collect k ts)
          (collect_ok fsSched fsExec fuel p k ts).
Proof.
  induction ts as [|t ts IH]; intros k; simpl.
  - apply follows_ret.
  - exact (follows_bind _ _ _ _ _ _ (follows_collectTask fuel p k t) (IH (S k))).
Qed.

Lemma follows_closeOutPorts (p : ShellProcess) :
  follows (closeOutPorts p) (close_events p) True.
Proof.
  unfold closeOutPorts, close_events.
  induction (range site_closeOutPorts (OutPorts p)) as [|[oname ch] l IH]; simpl.
  - apply follows_ret.
  - eapply follows_weaken.
    + apply (follows_bind _ _ [_] _ _ _ (follows_emit _) IH).
    + auto.
Qed.

(** [Run] follows the full trace, and gets to its end when nothing stops
    it. *)
Lemma follows_RunOn (fuel : nat) (p : ShellProcess) (c : Created) :
  follows (RunOn fsSched fsExec fuel p c) (full_trace fsSched p (tasks c))
          (sched_ok fsSched p 0 (tasks c) /\ ending c = Ok tt
           /\ collect_ok fsSched fsExec fuel p 0 (tasks c)).
Proof.
  unfold RunOn, full_trace.
  eapply follows_weaken.
  - apply follows_bind; [apply follows_scheduleTasks|].
    eapply follows_bind with (evs1 := []); [apply follows_lift|].
    apply follows_bind; [apply follows_collectTasks|apply follows_closeOutPorts].
  - intros (Hs & He & Hc). auto.
Qed.

End RunFacts.

Section TraceFacts.
Context `{GoEnv}.
Context (fsSched : nat -> FS).
Import Process.
Local Open Scope list_scope.

(** Where an element of a concatenation lies. *)
Lemma app_split_cons {X} (l1 l2 pre post : list X) (e : X) :
  l1 ++ l2 = pre ++ e :: post ->
  (exists post1, l1 = pre ++ e :: post1 /\ post = post1 ++ l2)
  \/ (exists pre2, l2 = pre2 ++ e :: post /\ pre = l1 ++ pre2).
Proof.
  revert pre. induction l1 as [|x l1 IH]; intros pre Heq; simpl in *.
  - right. exists pre. auto.
  - destruct pre as [|y pre]; simpl in *.
    + injection Heq as -> <-. left. exists l1. auto.
    + injection Heq as -> Heq. destruct (IH _ Heq) as [(post1 & -> & ->)|(pre2 & -> & ->)].
      * left. exists post1. auto.
      * right. exists pre2. auto.
Qed.

Lemma snoc_split_last {X} (l pre post : list X) (e : X) :
  l ++ [e] = pre ++ e :: post -> e ∉ l -> pre = l /\ post = [].
Proof.
  intros Heq Hnot. apply app_split_cons in Heq as [(post1 & -> & _)|(pre2 & Heq & ->)].
  - exfalso. apply Hnot. apply elem_of_app. right. left.
  - destruct pre2 as [|y pre2]; simpl in Heq.
    + injection Heq as <-. rewrite app_nil_r. auto.
    + injection Heq as _ Heq. destruct pre2; discriminate.
Qed.

Lemma NoDup_exactly_once {X} (l : list X) (e : X) :
  NoDup l -> e ∈ l -> exactly_once e l.
Proof.
  intros Hnd Hin. apply list_elem_of_split in Hin as (pre & post & ->).
  exists pre, post. split; [reflexivity|].
  apply NoDup_app in Hnd as (_ & Hdisj & Hpost).
  apply NoDup_cons in Hpost as [Hnot _].
  split; [|exact Hnot]. intros Hpre. apply (Hdisj e Hpre). left.
Qed.

(** The sends of a loop over the out-targets. *)
Lemma elem_of_sends_of (stream : bool) (k : nat) (site : nat)
    (m : gmap string FileTarget) (e : Event) :
  e ∈ sends_of stream k (range site m)
  <-> exists port tgt, e = EvSend port k tgt /\ m !! port = Some tgt
                       /\ doStream tgt = stream.
Proof.
  unfold sends_of. rewrite list_elem_of_fmap. split.
  - intros ([port tgt] & -> & Hin). simpl.
    apply list_elem_of_In, filter_In in Hin as [Hin Hd].
    apply list_elem_of_In, elem_of_range in Hin. simpl in Hd.
    apply Bool.eqb_prop in Hd. eauto.
  - intros (port & tgt & -> & Hm & Hd). exists (port, tgt). split; [reflexivity|].
    apply list_elem_of_In, filter_In. split.
    + apply list_elem_of_In, elem_of_range. exact Hm.
    + simpl. rewrite Hd. apply Bool.eqb_reflx.
Qed.

Lemma sends_of_port (stream : bool) (k : nat) (tgts : list (string * FileTarget))
    port k' tgt :
  EvSend port k' tgt ∈ sends_of stream k tgts -> port ∈ tgts.*1 /\ k' = k.
Proof.
  unfold sends_of. intros Hin.
  apply list_elem_of_fmap in Hin as ([port' tgt'] & Heq & Hin).
  simpl in Heq. injection Heq as -> -> ->.
  apply list_elem_of_In, filter_In in Hin as [Hin _]. apply list_elem_of_In in Hin.
  split; [|reflexivity]. apply list_elem_of_fmap. exists (port', tgt'). auto.
Qed.

Lemma NoDup_sends_of (stream : bool) (k : nat) (tgts : list (string * FileTarget)) :
  NoDup tgts.*1 -> NoDup (sends_of stream k tgts).
Proof.
  induction tgts as [|[port tgt] tgts IH]; intros Hnd; unfold sends_of in *; simpl in *.
  - constructor.
  - apply NoDup_cons in Hnd as [Hnot Hnd].
    destruct (Bool.eqb (doStream tgt) stream); simpl; [|auto].
    apply NoDup_cons. split; [|auto].
    intros Hin. apply Hnot. apply (sends_of_port stream k tgts port k tgt Hin).
Qed.

(** On one port, a loop over the out-targets of a task sends once. *)
Lemma sends_of_once (stream : bool) (k : nat) (tgts : list (string * FileTarget)) :
  forall pre post port k1 t1 k2 t2,
    NoDup tgts.*1 ->
    sends_of stream k tgts = pre ++ EvSend port k2 t2 :: post ->
    EvSend port k1 t1 ∉ pre.
Proof.
  induction tgts as [|[o tg] tgts IH]; intros pre post port k1 t1 k2 t2 Hnd Heq;
    unfold sends_of in *; simpl in *.
  - destruct pre; discriminate.
  - apply NoDup_cons in Hnd as [Hnot Hnd].
    destruct (Bool.eqb (doStream tg) stream); simpl in Heq; [|eauto].
    destruct pre as [|x pre]; simpl in Heq; [apply not_elem_of_nil|].
    injection Heq as <- Heq.
    intros Hin. apply elem_of_cons in Hin as [Hx|Hin].
    + injection Hx as -> _ _. apply Hnot.
      apply (sends_of_port stream k tgts o k2 t2).
      unfold sends_of. rewrite Heq. apply elem_of_app. right. left.
    + exact (IH _ _ _ _ _ _ _ Hnd Heq Hin).
Qed.

(** The events of one task in the first loop. *)
Lemma elem_of_sched_events (k : nat) (t : Task.ShellTask) (e : Event) :
  e ∈ sched_events fsSched k t ->
  e = EvCreateFifos k \/ starts k e
  \/ exists port tgt, e = EvSend port k tgt
        /\ Task.OutTargets (Task.data t) !! port = Some tgt /\ doStream tgt = true.
Proof.
  unfold sched_events, starts. rewrite !elem_of_app.
  intros [Hc|[Hs|Hg]].
  - destruct (Task.anyFifosExist (fsSched k) t); [inversion Hc|].
    apply list_elem_of_singleton in Hc. auto.
  - right. right. apply elem_of_sends_of in Hs. exact Hs.
  - apply list_elem_of_singleton in Hg.
    destruct (Task.anyFifosExist (fsSched k) t); auto.
Qed.

Lemma elem_of_collect_events (k : nat) (t : Task.ShellTask) (e : Event) :
  e ∈ collect_events k t ->
  e = EvRecvDone k
  \/ exists port tgt, e = EvSend port k tgt
        /\ Task.OutTargets (Task.data t) !! port = Some tgt /\ doStream tgt = false.
Proof.
  unfold collect_events. rewrite elem_of_cons.
  intros [Hc|Hs]; [auto|]. right. apply elem_of_sends_of in Hs. exact Hs.
Qed.

Lemma sched_kind_shift (t : Task.ShellTask) (ts : list Task.ShellTask) (k0 : nat) e :
  sched_kind ts (S k0) e -> sched_kind (t :: ts) k0 e.
Proof.
  destruct e as [k|port k tgt|k|k|k|port]; simpl; try lia; try tauto.
  intros (Hd & Hk & t' & Ht' & Hm). split; [exact Hd|]. split; [lia|].
  exists t'. split; [|exact Hm].
  replace (k - k0) with (S (k - S k0)) by lia. exact Ht'.
Qed.

Lemma collect_kind_shift (t : Task.ShellTask) (ts : list Task.ShellTask) (k0 : nat) e :
  collect_kind ts (S k0) e -> collect_kind (t :: ts) k0 e.
Proof.
  destruct e as [k|port k tgt|k|k|k|port]; simpl; try lia; try tauto.
  intros (Hd & Hk & t' & Ht' & Hm). split; [exact Hd|]. split; [lia|].
  exists t'. split; [|exact Hm].
  replace (k - k0) with (S (k - S k0)) by lia. exact Ht'.
Qed.

(** Every event of the first loop is of its kind. *)
Lemma all_sched_kind (ts : list Task.ShellTask) : forall k0 e,
  e ∈ all_sched fsSched k0 ts -> sched_kind ts k0 e.
Proof.
  induction ts as [|t ts IH]; intros k0 e; simpl.
  - intros Hin. inversion Hin.
  - rewrite elem_of_app. intros [Hin|Hin].
    + apply elem_of_sched_events in Hin
        as [->|[[-> | ->]|(port & tgt & -> & Hm & Hd)]]; simpl; try lia.
      split; [exact Hd|]. split; [lia|]. exists t.
      rewrite Nat.sub_diag. auto.
    + apply sched_kind_shift, IH, Hin.
Qed.

Lemma all_collect_kind (ts : list Task.ShellTask) : forall k0 e,
  e ∈ all_collect k0 ts -> collect_kind ts k0 e.
Proof.
  induction ts as [|t ts IH]; intros k0 e; simpl.
  - intros Hin. inversion Hin.
  - rewrite elem_of_cons, elem_of_app. intros [->|[Hin|Hin]].
    + simpl. lia.
    + apply elem_of_sends_of in Hin as (port & tgt & -> & Hm & Hd). simpl.
      split; [exact Hd|]. split; [lia|]. exists t.
      rewrite Nat.sub_diag. auto.
    + apply collect_kind_shift, IH, Hin.
Qed.

(** When the goroutine of a task is started, the streaming out-targets of
    the task have been sent, and none is sent afterwards. *)
Lemma all_sched_start (ts : list Task.ShellTask) : forall k0 k e pre post,
  all_sched fsSched k0 ts = pre ++ e :: post -> starts k e ->
  (forall t port tgt,
      ts !! (k - k0) = Some t ->
      Task.OutTargets (Task.data t) !! port = Some tgt -> doStream tgt = true ->
      EvSend port k tgt ∈ pre)
  /\ (forall port tgt, EvSend port k tgt ∉ post).
Proof.
  induction ts as [|t0 ts IH]; intros k0 k e pre post Heq Hst; simpl in Heq.
  - destruct pre; discriminate.
  - apply app_split_cons in Heq as [(post1 & Heq & ->)|(pre2 & Heq & ->)].
    + assert (Hin : e ∈ sched_events fsSched k0 t0).
      { rewrite Heq. apply elem_of_app. right. left. }
      assert (Hk : k = k0).
      { apply elem_of_sched_events in Hin as [->|[[-> | ->]|(port & tgt & -> & _)]];
          destruct Hst as [Hst|Hst]; congruence. }
      subst k. unfold sched_events in Heq.
      rewrite app_assoc in Heq.
      assert (He : e = (if Task.anyFifosExist (fsSched k0) t0
                        then EvGoSignal k0 else EvGoExecute k0)).
      { assert (Hin2 := Hin). unfold sched_events in Hin2.
        rewrite !elem_of_app in Hin2. destruct Hin2 as [Hc|[Hs|Hg]].
        - destruct (Task.anyFifosExist (fsSched k0) t0); [inversion Hc|].
          apply list_elem_of_singleton in Hc. destruct Hst; congruence.
        - apply elem_of_sends_of in Hs as (port & tgt & -> & _).
          destruct Hst; congruence.
        - apply list_elem_of_singleton in Hg. exact Hg. }
      rewrite <- He in Heq.
      apply snoc_split_last in Heq as [-> ->].
      * split.
        -- intros t port tgt Ht Hm Hd. rewrite Nat.sub_diag in Ht.
           injection Ht as <-. apply elem_of_app. right.
           apply elem_of_sends_of. eauto.
        -- intros port tgt Hin'. simpl in Hin'.
           apply all_sched_kind in Hin'. simpl in Hin'. lia.
      * rewrite elem_of_app. intros [Hc|Hs].
        -- destruct (Task.anyFifosExist (fsSched k0) t0); [inversion Hc|].
           apply list_elem_of_singleton in Hc. destruct Hst; congruence.
        -- apply elem_of_sends_of in Hs as (port & tgt & -> & _).
           destruct Hst; congruence.
    + assert (Hin : e ∈ all_sched fsSched (S k0) ts).
      { rewrite Heq. apply elem_of_app. right. left. }
      apply all_sched_kind in Hin.
      assert (Hk : S k0 <= k).
      { destruct Hst as [-> | ->]; simpl in Hin; lia. }
      destruct (IH _ _ _ _ _ Heq Hst) as [Hpre Hpost].
      split; [|exact Hpost].
      intros t port tgt Ht Hm Hd. apply elem_of_app. right.
      apply (Hpre t); auto.
      replace (k - k0) with (S (k - S k0)) in Ht by lia. exact Ht.
Qed.

(** A non-streaming out-target is sent after the receive on [Done] of its
    task. *)
Lemma all_collect_after_done (ts : list Task.ShellTask) : forall k0 port k tgt pre post,
  all_collect k0 ts = pre ++ EvSend port k tgt :: post -> EvRecvDone k ∈ pre.
Proof.
  induction ts as [|t0 ts IH]; intros k0 port k tgt pre post Heq; simpl in Heq.
  - destruct pre; discriminate.
  - change (collect_events k0 t0 ++ all_collect (S k0) ts = pre ++ EvSend port k tgt :: post)
      in Heq.
    apply app_split_cons in Heq as [(post1 & Heq & ->)|(pre2 & Heq & ->)].
    + unfold collect_events in Heq.
      destruct pre as [|x pre]; simpl in Heq; [discriminate|].
      injection Heq as <- Heq.
      assert (Hin : EvSend port k tgt ∈ sends_of false k0
                      (range (site_Run_targets k0) (Task.OutTargets (Task.data t0)))).
      { rewrite Heq. apply elem_of_app. right. left. }
      apply sends_of_port in Hin as [_ ->]. left.
    + apply elem_of_app. right. eapply IH. exact Heq.
Qed.

(** On one port the non-streaming out-targets are sent in the order of the
    tasks. *)
Lemma all_collect_order (ts : list Task.ShellTask) :
  forall k0 port k1 t1 k2 t2 pre post,
  all_collect k0 ts = pre ++ EvSend port k2 t2 :: post ->
  EvSend port k1 t1 ∈ pre -> k1 < k2.
Proof.
  induction ts as [|t0 ts IH]; intros k0 port k1 t1 k2 t2 pre post Heq Hin; simpl in Heq.
  - destruct pre; discriminate.
  - change (collect_events k0 t0 ++ all_collect (S k0) ts = pre ++ EvSend port k2 t2 :: post)
      in Heq.
    apply app_split_cons in Heq as [(post1 & Heq & ->)|(pre2 & Heq & ->)].
    + exfalso. unfold collect_events in Heq.
      destruct pre as [|x pre]; simpl in Heq; [inversion Hin|].
      injection Heq as <- Heq.
      apply elem_of_cons in Hin as [Hx|Hin]; [discriminate|].
      eapply sends_of_once; [|exact Heq|exact Hin]. apply NoDup_fst_range.
    + assert (Hin2 : EvSend port k2 t2 ∈ all_collect (S k0) ts).
      { rewrite Heq. apply elem_of_app. right. left. }
      apply all_collect_kind in Hin2. simpl in Hin2. destruct Hin2 as (_ & Hk2 & _).
      apply elem_of_app in Hin as [Hin|Hin].
      * apply elem_of_collect_events in Hin as [Hx|(port' & tgt' & Hx & _)];
          [discriminate|]. injection Hx as -> -> ->. lia.
      * eapply IH; eauto.
Qed.

(** No event occurs twice in the full trace. *)
Lemma kinds_disjoint (ts : list Task.ShellTask) (k0 : nat) (e : Event) :
  sched_kind ts k0 e -> collect_kind ts k0 e -> False.
Proof.
  destruct e as [k|port k tgt|k|k|k|port]; simpl; try tauto.
  intros (Hd & _) (Hd' & _). congruence.
Qed.

Lemma sched_events_tag (k : nat) (t : Task.ShellTask) (e : Event) :
  e ∈ sched_events fsSched k t -> forall ts, ~ sched_kind ts (S k) e.
Proof.
  intros Hin ts.
  apply elem_of_sched_events in Hin
    as [->|[[-> | ->]|(port & tgt & -> & _)]]; simpl; lia.
Qed.

Lemma collect_events_tag (k : nat) (t : Task.ShellTask) (e : Event) :
  e ∈ collect_events k t -> forall ts, ~ collect_kind ts (S k) e.
Proof.
  intros Hin ts.
  apply elem_of_collect_events in Hin as [->|(port & tgt & -> & _)]; simpl; lia.
Qed.

Lemma NoDup_sched_events (k : nat) (t : Task.ShellTask) :
  NoDup (sched_events fsSched k t).
Proof.
  unfold sched_events. apply NoDup_app. split; [|split].
  - destruct (Task.anyFifosExist (fsSched k) t); repeat constructor.
    apply not_elem_of_nil.
  - intros e Hc. rewrite elem_of_app. intros [Hs|Hg].
    + apply elem_of_sends_of in Hs as (port & tgt & -> & _).
      destruct (Task.anyFifosExist (fsSched k) t); [inversion Hc|].
      apply list_elem_of_singleton in Hc. discriminate.
    + apply list_elem_of_singleton in Hg.
      destruct (Task.anyFifosExist (fsSched k) t); [inversion Hc|].
      apply list_elem_of_singleton in Hc. congruence.
  - apply NoDup_app. split; [|split].
    + apply NoDup_sends_of, NoDup_fst_range.
    + intros e Hs Hg. apply list_elem_of_singleton in Hg.
      apply elem_of_sends_of in Hs as (port & tgt & -> & _).
      destruct (Task.anyFifosExist (fsSched k) t); discriminate.
    + repeat constructor. apply not_elem_of_nil.
Qed.

Lemma NoDup_collect_events (k : nat) (t : Task.ShellTask) :
  NoDup (collect_events k t).
Proof.
  unfold collect_events. apply NoDup_cons. split.
  - intros Hs. apply elem_of_sends_of in Hs as (port & tgt & Hx & _). discriminate.
  - apply NoDup_sends_of, NoDup_fst_range.
Qed.

Lemma NoDup_all_sched (ts : list Task.ShellTask) : forall k0,
  NoDup (all_sched fsSched k0 ts).
Proof.
  induction ts as [|t ts IH]; intros k0; simpl; [constructor|].
  apply NoDup_app. split; [apply NoDup_sched_events|]. split; [|apply IH].
  intros e He Hin. apply all_sched_kind in Hin.
  exact (sched_events_tag _ _ _ He _ Hin).
Qed.

Lemma NoDup_all_collect (ts : list Task.ShellTask) : forall k0,
  NoDup (all_collect k0 ts).
Proof.
  induction ts as [|t ts IH]; intros k0; [constructor|].
  change (NoDup (collect_events k0 t ++ all_collect (S k0) ts)).
  apply NoDup_app. split; [apply NoDup_collect_events|]. split; [|apply IH].
  intros e He Hin. apply all_collect_kind in Hin.
  exact (collect_events_tag _ _ _ He _ Hin).
Qed.

Lemma elem_of_close_events (p : ShellProcess) (e : Event) :
  e ∈ close_events p -> exists port, e = EvClosePort port.
Proof.
  unfold close_events. intros Hin.
  apply list_elem_of_fmap in Hin as ([port ch] & -> & _). eauto.
Qed.

Lemma NoDup_close_events (p : ShellProcess) : NoDup (close_events p).
Proof.
  unfold close_events.
  pose proof (NoDup_fst_range site_closeOutPorts (OutPorts p)) as Hnd.
  induction (range site_closeOutPorts (OutPorts p)) as [|[port ch] l IH]; simpl in *.
  - constructor.
  - apply NoDup_cons in Hnd as [Hnot Hnd]. apply NoDup_cons. split; [|auto].
    intros Hin. apply Hnot.
    apply list_elem_of_fmap in Hin as ([port' ch'] & [= ->] & Hin).
    apply list_elem_of_fmap. exists (port', ch'). auto.
Qed.

Lemma elem_of_full_trace (p : ShellProcess) (ts : list Task.ShellTask) (e : Event) :
  e ∈ full_trace fsSched p ts ->
  sched_kind ts 0 e \/ collect_kind ts 0 e \/ exists port, e = EvClosePort port.
Proof.
  unfold full_trace. rewrite !elem_of_app. intros [Hin|[Hin|Hin]].
  - left. apply all_sched_kind in Hin. exact Hin.
  - right. left. apply all_collect_kind in Hin. exact Hin.
  - right. right. apply elem_of_close_events in Hin. exact Hin.
Qed.

Lemma NoDup_full_trace (p : ShellProcess) (ts : list Task.ShellTask) :
  NoDup (full_trace fsSched p ts).
Proof.
  unfold full_trace. apply NoDup_app. split; [apply NoDup_all_sched|]. split.
  - intros e Hs. apply all_sched_kind in Hs. rewrite elem_of_app. intros [Hc|Hc].
    + apply all_collect_kind in Hc. exact (kinds_disjoint _ _ _ Hs Hc).
    + apply elem_of_close_events in Hc as [port ->]. exact Hs.
  - apply NoDup_app. split; [apply NoDup_all_collect|]. split; [|apply NoDup_close_events].
    intros e Hc Hx. apply all_collect_kind in Hc.
    apply elem_of_close_events in Hx as [port ->]. exact Hc.
Qed.

(** Every out-target of every task is sent in the full trace. *)
Lemma all_sched_sends (ts : list Task.ShellTask) : forall k0 i t port tgt,
  ts !! i = Some t ->
  Task.OutTargets (Task.data t) !! port = Some tgt -> doStream tgt = true ->
  EvSend port (k0 + i) tgt ∈ all_sched fsSched k0 ts.
Proof.
  induction ts as [|t0 ts IH]; intros k0 [|i] t port tgt Ht Hm Hd; simpl in *;
    try discriminate.
  - injection Ht as ->. rewrite Nat.add_0_r. apply elem_of_app. left.
    unfold sched_events. rewrite !elem_of_app. right. left.
    apply elem_of_sends_of. eauto.
  - apply elem_of_app. right.
    replace (k0 + S i) with (S k0 + i) by lia. eapply IH; eauto.
Qed.

Lemma all_collect_sends (ts : list Task.ShellTask) : forall k0 i t port tgt,
  ts !! i = Some t ->
  Task.OutTargets (Task.data t) !! port = Some tgt -> doStream tgt = false ->
  EvSend port (k0 + i) tgt ∈ all_collect k0 ts.
Proof.
  induction ts as [|t0 ts IH]; intros k0 [|i] t port tgt Ht Hm Hd;
    try discriminate.
  - injection Ht as ->. rewrite Nat.add_0_r.
    change (EvSend port k0 tgt ∈ collect_events k0 t ++ all_collect (S k0) ts).
    apply elem_of_app. left. unfold collect_events. right.
    apply elem_of_sends_of. eauto.
  - change (EvSend port (k0 + S i) tgt
            ∈ collect_events k0 t0 ++ all_collect (S k0) ts).
    apply elem_of_app. right.
    replace (k0 + S i) with (S k0 + i) by lia. eapply IH; eauto.
Qed.

Lemma full_trace_sends (p : ShellProcess) (ts : list Task.ShellTask) k t port tgt :
  ts !! k = Some t ->
  Task.OutTargets (Task.data t) !! port = Some tgt ->
  EvSend port k tgt ∈ full_trace fsSched p ts.
Proof.
  intros Ht Hm. unfold full_trace. rewrite !elem_of_app.
  destruct (doStream tgt) eqn:Hd.
  - left. apply (all_sched_sends ts 0 k t); auto.
  - right. left. apply (all_collect_sends ts 0 k t); auto.
Qed.

(** The order of the full trace. *)
Lemma full_trace_start (p : ShellProcess) (ts : list Task.ShellTask) k e pre post :
  full_trace fsSched p ts = pre ++ e :: post -> starts k e ->
  (forall t port tgt,
      ts !! k = Some t ->
      Task.OutTargets (Task.data t) !! port = Some tgt -> doStream tgt = true ->
      EvSend port k tgt ∈ pre)
  /\ (forall port tgt, doStream tgt = true -> EvSend port k tgt ∉ post).
Proof.
  unfold full_trace. intros Heq Hst.
  apply app_split_cons in Heq as [(post1 & Heq & ->)|(pre2 & Heq & ->)].
  - destruct (all_sched_start ts 0 k e pre post1 Heq Hst) as [Hpre Hpost].
    split.
    + intros t port tgt Ht. apply Hpre. rewrite Nat.sub_0_r. exact Ht.
    + intros port tgt Hd. rewrite !elem_of_app. intros [Hin|[Hin|Hin]].
      * exact (Hpost _ _ Hin).
      * apply all_collect_kind in Hin. simpl in Hin. destruct Hin as [Hd' _]. congruence.
      * apply elem_of_close_events in Hin as [port' Hx]. discriminate.
  - exfalso.
    assert (Hin : e ∈ all_collect 0 ts ++ close_events p).
    { rewrite Heq. apply elem_of_app. right. left. }
    apply elem_of_app in Hin as [Hin|Hin].
    + apply all_collect_kind in Hin. destruct Hst as [-> | ->]; exact Hin.
    + apply elem_of_close_events in Hin as [port ->]. destruct Hst; discriminate.
Qed.

Lemma full_trace_collect_split (p : ShellProcess) (ts : list Task.ShellTask)
    port k tgt pre post :
  full_trace fsSched p ts = pre ++ EvSend port k tgt :: post -> doStream tgt = false ->
  exists pre2 post2,
    all_collect 0 ts = pre2 ++ EvSend port k tgt :: post2
    /\ pre = all_sched fsSched 0 ts ++ pre2.
Proof.
  unfold full_trace. intros Heq Hd.
  apply app_split_cons in Heq as [(post1 & Heq & ->)|(pre2 & Heq & ->)].
  - exfalso.
    assert (Hin : EvSend port k tgt ∈ all_sched fsSched 0 ts).
    { rewrite Heq. apply elem_of_app. right. left. }
    apply all_sched_kind in Hin. simpl in Hin. destruct Hin as [Hd' _]. congruence.
  - apply app_split_cons in Heq as [(post1 & Heq & ->)|(pre3 & Heq & ->)].
    + eauto.
    + exfalso.
      assert (Hin : EvSend port k tgt ∈ close_events p).
      { rewrite Heq. apply elem_of_app. right. left. }
      apply elem_of_close_events in Hin as [port' Hx]. discriminate.
Qed.

Lemma full_trace_after_done (p : ShellProcess) (ts : list Task.ShellTask)
    port k tgt pre post :
  full_trace fsSched p ts = pre ++ EvSend port k tgt :: post -> doStream tgt = false ->
  EvRecvDone k ∈ pre.
Proof.
  intros Heq Hd.
  destruct (full_trace_collect_split _ _ _ _ _ _ _ Heq Hd) as (pre2 & post2 & Hc & ->).
  apply elem_of_app. right. eapply all_collect_after_done. exact Hc.
Qed.

Lemma full_trace_order (p : ShellProcess) (ts : list Task.ShellTask)
    port k1 t1 k2 t2 pre post :
  full_trace fsSched p ts = pre ++ EvSend port k2 t2 :: post ->
  EvSend port k1 t1 ∈ pre -> doStream t1 = false -> doStream t2 = false ->
  k1 < k2.
Proof.
  intros Heq Hin Hd1 Hd2.
  destruct (full_trace_collect_split _ _ _ _ _ _ _ Heq Hd2) as (pre2 & post2 & Hc & ->).
  apply elem_of_app in Hin as [Hin|Hin].
  - apply all_sched_kind in Hin. simpl in Hin. destruct Hin as [Hd' _]. congruence.
  - eapply all_collect_order; eauto.
Qed.

End TraceFacts.

Section RunTrace.
Context `{GoEnv}.
Context (fsSched fsExec : nat -> FS).
Import Process.
Local Open Scope list_scope.

(** The trace of [Run] is a prefix of the full trace, the whole of it when
    [Run] returns, and [Run] returns when nothing stops it. *)
Lemma RunOn_prefix (fuel : nat) (p : ShellProcess) (c : Created) :
  (RunOn fsSched fsExec fuel p c []).1 `prefix_of` full_trace fsSched p (tasks c)
  /\ ((RunOn fsSched fsExec fuel p c []).2 = Ok tt ->
      (RunOn fsSched fsExec fuel p c []).1 = full_trace fsSched p (tasks c))
  /\ (sched_ok fsSched p 0 (tasks c) /\ ending c = Ok tt
      /\ collect_ok fsSched fsExec fuel p 0 (tasks c) ->
      (RunOn fsSched fsExec fuel p c []).2 = Ok tt).
Proof.
  destruct (follows_RunOn fsSched fsExec fuel p c []) as (evs & o & Heq & Hp & Hok & Hfin).
  rewrite Heq. simpl. auto.
Qed.

(** The second loop gets past the receive on [Done] of a task only when
    the signal was made for it or its execution returned. *)
Lemma collectTask_trace (fuel : nat) (p : ShellProcess) (k : nat) (t : Task.ShellTask)
    (tr0 tr1 : list Event) (o : outcome unit) :
  collectTask fsSched fsExec fuel p k t tr0 = (tr1, o) ->
  (Task.anyFifosExist (fsSched k) t = true \/ executed fsExec fuel k t = Ok tt)
  \/ tr1 = tr0.
Proof.
  unfold collectTask. rewrite Prog_bind_unfold.
  destruct (Task.anyFifosExist (fsSched k) t); [auto|].
  unfold lift. destruct (executed fsExec fuel k t) as [[]|e| |]; [auto| | |];
    intros [= <- <-]; auto.
Qed.

Lemma collectTasks_recv (fuel : nat) (p : ShellProcess) (ts : list Task.ShellTask) :
  forall k0 tr0 tr o k,
  collectTasks fsSched fsExec fuel p k0 ts tr0 = (tr, o) ->
  EvRecvDone k ∈ tr ->
  EvRecvDone k ∈ tr0
  \/ (k0 <= k /\ exists t, ts !! (k - k0) = Some t
        /\ (Task.anyFifosExist (fsSched k) t = true \/ executed fsExec fuel k t = Ok tt)).
Proof.
  induction ts as [|t ts IH]; intros k0 tr0 tr o k; simpl.
  - intros [= <- <-]. auto.
  - rewrite Prog_bind_unfold.
    destruct (collectTask fsSched fsExec fuel p k0 t tr0) as [tr1 o1] eqn:H1.
    destruct (follows_collectTask fsSched fsExec fuel p k0 t tr0)
      as (evs & o1' & Heq & Hp & _). rewrite H1 in Heq. injection Heq as -> ->.
    assert (Hhere : EvRecvDone k ∈ tr0 ++ evs ->
              EvRecvDone k ∈ tr0
              \/ (k0 <= k /\ exists t', (t :: ts) !! (k - k0) = Some t'
                    /\ (Task.anyFifosExist (fsSched k) t' = true
                        \/ executed fsExec fuel k t' = Ok tt))).
    { rewrite elem_of_app. intros [Hin|Hin]; [auto|]. right.
      assert (Hin' : EvRecvDone k ∈ collect_events k0 t).
      { destruct Hp as [rest ->]. apply elem_of_app. auto. }
      apply elem_of_collect_events in Hin' as [Hx|(port & tgt & Hx & _)];
        [|discriminate]. injection Hx as ->.
      split; [lia|]. exists t. rewrite Nat.sub_diag. split; [reflexivity|].
      destruct (collectTask_trace _ _ _ _ _ _ _ H1) as [Hw|Htr]; [exact Hw|].
      exfalso. apply (f_equal length) in Htr. rewrite length_app in Htr.
      destruct evs; [inversion Hin|simpl in Htr; lia]. }
    destruct o1' as [[]|e| |]; try (intros [= <- <-]; exact Hhere).
    intros Hrest Hin.
    destruct (IH _ _ _ _ _ Hrest Hin) as [Hin1|(Hk & t' & Ht' & Hw)].
    + apply Hhere, Hin1.
    + right. split; [lia|]. exists t'. split; [|exact Hw].
      replace (k - k0) with (S (k - S k0)) by lia. exact Ht'.
Qed.

Lemma RunOn_recv (fuel : nat) (p : ShellProcess) (c : Created) (k : nat) :
  EvRecvDone k ∈ (RunOn fsSched fsExec fuel p c []).1 ->
  exists t, tasks c !! k = Some t
    /\ (Task.anyFifosExist (fsSched k) t = true \/ executed fsExec fuel k t = Ok tt).
Proof.
  unfold RunOn. rewrite Prog_bind_unfold.
  destruct (follows_scheduleTasks fsSched p (tasks c) 0 []) as (evA & oA & HA & HpA & _).
  rewrite HA. simpl in *.
  assert (HnA : EvRecvDone k ∉ evA).
  { intros Hin. destruct HpA as [rest HpA].
    assert (Hin' : EvRecvDone k ∈ all_sched fsSched 0 (tasks c)).
    { rewrite HpA. apply elem_of_app. auto. }
    apply all_sched_kind in Hin'. exact Hin'. }
  destruct oA as [[]|e| |]; simpl; try (intros Hin; contradiction).
  rewrite Prog_bind_unfold. unfold lift at 1.
  destruct (ending c) as [[]|e| |]; simpl; try (intros Hin; contradiction).
  rewrite Prog_bind_unfold.
  destruct (collectTasks fsSched fsExec fuel p 0 (tasks c) evA) as [trB oB] eqn:HB.
  assert (Hfrom : EvRecvDone k ∈ trB ->
            exists t, tasks c !! k = Some t
              /\ (Task.anyFifosExist (fsSched k) t = true
                  \/ executed fsExec fuel k t = Ok tt)).
  { intros Hin. destruct (collectTasks_recv _ _ _ _ _ _ _ _ HB Hin)
      as [Hin1|(_ & t & Ht & Hw)]; [contradiction|].
    rewrite Nat.sub_0_r in Ht. eauto. }
  destruct oB as [[]|e| |]; simpl; try exact Hfrom.
  destruct (follows_closeOutPorts p trB) as (evC & oC & HC & HpC & _).
  rewrite HC. simpl. rewrite elem_of_app. intros [Hin|Hin]; [auto|].
  exfalso. destruct HpC as [rest HpC].
  assert (Hin' : EvRecvDone k ∈ close_events p).
  { rewrite HpC. apply elem_of_app. auto. }
  apply elem_of_close_events in Hin' as [port Hx]. discriminate.
Qed.

End RunTrace.

(** C4.  In the trace of [Run], whatever the tasks and however far the run
    gets: every send is the send of an out-target of its task on the port
    of that name; when the goroutine of a task is started (with [Execute]
    or with the bare signal), every streaming out-target of the task has
    been sent and none is sent later; a non-streaming out-target is sent
    only after the receive on [Done] of its task, and that receive happens
    only when the signal was made for the task or its [Execute] returned;
    and on one port, of two non-streaming sends the earlier is of the task
    created earlier. *)
Theorem Run_emission_order `{GoEnv} (fsSched fsExec : nat -> FS) (fuel : nat)
    (p : Process.ShellProcess) (c : Process.Created) :
  let tr := (Process.RunOn fsSched fsExec fuel p c []).1 in
  (forall port k tgt,
      Process.EvSend port k tgt ∈ tr ->
      exists t, Process.tasks c !! k = Some t
                /\ Task.OutTargets (Task.data t) !! port = Some tgt)
  /\ (forall k t e pre post,
        Process.tasks c !! k = Some t -> starts k e ->
        tr = (pre ++ e :: post)%list ->
        (forall port tgt,
            Task.OutTargets (Task.data t) !! port = Some tgt -> doStream tgt = true ->
            Process.EvSend port k tgt ∈ pre)
        /\ (forall port tgt, doStream tgt = true -> Process.EvSend port k tgt ∉ post))
  /\ (forall port k tgt pre post,
        tr = (pre ++ Process.EvSend port k tgt :: post)%list -> doStream tgt = false ->
        Process.EvRecvDone k ∈ pre)
  /\ (forall k,
        Process.EvRecvDone k ∈ tr ->
        exists t, Process.tasks c !! k = Some t
          /\ (Task.anyFifosExist (fsSched k) t = true
              \/ Process.executed fsExec fuel k t = Ok tt))
  /\ (forall port k1 t1 k2 t2 pre post,
        tr = (pre ++ Process.EvSend port k2 t2 :: post)%list ->
        Process.EvSend port k1 t1 ∈ pre ->
        doStream t1 = false -> doStream t2 = false -> k1 < k2).
Proof.
  intros tr.
  destruct (RunOn_prefix fsSched fsExec fuel p c) as ([rest Hfull] & _ & _).
  fold tr in Hfull.
  assert (Hsplit : forall pre e post, tr = (pre ++ e :: post)%list ->
            full_trace fsSched p (Process.tasks c) = (pre ++ e :: (post ++ rest))%list).
  { intros pre e post Htr. rewrite Hfull, Htr, <- app_assoc. reflexivity. }
  split; [|split; [|split; [|split]]].
  - intros port k tgt Hin.
    assert (Hin' : Process.EvSend port k tgt ∈ full_trace fsSched p (Process.tasks c)).
    { rewrite Hfull. apply elem_of_app. auto. }
    apply elem_of_full_trace in Hin' as [Hk|[Hk|[port' Hx]]]; [| |discriminate];
      simpl in Hk; destruct Hk as (_ & _ & t & Ht & Hm);
      rewrite Nat.sub_0_r in Ht; eauto.
  - intros k t e pre post Ht Hst Htr.
    destruct (full_trace_start fsSched p _ k e pre _ (Hsplit _ _ _ Htr) Hst) as [Hpre Hpost].
    split.
    + intros port tgt. apply Hpre, Ht.
    + intros port tgt Hd Hin. apply (Hpost port tgt Hd). apply elem_of_app. auto.
  - intros port k tgt pre post Htr Hd.
    exact (full_trace_after_done fsSched p _ _ _ _ _ _ (Hsplit _ _ _ Htr) Hd).
  - intros k. apply RunOn_recv.
  - intros port k1 t1 k2 t2 pre post Htr Hin Hd1 Hd2.
    exact (full_trace_order fsSched p _ _ _ _ _ _ _ _ (Hsplit _ _ _ Htr) Hin Hd1 Hd2).
Qed.

Lemma Run_emission_order_witness :
  let tr := (Process.Run (fun _ => ∅) (fun _ => fs_done) 1 seq_process).1 in
  let out := {| path := "out.txt"; doStream := false; auditInfo := None |} in
  let pre := [ Process.EvCreateFifos 0;
               Process.EvSend "s" 0 {| path := "s"; doStream := true; auditInfo := None |};
               Process.EvGoExecute 0; Process.EvRecvDone 0 ] in
  tr = (pre ++ Process.EvSend "out" 0 out
            :: [Process.EvClosePort "out"; Process.EvClosePort "s"])%list
  /\ Process.EvRecvDone 0 ∈ pre.
Proof.
  intros tr out pre.
  assert (Htr : tr = (pre ++ Process.EvSend "out" 0 out
                        :: [Process.EvClosePort "out"; Process.EvClosePort "s"])%list)
    by (vm_compute; reflexivity).
  split; [exact Htr|].
  exact (proj1 (proj2 (proj2 (Run_emission_order (fun _ => ∅) (fun _ => fs_done) 1
                                seq_process (Process.createTasks 1 seq_process))))
           "out" 0 out pre _ Htr eq_refl).
Defined.

Section StartFacts.
Context `{GoEnv}.
Context (fsSched : nat -> FS).
Import Process.
Local Open Scope list_scope.

(** [go t.Execute()] is for the tasks that found no FIFO of theirs. *)
Lemma all_sched_go (ts : list Task.ShellTask) : forall k0 k,
  EvGoExecute k ∈ all_sched fsSched k0 ts ->
  k0 <= k /\ exists t, ts !! (k - k0) = Some t
                       /\ Task.anyFifosExist (fsSched k) t = false.
Proof.
  induction ts as [|t0 ts IH]; intros k0 k Hin; simpl in Hin.
  - inversion Hin.
  - apply elem_of_app in Hin as [Hin|Hin].
    + unfold sched_events in Hin. rewrite !elem_of_app in Hin.
      destruct Hin as [Hc|[Hs|Hg]].
      * destruct (Task.anyFifosExist (fsSched k0) t0); [inversion Hc|].
        apply list_elem_of_singleton in Hc. discriminate.
      * apply elem_of_sends_of in Hs as (port & tgt & Hx & _). discriminate.
      * apply list_elem_of_singleton in Hg.
        destruct (Task.anyFifosExist (fsSched k0) t0) eqn:Hany; [discriminate|].
        injection Hg as ->. split; [lia|]. exists t0.
        rewrite Nat.sub_diag. auto.
    + destruct (IH _ _ Hin) as (Hk & t & Ht & Hany).
      split; [lia|]. exists t. split; [|exact Hany].
      replace (k - k0) with (S (k - S k0)) by lia. exact Ht.
Qed.

End StartFacts.



(** ** The formatter on templates without stray braces *)

Section SinglePass.
Local Open Scope string_scope.

Lemma sapp_cons (c : ascii) (s t : string) : String c s ++ t = String c (s ++ t).
Proof. reflexivity. Qed.

Lemma sapp_assoc (a b c : string) : (a ++ b) ++ c = a ++ (b ++ c).
Proof.
  induction a as [|x a IH]; [reflexivity|].
  rewrite !sapp_cons, IH. reflexivity.
Qed.

Lemma sapp_nil_r (a : string) : a ++ "" = a.
Proof. induction a as [|x a IH]; [reflexivity|]. rewrite sapp_cons, IH. reflexivity. Qed.

Lemma all_chars_app (P : ascii -> bool) (a b : string) :
  all_chars P (a ++ b) = all_chars P a && all_chars P b.
Proof.
  induction a as [|x a IH]; [reflexivity|].
  rewrite sapp_cons. simpl. rewrite IH, andb_assoc. reflexivity.
Qed.

Lemma all_chars_impl (P Q : ascii -> bool) (s : string) :
  (forall c, P c = true -> Q c = true) -> all_chars P s = true -> all_chars Q s = true.
Proof.
  intros HPQ. induction s as [|c s IH]; simpl; [reflexivity|].
  intros Hs. apply andb_true_iff in Hs as [Hc Hs]. rewrite (HPQ _ Hc), (IH Hs). reflexivity.
Qed.

Lemma HasPrefix_app (old r : string) : Strings.HasPrefix (old ++ r) old = true.
Proof.
  induction old as [|c old IH]; [destruct r; reflexivity|].
  rewrite sapp_cons. simpl. rewrite Ascii.eqb_refl. exact IH.
Qed.

Lemma HasPrefix_sound (old : string) : forall s,
  Strings.HasPrefix s old = true -> exists r, s = old ++ r.
Proof.
  induction old as [|c old IH]; intros s.
  - intros _. exists s. reflexivity.
  - destruct s as [|d s]; [discriminate|]. simpl.
    destruct (Ascii.eqb c d) eqn:Hcd; [|discriminate].
    apply Ascii.eqb_eq in Hcd as ->. intros Hp.
    destruct (IH s Hp) as [r ->]. exists r. reflexivity.
Qed.

(** Two strings that agree up to the first occurrence of a separator. *)
Lemma first_separator (d : ascii) (b1 : string) : forall b2 r1 r2,
  all_chars (fun c => negb (Ascii.eqb c d)) b1 = true ->
  all_chars (fun c => negb (Ascii.eqb c d)) b2 = true ->
  b1 ++ String d r1 = b2 ++ String d r2 -> b1 = b2 /\ r1 = r2.
Proof.
  induction b1 as [|x b1 IH]; intros [|y b2] r1 r2 H1 H2 Heq; simpl in *.
  - injection Heq as ->. auto.
  - rewrite sapp_cons in Heq. injection Heq as <- _.
    rewrite Ascii.eqb_refl in H2. discriminate.
  - rewrite sapp_cons in Heq. injection Heq as -> _.
    rewrite Ascii.eqb_refl in H1. discriminate.
  - rewrite !sapp_cons in Heq. injection Heq as -> Heq.
    apply andb_true_iff in H1 as [_ H1]. apply andb_true_iff in H2 as [_ H2].
    destruct (IH _ _ _ H1 H2 Heq) as [-> ->]. auto.
Qed.

Lemma kind_cases (t : string) :
  kind_ok t = true -> t = "o" \/ t = "os" \/ t = "i" \/ t = "is" \/ t = "p".
Proof.
  unfold kind_ok. rewrite !orb_true_iff, !String.eqb_eq. tauto.
Qed.

Lemma name_char_not (c : ascii) :
  Regex.name_char c = true ->
  Ascii.eqb c "{" = false /\ Ascii.eqb c "}" = false /\ Ascii.eqb c ":" = false.
Proof.
  unfold Regex.name_char. rewrite !andb_true_iff, !negb_true_iff. tauto.
Qed.

Lemma render_hole (t n r : string) :
  render_seg (Hole t n) ++ r = String "{" (body t n ++ String "}" r).
Proof.
  unfold render_seg, body.
  change ("{" ++ t ++ ":" ++ n ++ "}") with (String "{" (t ++ String ":" (n ++ "}"))).
  rewrite sapp_cons. f_equal.
  rewrite !sapp_assoc, !sapp_cons, sapp_assoc. reflexivity.
Qed.

Lemma body_chars (P : ascii -> bool) (t n : string) :
  (forall c, Regex.name_char c = true -> P c = true) ->
  P "o"%char = true -> P "s"%char = true -> P "i"%char = true -> P "p"%char = true ->
  P ":"%char = true ->
  seg_ok (Hole t n) = true -> all_chars P (body t n) = true.
Proof.
  intros Hname Po Ps Pi Pp Pcolon Hok. simpl in Hok.
  apply andb_true_iff in Hok as [Hok Hn]. apply andb_true_iff in Hok as [Ht _].
  unfold body. rewrite all_chars_app. simpl.
  rewrite Pcolon, (all_chars_impl _ _ _ Hname Hn).
  apply kind_cases in Ht as [->|[->|[->|[->| ->]]]]; simpl;
    rewrite ?Po, ?Ps, ?Pi, ?Pp; reflexivity.
Qed.

Lemma body_no_close (t n : string) :
  seg_ok (Hole t n) = true ->
  all_chars (fun c => negb (Ascii.eqb c "}")) (body t n) = true.
Proof.
  apply body_chars; try reflexivity.
  intros c Hc. apply name_char_not in Hc as (_ & -> & _). reflexivity.
Qed.

Lemma body_no_open (t n : string) :
  seg_ok (Hole t n) = true -> no_brace (body t n ++ "}") = true.
Proof.
  intros Hok. unfold no_brace. rewrite all_chars_app. simpl.
  rewrite andb_true_r. revert Hok.
  apply body_chars; try reflexivity.
  intros c Hc. apply name_char_not in Hc as (-> & _ & _). reflexivity.
Qed.

(** A placeholder text that starts a string is the only one that does. *)
Lemma hole_prefix_eq (t n r t' n' r' : string) :
  seg_ok (Hole t n) = true -> seg_ok (Hole t' n') = true ->
  render_seg (Hole t n) ++ r = render_seg (Hole t' n') ++ r' ->
  body t n = body t' n' /\ r = r'.
Proof.
  intros Hok Hok'. rewrite !render_hole. intros [= Heq].
  apply (first_separator "}"); auto using body_no_close.
Qed.

Lemma hole_inj (t n t' n' : string) :
  seg_ok (Hole t n) = true -> seg_ok (Hole t' n') = true ->
  render_seg (Hole t n) = render_seg (Hole t' n') -> t = t' /\ n = n'.
Proof.
  intros Hok Hok' Heq.
  assert (Hb : body t n = body t' n').
  { apply (hole_prefix_eq t n "" t' n' ""); auto. rewrite Heq. reflexivity. }
  unfold body in Hb. apply (first_separator ":") in Hb; [exact Hb| |].
  - simpl in Hok. apply andb_true_iff in Hok as [Hok _].
    apply andb_true_iff in Hok as [Ht _].
    apply kind_cases in Ht as [->|[->|[->|[->| ->]]]]; reflexivity.
  - simpl in Hok'. apply andb_true_iff in Hok' as [Hok' _].
    apply andb_true_iff in Hok' as [Ht _].
    apply kind_cases in Ht as [->|[->|[->|[->| ->]]]]; reflexivity.
Qed.

(** *** [strings.Replace] on the pieces *)

Lemma replace_skip (old new : string) (x : string) : forall k rest,
  String.length x = k ->
  Strings.replace_from k (x ++ rest) old new = Strings.replace_from 0 rest old new.
Proof.
  induction x as [|c x IH]; intros k rest Hk; simpl in Hk; subst k; [reflexivity|].
  rewrite sapp_cons. simpl. apply IH. reflexivity.
Qed.

Lemma replace_lit (w new : string) (l : string) : forall rest,
  no_brace l = true ->
  Strings.replace_from 0 (l ++ rest) (String "{" w) new
  = l ++ Strings.replace_from 0 rest (String "{" w) new.
Proof.
  induction l as [|c l IH]; intros rest Hl; [reflexivity|].
  unfold no_brace in Hl. simpl in Hl. apply andb_true_iff in Hl as [Hc Hl].
  apply negb_true_iff in Hc.
  rewrite !sapp_cons. cbn [Strings.replace_from Strings.HasPrefix].
  rewrite (Ascii.eqb_sym "{" c), Hc. f_equal. apply IH. exact Hl.
Qed.

Lemma hole_text (t n : string) :
  render_seg (Hole t n) = String "{" (body t n ++ "}").
Proof. rewrite <- (sapp_nil_r (render_seg (Hole t n))). apply render_hole. Qed.

Lemma replace_same (c : ascii) (w new rest : string) :
  Strings.replace_from 0 (String c w ++ rest) (String c w) new
  = new ++ Strings.replace_from 0 rest (String c w) new.
Proof.
  pose proof (HasPrefix_app (String c w) rest) as Hp.
  rewrite sapp_cons in *. cbn [Strings.replace_from]. rewrite Hp. f_equal.
  apply replace_skip. simpl. lia.
Qed.

Lemma replace_hole_same (t n new rest : string) :
  Strings.replace_from 0 (render_seg (Hole t n) ++ rest) (render_seg (Hole t n)) new
  = new ++ Strings.replace_from 0 rest (render_seg (Hole t n)) new.
Proof. rewrite hole_text. apply replace_same. Qed.

Lemma replace_hole_other (t n t' n' new rest : string) :
  seg_ok (Hole t n) = true -> seg_ok (Hole t' n') = true ->
  render_seg (Hole t' n') <> render_seg (Hole t n) ->
  Strings.replace_from 0 (render_seg (Hole t' n') ++ rest) (render_seg (Hole t n)) new
  = render_seg (Hole t' n') ++ Strings.replace_from 0 rest (render_seg (Hole t n)) new.
Proof.
  intros Hok Hok' Hne.
  assert (Hp : Strings.HasPrefix (render_seg (Hole t' n') ++ rest) (render_seg (Hole t n))
               = false).
  { destruct (Strings.HasPrefix _ _) eqn:Hp; [|reflexivity]. exfalso.
    apply HasPrefix_sound in Hp as [r Hr].
    apply hole_prefix_eq in Hr as [Hb _]; auto.
    apply Hne. rewrite !hole_text, Hb. reflexivity. }
  rewrite (hole_text t' n') in *. rewrite (hole_text t n) in *.
  rewrite !sapp_cons in *. cbn [Strings.replace_from]. rewrite Hp. f_equal.
  apply replace_lit. apply body_no_open. exact Hok'.
Qed.

Lemma replace_render (t n new : string) (segs : list seg) :
  seg_ok (Hole t n) = true -> forallb seg_ok segs = true ->
  Strings.Replace (render segs) (render_seg (Hole t n)) new
  = render (map (fill_one (render_seg (Hole t n)) new) segs).
Proof.
  intros Hok Hsegs.
  assert (HR : forall s, Strings.Replace s (render_seg (Hole t n)) new
                         = Strings.replace_from 0 s (render_seg (Hole t n)) new).
  { intros s. rewrite hole_text. reflexivity. }
  rewrite HR.
  induction segs as [|sg segs IH]; [reflexivity|].
  simpl in Hsegs. apply andb_true_iff in Hsegs as [Hsg Hsegs].
  specialize (IH Hsegs). cbn [render map].
  destruct sg as [l|t' n'].
  - change (fill_one (render_seg (Hole t n)) new (Lit l)) with (Lit l).
    change (render_seg (Lit l)) with l.
    rewrite <- IH. rewrite hole_text. apply replace_lit. exact Hsg.
  - unfold fill_one.
    destruct (String.eqb (render_seg (Hole t' n')) (render_seg (Hole t n))) eqn:He.
    + apply String.eqb_eq in He. rewrite He, replace_hole_same, IH. reflexivity.
    + apply String.eqb_neq in He. rewrite replace_hole_other, IH by auto. reflexivity.
Qed.

(** *** The regular expression on the pieces *)

Lemma match_here_other (c : ascii) (s : string) :
  Ascii.eqb c "{" = false -> Regex.match_here (String c s) = None.
Proof.
  destruct c as [[] [] [] [] [] [] [] []]; intros Hc; try reflexivity; discriminate.
Qed.

Lemma span_name_app (n rest : string) :
  all_chars Regex.name_char n = true ->
  Regex.span_name (n ++ String "}" rest) = (n, String "}" rest).
Proof.
  induction n as [|c n IH]; intros Hn; [reflexivity|].
  simpl in Hn. apply andb_true_iff in Hn as [Hc Hn].
  rewrite sapp_cons. cbn [Regex.span_name]. rewrite Hc, (IH Hn). reflexivity.
Qed.

Lemma match_here_hole (t n rest : string) :
  seg_ok (Hole t n) = true ->
  Regex.match_here (render_seg (Hole t n) ++ rest) = Some (hole_match t n).
Proof.
  intros Hok. simpl in Hok.
  apply andb_true_iff in Hok as [Hok Hn]. apply andb_true_iff in Hok as [Ht Hne].
  apply negb_true_iff, String.eqb_neq in Hne.
  rewrite render_hole. unfold body. rewrite sapp_assoc, sapp_cons.
  unfold Regex.match_here.
  assert (Hk : Regex.match_kind (t ++ String ":" (n ++ String "}" rest))
               = Some (t, n ++ String "}" rest)).
  { apply kind_cases in Ht as [->|[->|[->|[->| ->]]]]; reflexivity. }
  rewrite Hk, (span_name_app n rest Hn).
  destruct n as [|c n]; [congruence|]. reflexivity.
Qed.

Lemma find_skip (x : string) : forall k rest,
  String.length x = k -> Regex.find_from k (x ++ rest) = Regex.find_from 0 rest.
Proof.
  induction x as [|c x IH]; intros k rest Hk; simpl in Hk; subst k; [reflexivity|].
  rewrite sapp_cons. simpl. apply IH. reflexivity.
Qed.

Lemma find_lit (l : string) : forall rest,
  no_brace l = true -> Regex.find_from 0 (l ++ rest) = Regex.find_from 0 rest.
Proof.
  induction l as [|c l IH]; intros rest Hl; [reflexivity|].
  unfold no_brace in Hl. simpl in Hl. apply andb_true_iff in Hl as [Hc Hl].
  apply negb_true_iff in Hc.
  rewrite sapp_cons. cbn [Regex.find_from].
  rewrite (match_here_other c _ Hc). apply IH. exact Hl.
Qed.

Lemma find_hole (t n rest : string) :
  seg_ok (Hole t n) = true ->
  Regex.find_from 0 (render_seg (Hole t n) ++ rest)
  = hole_match t n :: Regex.find_from 0 rest.
Proof.
  intros Hok. pose proof (match_here_hole t n rest Hok) as Hm.
  rewrite hole_text in *. rewrite sapp_cons in *.
  cbn [Regex.find_from]. rewrite Hm. f_equal.
  apply find_skip. unfold hole_match. cbn [Regex.whole].
  rewrite hole_text. simpl. lia.
Qed.

(** The matches of a template are its placeholders, in order. *)
Lemma find_render (segs : list seg) :
  forallb seg_ok segs = true -> getPlaceHolderRegex (render segs) = holes segs.
Proof.
  unfold getPlaceHolderRegex, Regex.FindAllStringSubmatch.
  induction segs as [|[l|t n] segs IH]; intros Hsegs; [reflexivity| |];
    simpl in Hsegs; apply andb_true_iff in Hsegs as [Hsg Hsegs]; cbn [render holes].
  - change (render_seg (Lit l)) with l. rewrite find_lit by exact Hsg. auto.
  - rewrite find_hole by exact Hsg. rewrite IH by exact Hsegs. reflexivity.
Qed.

(** *** The reading of the specification on the pieces *)

Section Bindings.
Variables (inTargets outTargets : gmap string FileTarget).
Variable params : gmap string string.

Lemma spec_skip (x : string) : forall k rest,
  String.length x = k ->
  spec_subst_from inTargets outTargets params k (x ++ rest)
  = spec_subst_from inTargets outTargets params 0 rest.
Proof.
  induction x as [|c x IH]; intros k rest Hk; simpl in Hk; subst k; [reflexivity|].
  rewrite sapp_cons. simpl. apply IH. reflexivity.
Qed.

Lemma spec_lit (l : string) : forall rest,
  no_brace l = true ->
  spec_subst_from inTargets outTargets params 0 (l ++ rest)
  = (r ← spec_subst_from inTargets outTargets params 0 rest; Some (l ++ r)).
Proof.
  induction l as [|c l IH]; intros rest Hl.
  - change ("" ++ rest) with rest.
    destruct (spec_subst_from inTargets outTargets params 0 rest); reflexivity.
  - unfold no_brace in Hl. simpl in Hl. apply andb_true_iff in Hl as [Hc Hl].
    apply negb_true_iff in Hc.
    rewrite sapp_cons. cbn [spec_subst_from].
    rewrite (match_here_other c _ Hc), (IH rest Hl).
    destruct (spec_subst_from inTargets outTargets params 0 rest); reflexivity.
Qed.

Lemma spec_hole (t n rest : string) :
  seg_ok (Hole t n) = true ->
  spec_subst_from inTargets outTargets params 0 (render_seg (Hole t n) ++ rest)
  = (v ← spec_binding inTargets outTargets params (hole_match t n);
     r ← spec_subst_from inTargets outTargets params 0 rest;
     Some (v ++ r)).
Proof.
  intros Hok. pose proof (match_here_hole t n rest Hok) as Hm.
  rewrite hole_text in *. rewrite sapp_cons in *.
  cbn [spec_subst_from]. rewrite Hm.
  rewrite spec_skip; [reflexivity|].
  unfold hole_match. cbn [Regex.whole]. rewrite hole_text. simpl. lia.
Qed.

Lemma spec_render (segs : list seg) (c : string) :
  forallb seg_ok segs = true ->
  spec_subst_from inTargets outTargets params 0 (render segs) = Some c ->
  c = render (map (fill_all inTargets outTargets params) segs)
  /\ exists vs, mapM (spec_binding inTargets outTargets params) (holes segs) = Some vs.
Proof.
  revert c. induction segs as [|[l|t n] segs IH]; intros c Hsegs.
  - simpl. intros [= <-]. split; [reflexivity|]. exists []. reflexivity.
  - simpl in Hsegs. apply andb_true_iff in Hsegs as [Hsg Hsegs].
    cbn [render map holes]. change (render_seg (Lit l)) with l.
    rewrite spec_lit by exact Hsg.
    destruct (spec_subst_from inTargets outTargets params 0 (render segs)) as [r|] eqn:Hr;
      simpl; [|discriminate].
    intros [= <-]. destruct (IH r Hsegs eq_refl) as [-> Hvs]. auto.
  - simpl in Hsegs. apply andb_true_iff in Hsegs as [Hsg Hsegs].
    cbn [render map holes]. rewrite spec_hole by exact Hsg.
    destruct (spec_binding inTargets outTargets params (hole_match t n)) as [v|] eqn:Hv;
      simpl; [|discriminate].
    destruct (spec_subst_from inTargets outTargets params 0 (render segs)) as [r|] eqn:Hr;
      simpl; [|discriminate].
    intros [= <-]. destruct (IH r Hsegs eq_refl) as [-> [vs Hvs]].
    split.
    + unfold fill_all at 1. rewrite Hv. reflexivity.
    + exists (v :: vs). cbn [mapM]. rewrite Hv. simpl. rewrite Hvs. reflexivity.
Qed.

(** Pieces without placeholder are left as they are. *)
Lemma fill_all_lits (segs : list seg) :
  (forall t n, Hole t n ∉ segs) ->
  map (fill_all inTargets outTargets params) segs = segs.
Proof.
  induction segs as [|[l|t n] segs IH]; intros Hno; [reflexivity| |].
  - simpl. f_equal. apply IH. intros t n Hin. apply (Hno t n). right. exact Hin.
  - exfalso. apply (Hno t n). left.
Qed.

Lemma fill_one_ok (w v : string) (segs : list seg) :
  no_brace v = true -> forallb seg_ok segs = true ->
  forallb seg_ok (map (fill_one w v) segs) = true.
Proof.
  intros Hv. induction segs as [|sg segs IH]; [reflexivity|].
  cbn [map forallb]. intros Hs. apply andb_true_iff in Hs as [Hsg Hs].
  rewrite (IH Hs), andb_true_r.
  destruct sg as [l|t n]; [exact Hsg|].
  unfold fill_one. destruct (String.eqb (render_seg (Hole t n)) w); [exact Hv|exact Hsg].
Qed.

Lemma elem_of_fill_one (w v : string) (segs : list seg) (t n : string) :
  Hole t n ∈ map (fill_one w v) segs ->
  Hole t n ∈ segs /\ render_seg (Hole t n) <> w.
Proof.
  intros Hin. apply list_elem_of_fmap in Hin as ([l|t' n'] & Heq & Hin); [discriminate|].
  unfold fill_one in Heq.
  destruct (String.eqb (render_seg (Hole t' n')) w) eqn:He; [discriminate|].
  injection Heq as -> ->. split; [exact Hin|]. apply String.eqb_neq. exact He.
Qed.

Lemma fill_all_fill_one (t n v : string) (segs : list seg) :
  seg_ok (Hole t n) = true -> forallb seg_ok segs = true ->
  spec_binding inTargets outTargets params (hole_match t n) = Some v ->
  map (fill_all inTargets outTargets params) (map (fill_one (render_seg (Hole t n)) v) segs)
  = map (fill_all inTargets outTargets params) segs.
Proof.
  intros Hok Hsegs Hv.
  induction segs as [|[l|t' n'] segs IH]; [reflexivity| |];
    simpl in Hsegs; apply andb_true_iff in Hsegs as [Hsg Hsegs]; cbn [map].
  - f_equal. apply IH. exact Hsegs.
  - f_equal; [|apply IH; exact Hsegs].
    unfold fill_one.
    destruct (String.eqb (render_seg (Hole t' n')) (render_seg (Hole t n))) eqn:He;
      [|reflexivity].
    apply String.eqb_eq in He. apply hole_inj in He as [-> ->]; auto.
    unfold fill_all. rewrite Hv. reflexivity.
Qed.

(** The rounds of the loop, on pieces: each round fills the placeholders
    of one text, and in the end all are filled. *)
Lemma fill_loop (ms : list Regex.submatch) : forall vs segs,
  forallb seg_ok segs = true ->
  Forall (fun m => exists t n, m = hole_match t n /\ seg_ok (Hole t n) = true) ms ->
  mapM (spec_binding inTargets outTargets params) ms = Some vs ->
  Forall (fun v => no_brace v = true) vs ->
  (forall t n, Hole t n ∈ segs -> hole_match t n ∈ ms) ->
  replace_each (render segs) (zip ms vs)
  = render (map (fill_all inTargets outTargets params) segs).
Proof.
  induction ms as [|m ms IH]; intros vs segs Hsegs Hms Hvs Hclean Hholes.
  - injection Hvs as <-. simpl. rewrite fill_all_lits; [reflexivity|].
    intros t n Hin. specialize (Hholes t n Hin). inversion Hholes.
  - cbn [mapM] in Hvs.
    destruct (spec_binding inTargets outTargets params m) as [v|] eqn:Hv;
      simpl in Hvs; [|discriminate].
    destruct (mapM (spec_binding inTargets outTargets params) ms) as [vs'|] eqn:Hvs';
      simpl in Hvs; [|discriminate].
    injection Hvs as <-.
    apply Forall_cons in Hms as [(t & n & -> & Hok) Hms].
    apply Forall_cons in Hclean as [Hcv Hclean].
    unfold replace_each. cbn [zip zip_with foldl fst snd].
    change (Regex.whole (hole_match t n)) with (render_seg (Hole t n)).
    rewrite replace_render by assumption.
    fold (replace_each (render (map (fill_one (render_seg (Hole t n)) v) segs)) (zip ms vs')).
    rewrite (IH vs'); auto.
    + f_equal. apply fill_all_fill_one; assumption.
    + apply fill_one_ok; assumption.
    + intros t' n' Hin. apply elem_of_fill_one in Hin as [Hin Hne].
      specialize (Hholes t' n' Hin). apply elem_of_cons in Hholes as [Heq|Hin']; [|exact Hin'].
      exfalso. apply Hne. apply (f_equal Regex.whole) in Heq. exact Heq.
Qed.

Lemma holes_form (segs : list seg) :
  forallb seg_ok segs = true ->
  Forall (fun m => exists t n, m = hole_match t n /\ seg_ok (Hole t n) = true
                               /\ Hole t n ∈ segs) (holes segs).
Proof.
  induction segs as [|[l|t n] segs IH]; simpl; intros Hs; [constructor| |];
    apply andb_true_iff in Hs as [Hsg Hs].
  - eapply Forall_impl; [apply IH, Hs|].
    intros m (t & n & -> & Hok & Hin). exists t, n. repeat split; auto. right. exact Hin.
  - constructor.
    + exists t, n. repeat split; auto. left.
    + eapply Forall_impl; [apply IH, Hs|].
      intros m (t' & n' & -> & Hok & Hin). exists t', n'. repeat split; auto.
      right. exact Hin.
Qed.

Lemma elem_of_holes (segs : list seg) (t n : string) :
  Hole t n ∈ segs -> hole_match t n ∈ holes segs.
Proof.
  induction segs as [|[l|t' n'] segs IH]; intros Hin.
  - inversion Hin.
  - apply elem_of_cons in Hin as [Hx|Hin]; [discriminate|]. simpl. auto.
  - apply elem_of_cons in Hin as [Hx|Hin].
    + injection Hx as -> ->. left.
    + right. auto.
Qed.

(** On pieces whose texts and bindings have no opening brace, the
    formatter computes the reading of the specification. *)
Lemma formatCommand_single_pass (segs : list seg) (prepend c : string) :
  forallb seg_ok segs = true ->
  clean_bindings inTargets outTargets params segs ->
  spec_formatCommand (render segs) inTargets outTargets params prepend = Some c ->
  formatCommand (render segs) inTargets outTargets params prepend = Ok c.
Proof.
  intros Hsegs Hclean. unfold spec_formatCommand.
  destruct (spec_subst_from inTargets outTargets params 0 (render segs)) as [c0|] eqn:Hc0;
    simpl; [|discriminate].
  intros [= <-].
  destruct (spec_render segs c0 Hsegs Hc0) as [-> [vs Hvs]].
  unfold formatCommand. rewrite (find_render segs Hsegs).
  rewrite (formatLoop_bound _ _ _ _ _ _ Hvs). simpl.
  rewrite (fill_loop (holes segs) vs segs); auto.
  - destruct (String.eqb prepend ""); reflexivity.
  - eapply Forall_impl; [apply holes_form, Hsegs|].
    intros m (t & n & -> & Hok & _). eauto.
  - apply mapM_Some in Hvs.
    pose proof (holes_form segs Hsegs) as Hform.
    clear -Hvs Hform Hclean.
    induction Hvs as [|m v ms vs Hmv _ IH]; [constructor|].
    apply Forall_cons in Hform as [(t & n & -> & _ & Hin) Hform].
    constructor; [|apply IH; exact Hform].
    eapply Hclean; eauto.
  - apply elem_of_holes.
Qed.

End Bindings.

End SinglePass.

(** C1, as the code has it.  The formatter takes the placeholders of the
    template in the order they occur.  When every one of them has a text
    ([{o:N}] the temp path of output [N], [{os:N}] its FIFO path, [{i:N}]
    the FIFO path of input [N] when it streams and its path otherwise,
    [{p:N}] the value of parameter [N]; unknown port, empty input path and
    empty parameter leave a placeholder without text) the result is the
    template with, for each placeholder in turn, every occurrence of its
    text in the command built so far replaced, and with the prepend string
    and a space in front when the prepend string is not empty.  When some
    placeholder has no text the result is a fatal error.  And when the
    template is made of placeholders and of texts without opening brace,
    and no text put in has an opening brace, the result is the template
    with each placeholder replaced where it stands. *)
Theorem formatCommand_sequential
    (inTargets outTargets : gmap string FileTarget)
    (params : gmap string string) (prepend : string) :
  (forall cmd,
      match mapM (spec_binding inTargets outTargets params) (getPlaceHolderRegex cmd) with
      | Some vs =>
          formatCommand cmd inTargets outTargets params prepend
          = Ok (add_prepend prepend (replace_each cmd (zip (getPlaceHolderRegex cmd) vs)))
      | None =>
          exists e, formatCommand cmd inTargets outTargets params prepend = Fatal e
      end)
  /\ (forall segs c,
        forallb seg_ok segs = true ->
        clean_bindings inTargets outTargets params segs ->
        spec_formatCommand (render segs) inTargets outTargets params prepend = Some c ->
        formatCommand (render segs) inTargets outTargets params prepend = Ok c).
Proof.
  split.
  - intros cmd. apply formatCommand_rounds.
  - intros segs c. apply formatCommand_single_pass.
Qed.

(** Scenario (1) of the specification, with a prepend string. *)
Lemma formatCommand_sequential_witness :
  let inTargets : gmap string FileTarget := {[ "in" := NewFileTarget "a.txt" ]} in
  let outTargets : gmap string FileTarget := {[ "out" := NewFileTarget "a.txt.copy" ]} in
  let segs := [Lit "cat "; Hole "i" "in"; Lit " > "; Hole "o" "out"] in
  render segs = "cat {i:in} > {o:out}"
  /\ forallb seg_ok segs = true
  /\ clean_bindings inTargets outTargets ∅ segs
  /\ formatCommand "cat {i:in} > {o:out}" inTargets outTargets ∅ "time"
     = Ok "time cat a.txt > a.txt.copy.tmp".
Proof.
  intros inTargets outTargets segs.
  assert (Hok : forallb seg_ok segs = true) by (vm_compute; reflexivity).
  assert (Hclean : clean_bindings inTargets outTargets ∅ segs).
  { intros t n v Hin Hb.
    repeat (apply elem_of_cons in Hin as [Hin|Hin]; [try discriminate|]);
      try (inversion Hin; fail);
      injection Hin as -> ->; vm_compute in Hb; injection Hb as <-; reflexivity. }
  split; [reflexivity|]. split; [exact Hok|]. split; [exact Hclean|].
  exact (proj2 (formatCommand_sequential inTargets outTargets ∅ "time")
           segs "time cat a.txt > a.txt.copy.tmp" Hok Hclean
           ltac:(vm_compute; reflexivity)).
Defined.

(** ** A placeholder that occurs in the text of a template is matched *)

Section Occurrence.
Local Open Scope string_scope.

Ltac char_cases a H :=
  destruct a as [[] [] [] [] [] [] [] []]; simpl in H; try discriminate H.

Lemma match_kind_sound (s t r : string) :
  Regex.match_kind s = Some (t, r) -> kind_ok t = true /\ s = t ++ String ":" r.
Proof.
  intros Hk. destruct s as [|a s]; [discriminate|].
  destruct s as [|b s]; [char_cases a Hk|].
  char_cases a Hk; char_cases b Hk;
    try (injection Hk as <- <-; split; reflexivity);
    (destruct s as [|c s]; [discriminate|]); char_cases c Hk;
    injection Hk as <- <-; split; reflexivity.
Qed.

Lemma span_name_sound (s : string) : forall n r,
  Regex.span_name s = (n, r) -> all_chars Regex.name_char n = true /\ s = n ++ r.
Proof.
  induction s as [|c s IH]; intros n r; simpl.
  - intros [= <- <-]. split; reflexivity.
  - destruct (Regex.name_char c) eqn:Hc.
    + destruct (Regex.span_name s) as [n' r'] eqn:Hs. intros [= <- <-].
      destruct (IH _ _ eq_refl) as [Hn ->]. simpl. rewrite Hc, Hn. split; reflexivity.
    + intros [= <- <-]. split; reflexivity.
Qed.

(** What a match at the head of a string is. *)
Lemma match_here_sound (s : string) (m : Regex.submatch) :
  Regex.match_here s = Some m ->
  exists t n r, seg_ok (Hole t n) = true /\ m = hole_match t n
                /\ s = render_seg (Hole t n) ++ r.
Proof.
  destruct s as [|c s]; [discriminate|].
  destruct (Ascii.eqb c "{") eqn:Hc; [|rewrite match_here_other by exact Hc; discriminate].
  apply Ascii.eqb_eq in Hc as ->. unfold Regex.match_here.
  destruct (Regex.match_kind s) as [[t r2]|] eqn:Hk; [|discriminate].
  apply match_kind_sound in Hk as [Ht ->].
  destruct (Regex.span_name r2) as [n r3] eqn:Hs.
  apply span_name_sound in Hs as [Hn ->].
  destruct n as [|x n]; [discriminate|].
  destruct r3 as [|y r3]; [discriminate|].
  destruct (Ascii.eqb y "}") eqn:Hy.
  - apply Ascii.eqb_eq in Hy as ->. intros [= <-].
    exists t, (String x n), r3. split; [|split].
    + simpl. rewrite Ht. simpl in Hn. rewrite Hn. reflexivity.
    + reflexivity.
    + rewrite render_hole. unfold body. f_equal.
      rewrite sapp_assoc, sapp_cons. reflexivity.
  - intros Hm. exfalso. revert Hm.
    destruct y as [[] [] [] [] [] [] [] []]; try discriminate.
Qed.

(** A text without opening brace that starts a string ends before the
    first opening brace of the string. *)
Lemma no_brace_before (x : string) : forall b y r,
  no_brace b = true -> x ++ String "{" y = b ++ r -> String.length b <= String.length x.
Proof.
  induction x as [|c x IH]; intros [|d b] y r Hb Heq; simpl; try lia.
  - exfalso. rewrite sapp_cons in Heq. injection Heq as <- _. discriminate.
  - rewrite !sapp_cons in Heq. injection Heq as _ Heq.
    unfold no_brace in Hb. simpl in Hb. apply andb_true_iff in Hb as [_ Hb].
    specialize (IH _ _ _ Hb Heq). lia.
Qed.

(** No match swallows the opening brace of a later placeholder, so a
    placeholder anywhere in the text is among the matches. *)
Lemma find_contains (t n post : string) :
  seg_ok (Hole t n) = true ->
  forall pre k, k <= String.length pre ->
  hole_match t n ∈ Regex.find_from k (pre ++ render_seg (Hole t n) ++ post).
Proof.
  intros Hok. induction pre as [|c pre IH]; intros k Hk; simpl in Hk.
  - assert (k = 0) as -> by lia. change ("" ++ ?s) with s.
    rewrite find_hole by exact Hok. left.
  - rewrite sapp_cons. destruct k as [|k].
    + cbn [Regex.find_from].
      destruct (Regex.match_here (String c (pre ++ render_seg (Hole t n) ++ post)))
        as [m|] eqn:Hm; [|apply IH; lia].
      right. apply IH.
      apply match_here_sound in Hm as (t' & n' & r & Hok' & -> & Heq).
      unfold hole_match. cbn [Regex.whole]. rewrite (hole_text t' n').
      rewrite (hole_text t' n'), sapp_cons in Heq. injection Heq as _ Heq.
      change ("{" ++ t ++ ":" ++ n ++ "}") with (render_seg (Hole t n)) in Heq.
      rewrite (hole_text t n), sapp_cons in Heq.
      apply no_brace_before in Heq; [|apply body_no_open; exact Hok'].
      simpl. lia.
    + cbn [Regex.find_from]. apply IH. lia.
Qed.

Lemma occurrence_matched (t n pre post : string) :
  seg_ok (Hole t n) = true ->
  hole_match t n ∈ getPlaceHolderRegex (pre ++ render_seg (Hole t n) ++ post).
Proof. intros Hok. apply (find_contains t n post Hok pre 0). lia. Qed.

End Occurrence.

(** ** The [is] placeholder in a template *)

Section IsOccurrence.
Context `{GoEnv}.
Local Open Scope string_scope.

(** C10, as the code has it.  A template in which [{is:n}] occurs, [n] a
    name the regular expression accepts, has a match of kind [is] and
    name [n].  Such a match registers no port, and the template cannot be
    formatted: for every binding of the ports the formatter ends with the
    error of the first placeholder that has no text, on the command as
    the placeholders before it left it; so no task is constructed, and
    the constructor ends with that error when the path formatters
    return.  The error is the empty-substitution error of the first [is]
    placeholder when every placeholder before it has a text; otherwise
    it is the error of the first placeholder without text: the missing
    out-target of an output placeholder, the missing in-target or the
    empty path of an input placeholder, the missing value of a parameter
    placeholder. *)
Theorem is_placeholder_is_fatal
    (pre n post : string) (inTargets : gmap string FileTarget)
    (params : gmap string string) (prepend : string) :
  n <> "" -> all_chars Regex.name_char n = true ->
  let cmd := pre ++ ("{is:" ++ n ++ "}") ++ post in
  Exists (fun m => Regex.typ m = "is" /\ Regex.name m = n) (getPlaceHolderRegex cmd)
  /\ (forall ps p m, m ∈ getPlaceHolderRegex cmd -> Regex.typ m = "is" ->
                     Process.initPort ps p m = p)
  /\ (forall outTargets,
        exists ms m ms' vs,
          getPlaceHolderRegex cmd = (ms ++ m :: ms')%list
          /\ mapM (spec_binding inTargets outTargets params) ms = Some vs
          /\ spec_binding inTargets outTargets params m = None
          /\ formatCommand cmd inTargets outTargets params prepend
             = Fatal (unbound_error inTargets (replace_each cmd (zip ms vs)) m))
  /\ (forall fmts doStreams,
        is_Ok (Task.NewShellTask cmd inTargets fmts doStreams params prepend) = false)
  /\ (forall fmts doStreams outs,
        Task.makeOutTargets
          {| Task.InTargets := inTargets; Task.OutTargets := ∅;
             Task.Params := params; Task.Command := "" |}
          doStreams (range Task.site_NewShellTask fmts) ∅ = Ok outs ->
        exists ms m ms' vs,
          getPlaceHolderRegex cmd = (ms ++ m :: ms')%list
          /\ mapM (spec_binding inTargets outs params) ms = Some vs
          /\ spec_binding inTargets outs params m = None
          /\ Task.NewShellTask cmd inTargets fmts doStreams params prepend
             = Fatal (unbound_error inTargets (replace_each cmd (zip ms vs)) m))
  /\ (forall outTargets ms m ms' vs,
        getPlaceHolderRegex cmd = (ms ++ m :: ms')%list ->
        Regex.typ m = "is" ->
        mapM (spec_binding inTargets outTargets params) ms = Some vs ->
        formatCommand cmd inTargets outTargets params prepend
        = Fatal (replace_failed (Regex.name m) (replace_each cmd (zip ms vs))))
  /\ (forall outTargets ms m ms' vs,
        getPlaceHolderRegex cmd = (ms ++ m :: ms')%list ->
        mapM (spec_binding inTargets outTargets params) ms = Some vs ->
        spec_binding inTargets outTargets params m = None ->
        formatCommand cmd inTargets outTargets params prepend
        = Fatal (unbound_error inTargets (replace_each cmd (zip ms vs)) m)
        /\ unbound_error inTargets (replace_each cmd (zip ms vs)) m
           = (let c := replace_each cmd (zip ms vs) in
              let name := Regex.name m in
              if String.eqb (Regex.typ m) "o" || String.eqb (Regex.typ m) "os" then
                "Missing outpath for outport '" ++ name ++ "' for command '" ++ c ++ "'"
              else if String.eqb (Regex.typ m) "i" then
                if bool_decide (inTargets !! name = None) then
                  "Missing intarget for inport '" ++ name ++ "' for command '" ++ c ++ "'"
                else
                  "Missing inpath for inport '" ++ name ++ "' for command '" ++ c ++ "'"
              else if String.eqb (Regex.typ m) "p" then
                "Missing param value param '" ++ name ++ "' for command '" ++ c ++ "'"
              else "Replace failed for port " ++ name ++ " forcommand '" ++ c ++ "'")).
Proof.
  intros Hn Hchars cmd.
  assert (Hok : seg_ok (Hole "is" n) = true).
  { unfold seg_ok. rewrite Hchars. destruct n; [congruence|reflexivity]. }
  assert (Hin : hole_match "is" n ∈ getPlaceHolderRegex cmd).
  { apply (occurrence_matched "is" n pre post Hok). }
  assert (Hex : Exists (fun m => Regex.typ m = "is") (getPlaceHolderRegex cmd)).
  { apply Exists_exists. exists (hole_match "is" n). split; [exact Hin|reflexivity]. }
  destruct (is_match_is_fatal cmd inTargets params prepend Hex)
    as (Hport & Hfatal & Htask & Hfirst).
  assert (Hstop : forall outTargets,
    exists ms m ms' vs,
      getPlaceHolderRegex cmd = (ms ++ m :: ms')%list
      /\ mapM (spec_binding inTargets outTargets params) ms = Some vs
      /\ spec_binding inTargets outTargets params m = None
      /\ formatCommand cmd inTargets outTargets params prepend
         = Fatal (unbound_error inTargets (replace_each cmd (zip ms vs)) m)).
  { intros outTargets.
    destruct (mapM_first_None _ _ (mapM_is_None inTargets outTargets params _ Hex))
      as (ms & m & ms' & vs & Hms & Hvs & Hm).
    exists ms, m, ms', vs. split; [exact Hms|]. split; [exact Hvs|]. split; [exact Hm|].
    exact (formatCommand_first_unbound _ _ _ _ _ _ _ _ _ Hms Hvs Hm). }
  split; [|split; [exact Hport|split; [exact Hstop|split; [exact Htask|split; [|split]]]]].
  - apply Exists_exists. exists (hole_match "is" n).
    split; [exact Hin|split; reflexivity].
  - intros fmts doStreams outs Houts.
    destruct (Hstop outs) as (ms & m & ms' & vs & Hms & Hvs & Hm & He).
    exists ms, m, ms', vs. split; [exact Hms|]. split; [exact Hvs|]. split; [exact Hm|].
    unfold Task.NewShellTask. rewrite Houts. simpl. rewrite He. reflexivity.
  - exact Hfirst.
  - intros outTargets ms m ms' vs Hms Hvs Hm.
    split; [exact (formatCommand_first_unbound _ _ _ _ _ _ _ _ _ Hms Hvs Hm)|].
    unfold unbound_error. cbv zeta.
    destruct (String.eqb (Regex.typ m) "o" || String.eqb (Regex.typ m) "os");
      [reflexivity|].
    destruct (String.eqb (Regex.typ m) "i").
    { destruct (inTargets !! Regex.name m) as [tgt|] eqn:Ht.
      - rewrite bool_decide_eq_false_2 by discriminate. reflexivity.
      - rewrite bool_decide_eq_true_2 by reflexivity. reflexivity. }
    destruct (String.eqb (Regex.typ m) "p"); reflexivity.
Qed.

End IsOccurrence.

Lemma is_placeholder_is_fatal_witness :
  "in" <> "" /\ all_chars Regex.name_char "in" = true
  /\ getPlaceHolderRegex "wc {o:x} {is:in}"
     = [hole_match "o" "x"; hole_match "is" "in"]
  /\ mapM (spec_binding ∅ {[ "x" := NewFileTarget "a" ]} ∅) [hole_match "o" "x"]
     = Some ["a.tmp"]
  /\ formatCommand "wc {o:x} {is:in}" ∅ {[ "x" := NewFileTarget "a" ]} ∅ ""
     = Fatal "Replace failed for port in forcommand 'wc a.tmp {is:in}'"
  /\ spec_binding ∅ ∅ ∅ (hole_match "o" "x") = None
  /\ formatCommand "wc {o:x} {is:in}" ∅ ∅ ∅ ""
     = Fatal "Missing outpath for outport 'x' for command 'wc {o:x} {is:in}'".
Proof.
  assert (Hn : "in" <> "") by discriminate.
  assert (Hc : all_chars Regex.name_char "in" = true) by reflexivity.
  assert (Hms : getPlaceHolderRegex ("wc {o:x} " ++ ("{is:" ++ "in" ++ "}") ++ "")
                = ([hole_match "o" "x"] ++ hole_match "is" "in" :: [])%list)
    by (vm_compute; reflexivity).
  assert (Hms0 : getPlaceHolderRegex ("wc {o:x} " ++ ("{is:" ++ "in" ++ "}") ++ "")
                = ([] ++ hole_match "o" "x" :: [hole_match "is" "in"])%list)
    by (vm_compute; reflexivity).
  assert (Hvs : mapM (spec_binding ∅ {[ "x" := NewFileTarget "a" ]} ∅) [hole_match "o" "x"]
                = Some ["a.tmp"]) by (vm_compute; reflexivity).
  assert (Hm : spec_binding ∅ ∅ ∅ (hole_match "o" "x") = None) by (vm_compute; reflexivity).
  pose proof (is_placeholder_is_fatal "wc {o:x} " "in" "" ∅ ∅ "" Hn Hc)
    as (_ & _ & _ & _ & _ & Hfirst & Hany).
  split; [exact Hn|]. split; [exact Hc|]. split; [exact Hms|]. split; [exact Hvs|].
  split; [|split; [exact Hm|]].
  - exact (Hfirst {[ "x" := NewFileTarget "a" ]} _ _ _ _ Hms eq_refl Hvs).
  - exact (proj1 (Hany ∅ [] _ _ [] Hms0 eq_refl Hm)).
Defined.

(** C10, as the claim has it, fails: a placeholder without binding that
    stands before the [is] placeholder ends the formatter first, with its
    own error and not the empty-substitution error. *)
Lemma is_placeholder_other_error_first :
  "{o:x} {is:y}" = "{o:x} " ++ ("{is:" ++ "y" ++ "}") ++ ""
  /\ Exists (fun m => Regex.typ m = "is") (getPlaceHolderRegex "{o:x} {is:y}")
  /\ formatCommand "{o:x} {is:y}" ∅ ∅ ∅ ""
     = Fatal "Missing outpath for outport 'x' for command '{o:x} {is:y}'"
  /\ ~ (exists name c, formatCommand "{o:x} {is:y}" ∅ ∅ ∅ "" = Fatal (replace_failed name c)).
Proof.
  split; [reflexivity|].
  split; [vm_compute; apply Exists_cons_tl; constructor; reflexivity|].
  split; [vm_compute; reflexivity|].
  intros (name & c & Hc). vm_compute in Hc. discriminate.
Qed.

(* ===================================================================== *)
(** * Further properties of the code                                      *)
(* ===================================================================== *)

(** ** What the placeholder expression finds *)

Section Placeholders.
Local Open Scope string_scope.

Lemma seg_ok_hole (t n : string) :
  seg_ok (Hole t n) = true
  <-> kind_ok t = true /\ n <> "" /\ all_chars Regex.name_char n = true.
Proof.
  unfold seg_ok. rewrite !andb_true_iff, negb_true_iff. rewrite String.eqb_neq.
  tauto.
Qed.

Lemma hole_match_placeholder (t n : string) :
  seg_ok (Hole t n) = true -> placeholder (hole_match t n).
Proof.
  intros Hok. apply seg_ok_hole in Hok as (Hk & Hn & Hc).
  repeat split; assumption.
Qed.

Lemma find_spell (s : string) : forall k x rest,
  s = x ++ rest -> String.length x = k ->
  Forall placeholder (Regex.find_from k s)
  /\ exists gaps tail,
       length gaps = length (Regex.find_from k s)
       /\ rest = spell gaps (Regex.find_from k s) tail.
Proof.
  induction s as [|c s IH]; intros k x rest Hs Hk.
  - destruct x; [|discriminate]. change ("" ++ rest) with rest in Hs. subst rest.
    split; [constructor|]. exists [], "". split; reflexivity.
  - destruct k as [|k].
    + destruct x; [|discriminate]. change ("" ++ rest) with rest in Hs. subst rest.
      cbn [Regex.find_from].
      destruct (Regex.match_here (String c s)) as [m|] eqn:Hm.
      * apply match_here_sound in Hm as (t & n & r & Hok & -> & Heq).
        rewrite hole_text, sapp_cons in Heq. injection Heq as -> ->.
        destruct (IH (String.length (Regex.whole (hole_match t n)) - 1)
                     (body t n ++ "}") r eq_refl) as (Hall & gaps & tail & Hlen & Hr).
        { unfold hole_match. cbn [Regex.whole]. rewrite hole_text. simpl. lia. }
        split; [constructor; [apply hole_match_placeholder; exact Hok|exact Hall]|].
        exists ("" :: gaps), tail. split; [simpl; rewrite Hlen; reflexivity|].
        cbn [spell]. rewrite <- Hr. unfold hole_match. cbn [Regex.whole].
        rewrite hole_text. reflexivity.
      * destruct (IH 0 "" s eq_refl eq_refl) as (Hall & gaps & tail & Hlen & Hr).
        split; [exact Hall|].
        destruct (Regex.find_from 0 s) as [|m ms] eqn:Hfind.
        -- exists [], (String c s). split; reflexivity.
        -- destruct gaps as [|g gaps]; [discriminate|].
           exists (String c g :: gaps), tail. split; [exact Hlen|].
           cbn [spell] in *. rewrite sapp_cons, <- Hr. reflexivity.
    + destruct x as [|d x]; [discriminate|]. rewrite sapp_cons in Hs.
      injection Hs as -> ->. injection Hk as Hk.
      cbn [Regex.find_from]. apply (IH k x rest eq_refl Hk).
Qed.

(** The placeholders of a command.  Everything the expression finds is a
    placeholder; the command is spelled by the placeholders found, in
    the order found and one after the other, with some text between
    them; and a placeholder that stands anywhere in the command is
    found. *)
Theorem placeholders_found (cmd : string) :
  Forall placeholder (getPlaceHolderRegex cmd)
  /\ (exists gaps tail,
        length gaps = length (getPlaceHolderRegex cmd)
        /\ cmd = spell gaps (getPlaceHolderRegex cmd) tail)
  /\ (forall t n pre post,
        kind_ok t = true -> n <> "" -> all_chars Regex.name_char n = true ->
        cmd = pre ++ ("{" ++ t ++ ":" ++ n ++ "}") ++ post ->
        Regex.Submatch ("{" ++ t ++ ":" ++ n ++ "}") t n ∈ getPlaceHolderRegex cmd).
Proof.
  destruct (find_spell cmd 0 "" cmd eq_refl eq_refl) as [Hall Hspell].
  split; [exact Hall|]. split; [exact Hspell|].
  intros t n pre post Hk Hn Hc ->.
  apply (occurrence_matched t n pre post). apply seg_ok_hole. auto.
Qed.

Lemma placeholders_found_witness :
  kind_ok "o" = true /\ "out" <> "" /\ all_chars Regex.name_char "out" = true
  /\ Regex.Submatch "{o:out}" "o" "out" ∈ getPlaceHolderRegex "cat {i:in} > {o:out}".
Proof.
  assert (Hk : kind_ok "o" = true) by reflexivity.
  assert (Hn : "out" <> "") by discriminate.
  assert (Hc : all_chars Regex.name_char "out" = true) by reflexivity.
  split; [exact Hk|]. split; [exact Hn|]. split; [exact Hc|].
  exact (proj2 (proj2 (placeholders_found "cat {i:in} > {o:out}"))
           "o" "out" "cat {i:in} > " "" Hk Hn Hc eq_refl).
Defined.

End Placeholders.

(** ** The ports a command registers *)

Section Ports.
Import Process.
Local Open Scope string_scope.

Lemma initPort_fields params q m :
  let t := Regex.typ m in
  let n := Regex.name m in
  InPorts (initPort params q m)
  = (if String.eqb t "i" then <[n := make_chan]> (InPorts q) else InPorts q)
  /\ OutPorts (initPort params q m)
     = (if String.eqb t "o" || String.eqb t "os"
        then <[n := make_chan]> (OutPorts q) else OutPorts q)
  /\ OutPortsDoStream (initPort params q m)
     = (if String.eqb t "os" then <[n := true]> (OutPortsDoStream q)
        else OutPortsDoStream q)
  /\ ParamPorts (initPort params q m)
     = (if String.eqb t "p" && param_unset params n
        then <[n := make_chan]> (ParamPorts q) else ParamPorts q)
  /\ CommandPattern (initPort params q m) = CommandPattern q
  /\ PathFormatters (initPort params q m) = PathFormatters q
  /\ CustomExecute (initPort params q m) = CustomExecute q
  /\ Prepend (initPort params q m) = Prepend q
  /\ Spawn (initPort params q m) = Spawn q.
Proof.
  intros t n. unfold initPort. fold t. fold n. fold (param_unset params n).
  clearbody t n.
  destruct (String.eqb_spec t "o") as [->|Ho]; [repeat split|].
  destruct (String.eqb_spec t "os") as [->|Hos]; [repeat split|].
  destruct (String.eqb_spec t "i") as [->|Hi]; [repeat split|].
  destruct (String.eqb_spec t "p") as [->|Hp]; [|repeat split].
  destruct (param_unset params n); repeat split.
Qed.

Lemma names_port_nil kinds n : ~ names_port [] kinds n.
Proof. intros (m & Hm & _). inversion Hm. Qed.

Lemma names_port_snoc ms m kinds n :
  names_port (ms ++ [m]) kinds n
  <-> names_port ms kinds n \/ (Regex.typ m ∈ kinds /\ Regex.name m = n).
Proof.
  unfold names_port. split.
  - intros (m' & Hin & Hk & Hn). apply elem_of_app in Hin as [Hin|Hin].
    + left. exists m'. auto.
    + apply list_elem_of_singleton in Hin as ->. right. auto.
  - intros [(m' & Hin & Hk & Hn)|[Hk Hn]].
    + exists m'. rewrite elem_of_app. auto.
    + exists m. rewrite elem_of_app, list_elem_of_singleton. auto.
Qed.

Lemma port_step {V} (mp : gmap string V) (v : V) (cond : bool) (nm n : string)
    (x : V) (P Q : Prop) :
  (mp !! n = Some x <-> x = v /\ P) -> (cond = true <-> Q) ->
  ((if cond then <[nm := v]> mp else mp) !! n = Some x
   <-> x = v /\ (P \/ (Q /\ nm = n))).
Proof.
  intros HP HQ. destruct cond.
  - destruct (decide (nm = n)) as [->|Hne].
    + rewrite lookup_insert_eq. split.
      * intros [= <-]. split; [reflexivity|]. right. split; [apply HQ|]; reflexivity.
      * intros [-> _]. reflexivity.
    + rewrite lookup_insert_ne by exact Hne. rewrite HP. intuition.
  - rewrite HP. split; [intuition|].
    intros [-> [HPn|[HQn _]]]; [auto|]. apply HQ in HQn. discriminate.
Qed.

Lemma kind_test_1 (t k : string) : String.eqb t k = true <-> t ∈ [k].
Proof. rewrite String.eqb_eq, list_elem_of_singleton. reflexivity. Qed.

Lemma kind_test_2 (t k1 k2 : string) :
  String.eqb t k1 || String.eqb t k2 = true <-> t ∈ [k1; k2].
Proof.
  rewrite orb_true_iff, !String.eqb_eq, elem_of_cons, list_elem_of_singleton.
  reflexivity.
Qed.

(** The ports of a fresh process after [initPortsFromCmdPattern] over the
    matches [ms]. *)
Lemma initPorts_registered params cmd (ms : list Regex.submatch) :
  let p := foldl (initPort params) (NewShellProcess cmd) ms in
  (forall n ch, InPorts p !! n = Some ch <-> ch = make_chan /\ names_port ms ["i"] n)
  /\ (forall n ch, OutPorts p !! n = Some ch
                   <-> ch = make_chan /\ names_port ms ["o"; "os"] n)
  /\ (forall n b, OutPortsDoStream p !! n = Some b
                  <-> b = true /\ names_port ms ["os"] n)
  /\ (forall n ch, ParamPorts p !! n = Some ch
                   <-> ch = make_chan
                       /\ names_port ms ["p"] n /\ param_unset params n = true)
  /\ CommandPattern p = cmd /\ PathFormatters p = ∅ /\ CustomExecute p = None
  /\ Prepend p = "" /\ Spawn p = true.
Proof.
  induction ms as [|m ms IH] using rev_ind.
  - simpl. split; [|split; [|split; [|split]]];
      try (intros n x; rewrite lookup_empty; split; [discriminate|]);
      try (intros [_ Hn]; exfalso; exact (names_port_nil _ _ Hn));
      try (intros [_ [Hn _]]; exfalso; exact (names_port_nil _ _ Hn)).
    repeat split.
  - rewrite foldl_app. cbn [foldl]. cbv zeta in IH.
    set (q := foldl (initPort params) (NewShellProcess cmd) ms) in *.
    destruct IH as (Hin & Hout & Hds & Hpp & Hc & Hf & Hx & Hpre & Hsp).
    destruct (initPort_fields params q m)
      as (Ein & Eout & Eds & Epp & Ec & Ef & Ex & Epre & Esp).
    cbv zeta in *.
    split; [|split; [|split; [|split]]].
    + intros n ch. rewrite Ein, names_port_snoc.
      apply port_step; [apply Hin | apply kind_test_1].
    + intros n ch. rewrite Eout, names_port_snoc.
      apply port_step; [apply Hout | apply kind_test_2].
    + intros n b. rewrite Eds, names_port_snoc.
      apply port_step; [apply Hds | apply kind_test_1].
    + intros n ch. rewrite Epp, names_port_snoc.
      rewrite (port_step (ParamPorts q) make_chan _ (Regex.name m) n ch
                 (names_port ms ["p"] n /\ param_unset params n = true)
                 (Regex.typ m ∈ ["p"] /\ param_unset params (Regex.name m) = true)
                 (Hpp n ch)).
      * split.
        -- intros [-> [[Hn Hu]|[[Hk Hu] <-]]]; auto.
        -- intros (-> & [Hn|[Hk <-]] & Hu); auto 6.
      * rewrite andb_true_iff, kind_test_1. reflexivity.
    + rewrite Ec, Ef, Ex, Epre, Esp. auto.
Qed.

(** [Shell] registers a port for every placeholder of the command and
    for nothing else: an in-port for every name of an [i] placeholder, an
    out-port for every name of an [o] or [os] placeholder, flagged as
    streaming when (and only when) some [os] placeholder has the name, a
    parameter port for every name of a [p] placeholder.  Every port is a
    new channel, empty and open; the command is kept as the pattern, no
    path formatter, executor or prepend string is set, and [Spawn] is
    true. *)
Theorem Shell_registers_ports (cmd : string) :
  let p := Shell cmd in
  let ms := getPlaceHolderRegex cmd in
  (forall n ch, InPorts p !! n = Some ch <-> ch = make_chan /\ names_port ms ["i"] n)
  /\ (forall n ch, OutPorts p !! n = Some ch
                   <-> ch = make_chan /\ names_port ms ["o"; "os"] n)
  /\ (forall n b, OutPortsDoStream p !! n = Some b
                  <-> b = true /\ names_port ms ["os"] n)
  /\ (forall n ch, ParamPorts p !! n = Some ch
                   <-> ch = make_chan /\ names_port ms ["p"] n)
  /\ CommandPattern p = cmd /\ PathFormatters p = ∅ /\ CustomExecute p = None
  /\ Prepend p = "" /\ Spawn p = true.
Proof.
  intros p ms.
  destruct (initPorts_registered None cmd ms) as (Hin & Hout & Hds & Hpp & Hrest).
  split; [exact Hin|]. split; [exact Hout|]. split; [exact Hds|].
  split; [|exact Hrest].
  intros n ch. unfold p, Shell, initPortsFromCmdPattern. fold ms.
  rewrite (Hpp n ch). simpl. tauto.
Qed.

End Ports.

(** ** Expanding a command before the process is made *)

Section Expansion.
Import Process Expand.
Local Open Scope string_scope.
Context (params inPaths outPaths : option (gmap string string)).

Lemma expandStep_value (cmd : string) (m : Regex.submatch) :
  expandStep params inPaths outPaths cmd m
  = match expand_value params inPaths outPaths m with
    | Some v => Strings.Replace cmd (Regex.whole m) v
    | None => cmd
    end.
Proof.
  unfold expandStep, expand_value, held.
  destruct (String.eqb (Regex.typ m) "p").
  { destruct params as [ps|]; [|reflexivity]. simpl.
    destruct (ps !! Regex.name m); reflexivity. }
  destruct (String.eqb (Regex.typ m) "i").
  { destruct inPaths as [ps|]; [|reflexivity]. simpl.
    destruct (ps !! Regex.name m); reflexivity. }
  destruct (String.eqb (Regex.typ m) "o" || String.eqb (Regex.typ m) "os");
    [|reflexivity].
  destruct outPaths as [ps|]; [|reflexivity]. simpl.
  destruct (ps !! Regex.name m); reflexivity.
Qed.

Lemma expand_unbound (ms : list Regex.submatch) (cmd : string) :
  (forall m, m ∈ ms -> expand_value params inPaths outPaths m = None) ->
  foldl (expandStep params inPaths outPaths) cmd ms = cmd.
Proof.
  induction ms as [|m ms IH]; intros Hun; [reflexivity|].
  cbn [foldl]. rewrite expandStep_value, (Hun m) by left.
  apply IH. intros m' Hin. apply Hun. right. exact Hin.
Qed.

Lemma held_None_unset (n : string) :
  held params n = None -> param_unset params n = true.
Proof.
  unfold held, param_unset, lookup_str. destruct params as [ps|]; [|reflexivity].
  simpl. intros ->. reflexivity.
Qed.

Lemma initPort_unset (q : ShellProcess) (m : Regex.submatch) :
  (Regex.typ m = "p" -> param_unset params (Regex.name m) = true) ->
  initPort params q m = initPort None q m.
Proof.
  intros Hun. unfold initPort.
  destruct (String.eqb (Regex.typ m) "o" || String.eqb (Regex.typ m) "os");
    [reflexivity|].
  destruct (String.eqb (Regex.typ m) "i"); [reflexivity|].
  destruct (String.eqb_spec (Regex.typ m) "p") as [Hp|]; [|reflexivity].
  fold (param_unset params (Regex.name m)). rewrite (Hun Hp). reflexivity.
Qed.

Lemma initPorts_unset (ms : list Regex.submatch) : forall q,
  (forall m, m ∈ ms -> Regex.typ m = "p" -> param_unset params (Regex.name m) = true) ->
  foldl (initPort params) q ms = foldl (initPort None) q ms.
Proof.
  induction ms as [|m ms IH]; intros q Hun; [reflexivity|].
  cbn [foldl]. rewrite initPort_unset by (apply Hun; left).
  apply IH. intros m' Hin. apply Hun. right. exact Hin.
Qed.

(** When the maps hold a value for no placeholder of the command (nil
    maps, empty maps, other names, or only placeholders of the kind
    [is]), [expandCommandParamsAndPaths] gives the command back as it is
    and [ShellExpand] makes the process [Shell] makes. *)
Theorem ShellExpand_nothing_held (cmd : string) :
  (forall m, m ∈ getPlaceHolderRegex cmd ->
             expand_value params inPaths outPaths m = None) ->
  expandCommandParamsAndPaths cmd params inPaths outPaths = cmd
  /\ ShellExpand cmd inPaths outPaths params = Shell cmd
  /\ ShExp cmd inPaths outPaths params = Sh cmd.
Proof.
  intros Hun.
  assert (Hcmd : expandCommandParamsAndPaths cmd params inPaths outPaths = cmd).
  { unfold expandCommandParamsAndPaths. apply expand_unbound. exact Hun. }
  assert (Hsh : ShellExpand cmd inPaths outPaths params = Shell cmd).
  { unfold ShellExpand, Shell, initPortsFromCmdPattern. rewrite Hcmd.
    apply initPorts_unset. intros m Hin Hp. apply held_None_unset.
    specialize (Hun m Hin). unfold expand_value in Hun. rewrite Hp in Hun.
    exact Hun. }
  split; [exact Hcmd|]. split; [exact Hsh|]. exact Hsh.
Qed.

(** *** Templates of placeholders and of text without opening brace *)

Lemma expand_seg_id (segs : list seg) :
  (forall t n, Hole t n ∈ segs ->
               expand_value params inPaths outPaths (hole_match t n) = None) ->
  map (expand_seg params inPaths outPaths) segs = segs.
Proof.
  induction segs as [|sg segs IH]; intros Hun; [reflexivity|].
  cbn [map]. rewrite IH by (intros t n Hin; apply Hun; right; exact Hin).
  destruct sg as [l|t n]; [reflexivity|].
  cbn [expand_seg]. rewrite (Hun t n) by left. reflexivity.
Qed.

Lemma expand_fill_one (t n v : string) (segs : list seg) :
  seg_ok (Hole t n) = true -> forallb seg_ok segs = true ->
  expand_value params inPaths outPaths (hole_match t n) = Some v ->
  map (expand_seg params inPaths outPaths) (map (fill_one (render_seg (Hole t n)) v) segs)
  = map (expand_seg params inPaths outPaths) segs.
Proof.
  intros Hok Hsegs Hv. induction segs as [|sg segs IH]; [reflexivity|].
  cbn [forallb] in Hsegs. apply andb_true_iff in Hsegs as [Hsg Hsegs].
  cbn [map]. rewrite (IH Hsegs). f_equal.
  destruct sg as [l|t' n']; [reflexivity|].
  cbn [fill_one].
  destruct (String.eqb_spec (render_seg (Hole t' n')) (render_seg (Hole t n))) as [Heq|Hne];
    [|reflexivity].
  destruct (hole_inj t' n' t n Hsg Hok Heq) as [-> ->].
  cbn [expand_seg]. rewrite Hv. reflexivity.
Qed.

Lemma hole_match_render (t n t' n' : string) :
  hole_match t n = hole_match t' n' -> render_seg (Hole t n) = render_seg (Hole t' n').
Proof. intros Heq. exact (f_equal Regex.whole Heq). Qed.

Lemma expand_loop (ms : list Regex.submatch) : forall segs,
  forallb seg_ok segs = true ->
  Forall (fun m => exists t n, m = hole_match t n /\ seg_ok (Hole t n) = true
                    /\ forall v, expand_value params inPaths outPaths m = Some v ->
                                 no_brace v = true) ms ->
  (forall t n, Hole t n ∈ segs ->
     hole_match t n ∈ ms
     \/ expand_value params inPaths outPaths (hole_match t n) = None) ->
  foldl (expandStep params inPaths outPaths) (render segs) ms
  = render (map (expand_seg params inPaths outPaths) segs).
Proof.
  induction ms as [|m ms IH]; intros segs Hsegs Hms Hholes.
  - cbn [foldl]. rewrite expand_seg_id; [reflexivity|].
    intros t n Hin. destruct (Hholes t n Hin) as [Hm|Hun]; [inversion Hm|exact Hun].
  - apply Forall_cons in Hms as [(t & n & -> & Hok & Hclean) Hms].
    cbn [foldl]. rewrite expandStep_value.
    destruct (expand_value params inPaths outPaths (hole_match t n)) as [v|] eqn:Hv.
    + unfold hole_match at 1. cbn [Regex.whole].
      rewrite (replace_render t n v segs Hok Hsegs).
      rewrite IH.
      * rewrite (expand_fill_one t n v segs Hok Hsegs Hv). reflexivity.
      * apply fill_one_ok; [apply Hclean; reflexivity|exact Hsegs].
      * exact Hms.
      * intros t' n' Hin. apply elem_of_fill_one in Hin as [Hin Hne].
        destruct (Hholes t' n' Hin) as [Hm|Hun]; [|right; exact Hun].
        apply elem_of_cons in Hm as [Heq|Hm]; [|left; exact Hm].
        exfalso. apply Hne. apply hole_match_render. exact Heq.
    + apply IH; [exact Hsegs|exact Hms|].
      intros t' n' Hin.
      destruct (Hholes t' n' Hin) as [Hm|Hun]; [|right; exact Hun].
      apply elem_of_cons in Hm as [Heq|Hm]; [|left; exact Hm].
      right. rewrite Heq. exact Hv.
Qed.

Lemma expand_seg_ok (segs : list seg) :
  forallb seg_ok segs = true ->
  clean_values params inPaths outPaths segs ->
  forallb seg_ok (map (expand_seg params inPaths outPaths) segs) = true.
Proof.
  induction segs as [|sg segs IH]; intros Hsegs Hclean; [reflexivity|].
  cbn [forallb] in Hsegs. apply andb_true_iff in Hsegs as [Hsg Hsegs].
  cbn [map forallb]. rewrite IH; [|exact Hsegs|].
  - rewrite andb_true_r. destruct sg as [l|t n]; [exact Hsg|].
    cbn [expand_seg].
    destruct (expand_value params inPaths outPaths (hole_match t n)) as [v|] eqn:Hv;
      [|exact Hsg].
    cbn [seg_ok]. apply (Hclean t n v); [left|exact Hv].
  - intros t n v Hin. apply (Hclean t n v). right. exact Hin.
Qed.

Lemma expand_render (segs : list seg) :
  forallb seg_ok segs = true ->
  clean_values params inPaths outPaths segs ->
  expandCommandParamsAndPaths (render segs) params inPaths outPaths
  = render (map (expand_seg params inPaths outPaths) segs).
Proof.
  intros Hsegs Hclean. unfold expandCommandParamsAndPaths.
  rewrite (find_render segs Hsegs). apply expand_loop.
  - exact Hsegs.
  - eapply Forall_impl; [apply (holes_form segs Hsegs)|].
    intros m (t & n & -> & Hok & Hin). exists t, n.
    split; [reflexivity|]. split; [exact Hok|].
    intros v Hv. exact (Hclean t n v Hin Hv).
  - intros t n Hin. left. apply elem_of_holes. exact Hin.
Qed.

Lemma elem_of_expand_seg (segs : list seg) (t n : string) :
  Hole t n ∈ map (expand_seg params inPaths outPaths) segs
  <-> Hole t n ∈ segs
      /\ expand_value params inPaths outPaths (hole_match t n) = None.
Proof.
  induction segs as [|sg segs IH]; cbn [map].
  - split; [intros Hin; inversion Hin|intros [Hin _]; inversion Hin].
  - rewrite !elem_of_cons, IH. destruct sg as [l|t' n']; cbn [expand_seg].
    + split; [intros [Heq|[Hin Hun]]; [discriminate|auto]|].
      intros [[Heq|Hin] Hun]; [discriminate|auto].
    + destruct (expand_value params inPaths outPaths (hole_match t' n')) as [v|] eqn:Hv.
      * split; [intros [Heq|[Hin Hun]]; [discriminate|auto]|].
        intros [[Heq|Hin] Hun]; [|auto].
        injection Heq as -> ->. congruence.
      * split.
        -- intros [Heq|[Hin Hun]]; [|auto]. injection Heq as -> ->. auto.
        -- intros [[Heq|Hin] Hun]; auto.
Qed.

Lemma elem_of_holes_inv (segs : list seg) (m : Regex.submatch) :
  m ∈ holes segs -> exists t n, Hole t n ∈ segs /\ m = hole_match t n.
Proof.
  induction segs as [|sg segs IH]; cbn [holes]; [intros Hin; inversion Hin|].
  destruct sg as [l|t n].
  - intros Hin. destruct (IH Hin) as (t & n & Hs & ->).
    exists t, n. split; [right; exact Hs|reflexivity].
  - intros Hin. apply elem_of_cons in Hin as [->|Hin].
    + exists t, n. split; [left|reflexivity].
    + destruct (IH Hin) as (t' & n' & Hs & ->).
      exists t', n'. split; [right; exact Hs|reflexivity].
Qed.

(** On a template made of placeholders and of text without opening
    brace, when no value the maps hold has an opening brace,
    [expandCommandParamsAndPaths] replaces every placeholder the maps
    hold a value for, where it stands, and leaves the others; the
    placeholders of the result are the ones left, in their order. *)
Theorem expand_single_pass (segs : list seg) :
  forallb seg_ok segs = true ->
  clean_values params inPaths outPaths segs ->
  expandCommandParamsAndPaths (render segs) params inPaths outPaths
  = render (map (expand_seg params inPaths outPaths) segs)
  /\ getPlaceHolderRegex (expandCommandParamsAndPaths (render segs) params inPaths outPaths)
     = holes (map (expand_seg params inPaths outPaths) segs)
  /\ forall t n, Hole t n ∈ map (expand_seg params inPaths outPaths) segs
                 <-> Hole t n ∈ segs
                     /\ expand_value params inPaths outPaths (hole_match t n) = None.
Proof.
  intros Hsegs Hclean. rewrite (expand_render segs Hsegs Hclean).
  split; [reflexivity|]. split; [|apply elem_of_expand_seg].
  apply find_render. apply expand_seg_ok; assumption.
Qed.

End Expansion.

Lemma ShellExpand_nothing_held_witness :
  let params : option (gmap string string) := Some {[ "x" := "1" ]} in
  (forall m, m ∈ getPlaceHolderRegex "wc {i:in} {is:s} {p:y}" ->
             expand_value params None (Some ∅) m = None)
  /\ Expand.ShellExpand "wc {i:in} {is:s} {p:y}" None (Some ∅) params
     = Process.Shell "wc {i:in} {is:s} {p:y}".
Proof.
  intros params.
  assert (Hun : forall m, m ∈ getPlaceHolderRegex "wc {i:in} {is:s} {p:y}" ->
                          expand_value params None (Some ∅) m = None).
  { intros m Hin.
    change (getPlaceHolderRegex "wc {i:in} {is:s} {p:y}")
      with [Regex.Submatch "{i:in}" "i" "in"; Regex.Submatch "{is:s}" "is" "s";
            Regex.Submatch "{p:y}" "p" "y"] in Hin.
    repeat (apply elem_of_cons in Hin as [->|Hin]; [vm_compute; reflexivity|]).
    inversion Hin. }
  split; [exact Hun|].
  exact (proj1 (proj2 (ShellExpand_nothing_held params None (Some ∅)
                         "wc {i:in} {is:s} {p:y}" Hun))).
Defined.

Lemma expand_single_pass_witness :
  let inPaths : option (gmap string string) := Some {[ "in" := "a.txt" ]} in
  let segs := [Lit "cat "; Hole "i" "in"; Lit " > "; Hole "o" "out"] in
  forallb seg_ok segs = true
  /\ clean_values None inPaths None segs
  /\ Expand.expandCommandParamsAndPaths "cat {i:in} > {o:out}" None inPaths None
     = "cat a.txt > {o:out}".
Proof.
  intros inPaths segs.
  assert (Hok : forallb seg_ok segs = true) by (vm_compute; reflexivity).
  assert (Hclean : clean_values None inPaths None segs).
  { intros t n v Hin Hv.
    repeat (apply elem_of_cons in Hin as [Hin|Hin]; [try discriminate|]);
      try (inversion Hin; fail);
      injection Hin as -> ->; vm_compute in Hv; try discriminate;
      injection Hv as <-; reflexivity. }
  split; [exact Hok|]. split; [exact Hclean|].
  exact (proj1 (expand_single_pass None inPaths None segs Hok Hclean)).
Defined.

Section ExpandedPorts.
Import Process Expand.
Local Open Scope string_scope.
Context (params inPaths outPaths : option (gmap string string)).

Lemma names_port_holes (segs : list seg) (kinds : list string) (n : string) :
  names_port (holes segs) kinds n <-> exists t, t ∈ kinds /\ Hole t n ∈ segs.
Proof.
  split.
  - intros (m & Hin & Hk & Hn).
    apply elem_of_holes_inv in Hin as (t & n' & Hs & ->).
    cbn in Hk, Hn. subst n'. exists t. auto.
  - intros (t & Hk & Hs). exists (hole_match t n).
    split; [apply elem_of_holes; exact Hs|]. split; [exact Hk|reflexivity].
Qed.

(** The process [ShellExpand] makes from such a template has the
    expanded command as its pattern and a port for every placeholder
    the maps hold no value for, and for no other: a placeholder that was
    given a value, the empty one too, is no port of the process. *)
Theorem ShellExpand_ports (segs : list seg) :
  forallb seg_ok segs = true ->
  clean_values params inPaths outPaths segs ->
  let p := ShellExpand (render segs) inPaths outPaths params in
  CommandPattern p = render (map (expand_seg params inPaths outPaths) segs)
  /\ (forall n ch, InPorts p !! n = Some ch
        <-> ch = make_chan /\ Hole "i" n ∈ segs /\ held inPaths n = None)
  /\ (forall n ch, OutPorts p !! n = Some ch
        <-> ch = make_chan /\ (Hole "o" n ∈ segs \/ Hole "os" n ∈ segs)
            /\ held outPaths n = None)
  /\ (forall n b, OutPortsDoStream p !! n = Some b
        <-> b = true /\ Hole "os" n ∈ segs /\ held outPaths n = None)
  /\ (forall n ch, ParamPorts p !! n = Some ch
        <-> ch = make_chan /\ Hole "p" n ∈ segs /\ held params n = None).
Proof.
  intros Hsegs Hclean p.
  assert (Hp : p = foldl (initPort params)
                 (NewShellProcess (render (map (expand_seg params inPaths outPaths) segs)))
                 (holes (map (expand_seg params inPaths outPaths) segs))).
  { unfold p, ShellExpand, initPortsFromCmdPattern.
    rewrite (expand_render params inPaths outPaths segs Hsegs Hclean).
    rewrite find_render by (apply expand_seg_ok; assumption). reflexivity. }
  rewrite Hp. clear Hp p.
  destruct (initPorts_registered params
              (render (map (expand_seg params inPaths outPaths) segs))
              (holes (map (expand_seg params inPaths outPaths) segs)))
    as (Hin & Hout & Hds & Hpp & Hc & _).
  split; [exact Hc|].
  split; [|split; [|split]].
  - intros n ch. rewrite Hin, names_port_holes. split.
    + intros [-> (t & Hk & Hs)]. apply list_elem_of_singleton in Hk as ->.
      apply elem_of_expand_seg in Hs as [Hs Hun]. auto.
    + intros (-> & Hs & Hun). split; [reflexivity|]. exists "i".
      split; [left|]. apply elem_of_expand_seg. auto.
  - intros n ch. rewrite Hout, names_port_holes. split.
    + intros [-> (t & Hk & Hs)]. apply elem_of_expand_seg in Hs as [Hs Hun].
      apply elem_of_cons in Hk as [->|Hk];
        [|apply list_elem_of_singleton in Hk as ->]; auto.
    + intros (-> & [Hs|Hs] & Hun); (split; [reflexivity|]).
      * exists "o". split; [left|]. apply elem_of_expand_seg. auto.
      * exists "os". split; [right; left|]. apply elem_of_expand_seg. auto.
  - intros n b. rewrite Hds, names_port_holes. split.
    + intros [-> (t & Hk & Hs)]. apply list_elem_of_singleton in Hk as ->.
      apply elem_of_expand_seg in Hs as [Hs Hun]. auto.
    + intros (-> & Hs & Hun). split; [reflexivity|]. exists "os".
      split; [left|]. apply elem_of_expand_seg. auto.
  - intros n ch. rewrite Hpp, names_port_holes. split.
    + intros (-> & (t & Hk & Hs) & _). apply list_elem_of_singleton in Hk as ->.
      apply elem_of_expand_seg in Hs as [Hs Hun]. auto.
    + intros (-> & Hs & Hun). split; [reflexivity|].
      split; [|apply held_None_unset; exact Hun].
      exists "p". split; [left|]. apply elem_of_expand_seg. auto.
Qed.

End ExpandedPorts.

Lemma ShellExpand_ports_witness :
  let params : option (gmap string string) := Some {[ "n" := "" ]} in
  let segs := [Lit "head -"; Hole "p" "n"; Lit " "; Hole "i" "in"] in
  let p := Expand.ShellExpand "head -{p:n} {i:in}" None None params in
  forallb seg_ok segs = true
  /\ clean_values params None None segs
  /\ Process.CommandPattern p = "head - {i:in}"
  /\ Process.ParamPorts p !! "n" = None
  /\ Process.InPorts p !! "in" = Some make_chan.
Proof.
  intros params segs p.
  assert (Hok : forallb seg_ok segs = true) by (vm_compute; reflexivity).
  assert (Hclean : clean_values params None None segs).
  { intros t n v Hin Hv.
    repeat (apply elem_of_cons in Hin as [Hin|Hin]; [try discriminate|]);
      try (inversion Hin; fail);
      injection Hin as -> ->; vm_compute in Hv; try discriminate;
      injection Hv as <-; reflexivity. }
  split; [exact Hok|]. split; [exact Hclean|].
  split; [exact (proj1 (ShellExpand_ports params None None segs Hok Hclean))|].
  split; vm_compute; reflexivity.
Defined.

(** ** The out-targets of a new task *)

Section OutTargets.
Context `{GoEnv}.
Import Task.

Lemma makeOutTargets_lookup (t : TaskData) (ds : gmap string bool)
    (l : list (string * PathFormatter)) : forall acc outs,
  NoDup l.*1 ->
  makeOutTargets t ds l acc = Ok outs ->
  (forall name f, (name, f) ∈ l ->
     is_Ok (f t) = true /\ outs !! name = out_target ds t name f)
  /\ (forall name, name ∉ l.*1 -> outs !! name = acc !! name).
Proof.
  induction l as [|[oname ofun] l IH]; intros acc outs Hnd Hmk.
  - simpl in Hmk. injection Hmk as <-.
    split; [intros name f Hin; inversion Hin|reflexivity].
  - cbn [fmap list_fmap] in Hnd. apply NoDup_cons in Hnd as [Hfresh Hnd].
    cbn [makeOutTargets] in Hmk.
    destruct (ofun t) as [opath| | |] eqn:Hf; try discriminate Hmk.
    cbn in Hmk.
    destruct (IH _ _ Hnd Hmk) as [Hin Hout].
    assert (Hhead : outs !! oname = out_target ds t oname ofun).
    { rewrite (Hout oname Hfresh), lookup_insert_eq.
      unfold out_target. rewrite Hf.
      destruct (default false (ds !! oname)); reflexivity. }
    split.
    + intros name f Hm. apply elem_of_cons in Hm as [[= -> ->]|Hm].
      * rewrite Hf. split; [reflexivity|exact Hhead].
      * apply Hin. exact Hm.
    + intros name Hname. cbn [fmap list_fmap] in Hname.
      apply not_elem_of_cons in Hname as [Hne Hname].
      rewrite (Hout name Hname). apply lookup_insert_ne.
      intros Heq. apply Hne. cbn. congruence.
Qed.

Lemma makeOutTargets_total (t : TaskData) (ds : gmap string bool)
    (l : list (string * PathFormatter)) : forall acc,
  (forall name f, (name, f) ∈ l -> is_Ok (f t) = true) ->
  exists outs, makeOutTargets t ds l acc = Ok outs.
Proof.
  induction l as [|[oname ofun] l IH]; intros acc Hall.
  - exists acc. reflexivity.
  - cbn [makeOutTargets].
    pose proof (Hall oname ofun ltac:(left)) as Hf.
    destruct (ofun t) as [opath| | |]; try discriminate Hf. cbn.
    apply IH. intros name f Hin. apply (Hall name f). right. exact Hin.
Qed.

Lemma makeOutTargets_range (t : TaskData) (ds : gmap string bool)
    (fmts : gmap string PathFormatter) (site : nat) (outs : gmap string FileTarget) :
  makeOutTargets t ds (range site fmts) ∅ = Ok outs
  <-> (forall name f, fmts !! name = Some f -> is_Ok (f t) = true)
      /\ outs = out_targets ds t fmts.
Proof.
  split.
  - intros Hmk.
    destruct (makeOutTargets_lookup t ds _ _ _ (NoDup_fst_range site fmts) Hmk)
      as [Hin Hout].
    split.
    + intros name f Hf. apply (Hin name f). apply elem_of_range. exact Hf.
    + apply map_eq. intros name. unfold out_targets. rewrite map_lookup_imap.
      destruct (fmts !! name) as [f|] eqn:Hf; cbn.
      * apply (Hin name f). apply elem_of_range. exact Hf.
      * rewrite Hout; [apply lookup_empty|].
        intros Hname. apply list_elem_of_fmap in Hname as ([n f] & -> & Hm).
        apply elem_of_range in Hm. cbn in Hf. congruence.
  - intros [Hall ->].
    destruct (makeOutTargets_total t ds (range site fmts) ∅) as [outs Hmk].
    { intros name f Hm. apply (Hall name f). apply elem_of_range in Hm. exact Hm. }
    rewrite Hmk. f_equal.
    destruct (makeOutTargets_lookup t ds _ _ _ (NoDup_fst_range site fmts) Hmk)
      as [Hin Hout].
    apply map_eq. intros name. unfold out_targets. rewrite map_lookup_imap.
    destruct (fmts !! name) as [f|] eqn:Hf; cbn.
    + apply (Hin name f). apply elem_of_range. exact Hf.
    + rewrite Hout; [apply lookup_empty|].
      intros Hname. apply list_elem_of_fmap in Hname as ([n f] & -> & Hm).
      apply elem_of_range in Hm. cbn in Hf. congruence.
Qed.

(** [NewShellTask] returns a task exactly when every path formatter
    returns a path for the task without out-targets and command, and the
    command can be formatted with the out-targets these paths give.  The
    task then has one out-target for every port that has a formatter, at
    the formatter's path and streaming when the port is flagged so, in
    whatever order the formatters were visited; it has the inputs and
    parameters given, the formatted command, and no custom executor. *)
Theorem NewShellTask_out_targets
    (cmdPat : string) (inTargets : gmap string FileTarget)
    (outPathFuncs : gmap string PathFormatter) (outPortsDoStream : gmap string bool)
    (params : gmap string string) (prepend : string) (t : ShellTask) :
  let outs := out_targets outPortsDoStream (task0 inTargets params) outPathFuncs in
  NewShellTask cmdPat inTargets outPathFuncs outPortsDoStream params prepend = Ok t
  <-> (forall name f, outPathFuncs !! name = Some f ->
                      is_Ok (f (task0 inTargets params)) = true)
      /\ exists command,
           formatCommand cmdPat inTargets outs params prepend = Ok command
           /\ t = {| data := {| InTargets := inTargets; OutTargets := outs;
                                Params := params; Command := command |};
                     CustomExecute := None |}.
Proof.
  intros outs. unfold NewShellTask. fold (task0 inTargets params).
  destruct (makeOutTargets (task0 inTargets params) outPortsDoStream
              (range site_NewShellTask outPathFuncs) ∅) as [o| | |] eqn:Hmk.
  - apply makeOutTargets_range in Hmk as [Hall ->]. fold outs. cbn.
    destruct (formatCommand cmdPat inTargets outs params prepend) as [c| | |] eqn:Hc;
      cbn.
    + split.
      * intros [= <-]. split; [exact Hall|]. exists c. split; reflexivity.
      * intros [_ (c' & [= <-] & ->)]. reflexivity.
    + split; [discriminate|intros [_ (c' & Hc' & _)]; discriminate].
    + split; [discriminate|intros [_ (c' & Hc' & _)]; discriminate].
    + split; [discriminate|intros [_ (c' & Hc' & _)]; discriminate].
  - cbn. split; [discriminate|]. intros [Hall _]. exfalso.
    assert (Hok : makeOutTargets (task0 inTargets params) outPortsDoStream
                    (range site_NewShellTask outPathFuncs) ∅ = Ok outs)
      by (apply makeOutTargets_range; split; [exact Hall|reflexivity]).
    congruence.
  - cbn. split; [discriminate|]. intros [Hall _]. exfalso.
    assert (Hok : makeOutTargets (task0 inTargets params) outPortsDoStream
                    (range site_NewShellTask outPathFuncs) ∅ = Ok outs)
      by (apply makeOutTargets_range; split; [exact Hall|reflexivity]).
    congruence.
  - cbn. split; [discriminate|]. intros [Hall _]. exfalso.
    assert (Hok : makeOutTargets (task0 inTargets params) outPortsDoStream
                    (range site_NewShellTask outPathFuncs) ∅ = Ok outs)
      by (apply makeOutTargets_range; split; [exact Hall|reflexivity]).
    congruence.
Qed.

End OutTargets.

(** ** The path formatters of the convenience methods *)

Section Formatters.
Context `{GoEnv}.
Import Task Process.
Local Open Scope string_scope.

Lemma NewShellTask_Ok_inv
    (cmdPat : string) (inTargets : gmap string FileTarget)
    (fmts : gmap string PathFormatter) (ds : gmap string bool)
    (params : gmap string string) (prepend : string) (t : ShellTask) :
  NewShellTask cmdPat inTargets fmts ds params prepend = Ok t ->
  (forall name f, fmts !! name = Some f -> is_Ok (f (task0 inTargets params)) = true)
  /\ OutTargets t = out_targets ds (task0 inTargets params) fmts.
Proof.
  unfold NewShellTask. fold (task0 inTargets params).
  destruct (makeOutTargets (task0 inTargets params) ds
              (range site_NewShellTask fmts) ∅) as [o| | |] eqn:Hmk;
    try discriminate.
  apply makeOutTargets_range in Hmk as [Hall ->]. cbn.
  destruct (formatCommand cmdPat inTargets _ params prepend) as [c| | |];
    try discriminate.
  cbn. intros [= <-]. split; [exact Hall|reflexivity].
Qed.

Lemma formatter_target
    (cmdPat : string) (inTargets : gmap string FileTarget)
    (fmts : gmap string PathFormatter) (ds : gmap string bool)
    (params : gmap string string) (prepend : string) (t : ShellTask)
    (out : string) (f : PathFormatter) :
  NewShellTask cmdPat inTargets fmts ds params prepend = Ok t ->
  fmts !! out = Some f ->
  exists pth, f (task0 inTargets params) = Ok pth
    /\ OutTargets t !! out
       = Some {| path := pth; doStream := default false (ds !! out);
                 auditInfo := None |}.
Proof.
  intros Hok Hf. apply NewShellTask_Ok_inv in Hok as [Hall ->].
  specialize (Hall out f Hf). unfold out_targets.
  rewrite map_lookup_imap, Hf. cbn. unfold out_target.
  destruct (f (task0 inTargets params)) as [pth| | |]; try discriminate Hall.
  exists pth. split; reflexivity.
Qed.

(** The task a process makes after one of the three convenience methods
    set the formatter of the out-port [out].  With
    [SetPathFormatterString] the out-target is at the path given; with
    [SetPathFormatterExtend] it is at the path of the input [inp]
    followed by the extension, with [SetPathFormatterReplace] at that
    path with [old] replaced by [new], and no task is made when the task
    has no input [inp].  The formatter of [SetPathFormatterExtend] is
    [GetInPath] followed by the extension.  The methods change the
    formatter of [out] and nothing else of the process. *)
Theorem SetPathFormatter_paths
    (p : ShellProcess) (out inp ext old new pth : string)
    (inTargets : gmap string FileTarget) (params : gmap string string) :
  let mk (q : ShellProcess) :=
    NewShellTask (CommandPattern q) inTargets (PathFormatters q)
      (OutPortsDoStream q) params (Prepend q) in
  let target (s : string) : FileTarget :=
    {| path := s; doStream := default false (OutPortsDoStream p !! out);
       auditInfo := None |} in
  (forall t, mk (SetPathFormatterString p out pth) = Ok t ->
             OutTargets t !! out = Some (target pth))
  /\ (forall t, mk (SetPathFormatterExtend p out inp ext) = Ok t ->
        exists ip, inTargets !! inp = Some ip
                   /\ OutTargets t !! out = Some (target (path ip ++ ext)))
  /\ (forall t, mk (SetPathFormatterReplace p out inp old new) = Ok t ->
        exists ip, inTargets !! inp = Some ip
                   /\ OutTargets t !! out
                      = Some (target (Strings.Replace (path ip) old new)))
  /\ (inTargets !! inp = None ->
        is_Ok (mk (SetPathFormatterExtend p out inp ext)) = false
        /\ is_Ok (mk (SetPathFormatterReplace p out inp old new)) = false)
  /\ (forall f t, PathFormatters (SetPathFormatterExtend p out inp ext) !! out = Some f ->
        f t = (s ← GetInPath t inp; Ok (s ++ ext)))
  /\ (forall q, q ∈ [SetPathFormatterString p out pth;
                     SetPathFormatterExtend p out inp ext;
                     SetPathFormatterReplace p out inp old new] ->
        (forall o, o <> out -> PathFormatters q !! o = PathFormatters p !! o)
        /\ InPorts q = InPorts p /\ OutPorts q = OutPorts p
        /\ OutPortsDoStream q = OutPortsDoStream p /\ ParamPorts q = ParamPorts p
        /\ CustomExecute q = CustomExecute p /\ Prepend q = Prepend p
        /\ CommandPattern q = CommandPattern p /\ Spawn q = Spawn p).
Proof.
  intros mk target.
  assert (Hext : forall t, mk (SetPathFormatterExtend p out inp ext) = Ok t ->
            exists ip, inTargets !! inp = Some ip
                       /\ OutTargets t !! out = Some (target (path ip ++ ext))).
  { intros t Hok.
    destruct (formatter_target _ _ _ _ _ _ _ out _ Hok (lookup_insert_eq _ _ _))
      as (s & Hs & Ht).
    cbn in Hs. destruct (inTargets !! inp) as [ip|]; [|discriminate].
    injection Hs as <-. exists ip. split; [reflexivity|exact Ht]. }
  assert (Hrep : forall t, mk (SetPathFormatterReplace p out inp old new) = Ok t ->
            exists ip, inTargets !! inp = Some ip
                       /\ OutTargets t !! out
                          = Some (target (Strings.Replace (path ip) old new))).
  { intros t Hok.
    destruct (formatter_target _ _ _ _ _ _ _ out _ Hok (lookup_insert_eq _ _ _))
      as (s & Hs & Ht).
    cbn in Hs. destruct (inTargets !! inp) as [ip|]; [|discriminate].
    injection Hs as <-. exists ip. split; [reflexivity|exact Ht]. }
  split; [|split; [exact Hext|split; [exact Hrep|split; [|split]]]].
  - intros t Hok.
    destruct (formatter_target _ _ _ _ _ _ _ out _ Hok (lookup_insert_eq _ _ _))
      as (s & Hs & Ht).
    injection Hs as <-. exact Ht.
  - intros Hnone. split.
    + destruct (mk (SetPathFormatterExtend p out inp ext)) as [t| | |] eqn:Hok;
        try reflexivity.
      destruct (Hext t eq_refl) as (ip & Hip & _). congruence.
    + destruct (mk (SetPathFormatterReplace p out inp old new)) as [t| | |] eqn:Hok;
        try reflexivity.
      destruct (Hrep t eq_refl) as (ip & Hip & _). congruence.
  - intros f t Hf. cbn in Hf. rewrite lookup_insert_eq in Hf. injection Hf as <-.
    unfold GetInPath. destruct (InTargets t !! inp); reflexivity.
  - intros q Hq.
    repeat (apply elem_of_cons in Hq as [->|Hq];
            [split; [intros o Ho; cbn; apply lookup_insert_ne; congruence
                    |repeat split]|]).
    inversion Hq.
Qed.

End Formatters.

Lemma SetPathFormatter_paths_witness :
  let p := Process.Shell "cat {i:in} > {o:out}" in
  let inTargets : gmap string FileTarget := {[ "in" := NewFileTarget "a.txt" ]} in
  let q := Process.SetPathFormatterExtend p "out" "in" ".copy" in
  exists t,
    Task.NewShellTask (Process.CommandPattern q) inTargets (Process.PathFormatters q)
      (Process.OutPortsDoStream q) ∅ (Process.Prepend q) = Ok t
    /\ Task.Command (Task.data t) = "cat a.txt > a.txt.copy.tmp"
    /\ exists ip, inTargets !! "in" = Some ip
         /\ Task.OutTargets (Task.data t) !! "out"
            = Some {| path := path ip ++ ".copy"; doStream := false; auditInfo := None |}.
Proof.
  intros p inTargets q.
  destruct (Task.NewShellTask (Process.CommandPattern q) inTargets
              (Process.PathFormatters q) (Process.OutPortsDoStream q) ∅
              (Process.Prepend q)) as [t| | |] eqn:Hok;
    try (vm_compute in Hok; discriminate Hok).
  exists t. split; [reflexivity|].
  split; [vm_compute in Hok; injection Hok as <-; reflexivity|].
  exact (proj1 (proj2 (SetPathFormatter_paths p "out" "in" ".copy" "" "" ""
                         inTargets ∅)) t Hok).
Defined.

(** [SetPathFormatterReplace] with an empty [old]: [new] goes before
    every rune of the path and at its end.  The two bytes of a rune of
    two bytes stay together; a byte that starts no rune is a rune of its
    own. *)
Example Replace_empty_old_runes :
  let e := String (ascii_of_nat 195) (String (ascii_of_nat 169) "") in
  Strings.Replace (e ++ ".t") "" "-" = "-" ++ e ++ "-.-t-"
  /\ Strings.Replace (String (ascii_of_nat 195) "a") "" "-"
     = "-" ++ String (ascii_of_nat 195) "-a-"
  /\ Strings.Replace "ab" "" "-" = "-a-b-"
  /\ Strings.Replace "" "" "-" = "-".
Proof. repeat split; vm_compute; reflexivity. Qed.

(** ** What one round of receives gathers *)

Section Receive.
Context `{GoEnv}.
Import Process.

Lemma advance_closed_empty {A} (ch : Chan A) :
  has_item ch = false -> advance ch = ch.
Proof.
  destruct ch as [its cl]. unfold has_item, advance. cbn.
  destruct its; [reflexivity|discriminate].
Qed.

Lemma recv_has_item {A} (ch : Chan A) :
  has_item ch = true ->
  exists x, items ch !! 0 = Some x /\ recv ch = Ok (Some x, advance ch).
Proof.
  unfold has_item, recv, advance. destruct (items ch) as [|x rest]; [discriminate|].
  intros _. exists x. split; reflexivity.
Qed.

Lemma recv_closed_empty {A} (ch : Chan A) :
  has_item ch = false -> closes ch = true -> recv ch = Ok (None, ch).
Proof.
  unfold has_item, recv. destruct (items ch); [|discriminate].
  intros _ ->. reflexivity.
Qed.

Lemma recv_blocked {A} (ch : Chan A) : serves ch = false -> recv ch = Blocked.
Proof.
  unfold serves, has_item, recv. destruct (items ch); [|discriminate].
  cbn. intros ->. reflexivity.
Qed.

Lemma receiveAll_serving {A} (l : list (string * Chan A)) :
  forall got allOpen chans,
  NoDup l.*1 -> Forall (fun x => serves x.2 = true) l ->
  exists got' chans',
    receiveAll l got allOpen chans
    = Ok (got', allOpen && forallb (fun x => has_item x.2) l, chans')
    /\ (forall n ch, (n, ch) ∈ l ->
          got' !! n = match items ch !! 0 with Some x => Some x | None => got !! n end
          /\ chans' !! n = if has_item ch then Some (advance ch) else chans !! n)
    /\ (forall n, n ∉ l.*1 -> got' !! n = got !! n /\ chans' !! n = chans !! n).
Proof.
  induction l as [|[name ch] l IH]; intros got allOpen chans Hnd Hserve.
  - exists got, chans. cbn. rewrite andb_true_r.
    split; [reflexivity|]. split; [intros n ch Hin; inversion Hin|auto].
  - cbn [fmap list_fmap] in Hnd. apply NoDup_cons in Hnd as [Hfresh Hnd].
    apply Forall_cons in Hserve as [Hch Hserve]. cbn in Hch, Hfresh.
    cbn [receiveAll forallb snd].
    destruct (has_item ch) eqn:Hitem.
    + destruct (recv_has_item ch Hitem) as (x & Hx & ->). cbn.
      destruct (IH (<[name := x]> got) allOpen (<[name := advance ch]> chans) Hnd Hserve)
        as (got' & chans' & -> & Hin & Hout).
      exists got', chans'. split; [reflexivity|]. split.
      * intros n c Hm. apply elem_of_cons in Hm as [[= -> ->]|Hm].
        -- destruct (Hout name Hfresh) as [-> ->].
           rewrite !lookup_insert_eq, Hx, Hitem. auto.
        -- destruct (Hin n c Hm) as [-> ->].
           assert (n <> name).
           { intros ->. apply Hfresh. apply list_elem_of_fmap.
             exists (name, c). auto. }
           rewrite !lookup_insert_ne by congruence. auto.
      * intros n Hn. cbn [fmap list_fmap] in Hn.
        apply not_elem_of_cons in Hn as [Hne Hn]. cbn in Hne.
        destruct (Hout n Hn) as [-> ->].
        rewrite !lookup_insert_ne by congruence. auto.
    + unfold serves in Hch. rewrite Hitem in Hch. cbn in Hch.
      rewrite (recv_closed_empty ch Hitem Hch). cbn.
      destruct (IH got false chans Hnd Hserve) as (got' & chans' & -> & Hin & Hout).
      exists got', chans'. rewrite andb_false_r. split; [reflexivity|]. split.
      * intros n c Hm. apply elem_of_cons in Hm as [[= -> ->]|Hm].
        -- destruct (Hout name Hfresh) as [-> ->]. rewrite Hitem.
           unfold has_item in Hitem. destruct (items ch); [auto|discriminate].
        -- apply Hin. exact Hm.
      * intros n Hn. cbn [fmap list_fmap] in Hn.
        apply not_elem_of_cons in Hn as [_ Hn]. apply Hout. exact Hn.
Qed.

Lemma receiveAll_blocked {A} (l : list (string * Chan A)) :
  forall got allOpen chans,
  Exists (fun x => serves x.2 = false) l ->
  receiveAll l got allOpen chans = Blocked.
Proof.
  induction l as [|[name ch] l IH]; intros got allOpen chans Hex;
    [inversion Hex|].
  cbn [receiveAll].
  destruct (serves ch) eqn:Hch.
  - apply Exists_cons in Hex as [Hex|Hex]; [cbn in Hex; congruence|].
    unfold serves in Hch. destruct (has_item ch) eqn:Hitem.
    + destruct (recv_has_item ch Hitem) as (x & _ & ->). cbn. apply IH. exact Hex.
    + cbn in Hch. rewrite (recv_closed_empty ch Hitem Hch). cbn. apply IH. exact Hex.
  - rewrite (recv_blocked ch Hch). reflexivity.
Qed.

Lemma forallb_range {A} (P : Chan A -> bool) (site : nat) (m : gmap string (Chan A)) :
  forallb (fun x => P x.2) (range site m)
  = bool_decide (map_Forall (fun _ ch => P ch = true) m).
Proof.
  apply eq_true_iff_eq. rewrite forallb_forall, bool_decide_eq_true. split.
  - intros Hall n ch Hm. apply (Hall (n, ch)).
    apply list_elem_of_In, elem_of_range. exact Hm.
  - intros Hall [n ch] Hin. apply list_elem_of_In, elem_of_range in Hin.
    exact (Hall n ch Hin).
Qed.

(** One receive on every port of the map [m]. *)
Lemma receive_ports {A} (site : nat) (m : gmap string (Chan A)) :
  (map_Forall (fun _ ch => serves ch = true) m ->
   receiveAll (range site m) ∅ true m
   = Ok (nth_items 0 m, all_deliver m, advance <$> m))
  /\ ((exists n ch, m !! n = Some ch /\ serves ch = false) ->
      receiveAll (range site m) ∅ true m = Blocked).
Proof.
  split.
  - intros Hserve.
    destruct (receiveAll_serving (range site m) ∅ true m (NoDup_fst_range site m))
      as (got' & chans' & -> & Hin & Hout).
    { apply Forall_forall. intros [n ch] Hm. apply elem_of_range in Hm.
      exact (Hserve n ch Hm). }
    cbn [andb]. rewrite forallb_range. fold (all_deliver m).
    f_equal. f_equal; [f_equal|]; apply map_eq; intros n.
    + unfold nth_items. rewrite lookup_omap.
      destruct (m !! n) as [ch|] eqn:Hm; cbn.
      * destruct (Hin n ch) as [-> _]; [apply elem_of_range; exact Hm|].
        rewrite lookup_empty. destruct (items ch !! 0); reflexivity.
      * destruct (Hout n) as [-> _]; [|apply lookup_empty].
        intros Hn. apply list_elem_of_fmap in Hn as ([n' ch] & -> & Hx).
        apply elem_of_range in Hx. cbn in Hm. congruence.
    + rewrite lookup_fmap. destruct (m !! n) as [ch|] eqn:Hm; cbn.
      * destruct (Hin n ch) as [_ ->]; [apply elem_of_range; exact Hm|].
        destruct (has_item ch) eqn:Hitem; [reflexivity|].
        rewrite Hm, (advance_closed_empty ch Hitem). reflexivity.
      * destruct (Hout n) as [_ ->]; [|exact Hm].
        intros Hn. apply list_elem_of_fmap in Hn as ([n' ch] & -> & Hx).
        apply elem_of_range in Hx. cbn in Hm. congruence.
  - intros (n & ch & Hm & Hch). apply receiveAll_blocked.
    apply Exists_exists. exists (n, ch). split; [|exact Hch].
    apply elem_of_range. exact Hm.
Qed.

(** [receiveInputs] and [receiveParams] take one value from every port
    that holds one, whatever the order in which the ports are visited:
    the map returned has the first value of every such port, the flag
    returned tells whether every port held a value, and every port is
    left without the value taken.  They do not return while some port is
    empty and not closed. *)
Theorem receive_gathers (p : ShellProcess) :
  (map_Forall (fun _ ch => serves ch = true) (InPorts p) ->
   receiveInputs p
   = Ok (nth_items 0 (InPorts p), all_deliver (InPorts p),
         set_InPorts p (advance <$> InPorts p)))
  /\ ((exists n ch, InPorts p !! n = Some ch /\ serves ch = false) ->
      receiveInputs p = Blocked)
  /\ (map_Forall (fun _ ch => serves ch = true) (ParamPorts p) ->
      receiveParams p
      = Ok (nth_items 0 (ParamPorts p), all_deliver (ParamPorts p),
            set_ParamPorts p (advance <$> ParamPorts p)))
  /\ ((exists n ch, ParamPorts p !! n = Some ch /\ serves ch = false) ->
      receiveParams p = Blocked).
Proof.
  unfold receiveInputs, receiveParams.
  destruct (receive_ports site_receiveInputs (InPorts p)) as [Hin Hinb].
  destruct (receive_ports site_receiveParams (ParamPorts p)) as [Hpp Hppb].
  split; [|split; [|split]].
  - intros Hs. rewrite (Hin Hs). reflexivity.
  - intros Hb. rewrite (Hinb Hb). reflexivity.
  - intros Hs. rewrite (Hpp Hs). reflexivity.
  - intros Hb. rewrite (Hppb Hb). reflexivity.
Qed.

End Receive.

Lemma receive_gathers_witness :
  let ia : FileTarget := NewFileTarget "a.txt" in
  let p := Process.set_InPorts (Process.Shell "cat {i:a} {i:b}")
             {[ "a" := {| items := [ia]; closes := true |};
                "b" := {| items := []; closes := true |} ]} in
  map_Forall (fun _ ch => serves ch = true) (Process.InPorts p)
  /\ Process.receiveInputs p
     = Ok (nth_items 0 (Process.InPorts p), all_deliver (Process.InPorts p),
           Process.set_InPorts p (advance <$> Process.InPorts p))
  /\ nth_items 0 (Process.InPorts p) = {[ "a" := ia ]}
  /\ all_deliver (Process.InPorts p) = false.
Proof.
  intros ia p.
  assert (Hs : map_Forall (fun _ ch => serves ch = true) (Process.InPorts p)).
  { apply map_Forall_to_list. vm_compute. repeat constructor. }
  split; [exact Hs|].
  split; [exact (proj1 (receive_gathers p) Hs)|].
  split; vm_compute; reflexivity.
Defined.

(** ** The tasks a process makes from the streams on its ports *)

Section Zip.
Context `{GoEnv}.
Import Task Process.

Lemma has_item_serves {A} (m : gmap string (Chan A)) :
  all_deliver m = true -> map_Forall (fun _ ch => serves ch = true) m.
Proof.
  unfold all_deliver. rewrite bool_decide_eq_true. intros Hall n ch Hm.
  unfold serves. rewrite (Hall n ch Hm). reflexivity.
Qed.

Lemma streams_serves {A} (n : nat) (m : gmap string (Chan A)) :
  streams n m -> map_Forall (fun _ ch => serves ch = true) m.
Proof.
  intros Hs k ch Hm. destruct (Hs k ch Hm) as [_ Hc].
  unfold serves. rewrite Hc. apply orb_true_r.
Qed.

Lemma all_deliver_empty {A} : all_deliver (∅ : gmap string (Chan A)) = true.
Proof. unfold all_deliver. apply bool_decide_eq_true. apply map_Forall_empty. Qed.

Lemma all_deliver_exhausted {A} (m : gmap string (Chan A)) n ch :
  m !! n = Some ch -> has_item ch = false -> all_deliver m = false.
Proof.
  intros Hm Hitem. unfold all_deliver. apply bool_decide_eq_false.
  intros Hall. specialize (Hall n ch Hm). cbn in Hall. congruence.
Qed.

Lemma all_deliver_streams_0 {A} (m : gmap string (Chan A)) :
  streams 0 m -> m <> ∅ -> all_deliver m = false.
Proof.
  intros Hs Hne. destruct (map_choose m Hne) as (n & ch & Hm).
  apply (all_deliver_exhausted m n ch Hm).
  destruct (Hs n ch Hm) as [Hlen _]. unfold has_item.
  destruct (items ch); [reflexivity|discriminate].
Qed.

Lemma all_deliver_streams_S {A} (n : nat) (m : gmap string (Chan A)) :
  streams (S n) m -> all_deliver m = true.
Proof.
  intros Hs. unfold all_deliver. apply bool_decide_eq_true. intros k ch Hm.
  destruct (Hs k ch Hm) as [Hlen _]. unfold has_item.
  destruct (items ch); [discriminate|reflexivity].
Qed.

Lemma streams_advance {A} (n : nat) (m : gmap string (Chan A)) :
  streams (S n) m -> streams n (advance <$> m).
Proof.
  intros Hs. unfold streams. apply map_Forall_fmap. intros k ch Hm.
  destruct (Hs k ch Hm) as [Hlen Hc]. cbn. split; [|exact Hc].
  destruct (items ch); [discriminate|]. cbn in *. lia.
Qed.

Lemma nth_items_advance {A} (k : nat) (m : gmap string (Chan A)) :
  nth_items k (advance <$> m) = nth_items (S k) m.
Proof.
  apply map_eq. intros n. unfold nth_items. rewrite !lookup_omap, lookup_fmap.
  destruct (m !! n) as [ch|]; [|reflexivity]. cbn. apply lookup_tail.
Qed.

Lemma task_of_advance (p : ShellProcess) (k : nat) :
  task_of (advance_ports p) k = task_of p (S k).
Proof.
  unfold task_of, advance_ports.
  cbn [InPorts ParamPorts set_InPorts set_ParamPorts CommandPattern PathFormatters
       OutPortsDoStream Prepend Process.CustomExecute].
  rewrite !nth_items_advance. reflexivity.
Qed.

Lemma size_eqb_0 {A} (m : gmap string A) :
  Nat.eqb (size m) 0 = bool_decide (m = ∅).
Proof.
  apply eq_true_iff_eq. rewrite Nat.eqb_eq, bool_decide_eq_true.
  apply map_size_empty_iff.
Qed.

(** A round in which both receives return. *)
Lemma round_served (p : ShellProcess) (fuel : nat) :
  map_Forall (fun _ ch => serves ch = true) (InPorts p) ->
  map_Forall (fun _ ch => serves ch = true) (ParamPorts p) ->
  createTasks_loop (S fuel) p
  = let inPortsOpen := all_deliver (InPorts p) in
    let paramPortsOpen := all_deliver (ParamPorts p) in
    if negb inPortsOpen && negb paramPortsOpen then stop (Ok tt)
    else if bool_decide (InPorts p = ∅) && negb paramPortsOpen then stop (Ok tt)
    else if bool_decide (ParamPorts p = ∅) && negb inPortsOpen then stop (Ok tt)
    else match task_of p 0 with
         | Ok t =>
             if bool_decide (InPorts p = ∅) && bool_decide (ParamPorts p = ∅)
             then {| gathers := 1; tasks := [t]; ending := Ok tt |}
             else next (Some t) (createTasks_loop fuel (advance_ports p))
         | Fatal e => stop (Fatal e)
         | Blocked => stop Blocked
         | Unfinished => stop Unfinished
         end.
Proof.
  intros Hin Hpp. cbn [createTasks_loop]. unfold receiveInputs.
  rewrite (proj1 (receive_ports site_receiveInputs (InPorts p)) Hin). cbn.
  unfold receiveParams. cbn.
  rewrite (proj1 (receive_ports site_receiveParams (ParamPorts p)) Hpp). cbn.
  rewrite !size_eqb_0.
  destruct (negb (all_deliver (InPorts p)) && negb (all_deliver (ParamPorts p)));
    [reflexivity|].
  destruct (bool_decide (InPorts p = ∅) && negb (all_deliver (ParamPorts p)));
    [reflexivity|].
  destruct (bool_decide (ParamPorts p = ∅) && negb (all_deliver (InPorts p)));
    [reflexivity|].
  unfold task_of.
  destruct (NewShellTask (CommandPattern p) (nth_items 0 (InPorts p))
              (PathFormatters p) (OutPortsDoStream p)
              (nth_items 0 (ParamPorts p)) (Prepend p)) as [t| | |];
    reflexivity.
Qed.

Lemma round_deliver (p : ShellProcess) (fuel : nat) :
  all_deliver (InPorts p) = true -> all_deliver (ParamPorts p) = true ->
  InPorts p <> ∅ \/ ParamPorts p <> ∅ ->
  createTasks_loop (S fuel) p
  = match task_of p 0 with
    | Ok t => next (Some t) (createTasks_loop fuel (advance_ports p))
    | Fatal e => stop (Fatal e)
    | Blocked => stop Blocked
    | Unfinished => stop Unfinished
    end.
Proof.
  intros Hin Hpp Hne.
  rewrite round_served by (apply has_item_serves; assumption).
  cbv zeta. rewrite Hin, Hpp. cbn [negb andb]. rewrite !andb_false_r.
  destruct (task_of p 0); try reflexivity.
  destruct Hne as [Hne|Hne].
  - rewrite (bool_decide_eq_false_2 _ Hne). reflexivity.
  - rewrite (bool_decide_eq_false_2 _ Hne), andb_false_r. reflexivity.
Qed.

Lemma round_closed (p : ShellProcess) (fuel : nat) :
  streams 0 (InPorts p) -> streams 0 (ParamPorts p) ->
  InPorts p <> ∅ \/ ParamPorts p <> ∅ ->
  createTasks_loop (S fuel) p = stop (Ok tt).
Proof.
  intros Hin Hpp Hne.
  rewrite round_served by (eapply streams_serves; eassumption).
  cbv zeta.
  destruct (decide (InPorts p = ∅)) as [Hi|Hi];
    destruct (decide (ParamPorts p = ∅)) as [Hp|Hp].
  - destruct Hne; contradiction.
  - rewrite (all_deliver_streams_0 _ Hpp Hp), Hi, (@all_deliver_empty FileTarget).
    rewrite bool_decide_eq_true_2 by reflexivity. reflexivity.
  - rewrite (all_deliver_streams_0 _ Hin Hi), Hp, (@all_deliver_empty string).
    rewrite (bool_decide_eq_false_2 _ Hi).
    rewrite bool_decide_eq_true_2 by reflexivity. reflexivity.
  - rewrite (all_deliver_streams_0 _ Hin Hi), (all_deliver_streams_0 _ Hpp Hp).
    reflexivity.
Qed.

Lemma createTasks_loop_zip (k : nat) : forall n p fuel ts,
  streams n (InPorts p) -> streams n (ParamPorts p) ->
  InPorts p <> ∅ \/ ParamPorts p <> ∅ ->
  k <= n -> k < fuel ->
  Forall2 (fun j t => task_of p j = Ok t) (seq 0 k) ts ->
  k = n \/ is_Ok (task_of p k) = false ->
  createTasks_loop fuel p
  = {| gathers := S k; tasks := ts;
       ending := if decide (k = n) then Ok tt else ending_of (task_of p k) |}.
Proof.
  induction k as [|k IH]; intros n p fuel ts Hin Hpp Hne Hkn Hfuel Hts Hlast.
  - destruct fuel as [|fuel]; [lia|]. cbn in Hts. apply Forall2_nil_inv_l in Hts as ->.
    destruct n as [|n].
    + rewrite (round_closed p fuel Hin Hpp Hne). reflexivity.
    + destruct Hlast as [Hlast|Hlast]; [discriminate|].
      rewrite (round_deliver p fuel (all_deliver_streams_S _ _ Hin)
                 (all_deliver_streams_S _ _ Hpp) Hne).
      destruct (decide (0 = S n)) as [Heq|_]; [discriminate|].
      destruct (task_of p 0); [discriminate|reflexivity..].
  - destruct fuel as [|fuel]; [lia|]. destruct n as [|n]; [lia|].
    cbn [seq] in Hts. apply Forall2_cons_inv_l in Hts as (t & ts' & Ht & Hts & ->).
    rewrite (round_deliver p fuel (all_deliver_streams_S _ _ Hin)
               (all_deliver_streams_S _ _ Hpp) Hne), Ht.
    rewrite (IH n (advance_ports p) fuel ts').
    + unfold next. cbn. f_equal.
      rewrite task_of_advance.
      destruct (decide (k = n)), (decide (S k = S n)); try reflexivity; lia.
    + apply streams_advance. exact Hin.
    + apply streams_advance. exact Hpp.
    + cbn. rewrite !fmap_empty_iff. exact Hne.
    + lia.
    + lia.
    + rewrite <- fmap_S_seq in Hts. apply Forall2_fmap_l in Hts.
      eapply Forall2_impl; [exact Hts|]. intros j t' Hj. cbn in Hj.
      rewrite task_of_advance. exact Hj.
    + rewrite task_of_advance. destruct Hlast as [Hlast|Hlast]; [left; lia|right; exact Hlast].
Qed.

(** A process with at least one port, every port of which carries [n]
    values and is then closed, makes [n] tasks, the [k]-th from the
    [k]-th value of every in-port and parameter port, and then closes
    the task channel after [n + 1] rounds.  When the task of some round
    cannot be made, the tasks before it were sent and the goroutine ends
    as that attempt did. *)
Theorem createTasks_zips (p : ShellProcess) (n fuel : nat) :
  streams n (InPorts p) -> streams n (ParamPorts p) ->
  InPorts p <> ∅ \/ ParamPorts p <> ∅ ->
  n < fuel ->
  (forall ts,
     Forall2 (fun j t => task_of p j = Ok t) (seq 0 n) ts ->
     createTasks fuel p = {| gathers := S n; tasks := ts; ending := Ok tt |})
  /\ (forall k ts,
        k < n ->
        Forall2 (fun j t => task_of p j = Ok t) (seq 0 k) ts ->
        is_Ok (task_of p k) = false ->
        createTasks fuel p
        = {| gathers := S k; tasks := ts; ending := ending_of (task_of p k) |}).
Proof.
  intros Hin Hpp Hne Hfuel. split.
  - intros ts Hts. unfold createTasks.
    rewrite (createTasks_loop_zip n n p fuel ts Hin Hpp Hne); auto.
    destruct (decide (n = n)); [reflexivity|contradiction].
  - intros k ts Hk Hts Hfail. unfold createTasks.
    rewrite (createTasks_loop_zip k n p fuel ts Hin Hpp Hne); auto; try lia.
    destruct (decide (k = n)); [lia|reflexivity].
Qed.

End Zip.

Lemma createTasks_zips_witness :
  let p := Process.set_ParamPorts (Process.Shell "echo {p:x}")
             {[ "x" := {| items := ["a"; "b"]; closes := true |} ]} in
  let task (v : string) : Task.ShellTask :=
    {| Task.data := {| Task.InTargets := ∅; Task.OutTargets := ∅;
                       Task.Params := {[ "x" := v ]};
                       Task.Command := "echo " ++ v |};
       Task.CustomExecute := None |} in
  streams 2 (Process.InPorts p) /\ streams 2 (Process.ParamPorts p)
  /\ Process.createTasks 3 p
     = {| Process.gathers := 3; Process.tasks := [task "a"; task "b"];
          Process.ending := Ok tt |}.
Proof.
  intros p task.
  assert (Hin : streams 2 (Process.InPorts p)).
  { apply map_Forall_to_list. vm_compute. constructor. }
  assert (Hpp : streams 2 (Process.ParamPorts p)).
  { apply map_Forall_to_list. vm_compute. repeat constructor. }
  assert (Hne : Process.InPorts p <> ∅ \/ Process.ParamPorts p <> ∅).
  { right. intros Heq. apply (f_equal (fun m => m !! "x")) in Heq.
    vm_compute in Heq. discriminate Heq. }
  split; [exact Hin|]. split; [exact Hpp|].
  apply (proj1 (createTasks_zips p 2 3 Hin Hpp Hne ltac:(lia))).
  repeat constructor; vm_compute; reflexivity.
Defined.

Section Unequal.
Context `{GoEnv}.
Import Task Process.
Local Open Scope string_scope.

Lemma mapM_None_elem {A B} (f : A -> option B) (l : list A) (x : A) :
  x ∈ l -> f x = None -> mapM f l = None.
Proof.
  induction l as [|a l IH]; intros Hin Hx; [inversion Hin|].
  apply elem_of_cons in Hin as [<-|Hin]; cbn.
  - rewrite Hx. reflexivity.
  - rewrite (IH Hin Hx). destruct (f a); reflexivity.
Qed.

Lemma NewShellTask_unbound
    (cmd : string) (inTargets : gmap string FileTarget)
    (fmts : gmap string PathFormatter) (ds : gmap string bool)
    (params : gmap string string) (prepend : string) (m : Regex.submatch) :
  m ∈ getPlaceHolderRegex cmd ->
  (forall outs, spec_binding inTargets outs params m = None) ->
  is_Ok (NewShellTask cmd inTargets fmts ds params prepend) = false.
Proof.
  intros Hin Hun. unfold NewShellTask.
  destruct (makeOutTargets _ _ _ _) as [outs| | |]; cbn; try reflexivity.
  destruct (formatLoop_unbound inTargets outs params _ cmd
              (mapM_None_elem _ _ m Hin (Hun outs))) as [e He].
  rewrite (formatCommand_Fatal_bind _ _ _ _ prepend _ He). reflexivity.
Qed.

Lemma nth_items_exhausted {A} (m : gmap string (Chan A)) n ch :
  m !! n = Some ch -> has_item ch = false -> nth_items 0 m !! n = None.
Proof.
  intros Hm Hitem. unfold nth_items. rewrite lookup_omap, Hm. cbn.
  unfold has_item in Hitem. destruct (items ch); [reflexivity|discriminate].
Qed.

Lemma task_of_not_Ok (p : ShellProcess) (k : nat) :
  is_Ok (NewShellTask (CommandPattern p) (nth_items k (InPorts p))
           (PathFormatters p) (OutPortsDoStream p)
           (nth_items k (ParamPorts p)) (Prepend p)) = false ->
  is_Ok (task_of p k) = false.
Proof.
  unfold task_of. destruct (NewShellTask _ _ _ _ _ _); [discriminate|reflexivity..].
Qed.

(** A process with in-ports and with parameter ports ends its task
    channel only in a round in which both kinds are exhausted.  When, in
    a round, some port named in the command is closed and empty while
    every port of the other kind still delivers a value, [createTasks]
    tries to make a task from what it received: the placeholder of the
    exhausted port has no value, no task is sent, and the goroutine does
    not reach the close of the task channel. *)
Theorem createTasks_unequal_streams (p : ShellProcess) (fuel : nat) :
  let ms := getPlaceHolderRegex (CommandPattern p) in
  InPorts p <> ∅ -> ParamPorts p <> ∅ ->
  map_Forall (fun _ ch => serves ch = true) (InPorts p) ->
  map_Forall (fun _ ch => serves ch = true) (ParamPorts p) ->
  (exists i ch, InPorts p !! i = Some ch /\ has_item ch = false
                /\ names_port ms ["i"] i /\ all_deliver (ParamPorts p) = true)
  \/ (exists x ch, ParamPorts p !! x = Some ch /\ has_item ch = false
                   /\ names_port ms ["p"] x /\ all_deliver (InPorts p) = true) ->
  gathers (createTasks (S fuel) p) = 1
  /\ tasks (createTasks (S fuel) p) = []
  /\ is_Ok (ending (createTasks (S fuel) p)) = false.
Proof.
  intros ms Hi Hp Hin Hpp Hcase. unfold createTasks.
  rewrite (round_served p fuel Hin Hpp). cbv zeta.
  rewrite (bool_decide_eq_false_2 _ Hi), (bool_decide_eq_false_2 _ Hp).
  cbn [andb].
  assert (Hfail : is_Ok (task_of p 0) = false).
  { apply task_of_not_Ok.
    destruct Hcase as [(i & ch & Hm & Hitem & (m & Hmin & Hk & Hn) & _)
                      |(x & ch & Hm & Hitem & (m & Hmin & Hk & Hn) & _)].
    - apply (NewShellTask_unbound _ _ _ _ _ _ m Hmin). intros outs.
      apply list_elem_of_singleton in Hk. unfold spec_binding. rewrite Hk, Hn.
      cbn. rewrite (nth_items_exhausted _ i ch Hm Hitem). reflexivity.
    - apply (NewShellTask_unbound _ _ _ _ _ _ m Hmin). intros outs.
      apply list_elem_of_singleton in Hk. unfold spec_binding. rewrite Hk, Hn.
      cbn. rewrite (nth_items_exhausted _ x ch Hm Hitem). reflexivity. }
  destruct Hcase as [(i & ch & Hm & Hitem & _ & Hall)
                    |(x & ch & Hm & Hitem & _ & Hall)].
  - rewrite (all_deliver_exhausted _ i ch Hm Hitem), Hall. cbn [negb andb].
    destruct (task_of p 0); [discriminate|repeat split..].
  - rewrite (all_deliver_exhausted _ x ch Hm Hitem), Hall. cbn [negb andb].
    destruct (task_of p 0); [discriminate|repeat split..].
Qed.

End Unequal.

Lemma createTasks_unequal_streams_witness :
  let p := Process.set_ParamPorts
             (Process.set_InPorts (Process.Shell "head -{p:n} {i:in}")
                {[ "in" := {| items := []; closes := true |} ]})
             {[ "n" := {| items := ["3"]; closes := true |} ]} in
  Process.InPorts p <> ∅ /\ Process.ParamPorts p <> ∅
  /\ Process.gathers (Process.createTasks 1 p) = 1
  /\ Process.tasks (Process.createTasks 1 p) = []
  /\ Process.ending (Process.createTasks 1 p)
     = Fatal "Missing intarget for inport 'in' for command 'head -3 {i:in}'".
Proof.
  intros p.
  assert (Hi : Process.InPorts p <> ∅).
  { intros Heq. apply (f_equal (fun m => m !! "in")) in Heq.
    vm_compute in Heq. discriminate Heq. }
  assert (Hp : Process.ParamPorts p <> ∅).
  { intros Heq. apply (f_equal (fun m => m !! "n")) in Heq.
    vm_compute in Heq. discriminate Heq. }
  assert (Hin : map_Forall (fun _ ch => serves ch = true) (Process.InPorts p)).
  { apply map_Forall_to_list. vm_compute. repeat constructor. }
  assert (Hpp : map_Forall (fun _ ch => serves ch = true) (Process.ParamPorts p)).
  { apply map_Forall_to_list. vm_compute. repeat constructor. }
  assert (Hcase :
    (exists i ch, Process.InPorts p !! i = Some ch /\ has_item ch = false
       /\ names_port (getPlaceHolderRegex (Process.CommandPattern p)) ["i"] i
       /\ all_deliver (Process.ParamPorts p) = true)
    \/ (exists x ch, Process.ParamPorts p !! x = Some ch /\ has_item ch = false
          /\ names_port (getPlaceHolderRegex (Process.CommandPattern p)) ["p"] x
          /\ all_deliver (Process.InPorts p) = true)).
  { left. exists "in", {| items := []; closes := true |}.
    split; [vm_compute; reflexivity|]. split; [reflexivity|].
    split; [|vm_compute; reflexivity].
    exists (Regex.Submatch "{i:in}" "i" "in").
    split; [|split; [left|reflexivity]].
    change (getPlaceHolderRegex (Process.CommandPattern p))
      with [Regex.Submatch "{p:n}" "p" "n"; Regex.Submatch "{i:in}" "i" "in"].
    right. left. }
  destruct (createTasks_unequal_streams p 0 Hi Hp Hin Hpp Hcase) as (Hg & Ht & _).
  split; [exact Hi|]. split; [exact Hp|]. split; [exact Hg|]. split; [exact Ht|].
  vm_compute. reflexivity.
Defined.

(** ** The audit record of a packet: parameters and keys *)

Section AuditFacts.
Context `{GoEnv}.
Context (unmarshal : string -> Audit.AuditInfo -> Audit.AuditInfo + error).
Local Open Scope string_scope.

Lemma GetAuditInfo_Ok (fs : FS) (ip ip1 : InformationPacket) (ai : Audit.AuditInfo) :
  GetAuditInfo unmarshal fs ip = Ok (ip1, ai) ->
  ip1 = {| path := path ip; doStream := doStream ip; auditInfo := Some ai |}.
Proof.
  unfold GetAuditInfo. destruct ip as [p d [a|]]; cbn.
  - intros [= <- <-]. reflexivity.
  - destruct (ioutil_ReadFile fs _) as [dat|err].
    + destruct (unmarshal dat Audit.NewAuditInfo) as [ai'|e]; [|discriminate].
      intros [= <- <-]. reflexivity.
    + intros [= <- <-]. reflexivity.
Qed.

Lemma GetAuditInfo_loaded um (fs : FS) (ip : InformationPacket) (ai : Audit.AuditInfo) :
  auditInfo ip = Some ai -> GetAuditInfo um fs ip = Ok (ip, ai).
Proof. unfold GetAuditInfo. intros ->. reflexivity. Qed.

Lemma key_free_test (ai : Audit.AuditInfo) (k v : string) :
  negb (String.eqb (lookup_str (Audit.Keys ai) k) "")
  && negb (String.eqb (lookup_str (Audit.Keys ai) k) v) = false
  <-> key_free ai k v.
Proof.
  unfold key_free. rewrite andb_false_iff, !negb_false_iff, !String.eqb_eq.
  reflexivity.
Qed.

Lemma Keys_allocated (ai : Audit.AuditInfo) :
  Audit.KeysMap ai <> None -> Audit.KeysMap ai = Some (Audit.Keys ai).
Proof. unfold Audit.Keys. destruct (Audit.KeysMap ai); [reflexivity|congruence]. Qed.

Lemma Keys_Some (ps m : gmap string string) :
  Audit.Keys {| Audit.Params := ps; Audit.KeysMap := Some m |} = m.
Proof. reflexivity. Qed.

Lemma Keys_nil (ai : Audit.AuditInfo) :
  Audit.KeysMap ai = None -> Audit.Keys ai = ∅.
Proof. unfold Audit.Keys. intros ->. reflexivity. Qed.

(** Every key of a record with a nil map takes every value without
    complaint. *)
Lemma key_free_nil (ai : Audit.AuditInfo) (k v : string) :
  Audit.KeysMap ai = None -> key_free ai k v.
Proof.
  intros Hnil. left. rewrite (Keys_nil ai Hnil). unfold lookup_str.
  rewrite lookup_empty. reflexivity.
Qed.

Lemma AddKey_free um (fs : FS) (ip : InformationPacket) (ai : Audit.AuditInfo) (k v : string) :
  auditInfo ip = Some ai -> Audit.KeysMap ai <> None -> key_free ai k v ->
  AddKey um fs ip k v = Ok (with_keys ip ai {[ k := v ]}).
Proof.
  intros Hai Hmap Hfree. unfold AddKey.
  rewrite (GetAuditInfo_loaded um fs ip ai Hai). cbn.
  rewrite (proj2 (key_free_test ai k v) Hfree).
  rewrite (Keys_allocated ai Hmap).
  unfold with_keys. rewrite <- insert_union_singleton_l. reflexivity.
Qed.

(** The assignment to a nil map panics. *)
Lemma AddKey_nil um (fs : FS) (ip : InformationPacket) (ai : Audit.AuditInfo) (k v : string) :
  auditInfo ip = Some ai -> Audit.KeysMap ai = None ->
  AddKey um fs ip k v = Fatal nil_map_assignment.
Proof.
  intros Hai Hnil. unfold AddKey.
  rewrite (GetAuditInfo_loaded um fs ip ai Hai). cbn.
  rewrite (proj2 (key_free_test ai k v) (key_free_nil ai k v Hnil)).
  rewrite Hnil. reflexivity.
Qed.

Lemma AddKey_conflict um (fs : FS) (ip : InformationPacket) (ai : Audit.AuditInfo) (k v : string) :
  auditInfo ip = Some ai -> ~ key_free ai k v ->
  AddKey um fs ip k v = Fatal (key_conflict v k (lookup_str (Audit.Keys ai) k)).
Proof.
  intros Hai Hfree. unfold AddKey. rewrite (GetAuditInfo_loaded um fs ip ai Hai). cbn.
  destruct (negb (String.eqb (lookup_str (Audit.Keys ai) k) "")
            && negb (String.eqb (lookup_str (Audit.Keys ai) k) v)) eqn:Hc;
    [reflexivity|].
  apply key_free_test in Hc. contradiction.
Qed.

(** The first call loads the record; after it the packet holds it. *)
Lemma AddKey_first (fs : FS) (ip ip1 : InformationPacket) (ai : Audit.AuditInfo) (k v : string) :
  GetAuditInfo unmarshal fs ip = Ok (ip1, ai) ->
  AddKey unmarshal fs ip k v = AddKey unmarshal fs ip1 k v.
Proof.
  intros Hget. pose proof (GetAuditInfo_Ok fs ip ip1 ai Hget) as ->.
  unfold AddKey at 1. rewrite Hget.
  unfold AddKey.
  rewrite (GetAuditInfo_loaded unmarshal fs
             {| path := path ip; doStream := doStream ip; auditInfo := Some ai |}
             ai eq_refl).
  reflexivity.
Qed.

(** The record of a packet is read from the audit file once.  After a
    call of [GetAuditInfo] that returned, the packet answers from the
    record it holds, whatever has become of the file: [GetAuditInfo]
    returns the same record, [GetParam] and [GetKey] return the value
    the record has and are fatal for a name it has not, [GetKeys]
    returns its keys; and a record set with [SetAuditInfo] is the one
    returned from then on.  A packet without audit file has the empty
    record, so [GetParam] is fatal for every name. *)
Theorem audit_record_cached (fs : FS) (ip ip1 : InformationPacket) (ai : Audit.AuditInfo) :
  GetAuditInfo unmarshal fs ip = Ok (ip1, ai) ->
  path ip1 = path ip
  /\ (forall um fs', GetAuditInfo um fs' ip1 = Ok (ip1, ai))
  /\ (forall um fs' key,
        GetParam um fs' ip1 key
        = match Audit.Params ai !! key with
          | Some val => Ok (ip1, val)
          | None => Fatal (missing_param key (path ip))
          end)
  /\ (forall um fs' k,
        GetKey um fs' ip1 k
        = match Audit.Keys ai !! k with
          | Some v => Ok (ip1, v)
          | None => Fatal (missing_key k (path ip))
          end)
  /\ (forall um fs', GetKeys um fs' ip1 = Ok (ip1, Audit.KeysMap ai))
  /\ (forall um fs' ai',
        GetAuditInfo um fs' (SetAuditInfo ip1 (Some ai'))
        = Ok (SetAuditInfo ip1 (Some ai'), ai'))
  /\ (auditInfo ip = None -> fs !! GetAuditFilePath ip = None ->
      ai = Audit.NewAuditInfo
      /\ forall key, GetParam unmarshal fs ip key = Fatal (missing_param key (path ip))).
Proof.
  intros Hget. pose proof (GetAuditInfo_Ok fs ip ip1 ai Hget) as ->.
  assert (Hload : forall um fs',
            GetAuditInfo um fs' {| path := path ip; doStream := doStream ip;
                                   auditInfo := Some ai |}
            = Ok ({| path := path ip; doStream := doStream ip;
                     auditInfo := Some ai |}, ai)).
  { intros um fs'. apply GetAuditInfo_loaded. reflexivity. }
  split; [reflexivity|]. split; [exact Hload|].
  split; [|split; [|split; [|split; [|]]]].
  - intros um fs' key. unfold GetParam. rewrite Hload. cbn.
    destruct (Audit.Params ai !! key); reflexivity.
  - intros um fs' k. unfold GetKey. rewrite Hload. cbn.
    destruct (Audit.Keys ai !! k); reflexivity.
  - intros um fs'. unfold GetKeys. rewrite Hload. reflexivity.
  - intros um fs' ai'. apply GetAuditInfo_loaded. reflexivity.
  - intros Hnone Hfile.
    assert (Hai : ai = Audit.NewAuditInfo).
    { revert Hget. unfold GetAuditInfo, ioutil_ReadFile. rewrite Hnone, Hfile.
      intros [= _ <-]. reflexivity. }
    split; [exact Hai|]. intros key. unfold GetParam. rewrite Hget. cbn.
    rewrite Hai. reflexivity.
Qed.


End AuditFacts.

Lemma audit_record_cached_witness :
  let um : string -> Audit.AuditInfo -> Audit.AuditInfo + error := fun _ ai => inl ai in
  let ip := NewInformationPacket "a.txt" in
  let ip1 := SetAuditInfo ip (Some Audit.NewAuditInfo) in
  GetAuditInfo um ∅ ip = Ok (ip1, Audit.NewAuditInfo)
  /\ (forall fs', GetAuditInfo um fs' ip1 = Ok (ip1, Audit.NewAuditInfo))
  /\ GetParam um ∅ ip "n" = Fatal (missing_param "n" "a.txt").
Proof.
  intros um ip ip1.
  assert (Hget : GetAuditInfo um ∅ ip = Ok (ip1, Audit.NewAuditInfo)) by reflexivity.
  destruct (audit_record_cached um ∅ ip ip1 Audit.NewAuditInfo Hget)
    as (_ & Hload & _ & _ & _ & _ & Hnone).
  split; [exact Hget|]. split; [exact (Hload um)|].
  exact (proj2 (Hnone eq_refl (lookup_empty _)) "n").
Defined.


Section AddKeysFacts.
Context `{GoEnv}.
Context (unmarshal : string -> Audit.AuditInfo -> Audit.AuditInfo + error).
Local Open Scope string_scope.

Lemma with_keys_empty (ip : InformationPacket) (ai : Audit.AuditInfo) :
  auditInfo ip = Some ai -> Audit.KeysMap ai <> None -> with_keys ip ai ∅ = ip.
Proof.
  destruct ip as [p d a], ai as [ps [ks|]]; cbn; intros -> Hmap; [|congruence].
  unfold with_keys, Audit.Keys. cbn. rewrite (left_id_L ∅ (∪)). reflexivity.
Qed.

Lemma lookup_str_insert_ne (m : gmap string string) (k k' v : string) :
  k' <> k -> lookup_str (<[k := v]> m) k' = lookup_str m k'.
Proof. intros Hne. unfold lookup_str. rewrite lookup_insert_ne by congruence. reflexivity. Qed.

Lemma key_free_added (ai : Audit.AuditInfo) (k v k' v' : string) :
  k' <> k ->
  key_free {| Audit.Params := Audit.Params ai;
              Audit.KeysMap := Some ({[ k := v ]} ∪ Audit.Keys ai) |} k' v'
  <-> key_free ai k' v'.
Proof.
  intros Hne. unfold key_free. rewrite !Keys_Some.
  rewrite <- insert_union_singleton_l, lookup_str_insert_ne by exact Hne.
  reflexivity.
Qed.

Lemma AddKeys_loop_free (fs : FS) (l : list (string * string)) : forall ip ai,
  auditInfo ip = Some ai -> Audit.KeysMap ai <> None -> NoDup l.*1 ->
  (forall k v, (k, v) ∈ l -> key_free ai k v) ->
  AddKeys_loop unmarshal fs l ip = Ok (with_keys ip ai (list_to_map l)).
Proof.
  induction l as [|[k v] l IH]; intros ip ai Hai Hmap Hnd Hfree.
  - cbn. rewrite (with_keys_empty ip ai Hai Hmap). reflexivity.
  - cbn [fmap list_fmap] in Hnd. apply NoDup_cons in Hnd as [Hfresh Hnd].
    cbn in Hfresh. cbn [AddKeys_loop].
    rewrite (AddKey_free unmarshal fs ip ai k v Hai Hmap (Hfree k v ltac:(left))). cbn.
    rewrite (IH (with_keys ip ai {[ k := v ]})
               {| Audit.Params := Audit.Params ai;
                  Audit.KeysMap := Some ({[ k := v ]} ∪ Audit.Keys ai) |}
               eq_refl ltac:(discriminate) Hnd).
    + unfold with_keys. rewrite Keys_Some. cbn. f_equal. f_equal. f_equal. f_equal.
      rewrite <- insert_union_singleton_l.
      rewrite <- insert_union_r by (apply not_elem_of_list_to_map_1; exact Hfresh).
      rewrite insert_union_l. reflexivity.
    + intros k' v' Hin. apply key_free_added.
      * intros ->. apply Hfresh. apply list_elem_of_fmap. exists (k, v'). auto.
      * apply Hfree. right. exact Hin.
Qed.

Lemma AddKeys_loop_conflict (fs : FS) (l : list (string * string)) : forall ip ai,
  auditInfo ip = Some ai -> Audit.KeysMap ai <> None -> NoDup l.*1 ->
  (exists k v, (k, v) ∈ l /\ ~ key_free ai k v) ->
  exists k v, (k, v) ∈ l /\ ~ key_free ai k v
    /\ AddKeys_loop unmarshal fs l ip
       = Fatal (key_conflict v k (lookup_str (Audit.Keys ai) k)).
Proof.
  induction l as [|[k v] l IH]; intros ip ai Hai Hmap Hnd (k0 & v0 & Hin & Hbad).
  - inversion Hin.
  - cbn [fmap list_fmap] in Hnd. apply NoDup_cons in Hnd as [Hfresh Hnd].
    cbn in Hfresh. cbn [AddKeys_loop].
    destruct (negb (String.eqb (lookup_str (Audit.Keys ai) k) "")
              && negb (String.eqb (lookup_str (Audit.Keys ai) k) v)) eqn:Hc.
    + assert (Hk : ~ key_free ai k v).
      { intros Hf. apply key_free_test in Hf. congruence. }
      exists k, v. split; [left|]. split; [exact Hk|].
      rewrite (AddKey_conflict unmarshal fs ip ai k v Hai Hk). reflexivity.
    + apply key_free_test in Hc.
      rewrite (AddKey_free unmarshal fs ip ai k v Hai Hmap Hc). cbn.
      apply elem_of_cons in Hin as [[= -> ->]|Hin]; [contradiction|].
      assert (Hne : forall k' v', (k', v') ∈ l -> k' <> k).
      { intros k' v' Hin' ->. apply Hfresh. apply list_elem_of_fmap.
        exists (k, v'). auto. }
      destruct (IH (with_keys ip ai {[ k := v ]})
                  {| Audit.Params := Audit.Params ai;
                     Audit.KeysMap := Some ({[ k := v ]} ∪ Audit.Keys ai) |}
                  eq_refl ltac:(discriminate) Hnd)
        as (k1 & v1 & Hin1 & Hbad1 & Hres).
      { exists k0, v0. split; [exact Hin|].
        rewrite key_free_added by (apply (Hne k0 v0 Hin)). exact Hbad. }
      exists k1, v1. split; [right; exact Hin1|].
      rewrite key_free_added in Hbad1 by (apply (Hne k1 v1 Hin1)).
      split; [exact Hbad1|]. rewrite Hres. rewrite Keys_Some.
      rewrite <- insert_union_singleton_l, lookup_str_insert_ne
        by (apply (Hne k1 v1 Hin1)).
      reflexivity.
Qed.

(** With a nil map the first assignment panics. *)
Lemma AddKeys_loop_nil (fs : FS) (l : list (string * string)) ip ai :
  auditInfo ip = Some ai -> Audit.KeysMap ai = None -> l <> [] ->
  AddKeys_loop unmarshal fs l ip = Fatal nil_map_assignment.
Proof.
  intros Hai Hnil Hne. destruct l as [|[k v] l]; [contradiction|].
  cbn [AddKeys_loop]. rewrite (AddKey_nil unmarshal fs ip ai k v Hai Hnil).
  reflexivity.
Qed.

Lemma AddKeys_loop_first (fs : FS) (l : list (string * string))
    (ip ip1 : InformationPacket) (ai : Audit.AuditInfo) :
  l <> [] -> GetAuditInfo unmarshal fs ip = Ok (ip1, ai) ->
  AddKeys_loop unmarshal fs l ip = AddKeys_loop unmarshal fs l ip1.
Proof.
  intros Hne Hget. destruct l as [|[k v] l]; [contradiction|].
  cbn [AddKeys_loop]. rewrite (AddKey_first unmarshal fs ip ip1 ai k v Hget).
  reflexivity.
Qed.


End AddKeysFacts.


(** ** Sending and closing on a file port *)

Section WireFacts.
Import Wire.
Local Open Scope list_scope.

Lemma chan_at_insert {A} (cs : Chans A) (c d : nat) (v : Chan A) :
  chan_at (<[c := v]> cs) d = if decide (d = c) then v else chan_at cs d.
Proof.
  unfold chan_at. destruct (decide (d = c)) as [->|Hne].
  - rewrite lookup_insert_eq. reflexivity.
  - rewrite lookup_insert_ne by congruence. reflexivity.
Qed.

Lemma each_open {A} (f : nat -> Chans A -> outcome (Chans A)) (g : Chan A -> Chan A)
    (l : list nat) :
  (forall c cs, closes (chan_at cs c) = false ->
                f c cs = Ok (<[c := g (chan_at cs c)]> cs)) ->
  forall cs, outs_open l cs ->
  exists cs', each f l cs = Ok cs'
    /\ forall d, chan_at cs' d
                 = if bool_decide (d ∈ l) then g (chan_at cs d) else chan_at cs d.
Proof.
  intros Hf. induction l as [|c l IH]; intros cs [Hnd Hopen].
  - exists cs. split; [reflexivity|]. intros d.
    rewrite bool_decide_eq_false_2 by apply not_elem_of_nil. reflexivity.
  - apply NoDup_cons in Hnd as [Hfresh Hnd].
    cbn [each]. rewrite (Hf c cs) by (apply Hopen; left). cbn.
    destruct (IH (<[c := g (chan_at cs c)]> cs)) as (cs' & -> & Hcs').
    { split; [exact Hnd|]. intros d Hd. rewrite chan_at_insert.
      destruct (decide (d = c)) as [->|_]; [contradiction|].
      apply Hopen. right. exact Hd. }
    exists cs'. split; [reflexivity|]. intros d. rewrite (Hcs' d), chan_at_insert.
    destruct (decide (d = c)) as [->|Hne].
    + rewrite (bool_decide_eq_false_2 _ Hfresh).
      rewrite bool_decide_eq_true_2 by left. reflexivity.
    + destruct (bool_decide (d ∈ l)) eqn:Hd.
      * apply bool_decide_eq_true in Hd.
        rewrite bool_decide_eq_true_2 by (right; exact Hd). reflexivity.
      * apply bool_decide_eq_false in Hd.
        rewrite bool_decide_eq_false_2; [reflexivity|].
        intros Hin. apply elem_of_cons in Hin as [?|?]; contradiction.
Qed.

Lemma each_first_closed {A} (f : nat -> Chans A -> outcome (Chans A)) (e : error)
    (c : nat) (l : list nat) (cs : Chans A) :
  (forall c cs, closes (chan_at cs c) = true -> f c cs = Fatal e) ->
  closes (chan_at cs c) = true -> each f (c :: l) cs = Fatal e.
Proof. intros Hf Hc. cbn [each]. rewrite (Hf c cs Hc). reflexivity. Qed.

Lemma each_sends {A} (l : list nat) (x : A) (cs : Chans A) :
  outs_open l cs ->
  exists cs', each (fun c => chan_send c x) l cs = Ok cs'
              /\ sent_on l [x] false cs cs'.
Proof.
  intros Hopen.
  destruct (each_open (fun c => chan_send c x)
              (fun ch => {| items := items ch ++ [x]; closes := false |}) l) with (cs := cs)
    as (cs' & Hcs' & Hat).
  - intros c cs0 Hc. unfold chan_send. rewrite Hc. reflexivity.
  - exact Hopen.
  - exists cs'. split; [exact Hcs'|]. intros d. rewrite (Hat d).
    destruct (bool_decide (d ∈ l)) eqn:Hd; [|reflexivity].
    apply bool_decide_eq_true in Hd. rewrite (proj2 Hopen d Hd). reflexivity.
Qed.

Lemma each_closes {A} (l : list nat) (cs : Chans A) :
  outs_open l cs ->
  exists cs', each (fun c => chan_close c) l cs = Ok cs'
              /\ sent_on l [] true cs cs'.
Proof.
  intros Hopen.
  destruct (each_open (A:=A) (fun c => chan_close c)
              (fun ch => {| items := items ch; closes := true |}) l) with (cs := cs)
    as (cs' & Hcs' & Hat).
  - intros c cs0 Hc. unfold chan_close. rewrite Hc. reflexivity.
  - exact Hopen.
  - exists cs'. split; [exact Hcs'|]. intros d. rewrite (Hat d).
    destruct (bool_decide (d ∈ l)); [|reflexivity].
    rewrite app_nil_r. reflexivity.
Qed.

Lemma sent_on_open {A} (l : list nat) (xs : list A) (cs cs' : Chans A) :
  outs_open l cs -> sent_on l xs false cs cs' -> outs_open l cs'.
Proof.
  intros [Hnd Hopen] Hsent. split; [exact Hnd|]. intros c Hc.
  rewrite (Hsent c), bool_decide_eq_true_2 by exact Hc. cbn. apply Hopen. exact Hc.
Qed.

Lemma sent_on_trans {A} (l : list nat) (xs ys : list A) (b : bool)
    (cs cs1 cs2 : Chans A) :
  sent_on l xs false cs cs1 -> sent_on l ys b cs1 cs2 ->
  sent_on l (xs ++ ys) b cs cs2.
Proof.
  intros H1 H2 c. rewrite (H2 c), (H1 c).
  destruct (bool_decide (c ∈ l)); [|reflexivity].
  cbn. rewrite app_assoc. reflexivity.
Qed.

(** [Send] puts the packet on every out-channel of the port, and
    [Close] closes every one of them, when they are different channels
    and open; no other channel is touched.  A port without out-channel
    drops what is sent on it.  After [Close], a [Send] or a second
    [Close] on a port that has an out-channel panics.  [Recv] takes the
    next packet of the merged channel, gives nil when the channel is
    closed and drained, and does not return while it is empty and open. *)
Theorem FilePort_Send_Close
    (h : FP.Heap) (pt : nat) (fp : FP.FilePort) (ip : InformationPacket)
    (cs : Chans InformationPacket) :
  FP.ports h !! pt = Some fp ->
  (FP.outChans fp = [] -> Send h pt ip cs = Ok cs /\ Close h pt cs = Ok cs)
  /\ (outs_open (FP.outChans fp) cs ->
      (exists cs', Send h pt ip cs = Ok cs'
                   /\ sent_on (FP.outChans fp) [ip] false cs cs')
      /\ (exists cs', Close h pt cs = Ok cs'
            /\ sent_on (FP.outChans fp) [] true cs cs'
            /\ (FP.outChans fp <> [] ->
                Send h pt ip cs' = Fatal send_on_closed
                /\ Close h pt cs' = Fatal close_of_closed)))
  /\ (forall x rest b,
        chan_at cs (FP.InChan fp) = {| items := x :: rest; closes := b |} ->
        Recv h pt cs
        = Ok (Some x, <[FP.InChan fp := {| items := rest; closes := b |}]> cs))
  /\ (chan_at cs (FP.InChan fp) = {| items := []; closes := true |} ->
      exists cs', Recv h pt cs = Ok (None, cs') /\ forall c, chan_at cs' c = chan_at cs c)
  /\ (chan_at cs (FP.InChan fp) = {| items := []; closes := false |} ->
      Recv h pt cs = Blocked).
Proof.
  intros Hpt. unfold Send, Close, Recv. rewrite Hpt.
  split; [|split; [|split; [|split]]].
  - intros ->. split; reflexivity.
  - intros Hopen. split; [apply each_sends; exact Hopen|].
    destruct (each_closes (FP.outChans fp) cs Hopen) as (cs' & Hcl & Hsent).
    exists cs'. split; [exact Hcl|]. split; [exact Hsent|].
    intros Hne. destruct (FP.outChans fp) as [|c l] eqn:Hl; [contradiction|].
    assert (Hc : closes (chan_at cs' c) = true).
    { rewrite (Hsent c), bool_decide_eq_true_2 by left. reflexivity. }
    split.
    + apply each_first_closed; [|exact Hc].
      intros c0 cs0 Hc0. unfold chan_send. rewrite Hc0. reflexivity.
    + apply each_first_closed; [|exact Hc].
      intros c0 cs0 Hc0. unfold chan_close. rewrite Hc0. reflexivity.
  - intros x rest b Hat. unfold chan_recv, recv. rewrite Hat. reflexivity.
  - intros Hat. unfold chan_recv, recv. rewrite Hat. cbn.
    eexists. split; [reflexivity|]. intros c. rewrite chan_at_insert.
    destruct (decide (c = FP.InChan fp)) as [->|_]; [symmetry; exact Hat|reflexivity].
  - intros Hat. unfold chan_recv, recv. rewrite Hat. reflexivity.
Qed.

End WireFacts.

Lemma FilePort_Send_Close_witness :
  let h := match FP.Connect 0 1 (FP.fresh_ports 2 FP.empty_heap) with
           | Ok h => h
           | _ => FP.empty_heap
           end in
  let fp := {| FP.InChan := 0; FP.inChans := [2]; FP.outChans := [3];
               FP.connected := true |} in
  let ip := NewInformationPacket "a.txt" in
  FP.ports h !! 0 = Some fp
  /\ outs_open (FP.outChans fp) (∅ : Wire.Chans InformationPacket)
  /\ exists cs', Wire.Send h 0 ip ∅ = Ok cs'
       /\ Wire.chan_at cs' 3 = {| items := [ip]; closes := false |}.
Proof.
  intros h fp ip.
  assert (Hpt : FP.ports h !! 0 = Some fp) by (vm_compute; reflexivity).
  assert (Hopen : outs_open (FP.outChans fp) (∅ : Wire.Chans InformationPacket)).
  { split; [apply NoDup_singleton|]. intros c _. reflexivity. }
  split; [exact Hpt|]. split; [exact Hopen|].
  destruct (proj1 (proj1 (proj2 (FilePort_Send_Close h 0 fp ip ∅ Hpt)) Hopen))
    as (cs' & Hs & Hsent).
  exists cs'. split; [exact Hs|]. rewrite (Hsent 3). reflexivity.
Defined.

(** ** The packet generator feeds the port it is connected to *)

Section Generator.
Import Wire.
Local Open Scope list_scope.

Lemma sent_on_refl {A} (l : list nat) (cs : Chans A) : sent_on l [] false cs cs.
Proof.
  intros c. destruct (bool_decide (c ∈ l)); [|reflexivity].
  rewrite app_nil_r. cbn. destruct (chan_at cs c); reflexivity.
Qed.

Lemma sends_sent (h : FP.Heap) (a : nat) (fa : FP.FilePort) (paths : list string) :
  FP.ports h !! a = Some fa ->
  forall cs, outs_open (FP.outChans fa) cs ->
  exists cs', IPGen.sends h a paths cs = Ok cs'
    /\ sent_on (FP.outChans fa) (map NewInformationPacket paths) false cs cs'.
Proof.
  intros Hpt. induction paths as [|p paths IH]; intros cs Hopen.
  - exists cs. split; [reflexivity|apply sent_on_refl].
  - cbn [IPGen.sends]. unfold Send. rewrite Hpt.
    destruct (each_sends (FP.outChans fa) (NewInformationPacket p) cs Hopen)
      as (cs1 & -> & Hs1). cbn.
    destruct (IH cs1 (sent_on_open _ _ _ _ Hopen Hs1)) as (cs' & Hrun & Hs').
    exists cs'. split; [exact Hrun|].
    exact (sent_on_trans _ [NewInformationPacket p] _ false _ _ _ Hs1 Hs').
Qed.

Lemma Run_sent (h : FP.Heap) (g : IPGen.IPGen) (fa : FP.FilePort)
    (cs : Chans InformationPacket) :
  FP.ports h !! IPGen.Out g = Some fa ->
  outs_open (FP.outChans fa) cs ->
  exists cs', IPGen.Run h g cs = Ok cs'
    /\ sent_on (FP.outChans fa) (map NewInformationPacket (IPGen.FilePaths g)) true cs cs'.
Proof.
  intros Hpt Hopen. unfold IPGen.Run.
  destruct (sends_sent h (IPGen.Out g) fa (IPGen.FilePaths g) Hpt cs Hopen)
    as (cs1 & -> & Hs1). cbn.
  unfold Close. rewrite Hpt.
  destruct (each_closes (FP.outChans fa) cs1 (sent_on_open _ _ _ _ Hopen Hs1))
    as (cs' & -> & Hs'). exists cs'. split; [reflexivity|].
  pose proof (sent_on_trans _ _ _ _ _ _ _ Hs1 Hs') as Hs.
  rewrite app_nil_r in Hs. exact Hs.
Qed.

Lemma Interleaving_single {A} (seqs : list (list A)) (out : list A) :
  Merge.Interleaving seqs out -> forall xs, seqs = [xs] -> out = xs.
Proof.
  induction 1 as [seqs Hall|seqs i x s out Hi Hrest IH]; intros xs ->.
  - apply Forall_cons in Hall as [-> _]. reflexivity.
  - destruct i as [|i]; [|destruct i; discriminate Hi].
    cbn in Hi. injection Hi as ->. cbn in IH. rewrite (IH s eq_refl). reflexivity.
Qed.

(** A generator whose port [Out] is connected to a port [b] delivers its
    packets there.  [Connect] succeeds and marks the generator
    connected; [Run] returns, having sent one packet for every path, in
    the order of the paths, on every out-channel of [Out] and closed
    each of them; the new channel is an inbound channel of [b] and holds
    exactly these packets and the close; and the merger of [b], when the
    other inbound channels of [b] are closed too, forwards an
    interleaving of what the channels hold and closes the merged
    channel: the packets of the generator alone, in order, when [b] has
    no other inbound channel. *)
Theorem IPGen_Run_delivers
    (h : FP.Heap) (g : IPGen.IPGen) (b : nat) (fa fb : FP.FilePort)
    (cs : Chans InformationPacket) (fuel : nat) :
  FP.ports h !! IPGen.Out g = Some fa ->
  FP.ports h !! b = Some fb ->
  IPGen.Out g <> b ->
  (forall c, c ∈ FP.outChans fa -> c < FP.chans h) ->
  outs_open (FP.outChans fa) cs ->
  (forall c, FP.chans h <= c -> cs !! c = None) ->
  (forall c, c ∈ FP.inChans fb ->
             closes (chan_at cs c) = true \/ c ∈ FP.outChans fa) ->
  let xs := map NewInformationPacket (IPGen.FilePaths g) in
  let new := S (FP.chans h) in
  exists h' cs',
    Connect_ports (IPGen.Out g) b h = Ok h'
    /\ IPGen.IsConnected h' g = true
    /\ IPGen.Run h' g cs = Ok cs'
    /\ sent_on (FP.outChans fa ++ [new]) xs true cs cs'
    /\ FP.inChans <$> FP.ports h' !! b = Some (FP.inChans fb ++ [new])
    /\ chan_at cs' new = {| items := xs; closes := true |}
    /\ let inputs := map (chan_at cs') (FP.inChans fb ++ [new]) in
       (Merge.enough inputs <= fuel ->
        exists out,
          Merge.RunMergeInputs fuel inputs make_chan
          = ({| items := out; closes := true |}, Ok tt)
          /\ Merge.Interleaving (map items inputs) out
          /\ (FP.inChans fb = [] -> out = xs)).
Proof.
  intros Ha Hb Hab Hmade Hopen Hfresh Hin xs new.
  destruct (Connect_wires h (IPGen.Out g) b) as (h' & Hconn & Hch & Hports);
    [rewrite Ha; eauto|rewrite Hb; eauto|].
  assert (Ha' : FP.ports h' !! IPGen.Out g
                = Some (FP_wired (IPGen.Out g) b (FP.chans h) new (IPGen.Out g) fa)).
  { rewrite Hports, Ha. reflexivity. }
  assert (Houts : FP.outChans (FP_wired (IPGen.Out g) b (FP.chans h) new (IPGen.Out g) fa)
                  = FP.outChans fa ++ [new]).
  { cbn. rewrite decide_False by exact Hab. rewrite decide_True by reflexivity.
    reflexivity. }
  assert (Hnew : new ∉ FP.outChans fa).
  { intros Hc. apply Hmade in Hc. unfold new in Hc. lia. }
  assert (Hopen' : outs_open (FP.outChans fa ++ [new]) cs).
  { destruct Hopen as [Hnd Hop]. split.
    - apply NoDup_app. split; [exact Hnd|]. split; [|apply NoDup_singleton].
      intros c Hc Hc'. apply list_elem_of_singleton in Hc' as ->. contradiction.
    - intros c Hc. apply elem_of_app in Hc as [Hc|Hc]; [apply Hop; exact Hc|].
      apply list_elem_of_singleton in Hc as ->.
      unfold chan_at. rewrite Hfresh by (unfold new; lia). reflexivity. }
  destruct (Run_sent h' g _ cs Ha') as (cs' & Hrun & Hsent);
    [rewrite Houts; exact Hopen'|].
  rewrite Houts in Hsent.
  assert (Hat : chan_at cs' new = {| items := xs; closes := true |}).
  { rewrite (Hsent new).
    rewrite bool_decide_eq_true_2 by (apply elem_of_app; right; left).
    unfold chan_at at 1 2. rewrite Hfresh by (unfold new; lia). reflexivity. }
  exists h', cs'. split; [exact Hconn|].
  split; [apply (Connect_flag h h' _ _ _ Hconn); right; left; reflexivity|].
  split; [exact Hrun|]. split; [exact Hsent|].
  split.
  { rewrite Hports, Hb. cbn.
    rewrite decide_False by congruence. rewrite decide_True by reflexivity.
    reflexivity. }
  split; [exact Hat|].
  intros inputs Hfuel.
  assert (Hcl : Forall (fun c => closes c = true) inputs).
  { apply Forall_forall. intros ch Hch'. unfold inputs in Hch'.
    apply list_elem_of_fmap in Hch' as (c & -> & Hc).
    apply elem_of_app in Hc as [Hc|Hc].
    - rewrite (Hsent c).
      destruct (bool_decide (c ∈ FP.outChans fa ++ [new])) eqn:Hd; [reflexivity|].
      apply bool_decide_eq_false in Hd.
      destruct (Hin c Hc) as [Hcc|Hcc]; [exact Hcc|].
      exfalso. apply Hd. apply elem_of_app. left. exact Hcc.
    - apply list_elem_of_singleton in Hc as ->. rewrite Hat. reflexivity. }
  destruct (merge_loop_closing fuel inputs make_chan Hcl Hfuel)
    as (out & Hloop & _ & Hil).
  exists out. split; [|split; [exact Hil|]].
  - unfold Merge.RunMergeInputs. rewrite Prog_bind_unfold, Hloop. reflexivity.
  - intros Hnil. apply (Interleaving_single _ _ Hil).
    unfold inputs. rewrite Hnil. cbn. rewrite Hat. reflexivity.
Qed.

End Generator.

Lemma IPGen_Run_delivers_witness :
  let gh := IPGen.NewIPGen FP.empty_heap "gen" ["a.txt"; "b.txt"] in
  let g := fst gh in
  let h := snd (FP.NewFilePort (snd gh)) in
  let fa := {| FP.InChan := 0; FP.inChans := []; FP.outChans := [];
               FP.connected := false |} in
  let fb := {| FP.InChan := 1; FP.inChans := []; FP.outChans := [];
               FP.connected := false |} in
  let xs := [NewInformationPacket "a.txt"; NewInformationPacket "b.txt"] in
  FP.ports h !! IPGen.Out g = Some fa /\ FP.ports h !! 1 = Some fb
  /\ exists h' cs',
       Connect_ports (IPGen.Out g) 1 h = Ok h'
       /\ IPGen.Run h' g ∅ = Ok cs'
       /\ Wire.chan_at cs' 3 = {| items := xs; closes := true |}
       /\ Merge.RunMergeInputs 3 [Wire.chan_at cs' 3] make_chan
          = ({| items := xs; closes := true |}, Ok tt).
Proof.
  intros gh g h fa fb xs.
  assert (Ha : FP.ports h !! IPGen.Out g = Some fa) by (vm_compute; reflexivity).
  assert (Hb : FP.ports h !! 1 = Some fb) by (vm_compute; reflexivity).
  split; [exact Ha|]. split; [exact Hb|].
  destruct (IPGen_Run_delivers h g 1 fa fb ∅ 3 Ha Hb) as
    (h' & cs' & Hconn & _ & Hrun & _ & _ & Hat & Hmerge).
  - vm_compute. lia.
  - intros c Hc. inversion Hc.
  - split; [constructor|]. intros c Hc. inversion Hc.
  - intros c _. apply lookup_empty.
  - intros c Hc. inversion Hc.
  - exists h', cs'. split; [exact Hconn|]. split; [exact Hrun|].
    change (S (FP.chans h)) with 3 in Hat, Hmerge.
    split; [exact Hat|].
    cbv zeta in Hmerge.
    change (FP.inChans fb) with (@nil nat) in Hmerge. cbn [app map] in Hmerge.
    rewrite Hat in Hmerge.
    destruct (Hmerge ltac:(vm_compute; lia)) as (out & Hout & _ & Heq).
    rewrite (Heq eq_refl) in Hout. rewrite Hat. exact Hout.
Defined.

(** ** The string-to-byte component *)

Section Converter.
Import StrToByte.
Local Open Scope list_scope.

Lemma loop_forwards (lines : list string) (closed : bool) :
  forall st,
  loop lines closed st
  = ({| items := items st ++ map bytes_of lines; closes := closes st |},
     if closed then Ok tt else Blocked).
Proof.
  induction lines as [|line lines IH]; intros st.
  - cbn. rewrite app_nil_r. destruct st, closed; reflexivity.
  - cbn [loop]. rewrite Prog_bind_unfold. cbn [send]. rewrite IH. cbn.
    rewrite <- app_assoc. reflexivity.
Qed.

(** [Run] turns every line the channel [In] holds into its bytes and
    sends them on [Out] in the same order, none dropped and none added;
    the bytes read back as the line.  When [In] is closed, [Run] returns
    after the last line and closes [Out]; when it is not, [Run] does not
    return and [Out] stays open. *)
Theorem strToByte_Run (In : Chan string) (st : Chan (list Byte.byte)) :
  let out := map bytes_of (items In) in
  Run In st
  = (if closes In
     then ({| items := items st ++ out; closes := true |}, Ok tt)
     else ({| items := items st ++ out; closes := closes st |}, Blocked))
  /\ map string_of_list_byte out = items In
  /\ length out = length (items In).
Proof.
  intros out. split; [|split].
  - unfold Run. rewrite Prog_bind_unfold, loop_forwards.
    destruct (closes In); reflexivity.
  - unfold out. rewrite map_map. rewrite <- (map_id (items In)) at 2.
    apply map_ext. intros line. apply string_of_list_byte_of_string.
  - unfold out. apply length_map.
Qed.

End Converter.

(** ** The strings of [ConnectStr] *)

Section ParamFeed.
Import Wire.
Local Open Scope list_scope.

Lemma feed_sent (h : PP.Heap) (pp c : nat) (p : PP.ParamPort) (strings : list string) :
  PP.ports h !! pp = Some p -> PP.Chan p = Some c ->
  forall cs, closes (chan_at cs c) = false ->
  exists cs', feed h pp strings cs = Ok cs'
    /\ chan_at cs' c = {| items := items (chan_at cs c) ++ strings; closes := false |}
    /\ forall d, d <> c -> chan_at cs' d = chan_at cs d.
Proof.
  intros Hpp Hc. induction strings as [|s strings IH]; intros cs Hopen.
  - exists cs. split; [reflexivity|]. rewrite app_nil_r. split; [|auto].
    destruct (chan_at cs c) as [its cl]. cbn in Hopen. rewrite Hopen. reflexivity.
  - cbn [feed]. unfold ParamSend, PP.load. rewrite Hpp. cbn. rewrite Hc.
    unfold chan_send. rewrite Hopen. cbn.
    destruct (IH (<[c := {| items := items (chan_at cs c) ++ [s]; closes := false |}]> cs))
      as (cs' & -> & Hat & Hother).
    { rewrite chan_at_insert, decide_True by reflexivity. reflexivity. }
    exists cs'. split; [reflexivity|]. split.
    + rewrite Hat, chan_at_insert, decide_True by reflexivity. cbn.
      rewrite <- app_assoc. reflexivity.
    + intros d Hd. rewrite (Hother d Hd), chan_at_insert, decide_False by exact Hd.
      reflexivity.
Qed.

Lemma ParamRecvs_closed (h : PP.Heap) (pp c : nat) (p : PP.ParamPort) (xs : list string) :
  PP.ports h !! pp = Some p -> PP.Chan p = Some c ->
  forall cs k, chan_at cs c = {| items := xs; closes := true |} ->
  exists cs', ParamRecvs (length xs + k) h pp cs = Ok (xs ++ replicate k "", cs').
Proof.
  intros Hpp Hc. induction xs as [|x xs IH]; intros cs k Hat.
  - cbn [length Nat.add app]. revert cs Hat.
    induction k as [|k IHk]; intros cs Hat; [exists cs; reflexivity|].
    cbn [ParamRecvs]. unfold ParamRecv, PP.load. rewrite Hpp. cbn. rewrite Hc.
    unfold chan_recv, recv. rewrite Hat. cbn.
    destruct (IHk (<[c := {| items := []; closes := true |}]> cs)) as (cs' & ->).
    { rewrite chan_at_insert, decide_True by reflexivity. reflexivity. }
    exists cs'. reflexivity.
  - cbn [length Nat.add ParamRecvs]. unfold ParamRecv, PP.load. rewrite Hpp. cbn.
    rewrite Hc. unfold chan_recv, recv. rewrite Hat. cbn.
    destruct (IH (<[c := {| items := xs; closes := true |}]> cs) k) as (cs' & ->).
    { rewrite chan_at_insert, decide_True by reflexivity. reflexivity. }
    exists cs'. reflexivity.
Qed.

(** [ConnectStr] gives the port a new channel and marks it connected;
    its goroutine sends the strings on that channel, in order, and
    closes it.  So the first calls of [Recv] on the port return the
    strings, and every later call returns the empty string.  A port
    without channel does not have them: before [ConnectStr], [Recv] and
    [Send] on it never return and [Close] panics. *)
Theorem ConnectStr_delivers
    (h : PP.Heap) (pp : nat) (p0 : PP.ParamPort) (strings : list string)
    (cs : Chans string) :
  PP.ports h !! pp = Some p0 ->
  cs !! PP.chans h = None ->
  (PP.Chan p0 = None ->
   ParamRecv h pp cs = Blocked /\ ParamSend h pp "x" cs = Blocked
   /\ ParamClose h pp cs = Fatal close_of_nil)
  /\ exists h1 cs1,
       PP.ConnectStr pp h = Ok h1
       /\ PP.ports h1 !! pp = Some {| PP.Chan := Some (PP.chans h); PP.connected := true |}
       /\ PP.IsConnected pp h1 = true
       /\ ConnectStr_goroutine h1 pp strings cs = Ok cs1
       /\ chan_at cs1 (PP.chans h) = {| items := strings; closes := true |}
       /\ (forall d, d <> PP.chans h -> chan_at cs1 d = chan_at cs d)
       /\ forall k, exists cs2,
            ParamRecvs (length strings + k) h1 pp cs1
            = Ok (strings ++ replicate k "", cs2).
Proof.
  intros Hpp Hfresh. split.
  { intros Hnil. unfold ParamRecv, ParamSend, ParamClose, PP.load.
    rewrite Hpp. cbn. rewrite Hnil. auto. }
  set (c := PP.chans h) in *.
  set (h1 := {| PP.ports :=
                  <[pp := {| PP.Chan := Some c; PP.connected := true |}]>
                    (<[pp := {| PP.Chan := Some c; PP.connected := PP.connected p0 |}]>
                       (PP.ports h));
                PP.chans := S c |}).
  assert (Hconn : PP.ConnectStr pp h = Ok h1).
  { unfold PP.ConnectStr, PP.make, PP.set_Chan, PP.SetConnectedStatus, PP.update, PP.load.
    cbn. rewrite Hpp. cbn. rewrite lookup_insert_eq. reflexivity. }
  assert (Hpp1 : PP.ports h1 !! pp = Some {| PP.Chan := Some c; PP.connected := true |}).
  { cbn. apply lookup_insert_eq. }
  assert (Hopen : closes (chan_at cs c) = false).
  { unfold chan_at. rewrite Hfresh. reflexivity. }
  destruct (feed_sent h1 pp c _ strings Hpp1 eq_refl cs Hopen)
    as (cs' & Hfeed & Hat & Hother).
  set (cs1 := <[c := {| items := strings; closes := true |}]> cs').
  assert (Hrun : ConnectStr_goroutine h1 pp strings cs = Ok cs1).
  { unfold ConnectStr_goroutine. rewrite Hfeed. cbn.
    unfold ParamClose, PP.load. rewrite Hpp1. cbn. unfold chan_close.
    rewrite Hat. cbn. unfold chan_at at 1. rewrite Hfresh. reflexivity. }
  assert (Hat1 : chan_at cs1 c = {| items := strings; closes := true |}).
  { unfold cs1. rewrite chan_at_insert, decide_True by reflexivity. reflexivity. }
  exists h1, cs1. split; [exact Hconn|]. split; [exact Hpp1|].
  split; [unfold PP.IsConnected; rewrite Hpp1; reflexivity|].
  split; [exact Hrun|]. split; [exact Hat1|]. split.
  - intros d Hd. unfold cs1. rewrite chan_at_insert, decide_False by exact Hd.
    apply Hother. exact Hd.
  - intros k. exact (ParamRecvs_closed h1 pp c _ strings Hpp1 eq_refl cs1 k Hat1).
Qed.

End ParamFeed.

Lemma ConnectStr_delivers_witness :
  let h := snd (PP.NewParamPort PP.empty_heap) in
  PP.ports h !! 0 = Some {| PP.Chan := None; PP.connected := false |}
  /\ exists h1 cs1 cs2,
       PP.ConnectStr 0 h = Ok h1
       /\ Wire.ConnectStr_goroutine h1 0 ["a"; "b"] ∅ = Ok cs1
       /\ Wire.ParamRecvs 3 h1 0 cs1 = Ok (["a"; "b"; ""], cs2).
Proof.
  intros h.
  assert (Hpp : PP.ports h !! 0 = Some {| PP.Chan := None; PP.connected := false |})
    by (vm_compute; reflexivity).
  split; [exact Hpp|].
  destruct (proj2 (ConnectStr_delivers h 0 _ ["a"; "b"] ∅ Hpp (lookup_empty _)))
    as (h1 & cs1 & Hconn & _ & _ & Hrun & _ & _ & Hrecv).
  destruct (Hrecv 1) as (cs2 & Hcs2).
  exists h1, cs1, cs2. split; [exact Hconn|]. split; [exact Hrun|exact Hcs2].
Defined.

(** ** Atomizing a packet *)

Section AtomizeFacts.
Context `{GoEnv}.
Import Task.
Local Open Scope list_scope.

Lemma Atomize_absent (fuel : nat) (ip : InformationPacket) (w : World) :
  TempFileExists (files w) ip = false ->
  Atomize (S fuel) ip w
  = Atomize fuel ip {| files := tick (files w); trace := trace w ++ [EvSleep] |}.
Proof.
  intros Hn. cbn [Atomize]. unfold mbind, Prog_bind, getFS. rewrite Hn.
  reflexivity.
Qed.

Lemma ticks_S (k : nat) (fs : FS) : ticks (S k) fs = ticks k (tick fs).
Proof. unfold ticks. apply Nat.iter_succ_r. Qed.

Lemma temp_not_final (ip : InformationPacket) : GetTempPath ip <> path ip.
Proof.
  unfold GetTempPath. intros Heq. apply (f_equal String.length) in Heq.
  rewrite string_length_app in Heq. cbn in Heq. lia.
Qed.

Lemma Atomize_waits (k : nat) : forall (fuel : nat) (ip : InformationPacket) (w : World) n,
  (forall j, j < k -> TempFileExists (ticks j (files w)) ip = false) ->
  ticks k (files w) !! GetTempPath ip = Some n ->
  k < fuel ->
  Atomize fuel ip w
  = ({| files := <[path ip := n]> (delete (GetTempPath ip) (ticks k (files w)));
        trace := trace w ++ replicate k EvSleep
                 ++ [EvRename (GetTempPath ip) (path ip)] |}, Ok tt).
Proof.
  induction k as [|k IH]; intros fuel ip w n Hwait Hthere Hfuel;
    (destruct fuel as [|fuel]; [lia|]).
  - apply (Atomize_present fuel ip w n). exact Hthere.
  - rewrite Atomize_absent by (apply (Hwait 0); lia).
    rewrite (IH fuel ip _ n).
    + cbn [files trace]. rewrite <- ticks_S. f_equal. f_equal.
      rewrite <- !app_assoc. reflexivity.
    + intros j Hj. cbn [files]. rewrite <- ticks_S. apply Hwait. lia.
    + cbn [files]. rewrite <- ticks_S. exact Hthere.
    + lia.
Qed.

Lemma Atomize_never (fuel : nat) : forall (ip : InformationPacket) (w : World),
  (forall j, TempFileExists (ticks j (files w)) ip = false) ->
  Atomize fuel ip w
  = ({| files := ticks fuel (files w); trace := trace w ++ replicate fuel EvSleep |},
     Unfinished).
Proof.
  induction fuel as [|fuel IH]; intros ip w Hnever.
  - cbn. rewrite app_nil_r. destruct w; reflexivity.
  - rewrite Atomize_absent by (apply (Hnever 0)).
    rewrite IH.
    + cbn [files trace]. rewrite <- ticks_S. f_equal. f_equal.
      rewrite <- app_assoc. reflexivity.
    + intros j. cbn [files]. rewrite <- ticks_S. apply Hnever.
Qed.

(** [Atomize] looks for the temp file once a second.  When the file is
    first there after [k] sleeps, [Atomize] sleeps [k] times and then
    renames it: the final path holds what the temp path held, an older
    final file is replaced, and the temp path is free.  While the temp
    file does not appear [Atomize] does not return: whatever the number
    of rounds the loop is followed for, it has slept in every one of
    them and is still running. *)
Theorem Atomize_retries (ip : InformationPacket) (w : World) :
  (forall k fuel n,
     (forall j, j < k -> TempFileExists (ticks j (files w)) ip = false) ->
     ticks k (files w) !! GetTempPath ip = Some n ->
     k < fuel ->
     let w' := fst (Atomize fuel ip w) in
     snd (Atomize fuel ip w) = Ok tt
     /\ trace w' = trace w ++ replicate k EvSleep
                   ++ [EvRename (GetTempPath ip) (path ip)]
     /\ files w' !! path ip = Some n
     /\ TempFileExists (files w') ip = false
     /\ (forall q, q <> path ip -> q <> GetTempPath ip ->
                   files w' !! q = ticks k (files w) !! q))
  /\ ((forall j, TempFileExists (ticks j (files w)) ip = false) ->
      forall fuel,
        Atomize fuel ip w
        = ({| files := ticks fuel (files w);
              trace := trace w ++ replicate fuel EvSleep |}, Unfinished)).
Proof.
  split.
  - intros k fuel n Hwait Hthere Hfuel.
    rewrite (Atomize_waits k fuel ip w n Hwait Hthere Hfuel). cbn.
    split; [reflexivity|]. split; [reflexivity|].
    split; [apply lookup_insert_eq|]. split.
    + unfold TempFileExists, os_Stat.
      rewrite lookup_insert_ne by (intros Heq; exact (temp_not_final ip (eq_sym Heq))).
      rewrite lookup_delete_eq. reflexivity.
    + intros q Hq Hq'. rewrite lookup_insert_ne by congruence.
      apply lookup_delete_ne. congruence.
  - intros Hnever fuel. apply Atomize_never. exact Hnever.
Qed.

End AtomizeFacts.

Lemma Atomize_retries_witness :
  let ip := NewFileTarget "out.txt" in
  let w := {| Task.files := ∅; Task.trace := [] |} in
  let w' := fst (@Task.Atomize late_env 2 ip w) in
  (forall j, j < 1 -> TempFileExists (@ticks late_env j (Task.files w)) ip = false)
  /\ snd (@Task.Atomize late_env 2 ip w) = Ok tt
  /\ Task.trace w' = [Task.EvSleep; Task.EvRename "out.txt.tmp" "out.txt"]
  /\ Task.files w' !! "out.txt" = Some (Readable "hello")
  /\ TempFileExists (Task.files w') ip = false.
Proof.
  intros ip w w'.
  assert (Hwait : forall j, j < 1 ->
            TempFileExists (@ticks late_env j (Task.files w)) ip = false).
  { intros j Hj. assert (j = 0) as -> by lia. reflexivity. }
  split; [exact Hwait|].
  destruct (proj1 (@Atomize_retries late_env ip w) 1 2 (Readable "hello") Hwait
              ltac:(vm_compute; reflexivity) ltac:(lia))
    as (Hok & Htr & Hfile & Htmp & _).
  split; [exact Hok|]. split; [exact Htr|]. split; [exact Hfile|exact Htmp].
Defined.

(** ** Writing a packet through its temp file *)

Section WriteRead.
Context `{GoEnv}.
Import Task.
Local Open Scope list_scope.

(** The bytes written with [WriteTempFile] and atomized are the bytes
    [Read] returns.  The write goes to the temp path and leaves the
    final path as it is; [Atomize] then finds the temp file at once and
    renames it, without a sleep; after it [Read] returns the bytes
    written, the temp path is free, and no other path has changed.  A
    temp path the process has no access to makes [WriteTempFile]
    fatal. *)
Theorem WriteTempFile_Atomize_Read
    (fs : FS) (ip : InformationPacket) (dat : string) (fuel : nat) :
  (fs !! GetTempPath ip <> Some Unreadable ->
   exists fs1,
     WriteTempFile fs ip dat = Ok fs1
     /\ TempFileExists fs1 ip = true
     /\ Read fs1 ip = Read fs ip
     /\ let r := Atomize (S fuel) ip {| files := fs1; trace := [] |} in
        snd r = Ok tt
        /\ trace (fst r) = [EvRename (GetTempPath ip) (path ip)]
        /\ Read (files (fst r)) ip = Ok dat
        /\ TempFileExists (files (fst r)) ip = false
        /\ forall q, q <> path ip -> q <> GetTempPath ip ->
                     files (fst r) !! q = fs !! q)
  /\ (fs !! GetTempPath ip = Some Unreadable ->
      is_Fatal (WriteTempFile fs ip dat) = true).
Proof.
  split.
  - intros Hacc.
    assert (Hw : ioutil_WriteFile fs (GetTempPath ip) dat
                 = inl (<[GetTempPath ip := Readable dat]> fs)).
    { unfold ioutil_WriteFile.
      destruct (fs !! GetTempPath ip) as [[d|]|]; try reflexivity. contradiction. }
    exists (<[GetTempPath ip := Readable dat]> fs).
    split; [unfold WriteTempFile; rewrite Hw; reflexivity|].
    split; [unfold TempFileExists, os_Stat; rewrite lookup_insert_eq; reflexivity|].
    split.
    { unfold Read, ioutil_ReadFile, GetPath.
      rewrite lookup_insert_ne by apply temp_not_final. reflexivity. }
    rewrite (Atomize_present fuel ip _ (Readable dat)) by apply lookup_insert_eq.
    cbn. split; [reflexivity|]. split; [reflexivity|].
    split; [|split].
    + unfold Read, ioutil_ReadFile, GetPath. rewrite lookup_insert_eq. reflexivity.
    + unfold TempFileExists, os_Stat.
      rewrite lookup_insert_ne by (intros Heq; exact (temp_not_final ip (eq_sym Heq))).
      rewrite lookup_delete_eq. reflexivity.
    + intros q Hq Hq'. rewrite lookup_insert_ne by congruence.
      rewrite lookup_delete_ne by congruence.
      apply lookup_insert_ne. congruence.
  - intros Hun. unfold WriteTempFile, ioutil_WriteFile. rewrite Hun. reflexivity.
Qed.

End WriteRead.

Lemma WriteTempFile_Atomize_Read_witness :
  let ip := NewInformationPacket "a.txt" in
  let fs : FS := {[ "a.txt" := Readable "old" ]} in
  fs !! GetTempPath ip <> Some Unreadable
  /\ exists fs1,
       WriteTempFile fs ip "new" = Ok fs1
       /\ Read fs1 ip = Ok "old"
       /\ Read (Task.files (fst (@Task.Atomize sorted_env 1 ip
                                   {| Task.files := fs1; Task.trace := [] |}))) ip
          = Ok "new".
Proof.
  intros ip fs.
  assert (Hacc : fs !! GetTempPath ip <> Some Unreadable)
    by (vm_compute; discriminate).
  split; [exact Hacc|].
  destruct (proj1 (@WriteTempFile_Atomize_Read sorted_env fs ip "new" 0) Hacc)
    as (fs1 & Hw & _ & Hr & _ & _ & Hread & _).
  exists fs1. split; [exact Hw|]. split; [rewrite Hr; reflexivity|exact Hread].
Defined.

(** ** The FIFOs of a task *)

Section Fifos.
Context `{GoEnv}.
Import Task.
Local Open Scope list_scope.

Lemma CreateFifo_made (fs fs' : FS) (ip : InformationPacket) :
  mkfifo_makes (GetFifoPath ip) -> CreateFifo fs ip = Ok fs' ->
  forall q, os_Stat fs' q = true <-> os_Stat fs q = true \/ q = GetFifoPath ip.
Proof.
  intros Hmk. unfold CreateFifo.
  destruct (os_Stat fs (GetFifoPath ip)) eqn:Hex.
  - intros [= <-] q. split; [auto|]. intros [Hq| ->]; [exact Hq|exact Hex].
  - destruct (bash _ fs) as [fs1|e] eqn:Hb; [|discriminate].
    intros [= <-] q. rewrite (Hmk _ _ Hb q).
    destruct (decide (q = GetFifoPath ip)) as [->|Hne].
    + split; auto.
    + split; [auto|]. intros [Hq|Hq]; [exact Hq|contradiction].
Qed.

Lemma createFifos_loop_made (l : list (string * FileTarget)) : forall fs fs',
  (forall x, x ∈ l -> doStream x.2 = true -> mkfifo_makes (GetFifoPath x.2)) ->
  createFifos_loop l fs = Ok fs' ->
  forall q, os_Stat fs' q = true
            <-> os_Stat fs q = true
                \/ exists x, x ∈ l /\ doStream x.2 = true /\ q = GetFifoPath x.2.
Proof.
  induction l as [|[name tgt] l IH]; intros fs fs' Hmk Hloop q.
  - cbn in Hloop. injection Hloop as <-. split; [auto|].
    intros [Hq|(x & Hx & _)]; [exact Hq|inversion Hx].
  - cbn [createFifos_loop] in Hloop.
    destruct (doStream tgt) eqn:Hs.
    + destruct (CreateFifo fs tgt) as [fs1| | |] eqn:Hc; try discriminate Hloop.
      cbn in Hloop.
      rewrite (IH fs1 fs' (fun x Hx => Hmk x (list_elem_of_further _ _ _ Hx)) Hloop q).
      rewrite (CreateFifo_made fs fs1 tgt (Hmk (name, tgt) (list_elem_of_here _ _) Hs) Hc q).
      split.
      * intros [[Hq| ->]|(x & Hx & Hxs & ->)]; [auto| |].
        -- right. exists (name, tgt). split; [left|auto].
        -- right. exists x. split; [right; exact Hx|auto].
      * intros [Hq|(x & Hx & Hxs & ->)]; [auto|].
        apply elem_of_cons in Hx as [->|Hx]; [auto|].
        right. exists x. auto.
    + cbn in Hloop.
      rewrite (IH fs fs' (fun x Hx => Hmk x (list_elem_of_further _ _ _ Hx)) Hloop q).
      split.
      * intros [Hq|(x & Hx & Hxs & ->)]; [auto|].
        right. exists x. split; [right; exact Hx|auto].
      * intros [Hq|(x & Hx & Hxs & ->)]; [auto|].
        apply elem_of_cons in Hx as [->|Hx]; [cbn in Hxs; congruence|].
        right. exists x. auto.
Qed.

Lemma createFifos_loop_idle (l : list (string * FileTarget)) (fs : FS) :
  (forall x, x ∈ l -> doStream x.2 = true -> os_Stat fs (GetFifoPath x.2) = true) ->
  createFifos_loop l fs = Ok fs.
Proof.
  induction l as [|[name tgt] l IH]; intros Hall; [reflexivity|].
  cbn [createFifos_loop].
  destruct (doStream tgt) eqn:Hs.
  - assert (Hex : os_Stat fs (GetFifoPath tgt) = true)
      by (apply (Hall (name, tgt)); [left|exact Hs]).
    unfold CreateFifo. rewrite Hex. cbn.
    apply IH. intros x Hx. apply Hall. right. exact Hx.
  - cbn. apply IH. intros x Hx. apply Hall. right. exact Hx.
Qed.

(** [createFifos] gets a task past the FIFO check of [Execute].  When
    [mkfifo] makes the FIFO of each streaming out-target of the task it
    is asked for (the paths go to the shell unquoted), after
    [createFifos] has returned no FIFO of a streaming out-target of the
    task is missing, and the files on disk are the ones that were there
    and these FIFOs.  [CreateFifo] runs no command for a FIFO that is on
    disk, so for a task without streaming out-target, or with all its
    FIFOs present, [createFifos] leaves the file system as it is. *)
Theorem createFifos_prepares (fs : FS) (t : ShellTask) :
  (mkfifo_makes_fifos t ->
   forall fs', createFifos fs t = Ok fs' ->
     fifosInOutTargetsMissing fs' t = false
     /\ forall q, os_Stat fs' q = true
          <-> os_Stat fs q = true
              \/ exists name tgt, OutTargets t !! name = Some tgt
                   /\ doStream tgt = true /\ q = GetFifoPath tgt)
  /\ (fifosInOutTargetsMissing fs t = false -> createFifos fs t = Ok fs)
  /\ (forall ip, os_Stat fs (GetFifoPath ip) = true -> CreateFifo fs ip = Ok fs).
Proof.
  split; [|split].
  - intros Hmk fs' Hc. unfold createFifos in Hc.
    assert (Hmk' : forall x, x ∈ range site_createFifos (OutTargets t) ->
              doStream x.2 = true -> mkfifo_makes (GetFifoPath x.2)).
    { intros [name tgt] Hx Hxs. apply elem_of_range in Hx. exact (Hmk name tgt Hx Hxs). }
    pose proof (createFifos_loop_made _ fs fs' Hmk' Hc) as Hq.
    assert (Hchar : forall q, os_Stat fs' q = true
              <-> os_Stat fs q = true
                  \/ exists name tgt, OutTargets t !! name = Some tgt
                       /\ doStream tgt = true /\ q = GetFifoPath tgt).
    { intros q. rewrite (Hq q). split.
      - intros [Hs|([name tgt] & Hx & Hxs & ->)]; [auto|].
        right. exists name, tgt. apply elem_of_range in Hx. auto.
      - intros [Hs|(name & tgt & Hx & Hxs & ->)]; [auto|].
        right. exists (name, tgt). split; [apply elem_of_range; exact Hx|auto]. }
    split; [|exact Hchar].
    destruct (fifosInOutTargetsMissing fs' t) eqn:Hm; [|reflexivity].
    apply fifosInOutTargetsMissing_iff in Hm as (name & tgt & Hx & Hxs & Hno).
    assert (Hyes : os_Stat fs' (GetFifoPath tgt) = true).
    { apply Hchar. right. exists name, tgt. auto. }
    congruence.
  - intros Hm. unfold createFifos. apply createFifos_loop_idle.
    intros [name tgt] Hx Hxs. apply elem_of_range in Hx. cbn in *.
    destruct (os_Stat fs (GetFifoPath tgt)) eqn:Hs; [reflexivity|].
    assert (Hmiss : fifosInOutTargetsMissing fs t = true).
    { apply fifosInOutTargetsMissing_iff. exists name, tgt. auto. }
    congruence.
  - intros ip Hex. unfold CreateFifo. rewrite Hex. reflexivity.
Qed.

End Fifos.

Lemma createFifos_prepares_witness :
  let t : Task.ShellTask :=
    {| Task.data := {| Task.InTargets := ∅;
                       Task.OutTargets :=
                         {[ "out" := {| path := "s"; doStream := true;
                                        auditInfo := None |} ]};
                       Task.Params := ∅; Task.Command := "gen > s.fifo" |};
       Task.CustomExecute := None |} in
  @mkfifo_makes_fifos mkfifo_env t
  /\ @Task.createFifos mkfifo_env ∅ t = Ok {[ "s.fifo" := Readable "" ]}
  /\ @Task.fifosInOutTargetsMissing mkfifo_env {[ "s.fifo" := Readable "" ]} t = false.
Proof.
  intros t.
  assert (Hmk : @mkfifo_makes_fifos mkfifo_env t).
  { intros name tgt _ _ fs fs' Hb q. cbv [bash mkfifo_env String.append] in Hb.
    injection Hb as <-. unfold os_Stat.
    destruct (decide (q = GetFifoPath tgt)) as [->|Hne].
    - rewrite lookup_insert_eq. reflexivity.
    - rewrite lookup_insert_ne by congruence. reflexivity. }
  assert (Hc : @Task.createFifos mkfifo_env ∅ t = Ok {[ "s.fifo" := Readable "" ]})
    by (vm_compute; reflexivity).
  split; [exact Hmk|]. split; [exact Hc|].
  exact (proj1 (proj1 (@createFifos_prepares mkfifo_env ∅ t) Hmk _ Hc)).
Defined.

(** The path of a FIFO goes to the shell unquoted: with a blank in the
    path, [mkfifo] makes other files than the FIFO, [createFifos]
    returns all the same, and the FIFO of the task is still missing. *)
Example createFifos_unquoted_path :
  let t : Task.ShellTask :=
    {| Task.data := {| Task.InTargets := ∅;
                       Task.OutTargets :=
                         {[ "out" := {| path := "my s"; doStream := true;
                                        auditInfo := None |} ]};
                       Task.Params := ∅; Task.Command := "gen" |};
       Task.CustomExecute := None |} in
  let fs' : FS := {[ "my" := Readable ""; "s.fifo" := Readable "" ]} in
  @Task.createFifos split_env ∅ t = Ok fs'
  /\ @Task.fifosInOutTargetsMissing split_env fs' t = true
  /\ ~ @mkfifo_makes_fifos split_env t.
Proof.
  intros t fs'.
  assert (Hc : @Task.createFifos split_env ∅ t = Ok fs') by (vm_compute; reflexivity).
  assert (Hm : @Task.fifosInOutTargetsMissing split_env fs' t = true)
    by (vm_compute; reflexivity).
  split; [exact Hc|]. split; [exact Hm|].
  intros Hmk.
  assert (Hb : @bash split_env ("mkfifo " ++ "my s.fifo") (∅ : FS) = inl fs')
    by (vm_compute; reflexivity).
  pose proof (Hmk "out" {| path := "my s"; doStream := true; auditInfo := None |}
                ltac:(vm_compute; reflexivity) eq_refl (∅ : FS) fs' Hb "my") as Hq.
  vm_compute in Hq. discriminate Hq.
Qed.

(** ** Writing the audit record and reading it back *)

Section AuditRoundTrip.
Context (unmarshal : string -> Audit.AuditInfo -> Audit.AuditInfo + error).
Context (marshal : Audit.AuditInfo -> string + error).

(** The record [WriteAuditLogToFile] writes is the record a new packet
    for the same path reads, when the JSON of the record decodes to the
    record: the call writes the audit file of the packet and nothing
    else, and [GetAuditInfo] of a packet of this path that holds no
    record yet returns the record written, with the same parameters and
    keys.  A record that cannot be encoded, or an audit file that cannot
    be written, is fatal. *)
Theorem audit_write_read
    (fs : FS) (ip ip1 : InformationPacket) (ai : Audit.AuditInfo) (js : string) :
  GetAuditInfo unmarshal fs ip = Ok (ip1, ai) ->
  (marshal ai = inl js ->
   unmarshal js Audit.NewAuditInfo = inl ai ->
   fs !! GetAuditFilePath ip <> Some Unreadable ->
   let fs' := <[GetAuditFilePath ip := Readable js]> fs in
   WriteAuditLogToFile unmarshal marshal fs ip = Ok (ip1, fs')
   /\ (forall ip', path ip' = path ip -> auditInfo ip' = None ->
         exists ip2, GetAuditInfo unmarshal fs' ip' = Ok (ip2, ai)
                     /\ auditInfo ip2 = Some ai)
   /\ (forall q, q <> GetAuditFilePath ip -> fs' !! q = fs !! q))
  /\ ((exists e, marshal ai = inr e) ->
      is_Fatal (WriteAuditLogToFile unmarshal marshal fs ip) = true)
  /\ (fs !! GetAuditFilePath ip = Some Unreadable -> marshal ai = inl js ->
      is_Fatal (WriteAuditLogToFile unmarshal marshal fs ip) = true).
Proof.
  intros Hget. pose proof (GetAuditInfo_Ok unmarshal fs ip ip1 ai Hget) as Hip1.
  assert (Hpath : GetAuditFilePath ip1 = GetAuditFilePath ip) by (subst ip1; reflexivity).
  split; [|split].
  - intros Hm Hum Hacc fs'.
    split; [|split].
    + unfold WriteAuditLogToFile. rewrite Hget. cbn. rewrite Hm, Hpath.
      unfold ioutil_WriteFile.
      destruct (fs !! GetAuditFilePath ip) as [[d|]|]; try reflexivity. contradiction.
    + intros ip' Hp Hnone. unfold GetAuditInfo. rewrite Hnone.
      assert (Hfile : GetAuditFilePath ip' = GetAuditFilePath ip)
        by (unfold GetAuditFilePath, GetPath; rewrite Hp; reflexivity).
      rewrite Hfile. unfold ioutil_ReadFile, fs'. rewrite lookup_insert_eq, Hum.
      eexists. split; reflexivity.
    + intros q Hq. unfold fs'. apply lookup_insert_ne. congruence.
  - intros [e He]. unfold WriteAuditLogToFile. rewrite Hget. cbn. rewrite He.
    reflexivity.
  - intros Hun Hm. unfold WriteAuditLogToFile. rewrite Hget. cbn.
    rewrite Hm, Hpath. unfold ioutil_WriteFile. rewrite Hun. reflexivity.
Qed.

End AuditRoundTrip.

Lemma audit_write_read_witness :
  let um : string -> Audit.AuditInfo -> Audit.AuditInfo + error :=
    fun js ai => if String.eqb js "k=v"
                 then inl {| Audit.Params := Audit.Params ai;
                             Audit.KeysMap := Some (<["k" := "v"]> (Audit.Keys ai)) |}
                 else inl ai in
  let ms : Audit.AuditInfo -> string + error :=
    fun ai => match Audit.Keys ai !! "k" with
              | Some "v" => inl "k=v"
              | _ => inl ""
              end in
  let ai := {| Audit.Params := ∅; Audit.KeysMap := Some {[ "k" := "v" ]} |} in
  let ip := SetAuditInfo (NewInformationPacket "a.txt") (Some ai) in
  ms ai = inl "k=v" /\ um "k=v" Audit.NewAuditInfo = inl ai
  /\ WriteAuditLogToFile um ms ∅ ip = Ok (ip, {[ "a.txt.audit.json" := Readable "k=v" ]})
  /\ exists ip2,
       GetAuditInfo um {[ "a.txt.audit.json" := Readable "k=v" ]}
         (NewInformationPacket "a.txt") = Ok (ip2, ai).
Proof.
  intros um ms ai ip.
  assert (Hget : GetAuditInfo um ∅ ip = Ok (ip, ai)) by reflexivity.
  assert (Hm : ms ai = inl "k=v") by (vm_compute; reflexivity).
  assert (Hum : um "k=v" Audit.NewAuditInfo = inl ai) by reflexivity.
  assert (Hacc : (∅ : FS) !! GetAuditFilePath ip <> Some Unreadable)
    by (rewrite lookup_empty; discriminate).
  destruct (proj1 (audit_write_read um ms ∅ ip ip ai "k=v" Hget) Hm Hum Hacc)
    as (Hw & Hr & _).
  split; [exact Hm|]. split; [exact Hum|]. split; [exact Hw|].
  destruct (Hr (NewInformationPacket "a.txt") eq_refl eq_refl) as (ip2 & Hip2 & _).
  exists ip2. exact Hip2.
Defined.
